(** * DDX3216 Cathedral Reverb: a shallow embedding of the audio engine

    The engine of [PluginProcessor.h] / [PluginProcessor.cpp] is embedded
    with samples as real numbers ([float] arithmetic is read over [R], so
    rounding is outside the model), C++ [int]s as [Z], [std::vector<float>]
    and raw sample arrays as [list R], and every [for] loop as an explicit
    iteration of its body.  The function-local [static float prevSample] of
    [processBlock] lives in a record of its own, [Statics], that is shared by
    all processor instances of one process. *)

From Stdlib Require Import String.
From Stdlib Require Import Reals ZArith List Lia Lra Bool ZifyBool.
Import ListNotations.

Open Scope Z_scope.
Open Scope R_scope.

(** ** Raw arrays and loops *)

(** [a[i]] on a raw array, a [std::vector] or a [std::array].  An access
    outside the array is undefined behaviour in C++; the model reads a
    default value there and ignores the write, and the theorems below state
    the bounds they need. *)
Definition rdA {A : Type} (dflt : A) (a : list A) (i : Z) : A :=
  if (i <? 0)%Z then dflt else nth (Z.to_nat i) a dflt.

Fixpoint updA {A : Type} (a : list A) (n : nat) (v : A) : list A :=
  match a, n with
  | [], _ => []
  | _ :: t, O => v :: t
  | x :: t, S n' => x :: updA t n' v
  end.

Definition wr {A : Type} (a : list A) (i : Z) (v : A) : list A :=
  if (i <? 0)%Z then a else updA a (Z.to_nat i) v.

(** Reading a sample. *)
Notation rd := (rdA 0%R).

(** [std::fill (v.begin(), v.end(), 0.0f)] after [v.resize (n)]. *)
Definition zeros (n : Z) : list R := repeat 0 (Z.to_nat n).

Definition lenZ {A : Type} (a : list A) : Z := Z.of_nat (length a).

(** [for (i = start; ...; i += step) body], run for [n] iterations. *)
Fixpoint for_loop {St : Type} (n : nat) (i step : Z)
    (body : Z -> St -> St) (s : St) : St :=
  match n with
  | O => s
  | S n' => for_loop n' (i + step)%Z step body (body i s)
  end.

(** [for (int i = lo; i < hi; ++i) body]. *)
Definition for_range {St : Type} (lo hi : Z) (body : Z -> St -> St) (s : St) : St :=
  for_loop (Z.to_nat (hi - lo)) lo 1 body s.

(** ** The JUCE helpers the engine calls *)

Module juce.

(** [juce::jlimit (lo, hi, v)]: [v < lo ? lo : (hi < v ? hi : v)]. *)
Definition jlimit (lo hi v : R) : R :=
  if Rlt_dec v lo then lo else if Rlt_dec hi v then hi else v.

Definition jlimitZ (lo hi v : Z) : Z :=
  if (v <? lo)%Z then lo else if (hi <? v)%Z then hi else v.

Definition jmin (a b : Z) : Z := if (b <? a)%Z then b else a.

(** [juce::jmap (v, srcMin, srcMax, dstMin, dstMax)]. *)
Definition jmap (v sMin sMax tMin tMax : R) : R :=
  tMin + ((tMax - tMin) * (v - sMin)) / (sMax - sMin).

Definition twoPi : R := 2 * PI.

(** [std::pow (b, e)] for a positive base. *)
Definition pow (b e : R) : R := Rpower b e.

(** [juce::Decibels::decibelsToGain (dB)], with its default floor of -100 dB. *)
Definition decibelsToGain (dB : R) : R :=
  if Rlt_dec (-100) dB then pow 10 (dB * 0.05) else 0.

(** [static_cast<int>] of a floating value: truncation towards zero. *)
Definition static_cast_int (x : R) : Z :=
  if Rlt_dec x 0 then (- Int_part (- x))%Z else Int_part x.

(** [juce::FloatVectorOperations]: each works on the first [n] samples. *)
Module FloatVectorOperations.

Definition copy (dest src : list R) (n : Z) : list R :=
  for_range 0 n (fun i d => wr d i (rd src i)) dest.

Definition add (dest src : list R) (n : Z) : list R :=
  for_range 0 n (fun i d => wr d i (rd d i + rd src i)) dest.

Definition multiply (dest : list R) (k : R) (n : Z) : list R :=
  for_range 0 n (fun i d => wr d i (rd d i * k)) dest.

Definition addWithMultiply (dest src : list R) (k : R) (n : Z) : list R :=
  for_range 0 n (fun i d => wr d i (rd d i + rd src i * k)) dest.

Definition clear (dest : list R) (n : Z) : list R :=
  for_range 0 n (fun i d => wr d i 0) dest.

End FloatVectorOperations.

(** [juce::dsp::SIMDRegister<float>]: a register is the list of its lanes. *)
Module SIMD.

Definition reg := list R.

Fixpoint zip (f : R -> R -> R) (a b : reg) : reg :=
  match a, b with
  | x :: a', y :: b' => f x y :: zip f a' b'
  | _, _ => []
  end.

(** [fromRawArray (p + off)] for a register of [w] lanes. *)
Definition fromRawArray (w : Z) (a : list R) (off : Z) : reg :=
  map (fun j => rd a (off + Z.of_nat j)) (seq 0 (Z.to_nat w)).

(** [copyToRawArray (p + off)]. *)
Definition copyToRawArray (v : reg) (a : list R) (off : Z) : list R :=
  for_range 0 (lenZ v) (fun j d => wr d (off + j) (rd v j)) a.

Definition splat (w : Z) (x : R) : reg := repeat x (Z.to_nat w).
Definition vadd : reg -> reg -> reg := zip Rplus.
Definition vmul : reg -> reg -> reg := zip Rmult.
Definition scale (v : reg) (k : R) : reg := map (fun x => x * k) v.

End SIMD.

End juce.

(** The source of a filter's input samples.  [processBlock] hands the comb
    filters an input array distinct from the output array, and the allpass
    filters the same pointer for both. *)
Inductive InputRef :=
| Distinct (samples : list R)
| SameAsOutput.

Definition rdIn (r : InputRef) (output : list R) (i : Z) : R :=
  match r with
  | Distinct inp => rd inp i
  | SameAsOutput => rd output i
  end.

Definition arrIn (r : InputRef) (output : list R) : list R :=
  match r with
  | Distinct inp => inp
  | SameAsOutput => output
  end.

(** ** SharcCombFilter *)

Module SharcCombFilter.

Record t := mk {
  delayLine : list R;
  delaySamples : Z;
  writeIndex : Z;
  feedbackGain : R;
  dampingCoeff : R;
  filterState : R;
  sRate : R;
  prepared : bool
}.

(** The member initialisers of the class. *)
Definition default : t :=
  {| delayLine := []; delaySamples := 1000; writeIndex := 0;
     feedbackGain := 0.7; dampingCoeff := 0.5; filterState := 0;
     sRate := 48000; prepared := false |}.

Definition prepare (f : t) (sRate' : R) (maxDelaySamples : Z)
    (initialGain dampingFreq : R) : t :=
  {| delayLine := zeros maxDelaySamples;
     writeIndex := 0;
     delaySamples := juce.jlimitZ 1 maxDelaySamples maxDelaySamples;
     feedbackGain := initialGain;
     sRate := sRate';
     dampingCoeff := exp (- juce.twoPi * dampingFreq / sRate');
     filterState := 0;
     prepared := true |}.

Definition setDelaySamples (f : t) (newDelay : Z) : t :=
  {| delayLine := delayLine f;
     delaySamples := juce.jlimitZ 1 (lenZ (delayLine f)) newDelay;
     writeIndex := writeIndex f; feedbackGain := feedbackGain f;
     dampingCoeff := dampingCoeff f; filterState := filterState f;
     sRate := sRate f; prepared := prepared f |}.

Definition setGain (f : t) (newGain : R) : t :=
  {| delayLine := delayLine f; delaySamples := delaySamples f;
     writeIndex := writeIndex f;
     feedbackGain := juce.jlimit 0 0.99 newGain;
     dampingCoeff := dampingCoeff f; filterState := filterState f;
     sRate := sRate f; prepared := prepared f |}.

Definition setDampingFreq (f : t) (freq : R) : t :=
  {| delayLine := delayLine f; delaySamples := delaySamples f;
     writeIndex := writeIndex f; feedbackGain := feedbackGain f;
     dampingCoeff := exp (- juce.twoPi * freq / sRate f);
     filterState := filterState f;
     sRate := sRate f; prepared := prepared f |}.

Definition reset (f : t) : t :=
  {| delayLine := zeros (lenZ (delayLine f)); delaySamples := delaySamples f;
     writeIndex := 0; feedbackGain := feedbackGain f;
     dampingCoeff := dampingCoeff f; filterState := 0;
     sRate := sRate f; prepared := prepared f |}.

(** The local variables a processing loop carries, and the output array. *)
Record locals := mkLocals {
  buffer : list R;
  idx : Z;
  flt : R;
  output : list R
}.

(** One iteration of the scalar loop (also the scalar tail of the SIMD
    version). *)
Definition scalarBody (input : InputRef) (len : Z) (g damp : R)
    (i : Z) (s : locals) : locals :=
  let delayed := rd (buffer s) (idx s) in
  let flt' := delayed + damp * (flt s - delayed) in
  let newSample := rdIn input (output s) i + g * flt' in
  let buffer' := wr (buffer s) (idx s) newSample in
  let output' := wr (output s) i newSample in
  let idx' := if (idx s + 1 >=? len)%Z then 0%Z else (idx s + 1)%Z in
  mkLocals buffer' idx' flt' output'.

Definition finish (f : t) (s : locals) : t * list R :=
  ({| delayLine := buffer s; delaySamples := delaySamples f;
      writeIndex := idx s; feedbackGain := feedbackGain f;
      dampingCoeff := dampingCoeff f; filterState := flt s;
      sRate := sRate f; prepared := prepared f |}, output s).

Definition start (f : t) (output : list R) : locals :=
  mkLocals (delayLine f) (writeIndex f) (filterState f) output.

Definition processBlockScalar (f : t) (input : InputRef) (output : list R)
    (numSamples : Z) : t * list R :=
  if negb (prepared f) then (f, output) else
  let len := delaySamples f in
  let g := feedbackGain f in
  let damp := dampingCoeff f in
  finish f (for_range 0 numSamples (scalarBody input len g damp) (start f output)).

(** One iteration of the SIMD main loop, on a register of [simdWidth]
    lanes. *)
Definition simdBody (simdWidth : Z) (input : InputRef) (len : Z) (g damp : R)
    (i : Z) (s : locals) : locals :=
  let delayed :=
    for_range 0 simdWidth
      (fun j d => wr d j (rd (buffer s) (Z.rem (idx s + j) len))) (zeros 8) in
  let delayedVec := juce.SIMD.fromRawArray simdWidth delayed 0 in
  let inputVec := juce.SIMD.fromRawArray simdWidth (arrIn input (output s)) i in
  let '(flt', dampedVals) :=
    for_range 0 simdWidth
      (fun j '(fl, dv) =>
         let fl' := rd delayed j + damp * (fl - rd delayed j) in
         (fl', wr dv j fl'))
      (flt s, zeros 8) in
  let dampedVec := juce.SIMD.fromRawArray simdWidth dampedVals 0 in
  let gVec := juce.SIMD.splat simdWidth g in
  let outVec := juce.SIMD.vadd inputVec (juce.SIMD.vmul gVec dampedVec) in
  let output' := juce.SIMD.copyToRawArray outVec (output s) i in
  let toStore := juce.SIMD.copyToRawArray outVec (zeros 8) 0 in
  let buffer' :=
    for_range 0 simdWidth
      (fun j b => wr b (Z.rem (idx s + j) len) (rd toStore j)) (buffer s) in
  let idx' := Z.rem (idx s + simdWidth) len in
  mkLocals buffer' idx' flt' output'.

Definition processBlockSIMD (simdWidth : Z) (f : t) (input : InputRef)
    (output : list R) (numSamples : Z) : t * list R :=
  if negb (prepared f) then (f, output) else
  let len := delaySamples f in
  let g := feedbackGain f in
  let damp := dampingCoeff f in
  let vectorSamples := ((numSamples / simdWidth) * simdWidth)%Z in
  let s1 := for_loop (Z.to_nat (numSamples / simdWidth)) 0 simdWidth
              (simdBody simdWidth input len g damp) (start f output) in
  finish f (for_range vectorSamples numSamples (scalarBody input len g damp) s1).

End SharcCombFilter.

(** ** SharcAllpassFilter *)

Module SharcAllpassFilter.

Record t := mk {
  delayLine : list R;
  delaySamples : Z;
  writeIndex : Z;
  apGain : R;
  prepared : bool
}.

Definition default : t :=
  {| delayLine := []; delaySamples := 500; writeIndex := 0;
     apGain := 0.5; prepared := false |}.

Definition prepare (f : t) (sampleRate : R) (maxDelaySamples : Z)
    (initialGain : R) : t :=
  {| delayLine := zeros maxDelaySamples;
     writeIndex := 0;
     delaySamples := juce.jlimitZ 1 maxDelaySamples maxDelaySamples;
     apGain := initialGain;
     prepared := true |}.

Definition setDelaySamples (f : t) (newDelay : Z) : t :=
  {| delayLine := delayLine f;
     delaySamples := juce.jlimitZ 1 (lenZ (delayLine f)) newDelay;
     writeIndex := writeIndex f; apGain := apGain f; prepared := prepared f |}.

Definition setGain (f : t) (newGain : R) : t :=
  {| delayLine := delayLine f; delaySamples := delaySamples f;
     writeIndex := writeIndex f;
     apGain := juce.jlimit (-0.99) 0.99 newGain;
     prepared := prepared f |}.

Definition reset (f : t) : t :=
  {| delayLine := zeros (lenZ (delayLine f)); delaySamples := delaySamples f;
     writeIndex := 0; apGain := apGain f; prepared := prepared f |}.

Record locals := mkLocals {
  buffer : list R;
  idx : Z;
  output : list R
}.

Definition scalarBody (input : InputRef) (len : Z) (g : R)
    (i : Z) (s : locals) : locals :=
  let delayed := rd (buffer s) (idx s) in
  let out := - g * rdIn input (output s) i + delayed in
  let buffer' := wr (buffer s) (idx s) (rdIn input (output s) i + delayed * g) in
  let output' := wr (output s) i out in
  let idx' := if (idx s + 1 >=? len)%Z then 0%Z else (idx s + 1)%Z in
  mkLocals buffer' idx' output'.

Definition finish (f : t) (s : locals) : t * list R :=
  ({| delayLine := buffer s; delaySamples := delaySamples f;
      writeIndex := idx s; apGain := apGain f; prepared := prepared f |},
   output s).

Definition start (f : t) (output : list R) : locals :=
  mkLocals (delayLine f) (writeIndex f) output.

Definition processBlockScalar (f : t) (input : InputRef) (output : list R)
    (numSamples : Z) : t * list R :=
  if negb (prepared f) then (f, output) else
  let len := delaySamples f in
  let g := apGain f in
  finish f (for_range 0 numSamples (scalarBody input len g) (start f output)).

Definition simdBody (simdWidth : Z) (input : InputRef) (len : Z) (g : R)
    (i : Z) (s : locals) : locals :=
  let delayed :=
    for_range 0 simdWidth
      (fun j d => wr d j (rd (buffer s) (Z.rem (idx s + j) len))) (zeros 8) in
  let delayedVec := juce.SIMD.fromRawArray simdWidth delayed 0 in
  let inputVec := juce.SIMD.fromRawArray simdWidth (arrIn input (output s)) i in
  let gVec := juce.SIMD.splat simdWidth g in
  let outVec :=
    juce.SIMD.vadd (juce.SIMD.scale (juce.SIMD.vmul gVec inputVec) (-1)) delayedVec in
  let output' := juce.SIMD.copyToRawArray outVec (output s) i in
  let newVals := juce.SIMD.vadd inputVec (juce.SIMD.vmul gVec delayedVec) in
  let toStore := juce.SIMD.copyToRawArray newVals (zeros 8) 0 in
  let buffer' :=
    for_range 0 simdWidth
      (fun j b => wr b (Z.rem (idx s + j) len) (rd toStore j)) (buffer s) in
  let idx' := Z.rem (idx s + simdWidth) len in
  mkLocals buffer' idx' output'.

Definition processBlockSIMD (simdWidth : Z) (f : t) (input : InputRef)
    (output : list R) (numSamples : Z) : t * list R :=
  if negb (prepared f) then (f, output) else
  let len := delaySamples f in
  let g := apGain f in
  let vectorSamples := ((numSamples / simdWidth) * simdWidth)%Z in
  let s1 := for_loop (Z.to_nat (numSamples / simdWidth)) 0 simdWidth
              (simdBody simdWidth input len g) (start f output) in
  finish f (for_range vectorSamples numSamples (scalarBody input len g) s1).

End SharcAllpassFilter.

(** ** juce::AudioBuffer<float> *)

Module AudioBuffer.

Record t := mk {
  channels : list (list R);
  numSamples : Z
}.

Definition getNumChannels (b : t) : Z := lenZ (channels b).
Definition getNumSamples (b : t) : Z := numSamples b.

(** [getReadPointer (ch)] / [getWritePointer (ch)]: the channel's samples. *)
Definition chan (b : t) (ch : Z) : list R := rdA [] (channels b) ch.

Definition setChan (b : t) (ch : Z) (d : list R) : t :=
  mk (wr (channels b) ch d) (numSamples b).

(** [clear (ch, 0, n)]. *)
Definition clearRegion (b : t) (ch n : Z) : t :=
  setChan b ch (juce.FloatVectorOperations.clear (chan b ch) n).

(** [clear ()]. *)
Definition clear (b : t) : t :=
  mk (map (fun c => juce.FloatVectorOperations.clear c (numSamples b)) (channels b))
     (numSamples b).

(** A buffer of the given shape.  [setSize] and the sizing constructor leave
    the samples unspecified; the engine overwrites them before it reads
    them, and the model starts them at zero. *)
Definition sized (nch n : Z) : t :=
  mk (repeat (zeros n) (Z.to_nat nch)) n.

(** [dst.makeCopyOf (src)]: [dst] takes the shape and the samples of [src]. *)
Definition makeCopyOf (src : t) : t := src.

End AudioBuffer.

(** ** DdxReverbAudioProcessor *)

(** The raw values [apvts.getRawParameterValue] yields for the nine
    parameters; the two switches are floats compared with [0.5f]. *)
Record Params := mkParams {
  decay : R;
  predelay : R;
  damping : R;
  diffusion : R;
  hicut : R;
  bassmult : R;
  wet : R;
  bypass : R;
  simd : R
}.

(** [a > b] on floats, as a boolean. *)
Definition gtb (a b : R) : bool := if Rlt_dec b a then true else false.

(** The defaults of [createParameterLayout]. *)
Definition defaultParams : Params :=
  mkParams 5 50 50 10 0 0 0.5 0 0.

(** The function-local [static float prevSample] of [processBlock]: one
    variable for the whole process, shared by every processor instance. *)
Record Statics := mkStatics { prevSample : R }.

Definition initialStatics : Statics := mkStatics 0.

Module DdxReverbAudioProcessor.

Definition numCombs : Z := 4.
Definition numAllpasses : Z := 8.
Definition combDelays : list Z := [1116; 1188; 1277; 1356]%Z.
Definition allpassDelays : list Z := [556; 441; 313; 391; 347; 113; 37; 59]%Z.

Definition tableAt (tbl : list Z) (i : Z) : Z := rdA 0%Z tbl i.

Record t := mk {
  totalNumInputChannels : Z;
  totalNumOutputChannels : Z;
  combs : list SharcCombFilter.t;
  allpasses : list SharcAllpassFilter.t;
  preDelayBuffer : list R;
  preDelayWritePos : Z;
  preDelaySamples : Z;
  dryBuffer : AudioBuffer.t;
  tempBuffer : AudioBuffer.t;
  currentSampleRate : R;
  useSIMD : bool;
  cpuUsage : R
}.

(** A freshly constructed processor on a bus layout of [nIn] inputs and
    [nOut] outputs. *)
Definition construct (nIn nOut : Z) : t :=
  {| totalNumInputChannels := nIn;
     totalNumOutputChannels := nOut;
     combs := repeat SharcCombFilter.default (Z.to_nat numCombs);
     allpasses := repeat SharcAllpassFilter.default (Z.to_nat numAllpasses);
     preDelayBuffer := [];
     preDelayWritePos := 0;
     preDelaySamples := 0;
     dryBuffer := AudioBuffer.mk [] 0;
     tempBuffer := AudioBuffer.mk [] 0;
     currentSampleRate := 48000;
     useSIMD := false;
     cpuUsage := 0 |}.

Definition getCpuUsage (p : t) : R := cpuUsage p.

Definition combAt (cs : list SharcCombFilter.t) (c : Z) : SharcCombFilter.t :=
  rdA SharcCombFilter.default cs c.

Definition apAt (aps : list SharcAllpassFilter.t) (c : Z) : SharcAllpassFilter.t :=
  rdA SharcAllpassFilter.default aps c.

Definition prepareToPlay (p : t) (sampleRate : R) (samplesPerBlock : Z) : t :=
  let maxPreDelay := juce.static_cast_int (sampleRate * 0.5) in
  let maxCombDelay := juce.static_cast_int (sampleRate * 0.1) in
  let combs' :=
    for_range 0 numCombs
      (fun i cs =>
         let c := SharcCombFilter.prepare (combAt cs i) sampleRate maxCombDelay 0.7 5000 in
         let scaledDelay :=
           juce.static_cast_int (IZR (tableAt combDelays i) * sampleRate / 48000) in
         wr cs i (SharcCombFilter.setDelaySamples c scaledDelay))
      (combs p) in
  let maxAPDelay := juce.static_cast_int (sampleRate * 0.05) in
  let allpasses' :=
    for_range 0 numAllpasses
      (fun i aps =>
         let a := SharcAllpassFilter.prepare (apAt aps i) sampleRate maxAPDelay 0.5 in
         let scaledDelay :=
           juce.static_cast_int (IZR (tableAt allpassDelays i) * sampleRate / 48000) in
         wr aps i (SharcAllpassFilter.setDelaySamples a scaledDelay))
      (allpasses p) in
  {| totalNumInputChannels := totalNumInputChannels p;
     totalNumOutputChannels := totalNumOutputChannels p;
     combs := combs';
     allpasses := allpasses';
     preDelayBuffer := zeros maxPreDelay;
     preDelayWritePos := 0;
     preDelaySamples := preDelaySamples p;
     dryBuffer := AudioBuffer.sized 2 samplesPerBlock;
     tempBuffer := AudioBuffer.sized 1 samplesPerBlock;
     currentSampleRate := sampleRate;
     useSIMD := useSIMD p;
     cpuUsage := cpuUsage p |}.

(** *** processBlock, stage by stage *)

(** "Clear unused output channels". *)
Definition clearUnused (p : t) (buffer : AudioBuffer.t) : AudioBuffer.t :=
  for_range (totalNumInputChannels p) (totalNumOutputChannels p)
    (fun i b => AudioBuffer.clearRegion b i (AudioBuffer.getNumSamples b)) buffer.

(** "Convert to mono". *)
Definition downmix (p : t) (buffer : AudioBuffer.t) (monoData : list R) : list R :=
  let numSamples := AudioBuffer.getNumSamples buffer in
  let monoData := juce.FloatVectorOperations.copy monoData (AudioBuffer.chan buffer 0) numSamples in
  if (totalNumInputChannels p >? 1)%Z then
    juce.FloatVectorOperations.multiply
      (juce.FloatVectorOperations.add monoData (AudioBuffer.chan buffer 1) numSamples)
      0.5 numSamples
  else monoData.

(** "Apply hi-cut filter": the one-pole lowpass on the static [prevSample]. *)
Definition hiCut (hiCutDb : R) (numSamples : Z) (G : Statics) (monoData : list R)
    : Statics * list R :=
  if gtb hiCutDb 0.01 then
    let cutoffGain := juce.decibelsToGain (- hiCutDb) in
    for_range 0 numSamples
      (fun i '(G, m) =>
         let ps := prevSample G + cutoffGain * (rd m i - prevSample G) in
         (mkStatics ps, wr m i ps))
      (G, monoData)
  else (G, monoData).

Definition preDelayLength (p : t) (predelayMs : R) : Z :=
  juce.jlimitZ 0 (lenZ (preDelayBuffer p) - 1)
    (juce.static_cast_int (predelayMs * currentSampleRate p / 1000)).

(** "Pre-delay": the loop state is the delay buffer, its write position and
    the mono block. *)
Definition preDelay (preDelaySamples numSamples : Z)
    (st : list R * Z * list R) : list R * Z * list R :=
  if (preDelaySamples >? 0)%Z then
    for_range 0 numSamples
      (fun i '(buf, writePos, m) =>
         let readPos := (writePos - preDelaySamples)%Z in
         let readPos := if (readPos <? 0)%Z then (readPos + lenZ buf)%Z else readPos in
         let delayed := rd buf readPos in
         let buf' := wr buf writePos (rd m i) in
         let m' := wr m i delayed in
         let writePos' := if (writePos + 1 >=? lenZ buf)%Z then 0%Z else (writePos + 1)%Z in
         (buf', writePos', m'))
      st
  else st.

Definition dampingFreqOf (dampingPct : R) : R :=
  juce.jmap dampingPct 0 100 20000 2000.

Definition avgDelayMs (sampleRate : R) : R :=
  IZR (tableAt combDelays 0 + tableAt combDelays 1
       + tableAt combDelays 2 + tableAt combDelays 3) / 4 * 1000 / sampleRate.

(** [combGain] as it stands when it is handed to [setGain]. *)
Definition combGainOf (decayTime bassMult sampleRate : R) : R :=
  juce.jlimit 0.1 0.99
    (juce.pow 10 (-3 * avgDelayMs sampleRate / (decayTime * 1000)))
  * (1 + bassMult * 0.05).

Definition updateCombs (dampingFreq combGain : R)
    (cs : list SharcCombFilter.t) : list SharcCombFilter.t :=
  map (fun comb =>
         SharcCombFilter.setGain (SharcCombFilter.setDampingFreq comb dampingFreq) combGain)
      cs.

Section Engine.

(** [SIMDRegister<float>::size()], fixed by the target (4 or 8 lanes). *)
Variable simdWidth : Z.

Definition runComb (simdOn : bool) (f : SharcCombFilter.t) (input : InputRef)
    (output : list R) (numSamples : Z) : SharcCombFilter.t * list R :=
  if simdOn then SharcCombFilter.processBlockSIMD simdWidth f input output numSamples
  else SharcCombFilter.processBlockScalar f input output numSamples.

Definition runAllpass (simdOn : bool) (f : SharcAllpassFilter.t) (input : InputRef)
    (output : list R) (numSamples : Z) : SharcAllpassFilter.t * list R :=
  if simdOn then SharcAllpassFilter.processBlockSIMD simdWidth f input output numSamples
  else SharcAllpassFilter.processBlockScalar f input output numSamples.

(** One turn of the loop "Process parallel combs - accumulate in monoData". *)
Definition combBody (simdOn : bool) (numSamples : Z) (c : Z)
    (st : list SharcCombFilter.t * AudioBuffer.t * list R)
    : list SharcCombFilter.t * AudioBuffer.t * list R :=
  let '(cs, combBuffer, monoData) := st in
  let combBuffer := AudioBuffer.clear combBuffer in
  let combOut := AudioBuffer.chan combBuffer 0 in
  let '(f', combOut') :=
    runComb simdOn (combAt cs c) (Distinct monoData) combOut numSamples in
  let monoData' :=
    if (c =? 0)%Z then juce.FloatVectorOperations.copy monoData combOut' numSamples
    else juce.FloatVectorOperations.add monoData combOut' numSamples in
  (wr cs c f', AudioBuffer.setChan combBuffer 0 combOut', monoData').

(** The comb loop and "Scale down after parallel sum". *)
Definition combStage (simdOn : bool) (numSamples : Z)
    (cs : list SharcCombFilter.t) (monoData : list R)
    : list SharcCombFilter.t * list R :=
  let '(cs', _, monoData') :=
    for_range 0 numCombs (combBody simdOn numSamples)
      (cs, AudioBuffer.sized 1 numSamples, monoData) in
  (cs', juce.FloatVectorOperations.multiply monoData' 0.25 numSamples).

(** "Process series all-passes for diffusion": each filter works in place
    on [monoData]. *)
Definition allpassStage (simdOn : bool) (numSamples : Z) (apGain : R)
    (aps : list SharcAllpassFilter.t) (monoData : list R)
    : list SharcAllpassFilter.t * list R :=
  fold_left
    (fun '(done, m) ap =>
       let '(ap', m') :=
         runAllpass simdOn (SharcAllpassFilter.setGain ap apGain) SameAsOutput m numSamples in
       (done ++ [ap'], m'))
    aps ([], monoData).

(** "Mix wet/dry". *)
Definition mixBody (dry : AudioBuffer.t) (monoData : list R) (wetMix : R)
    (numSamples : Z) (channel : Z) (buffer : AudioBuffer.t) : AudioBuffer.t :=
  let outData := AudioBuffer.chan buffer channel in
  let dryData :=
    AudioBuffer.chan dry (juce.jmin channel (AudioBuffer.getNumChannels dry - 1)) in
  let outData := juce.FloatVectorOperations.copy outData dryData numSamples in
  let outData := juce.FloatVectorOperations.multiply outData (1 - wetMix) numSamples in
  let outData :=
    if (channel =? 1)%Z then
      juce.FloatVectorOperations.addWithMultiply outData monoData (- wetMix) numSamples
    else
      juce.FloatVectorOperations.addWithMultiply outData monoData wetMix numSamples in
  AudioBuffer.setChan buffer channel outData.

Definition mixStage (p : t) (dry : AudioBuffer.t) (monoData : list R) (wetMix : R)
    (buffer : AudioBuffer.t) : AudioBuffer.t :=
  for_range 0 (totalNumOutputChannels p)
    (mixBody dry monoData wetMix (AudioBuffer.getNumSamples buffer)) buffer.

(** "Update CPU usage", from the two readings of the millisecond counter. *)
Definition cpuOf (startTime endTime : R) (numSamples : Z) (sampleRate : R) : R :=
  let blockTime := (endTime - startTime) / 1000 in
  let expectedBlockTime := IZR numSamples / sampleRate in
  blockTime / expectedBlockTime.

(** The mono wet signal of a block: [monoData] as it stands after the
    allpass chain, with the state the stages leave behind. *)
Record wetResult := mkWet {
  wStatics : Statics;
  wPreDelayBuffer : list R;
  wPreDelayWritePos : Z;
  wPreDelaySamples : Z;
  wCombs : list SharcCombFilter.t;
  wAllpasses : list SharcAllpassFilter.t;
  wMono : list R
}.

Definition wetPath (G : Statics) (p : t) (prm : Params) (simdOn : bool)
    (buffer : AudioBuffer.t) : wetResult :=
  let numSamples := AudioBuffer.getNumSamples buffer in
  let monoData := downmix p buffer (AudioBuffer.chan (tempBuffer p) 0) in
  let '(G1, monoData) := hiCut (hicut prm) numSamples G monoData in
  let pds := preDelayLength p (predelay prm) in
  let '(pdBuf, pdPos, monoData) :=
    preDelay pds numSamples (preDelayBuffer p, preDelayWritePos p, monoData) in
  let dampingFreq := dampingFreqOf (damping prm) in
  let combGain := combGainOf (decay prm) (bassmult prm) (currentSampleRate p) in
  let cs := updateCombs dampingFreq combGain (combs p) in
  let '(cs, monoData) := combStage simdOn numSamples cs monoData in
  let apGain := juce.jmap (diffusion prm) 0 20 0.3 0.7 in
  let '(aps, monoData) := allpassStage simdOn numSamples apGain (allpasses p) monoData in
  mkWet G1 pdBuf pdPos pds cs aps monoData.

(** [processBlock]: the statics, the processor and the host's block go in
    with the block's parameter values and the two clock readings; the
    statics, the processor and the block come out. *)
Definition processBlock (G : Statics) (p : t) (prm : Params)
    (buffer : AudioBuffer.t) (startTime endTime : R)
    : Statics * t * AudioBuffer.t :=
  let numSamples := AudioBuffer.getNumSamples buffer in
  let buffer := clearUnused p buffer in
  if gtb (bypass prm) 0.5 then (G, p, buffer) else
  let simdOn := gtb (simd prm) 0.5 in
  let dry := AudioBuffer.makeCopyOf buffer in
  let w := wetPath G p prm simdOn buffer in
  let buffer' := mixStage p dry (wMono w) (wet prm) buffer in
  (wStatics w,
   {| totalNumInputChannels := totalNumInputChannels p;
      totalNumOutputChannels := totalNumOutputChannels p;
      combs := wCombs w;
      allpasses := wAllpasses w;
      preDelayBuffer := wPreDelayBuffer w;
      preDelayWritePos := wPreDelayWritePos w;
      preDelaySamples := wPreDelaySamples w;
      dryBuffer := dry;
      tempBuffer := AudioBuffer.setChan (tempBuffer p) 0 (wMono w);
      currentSampleRate := currentSampleRate p;
      useSIMD := simdOn;
      cpuUsage := cpuOf startTime endTime numSamples (currentSampleRate p) |},
   buffer').

End Engine.

End DdxReverbAudioProcessor.

(** ** Several blocks, several instances *)

(** One call of [processBlock] as the host makes it: the parameter values
    of the block, its samples and the two readings of the clock. *)
Record Block := mkBlock {
  bParams : Params;
  bBuffer : AudioBuffer.t;
  bStart : R;
  bEnd : R
}.

Definition bypassed (b : Block) : bool := gtb (bypass (bParams b)) 0.5.

Definition stepBlock (simdWidth : Z)
    (st : Statics * DdxReverbAudioProcessor.t) (b : Block)
    : Statics * DdxReverbAudioProcessor.t :=
  fst (DdxReverbAudioProcessor.processBlock simdWidth (fst st) (snd st)
         (bParams b) (bBuffer b) (bStart b) (bEnd b)).

Definition runBlocks (simdWidth : Z)
    (st : Statics * DdxReverbAudioProcessor.t) (bs : list Block)
    : Statics * DdxReverbAudioProcessor.t :=
  fold_left (stepBlock simdWidth) bs st.

(** Two processor instances loaded in one process: each has its own
    members, both run the same [processBlock] and so the same statics. *)
Record World := mkWorld {
  statics : Statics;
  instA : DdxReverbAudioProcessor.t;
  instB : DdxReverbAudioProcessor.t
}.

Definition processA (simdWidth : Z) (w : World) (b : Block) : World * AudioBuffer.t :=
  let '(G, a, out) :=
    DdxReverbAudioProcessor.processBlock simdWidth (statics w) (instA w)
      (bParams b) (bBuffer b) (bStart b) (bEnd b) in
  (mkWorld G a (instB w), out).

Definition processB (simdWidth : Z) (w : World) (b : Block) : World * AudioBuffer.t :=
  let '(G, b', out) :=
    DdxReverbAudioProcessor.processBlock simdWidth (statics w) (instB w)
      (bParams b) (bBuffer b) (bStart b) (bEnd b) in
  (mkWorld G (instA w) b', out).

(** ** The specification's per-sample descriptions *)

Module Spec.

(** A block through a filter: the samples go through its one-sample step
    in order, each from the state the one before left. *)
Fixpoint run {X : Type} (step : X -> R -> X * R) (st : X) (xs : list R)
    : X * list R :=
  match xs with
  | [] => (st, [])
  | x :: xs' =>
      let '(st1, y) := step st x in
      let '(st2, ys) := run step st1 xs' in
      (st2, y :: ys)
  end.


(** Section 4.2: one sample through a comb filter, on the delay line, its
    cursor and the damping memory. *)
Definition combStep (len : Z) (g d : R) (st : list R * Z * R) (x : R)
    : (list R * Z * R) * R :=
  let '(line, cursor, mem) := st in
  let delayed := rd line cursor in
  let mem' := delayed + d * (mem - delayed) in
  let newSample := x + g * mem' in
  ((wr line cursor newSample,
    if (cursor + 1 >=? len)%Z then 0%Z else (cursor + 1)%Z,
    mem'),
   newSample).

Definition combRun (len : Z) (g d : R) := run (combStep len g d).

(** Section 4.3: one sample through an allpass filter. *)
Definition allpassStep (len : Z) (g : R) (st : list R * Z) (x : R)
    : (list R * Z) * R :=
  let '(line, cursor) := st in
  let delayed := rd line cursor in
  let out := - g * x + delayed in
  ((wr line cursor (x + g * delayed),
    if (cursor + 1 >=? len)%Z then 0%Z else (cursor + 1)%Z),
   out).

Definition allpassRun (len : Z) (g : R) := run (allpassStep len g).

(** Section 4.6, step 7: every comb runs on the identical input block, the
    outputs are summed and the sum is scaled by 0.25. *)
Definition combBankSample (cs : list SharcCombFilter.t) (input : list R)
    (numSamples : Z) (i : Z) : R :=
  fold_right
    (fun c acc =>
       rd (snd (SharcCombFilter.processBlockScalar c (Distinct input)
                  (zeros numSamples) numSamples)) i + acc)
    0 cs
  * 0.25.

(** Section 4.2: a comb's own delay time in milliseconds, the mean of the
    delay times over the bank, and the gain the engine hands to every comb
    from that mean: [clamp (10 ^ (-3 * delayMs / (decayTime * 1000)), 0.1,
    0.99)] times [1 + bassMult * 0.05], stored clamped into [0, 0.99]. *)
Definition delayMs (sampleRate : R) (c : SharcCombFilter.t) : R :=
  IZR (SharcCombFilter.delaySamples c) / sampleRate * 1000.

Definition bankAverageDelayMs (sampleRate : R) (cs : list SharcCombFilter.t) : R :=
  fold_right (fun c acc => delayMs sampleRate c + acc) 0 cs / IZR (lenZ cs).

Definition combGain (sampleRate decayTime bassMult : R)
    (cs : list SharcCombFilter.t) : R :=
  juce.jlimit 0 0.99
    (juce.jlimit 0.1 0.99
       (juce.pow 10 (-3 * bankAverageDelayMs sampleRate cs / (decayTime * 1000)))
     * (1 + bassMult * 0.05)).

End Spec.

(** ** Well-formedness *)

(** A block that fits the processor: every channel holds [numSamples]
    samples and there is a channel for every output. *)
Definition fits (p : DdxReverbAudioProcessor.t) (b : AudioBuffer.t) : Prop :=
  (0 <= DdxReverbAudioProcessor.totalNumInputChannels p)%Z /\
  (DdxReverbAudioProcessor.totalNumOutputChannels p <= AudioBuffer.getNumChannels b)%Z /\
  (0 <= AudioBuffer.getNumSamples b)%Z /\
  Forall (fun c => lenZ c = AudioBuffer.getNumSamples b) (AudioBuffer.channels b).

(** ** A filter loop in general *)

(** The shape the scalar loops of both filters share: sample [i] of the
    input goes through a one-sample step and the result is stored at
    [output[i]]. *)
Definition bodyF {X : Type} (step : X -> R -> X * R) (input : InputRef)
    (i : Z) (s : X * list R) : X * list R :=
  let '(st', y) := step (fst s) (rdIn input (snd s) i) in
  (st', wr (snd s) i y).

Definition combView (s : SharcCombFilter.locals) : (list R * Z * R) * list R :=
  ((SharcCombFilter.buffer s, SharcCombFilter.idx s, SharcCombFilter.flt s),
   SharcCombFilter.output s).

Definition allpassView (s : SharcAllpassFilter.locals) : (list R * Z) * list R :=
  ((SharcAllpassFilter.buffer s, SharcAllpassFilter.idx s),
   SharcAllpassFilter.output s).

(** ** Silence *)

(** A filter that holds no energy: zeros in the delay line, the cursor at
    the start, and for a comb a zero damping memory. *)
Definition combSilent (c : SharcCombFilter.t) : Prop :=
  SharcCombFilter.delayLine c = zeros (lenZ (SharcCombFilter.delayLine c)) /\
  SharcCombFilter.writeIndex c = 0%Z /\
  SharcCombFilter.filterState c = 0.

Definition allpassSilent (a : SharcAllpassFilter.t) : Prop :=
  SharcAllpassFilter.delayLine a = zeros (lenZ (SharcAllpassFilter.delayLine a)) /\
  SharcAllpassFilter.writeIndex a = 0%Z.

(** The [std::array] members hold four combs and eight allpasses. *)
Definition wellFormed (p : DdxReverbAudioProcessor.t) : Prop :=
  lenZ (DdxReverbAudioProcessor.combs p) = DdxReverbAudioProcessor.numCombs /\
  lenZ (DdxReverbAudioProcessor.allpasses p) = DdxReverbAudioProcessor.numAllpasses.

(** A prepared filter whose next delayed sample is zero (and, for a comb,
    whose damping memory is zero): what [prepareToPlay] leaves, seen from
    the next sample to come. *)
Definition combRested (c : SharcCombFilter.t) : Prop :=
  SharcCombFilter.prepared c = true /\
  rd (SharcCombFilter.delayLine c) (SharcCombFilter.writeIndex c) = 0 /\
  SharcCombFilter.filterState c = 0.

Definition allpassRested (a : SharcAllpassFilter.t) : Prop :=
  SharcAllpassFilter.prepared a = true /\
  rd (SharcAllpassFilter.delayLine a) (SharcAllpassFilter.writeIndex a) = 0.

(** ** The lanes of a SIMD group *)

(** What the [j]-th sample of a group of samples reads and writes when the
    group starts with cursor [p] on the delay line [B]: the cursor
    position, the delayed sample there, the damping memory after [k]
    samples, and the values the two filters store and put out. *)
Section Lanes.

Variables (B : list R) (p len : Z).

Definition lanePos (j : Z) : Z := Z.rem (p + j) len.

Definition laneDelayed (j : Z) : R := rd B (lanePos j).

Variables (damp g F : R) (inp : list R) (i : Z).

Fixpoint laneFlt (k : nat) : R :=
  match k with
  | O => F
  | S k' =>
      laneDelayed (Z.of_nat k') + damp * (laneFlt k' - laneDelayed (Z.of_nat k'))
  end.

Definition combLane (j : Z) : R :=
  rd inp (i + j) + g * laneFlt (S (Z.to_nat j)).

Definition allpassLaneOut (j : Z) : R := - g * rd inp (i + j) + laneDelayed j.

Definition allpassLaneStore (j : Z) : R := rd inp (i + j) + laneDelayed j * g.

End Lanes.

(** [k] writes into an array, the [j]-th of [val j] at [pos j]. *)
Definition writes (pos : Z -> Z) (val : Z -> R) (k : nat) (a : list R) : list R :=
  for_loop k 0 1 (fun j a => wr a (pos j) (val j)) a.

(** What the in-place loops keep true: from sample [j] on, the output array
    still holds the input [m]. *)
Definition untouchedFrom (m : list R) (j : Z) (s : SharcAllpassFilter.locals) : Prop :=
  forall k, (j <= k)%Z -> rd (SharcAllpassFilter.output s) k = rd m k.

(** ** Filters on which the SIMD loops are safe *)

(** A prepared filter whose active delay length is at least the register
    width [w] and lies inside the delay line, with the cursor inside the
    active length.  (A filter that is not prepared returns at once on either
    path.) *)
Definition combSafe (w : Z) (c : SharcCombFilter.t) : Prop :=
  SharcCombFilter.prepared c = true ->
  (w <= SharcCombFilter.delaySamples c <= lenZ (SharcCombFilter.delayLine c))%Z /\
  (0 <= SharcCombFilter.writeIndex c < SharcCombFilter.delaySamples c)%Z.

Definition allpassSafe (w : Z) (a : SharcAllpassFilter.t) : Prop :=
  SharcAllpassFilter.prepared a = true ->
  (w <= SharcAllpassFilter.delaySamples a <= lenZ (SharcAllpassFilter.delayLine a))%Z /\
  (0 <= SharcAllpassFilter.writeIndex a < SharcAllpassFilter.delaySamples a)%Z.

Definition simdSafe (w : Z) (p : DdxReverbAudioProcessor.t) : Prop :=
  Forall (combSafe w) (DdxReverbAudioProcessor.combs p) /\
  Forall (allpassSafe w) (DdxReverbAudioProcessor.allpasses p).

(** ** Further notions: bounds, silence, cursors, runs of blocks *)

(** What a comb loop keeps true when [M + g * B <= B]: the delay line and
    the damping memory stay within [B], and so does every output sample
    written so far. *)
Definition combBounded (B : R) (i : Z) (s : SharcCombFilter.locals) : Prop :=
  Forall (fun v => Rabs v <= B) (SharcCombFilter.buffer s) /\
  Rabs (SharcCombFilter.flt s) <= B /\
  forall k, (0 <= k < i)%Z -> Rabs (rd (SharcCombFilter.output s) k) <= B.

Definition combQuiet (c : SharcCombFilter.t) : Prop :=
  Forall (fun v => v = 0) (SharcCombFilter.delayLine c) /\
  SharcCombFilter.filterState c = 0.

Definition allpassQuiet (a : SharcAllpassFilter.t) : Prop :=
  Forall (fun v => v = 0) (SharcAllpassFilter.delayLine a).

Definition cursorsInRange (p : DdxReverbAudioProcessor.t) : Prop :=
  Forall (combSafe 1) (DdxReverbAudioProcessor.combs p) /\
  Forall (allpassSafe 1) (DdxReverbAudioProcessor.allpasses p) /\
  (0 <= DdxReverbAudioProcessor.preDelayWritePos p
   < lenZ (DdxReverbAudioProcessor.preDelayBuffer p))%Z.

Definition simdOff (b : Block) : Block :=
  mkBlock (mkParams (decay (bParams b)) (predelay (bParams b)) (damping (bParams b))
             (diffusion (bParams b)) (hicut (bParams b)) (bassmult (bParams b))
             (wet (bParams b)) (bypass (bParams b)) 0)
    (bBuffer b) (bStart b) (bEnd b).

Fixpoint playBlocks (simdWidth : Z) (st : Statics * DdxReverbAudioProcessor.t)
    (bs : list Block) : list AudioBuffer.t :=
  match bs with
  | [] => []
  | b :: bs' =>
      let r := DdxReverbAudioProcessor.processBlock simdWidth (fst st) (snd st)
                 (bParams b) (bBuffer b) (bStart b) (bEnd b) in
      snd r :: playBlocks simdWidth (fst r) bs'
  end.

Definition forgetSimd (p : DdxReverbAudioProcessor.t) : DdxReverbAudioProcessor.t :=
  DdxReverbAudioProcessor.mk
    (DdxReverbAudioProcessor.totalNumInputChannels p)
    (DdxReverbAudioProcessor.totalNumOutputChannels p)
    (DdxReverbAudioProcessor.combs p)
    (DdxReverbAudioProcessor.allpasses p)
    (DdxReverbAudioProcessor.preDelayBuffer p)
    (DdxReverbAudioProcessor.preDelayWritePos p)
    (DdxReverbAudioProcessor.preDelaySamples p)
    (DdxReverbAudioProcessor.dryBuffer p)
    (DdxReverbAudioProcessor.tempBuffer p)
    (DdxReverbAudioProcessor.currentSampleRate p)
    false
    (DdxReverbAudioProcessor.cpuUsage p).

(** [createParameterLayout]: the parameters in the order they are pushed,
    a float parameter with the start, end and interval of its
    [NormalisableRange], its default and its label. *)
Inductive RangedAudioParameter :=
| AudioParameterFloat (parameterID name : string)
    (rangeStart rangeEnd intervalValue defaultValue : R) (label : string)
| AudioParameterBool (parameterID name : string) (defaultValue : bool).

Definition createParameterLayout : list RangedAudioParameter :=
  [ AudioParameterFloat "decay" "Decay Time" 2 20 0.1 5 "s";
    AudioParameterFloat "predelay" "Pre-Delay" 0 500 1 50 "ms";
    AudioParameterFloat "damping" "Damping (Hi Decay)" 0 100 1 50 "%";
    AudioParameterFloat "diffusion" "Diffusion" 0 20 0.1 10 "";
    AudioParameterFloat "hicut" "Hi Shelf Cut" 0 30 0.1 0 "dB";
    AudioParameterFloat "bassmult" "Bass Multiply" (-10) 10 0.1 0 "";
    AudioParameterFloat "wet" "Wet/Dry Mix" 0 1 0.01 0.5 "";
    AudioParameterBool "bypass" "Bypass" false;
    AudioParameterBool "simd" "Use SIMD (Low CPU)" false ]%string.

(** [*apvts.getRawParameterValue (id)] on the values of a block. *)
Definition getRawParameterValue (prm : Params) (id : string) : R :=
  if String.eqb id "decay" then decay prm
  else if String.eqb id "predelay" then predelay prm
  else if String.eqb id "damping" then damping prm
  else if String.eqb id "diffusion" then diffusion prm
  else if String.eqb id "hicut" then hicut prm
  else if String.eqb id "bassmult" then bassmult prm
  else if String.eqb id "wet" then wet prm
  else if String.eqb id "bypass" then bypass prm
  else if String.eqb id "simd" then simd prm
  else 0.

(** The raw values of a block lie in the ranges of the layout: a float
    parameter between the start and the end of its range, a switch at 0 or
    1. *)
Definition withinLayout (prm : Params) : Prop :=
  Forall (fun rp =>
            match rp with
            | AudioParameterFloat id _ lo hi _ _ _ =>
                lo <= getRawParameterValue prm id <= hi
            | AudioParameterBool id _ _ =>
                getRawParameterValue prm id = 0 \/ getRawParameterValue prm id = 1
            end)
    createParameterLayout.

(** What the pre-delay loop keeps true after [k] samples, on the delay
    buffer [buf] with write position [pos], the delay [D] and the block
    [m] it started from. *)
Definition preDelayInv (D : Z) (buf : list R) (pos : Z) (m : list R) (k : Z)
    (st : list R * Z * list R) : Prop :=
  let '(b, wp, mm) := st in
  let N := lenZ buf in
  lenZ b = N /\ wp = ((pos + k) mod N)%Z /\ lenZ mm = lenZ m /\
  (forall i, (0 <= i < k)%Z ->
     rd mm i = if (i <? D)%Z then rd buf ((pos + i - D) mod N) else rd m (i - D)) /\
  (forall i, (k <= i)%Z -> rd mm i = rd m i) /\
  (forall j, (0 <= j < k)%Z -> (k - N <= j)%Z -> rd b ((pos + j) mod N) = rd m j) /\
  (forall q, (forall j, (0 <= j < k)%Z -> ((pos + j) mod N)%Z <> q) -> rd b q = rd buf q).

(** The first [n] samples of an array are zero. *)
Definition silentTo (n : Z) (m : list R) : Prop :=
  forall i, (0 <= i < n)%Z -> rd m i = 0.

(** A processor that holds no energy: prepared filters with zeros in every
    delay line and damping memory, zeros in the pre-delay line, and a zero
    hi-cut memory in the statics. *)
Definition quietProcessor (G : Statics) (p : DdxReverbAudioProcessor.t) : Prop :=
  prevSample G = 0 /\
  Forall (fun v => v = 0) (DdxReverbAudioProcessor.preDelayBuffer p) /\
  Forall (fun c => SharcCombFilter.prepared c = true /\ combQuiet c)
    (DdxReverbAudioProcessor.combs p) /\
  Forall (fun a => SharcAllpassFilter.prepared a = true /\ allpassQuiet a)
    (DdxReverbAudioProcessor.allpasses p).

Definition combQuietAt (i : Z) (s : SharcCombFilter.locals) : Prop :=
  Forall (fun v => v = 0) (SharcCombFilter.buffer s) /\
  SharcCombFilter.flt s = 0 /\
  silentTo i (SharcCombFilter.output s).

Definition allpassQuietAt (i : Z) (s : SharcAllpassFilter.locals) : Prop :=
  Forall (fun v => v = 0) (SharcAllpassFilter.buffer s) /\
  silentTo i (SharcAllpassFilter.output s).

(** The last block of a run that was not bypassed, if there is one. *)
Definition lastRunning (bs : list Block) : option Block :=
  find (fun b => negb (bypassed b)) (rev bs).

(** ** The wet path on the samples of a block *)
(** The first [n] samples of the array [m] are the list [xs]. *)
Definition holds (n : Z) (m xs : list R) : Prop :=
  lenZ xs = n /\ (n <= lenZ m)%Z /\
  forall k, (0 <= k < n)%Z -> rd m k = nth (Z.to_nat k) xs 0.

(** [a[i] + b[i]] on lists. *)
Fixpoint addL (a b : list R) : list R :=
  match a, b with
  | x :: a', y :: b' => (x + y) :: addL a' b'
  | _, _ => []
  end.

(** One sample through the hi-cut filter of coefficient [c]. *)
Definition hiCutStep (c : R) (G : Statics) (x : R) : Statics * R :=
  let ps := prevSample G + c * (x - prevSample G) in (mkStatics ps, ps).

(** One sample through the pre-delay of [D] samples. *)
Definition preDelayStep (D : Z) (st : list R * Z) (x : R) : (list R * Z) * R :=
  let '(buf, writePos) := st in
  let readPos := (writePos - D)%Z in
  let readPos := if (readPos <? 0)%Z then (readPos + lenZ buf)%Z else readPos in
  ((wr buf writePos x,
    if (writePos + 1 >=? lenZ buf)%Z then 0%Z else (writePos + 1)%Z),
   rd buf readPos).

(** The stages of the wet path as functions on the samples of a block. *)
Definition hiCutL (hiCutDb : R) (G : Statics) (xs : list R) : Statics * list R :=
  if gtb hiCutDb 0.01 then Spec.run (hiCutStep (juce.decibelsToGain (- hiCutDb))) G xs
  else (G, xs).

Definition preDelayL (D : Z) (st : list R * Z) (xs : list R) : (list R * Z) * list R :=
  if (D >? 0)%Z then Spec.run (preDelayStep D) st xs else (st, xs).

Definition combL (f : SharcCombFilter.t) (xs : list R) : SharcCombFilter.t * list R :=
  let r := Spec.combRun (SharcCombFilter.delaySamples f) (SharcCombFilter.feedbackGain f)
             (SharcCombFilter.dampingCoeff f)
             (SharcCombFilter.delayLine f, SharcCombFilter.writeIndex f,
              SharcCombFilter.filterState f) xs in
  (SharcCombFilter.mk (fst (fst (fst r))) (SharcCombFilter.delaySamples f)
     (snd (fst (fst r))) (SharcCombFilter.feedbackGain f)
     (SharcCombFilter.dampingCoeff f) (snd (fst r)) (SharcCombFilter.sRate f)
     (SharcCombFilter.prepared f),
   snd r).

Definition allpassL (f : SharcAllpassFilter.t) (xs : list R)
    : SharcAllpassFilter.t * list R :=
  let r := Spec.allpassRun (SharcAllpassFilter.delaySamples f) (SharcAllpassFilter.apGain f)
             (SharcAllpassFilter.delayLine f, SharcAllpassFilter.writeIndex f) xs in
  (SharcAllpassFilter.mk (fst (fst r)) (SharcAllpassFilter.delaySamples f)
     (snd (fst r)) (SharcAllpassFilter.apGain f) (SharcAllpassFilter.prepared f),
   snd r).

(** The comb loop: the first comb's output replaces the block, the output
    of every later comb is added to it. *)
Fixpoint combChainL (first : bool) (cs : list SharcCombFilter.t) (xs : list R)
    : list SharcCombFilter.t * list R :=
  match cs with
  | [] => ([], xs)
  | c :: cs' =>
      let r := combL c xs in
      let xs' := if first then snd r else addL xs (snd r) in
      let r' := combChainL false cs' xs' in
      (fst r :: fst r', snd r')
  end.

Fixpoint allpassChainL (g : R) (aps : list SharcAllpassFilter.t) (xs : list R)
    : list SharcAllpassFilter.t * list R :=
  match aps with
  | [] => ([], xs)
  | a :: aps' =>
      let r := allpassL (SharcAllpassFilter.setGain a g) xs in
      let r' := allpassChainL g aps' (snd r) in
      (fst r :: fst r', snd r')
  end.

(** The mono block the stages start from: channel 0, or the mean of
    channels 0 and 1 when there are two inputs. *)
Definition downmixL (nIn : Z) (b : AudioBuffer.t) : list R :=
  map (fun k =>
         let i := Z.of_nat k in
         if (nIn >? 1)%Z
         then (rd (AudioBuffer.chan b 0) i + rd (AudioBuffer.chan b 1) i) * 0.5
         else rd (AudioBuffer.chan b 0) i)
      (seq 0 (Z.to_nat (AudioBuffer.getNumSamples b))).

(** The wet path on the samples of a block: hi-cut, pre-delay, the comb
    loop with its scaling by 0.25 and the allpass chain. *)
Definition wetL (G : Statics) (p : DdxReverbAudioProcessor.t) (prm : Params)
    (xs : list R) : DdxReverbAudioProcessor.wetResult :=
  let r1 := hiCutL (hicut prm) G xs in
  let pds := DdxReverbAudioProcessor.preDelayLength p (predelay prm) in
  let r2 := preDelayL pds (DdxReverbAudioProcessor.preDelayBuffer p,
                           DdxReverbAudioProcessor.preDelayWritePos p) (snd r1) in
  let cs := DdxReverbAudioProcessor.updateCombs
              (DdxReverbAudioProcessor.dampingFreqOf (damping prm))
              (DdxReverbAudioProcessor.combGainOf (decay prm) (bassmult prm)
                 (DdxReverbAudioProcessor.currentSampleRate p))
              (DdxReverbAudioProcessor.combs p) in
  let r3 := combChainL true cs (snd r2) in
  let r4 := allpassChainL (juce.jmap (diffusion prm) 0 20 0.3 0.7)
              (DdxReverbAudioProcessor.allpasses p)
              (map (fun v => v * 0.25) (snd r3)) in
  DdxReverbAudioProcessor.mkWet (fst r1) (fst (fst r2)) (snd (fst r2)) pds
    (fst r3) (fst r4) (snd r4).

(** ** Blocks cut in two, blocks superposed *)
(** The host hands over a stretch of audio in two calls instead of one:
    channel by channel, [whole] is [b1] followed by [b2]. *)
Definition cutInto (whole b1 b2 : AudioBuffer.t) : Prop :=
  AudioBuffer.getNumSamples whole
  = (AudioBuffer.getNumSamples b1 + AudioBuffer.getNumSamples b2)%Z /\
  AudioBuffer.getNumChannels b1 = AudioBuffer.getNumChannels whole /\
  AudioBuffer.getNumChannels b2 = AudioBuffer.getNumChannels whole /\
  forall ch, AudioBuffer.chan whole ch = AudioBuffer.chan b1 ch ++ AudioBuffer.chan b2 ch.

(** Three lists related place by place. *)
Inductive Forall3 {A : Type} (P : A -> A -> A -> Prop) : list A -> list A -> list A -> Prop :=
| Forall3_nil : Forall3 P [] [] []
| Forall3_cons (x y z : A) (l1 l2 l3 : list A) :
    P x y z -> Forall3 P l1 l2 l3 -> Forall3 P (x :: l1) (y :: l2) (z :: l3).

(** Superposition: the samples of [m] are [a * m1 + b * m2], place by
    place, over arrays of one length. *)
Definition mixOf (a b : R) (m m1 m2 : list R) : Prop :=
  Forall3 (fun v v1 v2 => v = a * v1 + b * v2) m m1 m2.

(** A comb filter with the settings and the cursor of [c1] and [c2], and
    their memories superposed. *)
Definition combMixOf (a b : R) (c c1 c2 : SharcCombFilter.t) : Prop :=
  (SharcCombFilter.prepared c = true /\ SharcCombFilter.prepared c1 = true
   /\ SharcCombFilter.prepared c2 = true) /\
  (SharcCombFilter.delaySamples c1 = SharcCombFilter.delaySamples c
   /\ SharcCombFilter.delaySamples c2 = SharcCombFilter.delaySamples c) /\
  (SharcCombFilter.writeIndex c1 = SharcCombFilter.writeIndex c
   /\ SharcCombFilter.writeIndex c2 = SharcCombFilter.writeIndex c) /\
  (SharcCombFilter.feedbackGain c1 = SharcCombFilter.feedbackGain c
   /\ SharcCombFilter.feedbackGain c2 = SharcCombFilter.feedbackGain c) /\
  (SharcCombFilter.dampingCoeff c1 = SharcCombFilter.dampingCoeff c
   /\ SharcCombFilter.dampingCoeff c2 = SharcCombFilter.dampingCoeff c) /\
  (SharcCombFilter.sRate c1 = SharcCombFilter.sRate c
   /\ SharcCombFilter.sRate c2 = SharcCombFilter.sRate c) /\
  SharcCombFilter.filterState c
  = a * SharcCombFilter.filterState c1 + b * SharcCombFilter.filterState c2 /\
  mixOf a b (SharcCombFilter.delayLine c) (SharcCombFilter.delayLine c1)
    (SharcCombFilter.delayLine c2).

Definition allpassMixOf (a b : R) (f f1 f2 : SharcAllpassFilter.t) : Prop :=
  (SharcAllpassFilter.prepared f = true /\ SharcAllpassFilter.prepared f1 = true
   /\ SharcAllpassFilter.prepared f2 = true) /\
  (SharcAllpassFilter.delaySamples f1 = SharcAllpassFilter.delaySamples f
   /\ SharcAllpassFilter.delaySamples f2 = SharcAllpassFilter.delaySamples f) /\
  (SharcAllpassFilter.writeIndex f1 = SharcAllpassFilter.writeIndex f
   /\ SharcAllpassFilter.writeIndex f2 = SharcAllpassFilter.writeIndex f) /\
  (SharcAllpassFilter.apGain f1 = SharcAllpassFilter.apGain f
   /\ SharcAllpassFilter.apGain f2 = SharcAllpassFilter.apGain f) /\
  mixOf a b (SharcAllpassFilter.delayLine f) (SharcAllpassFilter.delayLine f1)
    (SharcAllpassFilter.delayLine f2).

(** The hi-cut memory, the filters and the pre-delay line of [p] are the
    superposition of those of [p1] and [p2], on one bus layout and sample
    rate. *)
Definition stateMixOf (a b : R)
    (s s1 s2 : Statics * DdxReverbAudioProcessor.t) : Prop :=
  let '(G, p) := s in
  let '(G1, p1) := s1 in
  let '(G2, p2) := s2 in
  prevSample G = a * prevSample G1 + b * prevSample G2 /\
  (DdxReverbAudioProcessor.totalNumInputChannels p1
   = DdxReverbAudioProcessor.totalNumInputChannels p
   /\ DdxReverbAudioProcessor.totalNumInputChannels p2
      = DdxReverbAudioProcessor.totalNumInputChannels p) /\
  (DdxReverbAudioProcessor.totalNumOutputChannels p1
   = DdxReverbAudioProcessor.totalNumOutputChannels p
   /\ DdxReverbAudioProcessor.totalNumOutputChannels p2
      = DdxReverbAudioProcessor.totalNumOutputChannels p) /\
  (DdxReverbAudioProcessor.currentSampleRate p1
   = DdxReverbAudioProcessor.currentSampleRate p
   /\ DdxReverbAudioProcessor.currentSampleRate p2
      = DdxReverbAudioProcessor.currentSampleRate p) /\
  (DdxReverbAudioProcessor.preDelayWritePos p1
   = DdxReverbAudioProcessor.preDelayWritePos p
   /\ DdxReverbAudioProcessor.preDelayWritePos p2
      = DdxReverbAudioProcessor.preDelayWritePos p) /\
  mixOf a b (DdxReverbAudioProcessor.preDelayBuffer p)
    (DdxReverbAudioProcessor.preDelayBuffer p1)
    (DdxReverbAudioProcessor.preDelayBuffer p2) /\
  Forall3 (combMixOf a b) (DdxReverbAudioProcessor.combs p)
    (DdxReverbAudioProcessor.combs p1) (DdxReverbAudioProcessor.combs p2) /\
  Forall3 (allpassMixOf a b) (DdxReverbAudioProcessor.allpasses p)
    (DdxReverbAudioProcessor.allpasses p1) (DdxReverbAudioProcessor.allpasses p2).

(** The block [buf] is the superposition of [buf1] and [buf2]. *)
Definition bufferMixOf (a b : R) (buf buf1 buf2 : AudioBuffer.t) : Prop :=
  (AudioBuffer.getNumSamples buf1 = AudioBuffer.getNumSamples buf
   /\ AudioBuffer.getNumSamples buf2 = AudioBuffer.getNumSamples buf) /\
  (AudioBuffer.getNumChannels buf1 = AudioBuffer.getNumChannels buf
   /\ AudioBuffer.getNumChannels buf2 = AudioBuffer.getNumChannels buf) /\
  forall ch, mixOf a b (AudioBuffer.chan buf ch) (AudioBuffer.chan buf1 ch)
               (AudioBuffer.chan buf2 ch).

(** ** Arrays and loops: basic facts *)

(** Evaluation of the list and integer part of a closed term; the real
    arithmetic is left for [lra]. *)
Ltac eval_arrays :=
  cbv -[Rplus Rminus Rmult Ropp Rdiv Rinv IZR exp Rpower PI Rlt_dec Int_part Rabs].

(** Two lists of closed real expressions, equal place by place. *)
Ltac list_lra :=
  repeat first [ reflexivity | apply f_equal2; [lra|] ].

Section Arrays.

Context {A : Type}.
Implicit Types (a : list A) (v dflt : A).

Lemma length_updA a (n : nat) v : length (updA a n v) = length a.
Proof.
  revert n; induction a as [|x a IH]; intros [|n]; simpl; auto.
Qed.

Lemma nth_updA_same a (n : nat) v dflt :
  (n < length a)%nat -> nth n (updA a n v) dflt = v.
Proof.
  revert n; induction a as [|x a IH]; intros [|n] H; simpl in *; try lia; auto.
  apply IH; lia.
Qed.

Lemma nth_updA_other a (n m : nat) v dflt :
  n <> m -> nth m (updA a n v) dflt = nth m a dflt.
Proof.
  revert n m; induction a as [|x a IH]; intros [|n] [|m] H; simpl; auto; try lia.
Qed.

Lemma lenZ_wr a (i : Z) v : lenZ (wr a i v) = lenZ a.
Proof.
  unfold wr, lenZ. destruct (i <? 0)%Z; auto. now rewrite length_updA.
Qed.

Lemma rd_wr_same a (i : Z) v dflt :
  (0 <= i < lenZ a)%Z -> rdA dflt (wr a i v) i = v.
Proof.
  unfold rdA, wr, lenZ. intros H.
  destruct (i <? 0)%Z eqn:E; [lia|].
  apply nth_updA_same. lia.
Qed.

Lemma rd_wr_other a (i j : Z) v dflt :
  i <> j -> rdA dflt (wr a i v) j = rdA dflt a j.
Proof.
  unfold rdA, wr. intros H.
  destruct (j <? 0)%Z eqn:Ej; auto.
  destruct (i <? 0)%Z eqn:Ei; auto.
  apply nth_updA_other. lia.
Qed.

Lemma rd_outside a (i : Z) dflt : (lenZ a <= i)%Z -> rdA dflt a i = dflt.
Proof.
  unfold rdA, lenZ. intros H. destruct (i <? 0)%Z; auto.
  apply nth_overflow. lia.
Qed.

Lemma list_eq_rd a b dflt :
  lenZ a = lenZ b ->
  (forall k, (0 <= k < lenZ a)%Z -> rdA dflt a k = rdA dflt b k) -> a = b.
Proof.
  unfold lenZ. intros HL H.
  apply (nth_ext a b dflt dflt); [lia|].
  intros n Hn. specialize (H (Z.of_nat n)).
  unfold rdA in H. destruct (Z.of_nat n <? 0)%Z eqn:E; [lia|].
  rewrite Nat2Z.id in H. apply H. lia.
Qed.

(** A loop that rewrites element [i] of an array from its old value. *)
Lemma pointwise_loop (f : Z -> A -> A) dflt (n : nat) (lo : Z) a :
  (0 <= lo)%Z -> (lo + Z.of_nat n <= lenZ a)%Z ->
  let a' := for_loop n lo 1 (fun i x => wr x i (f i (rdA dflt x i))) a in
  lenZ a' = lenZ a /\
  forall k, rdA dflt a' k = if ((lo <=? k) && (k <? lo + Z.of_nat n))%Z%bool
                            then f k (rdA dflt a k) else rdA dflt a k.
Proof.
  revert lo a; induction n as [|n IH]; intros lo a Hlo Hn; cbn [for_loop].
  - split; auto. intros k.
    destruct (lo <=? k)%Z eqn:E1, (k <? lo + Z.of_nat 0)%Z eqn:E2; simpl; auto; lia.
  - destruct (IH (lo + 1)%Z (wr a lo (f lo (rdA dflt a lo)))) as [HL HP].
    + lia.
    + rewrite lenZ_wr. lia.
    + rewrite lenZ_wr in HL. split; [exact HL|].
      intros k. rewrite HP.
      destruct (Z.eq_dec k lo) as [->|Hne].
      * destruct (lo + 1 <=? lo)%Z eqn:E1; [lia|]. cbn [andb].
        rewrite rd_wr_same by lia.
        destruct (lo <=? lo)%Z eqn:E3, (lo <? lo + Z.of_nat (S n))%Z eqn:E4;
          simpl; auto; lia.
      * rewrite rd_wr_other by auto.
        destruct (lo + 1 <=? k)%Z eqn:E1, (k <? lo + 1 + Z.of_nat n)%Z eqn:E2,
                 (lo <=? k)%Z eqn:E3, (k <? lo + Z.of_nat (S n))%Z eqn:E4;
          simpl; auto; lia.
Qed.

End Arrays.

Lemma for_loop_last {St : Type} (n : nat) (i step : Z) (body : Z -> St -> St) (s : St) :
  for_loop (S n) i step body s
  = body (i + Z.of_nat n * step)%Z (for_loop n i step body s).
Proof.
  revert i s; induction n as [|n IH]; intros i s.
  - simpl. f_equal. lia.
  - change (for_loop (S (S n)) i step body s)
      with (for_loop (S n) (i + step)%Z step body (body i s)).
    rewrite IH. simpl for_loop at 2. f_equal. lia.
Qed.

Lemma for_loop_ext {St : Type} (n : nat) (i step : Z) (f g : Z -> St -> St) (s : St) :
  (forall k s', f k s' = g k s') -> for_loop n i step f s = for_loop n i step g s.
Proof.
  intros H. revert i s; induction n as [|n IH]; intros i s; simpl; auto.
  rewrite H. apply IH.
Qed.


Lemma for_loop_morph {S1 S2 : Type} (h : S1 -> S2) (n : nat) (i step : Z)
    (f : Z -> S1 -> S1) (g : Z -> S2 -> S2) (s : S1) :
  (forall k s', h (f k s') = g k (h s')) ->
  h (for_loop n i step f s) = for_loop n i step g (h s).
Proof.
  intros H. revert i s; induction n as [|n IH]; intros i s; simpl; auto.
  rewrite IH, H. reflexivity.
Qed.

Lemma for_range_pointwise {A : Type} (f : Z -> A -> A) (dflt : A) (lo hi : Z) (a : list A) :
  (0 <= lo)%Z -> (hi <= lenZ a)%Z ->
  let a' := for_range lo hi (fun i x => wr x i (f i (rdA dflt x i))) a in
  lenZ a' = lenZ a /\
  forall k, rdA dflt a' k = if ((lo <=? k) && (k <? hi))%Z%bool
                            then f k (rdA dflt a k) else rdA dflt a k.
Proof.
  intros Hlo Hhi. unfold for_range.
  destruct (Z_le_gt_dec lo hi) as [Hle|Hgt].
  - destruct (pointwise_loop f dflt (Z.to_nat (hi - lo)) lo a) as [HL HP]; [lia|lia|].
    split; [exact HL|]. intros k. rewrite HP.
    replace (lo + Z.of_nat (Z.to_nat (hi - lo)))%Z with hi by lia. reflexivity.
  - replace (Z.to_nat (hi - lo)) with O by lia. simpl. split; auto.
    intros k. destruct (lo <=? k)%Z eqn:E1, (k <? hi)%Z eqn:E2; simpl; auto; lia.
Qed.

(** ** The vector operations, sample by sample *)

Section VectorOps.

Import juce.FloatVectorOperations.

Variables (dest src : list R) (n : Z).
Hypothesis Hn : (n <= lenZ dest)%Z.

Lemma copy_spec :
  lenZ (copy dest src n) = lenZ dest /\
  forall k, rd (copy dest src n) k = if ((0 <=? k) && (k <? n))%Z%bool then rd src k else rd dest k.
Proof.
  exact (for_range_pointwise (fun i _ => rd src i) 0 0 n dest (Z.le_refl 0) Hn).
Qed.

Lemma add_spec :
  lenZ (add dest src n) = lenZ dest /\
  forall k, rd (add dest src n) k
            = if ((0 <=? k) && (k <? n))%Z%bool then rd dest k + rd src k else rd dest k.
Proof.
  exact (for_range_pointwise (fun i x => x + rd src i) 0 0 n dest (Z.le_refl 0) Hn).
Qed.

Lemma multiply_spec (c : R) :
  lenZ (multiply dest c n) = lenZ dest /\
  forall k, rd (multiply dest c n) k = if ((0 <=? k) && (k <? n))%Z%bool then rd dest k * c else rd dest k.
Proof.
  exact (for_range_pointwise (fun i x => x * c) 0 0 n dest (Z.le_refl 0) Hn).
Qed.

Lemma addWithMultiply_spec (c : R) :
  lenZ (addWithMultiply dest src c n) = lenZ dest /\
  forall k, rd (addWithMultiply dest src c n) k
            = if ((0 <=? k) && (k <? n))%Z%bool then rd dest k + rd src k * c else rd dest k.
Proof.
  exact (for_range_pointwise (fun i x => x + rd src i * c) 0 0 n dest (Z.le_refl 0) Hn).
Qed.

Lemma clear_spec :
  lenZ (clear dest n) = lenZ dest /\
  forall k, rd (clear dest n) k = if ((0 <=? k) && (k <? n))%Z%bool then 0 else rd dest k.
Proof.
  exact (for_range_pointwise (fun i _ => 0) 0 0 n dest (Z.le_refl 0) Hn).
Qed.

End VectorOps.

(** ** Comparisons *)

Lemma gtb_true (a b : R) : b < a -> gtb a b = true.
Proof. intros H. unfold gtb. destruct (Rlt_dec b a); [reflexivity|contradiction]. Qed.

Lemma gtb_false (a b : R) : a <= b -> gtb a b = false.
Proof. intros H. unfold gtb. destruct (Rlt_dec b a); [lra|reflexivity]. Qed.

(** ** Clearing the unused output channels *)

Lemma clearUnused_channels (p : DdxReverbAudioProcessor.t) (b : AudioBuffer.t) :
  AudioBuffer.numSamples (DdxReverbAudioProcessor.clearUnused p b) = AudioBuffer.numSamples b
  /\ AudioBuffer.channels (DdxReverbAudioProcessor.clearUnused p b)
     = for_range (DdxReverbAudioProcessor.totalNumInputChannels p)
         (DdxReverbAudioProcessor.totalNumOutputChannels p)
         (fun i chs =>
            wr chs i (juce.FloatVectorOperations.clear (rdA [] chs i) (AudioBuffer.numSamples b)))
         (AudioBuffer.channels b).
Proof.
  unfold DdxReverbAudioProcessor.clearUnused, for_range.
  set (n := Z.to_nat _). set (lo := DdxReverbAudioProcessor.totalNumInputChannels p).
  clearbody n lo. revert lo b.
  induction n as [|n IH]; intros lo b; cbn [for_loop]; auto.
  destruct (IH (lo + 1)%Z (AudioBuffer.clearRegion b lo (AudioBuffer.getNumSamples b)))
    as [H1 H2].
  split; [exact H1|]. rewrite H2. reflexivity.
Qed.

Lemma clearUnused_spec (p : DdxReverbAudioProcessor.t) (b : AudioBuffer.t) :
  fits p b ->
  let b' := DdxReverbAudioProcessor.clearUnused p b in
  AudioBuffer.getNumSamples b' = AudioBuffer.getNumSamples b /\
  AudioBuffer.getNumChannels b' = AudioBuffer.getNumChannels b /\
  (forall ch,
     (ch < DdxReverbAudioProcessor.totalNumInputChannels p)%Z ->
     AudioBuffer.chan b' ch = AudioBuffer.chan b ch) /\
  (forall ch,
     (DdxReverbAudioProcessor.totalNumInputChannels p <= ch
      < DdxReverbAudioProcessor.totalNumOutputChannels p)%Z ->
     lenZ (AudioBuffer.chan b' ch) = AudioBuffer.getNumSamples b /\
     forall i, (0 <= i < AudioBuffer.getNumSamples b)%Z ->
               rd (AudioBuffer.chan b' ch) i = 0).
Proof.
  intros (Hin & Hout & Hns & Hlen). cbv zeta.
  destruct (clearUnused_channels p b) as [HN HC].
  unfold AudioBuffer.getNumSamples, AudioBuffer.getNumChannels, AudioBuffer.chan in *.
  rewrite HN, HC.
  destruct (for_range_pointwise
              (fun (i : Z) c => juce.FloatVectorOperations.clear c (AudioBuffer.numSamples b))
              [] (DdxReverbAudioProcessor.totalNumInputChannels p)
              (DdxReverbAudioProcessor.totalNumOutputChannels p)
              (AudioBuffer.channels b) Hin Hout) as [HL HP].
  split; [reflexivity|]. split; [exact HL|]. split.
  - intros ch Hch. rewrite HP.
    destruct (DdxReverbAudioProcessor.totalNumInputChannels p <=? ch)%Z eqn:E; [lia|].
    reflexivity.
  - intros ch Hch. rewrite HP.
    destruct (DdxReverbAudioProcessor.totalNumInputChannels p <=? ch)%Z eqn:E1; [|lia].
    destruct (ch <? DdxReverbAudioProcessor.totalNumOutputChannels p)%Z eqn:E2; [|lia].
    cbn [andb].
    assert (HLc : lenZ (rdA [] (AudioBuffer.channels b) ch) = AudioBuffer.numSamples b).
    { rewrite Forall_forall in Hlen. apply Hlen. unfold rdA.
      destruct (ch <? 0)%Z eqn:E3; [lia|]. apply nth_In. unfold lenZ in Hout. lia. }
    destruct (clear_spec (rdA [] (AudioBuffer.channels b) ch) (AudioBuffer.numSamples b))
      as [HL' HP']; [lia|].
    split; [lia|]. intros i Hi. rewrite HP'.
    destruct (0 <=? i)%Z eqn:E4; [|lia].
    destruct (i <? AudioBuffer.numSamples b)%Z eqn:E5; [|lia]. reflexivity.
Qed.

(** ** Bypass *)

Lemma processBlock_bypassed (simdWidth : Z) (G : Statics)
    (p : DdxReverbAudioProcessor.t) (prm : Params) (buf : AudioBuffer.t) (t0 t1 : R) :
  gtb (bypass prm) 0.5 = true ->
  DdxReverbAudioProcessor.processBlock simdWidth G p prm buf t0 t1
  = (G, p, DdxReverbAudioProcessor.clearUnused p buf).
Proof.
  intros H. unfold DdxReverbAudioProcessor.processBlock. rewrite H. reflexivity.
Qed.



(** ** The CPU meter *)

Lemma stepBlock_bypassed (simdWidth : Z) (st : Statics * DdxReverbAudioProcessor.t)
    (b : Block) :
  bypassed b = true -> stepBlock simdWidth st b = st.
Proof.
  intros H. unfold stepBlock, bypassed in *.
  rewrite processBlock_bypassed by exact H. destruct st; reflexivity.
Qed.

Lemma runBlocks_bypassed (simdWidth : Z) (bs : list Block)
    (st : Statics * DdxReverbAudioProcessor.t) :
  Forall (fun b => bypassed b = true) bs -> runBlocks simdWidth st bs = st.
Proof.
  intros H. revert st. induction H as [|b bs Hb _ IH]; intros st; simpl; auto.
  rewrite stepBlock_bypassed by exact Hb. apply IH.
Qed.

(** C10.  A bypassed block returns before the CPU measurement, so
    [getCpuUsage] is not changed by bypassed blocks: after any run of
    bypassed blocks it is what it was before the run; it is [0.0] when the
    run starts at a freshly constructed processor; and it is the measurement
    of the last block that was not bypassed when the run follows such a
    block. *)
Theorem C10_bypass_keeps_cpu_usage (simdWidth : Z) (bs : list Block) :
  Forall (fun b => bypassed b = true) bs ->
  (forall st,
     DdxReverbAudioProcessor.getCpuUsage (snd (runBlocks simdWidth st bs))
     = DdxReverbAudioProcessor.getCpuUsage (snd st)) /\
  (forall G nIn nOut,
     DdxReverbAudioProcessor.getCpuUsage
       (snd (runBlocks simdWidth (G, DdxReverbAudioProcessor.construct nIn nOut) bs))
     = 0) /\
  (forall st b,
     bypassed b = false ->
     DdxReverbAudioProcessor.getCpuUsage
       (snd (runBlocks simdWidth st (b :: bs)))
     = DdxReverbAudioProcessor.cpuOf (bStart b) (bEnd b)
         (AudioBuffer.getNumSamples (bBuffer b))
         (DdxReverbAudioProcessor.currentSampleRate (snd st))).
Proof.
  intros H. split; [|split].
  - intros st. now rewrite runBlocks_bypassed.
  - intros G nIn nOut. now rewrite runBlocks_bypassed.
  - intros st b Hb. cbn [runBlocks fold_left].
    fold (runBlocks simdWidth (stepBlock simdWidth st b) bs).
    rewrite runBlocks_bypassed by exact H.
    unfold stepBlock, bypassed, DdxReverbAudioProcessor.processBlock in *.
    rewrite Hb. reflexivity.
Qed.

Lemma C10_bypass_keeps_cpu_usage_witness :
  let b := mkBlock (mkParams 5 50 50 10 0 0 0.5 1 0) (AudioBuffer.mk [[1]; [1]] 1) 0 1 in
  DdxReverbAudioProcessor.getCpuUsage
    (snd (runBlocks 4 (initialStatics, DdxReverbAudioProcessor.construct 2 2) [b; b]))
  = 0.
Proof.
  intros b.
  assert (Hb : bypassed b = true) by (apply gtb_true; simpl; lra).
  exact (proj1 (proj2 (C10_bypass_keeps_cpu_usage 4 [b; b]
                         (Forall_cons b Hb (Forall_cons b Hb (Forall_nil _)))))
               initialStatics 2%Z 2%Z).
Defined.

(** ** Scalar filter loops against the per-sample descriptions *)

Lemma run_length {X : Type} (stp : X -> R -> X * R) (xs : list R) (st : X) :
  length (snd (Spec.run stp st xs)) = length xs.
Proof.
  revert st; induction xs as [|x xs IH]; intros st; simpl; auto.
  destruct (stp st x) as [st1 y]. specialize (IH st1).
  destruct (Spec.run stp st1 xs) as [st2 ys]. simpl in *. now rewrite IH.
Qed.

Lemma loop_run {X : Type} (stp : X -> R -> X * R) (input : InputRef) (xs : list R) :
  forall (i : Z) (st : X) (out : list R),
  (0 <= i)%Z -> (i + lenZ xs <= lenZ out)%Z ->
  (forall k, (k < length xs)%nat -> rdIn input out (i + Z.of_nat k) = nth k xs 0) ->
  let res := for_loop (length xs) i 1 (bodyF stp input) (st, out) in
  fst res = fst (Spec.run stp st xs) /\
  lenZ (snd res) = lenZ out /\
  forall k, rd (snd res) k
            = if ((i <=? k) && (k <? i + lenZ xs))%Z%bool
              then nth (Z.to_nat (k - i)) (snd (Spec.run stp st xs)) 0
              else rd out k.
Proof.
  induction xs as [|x xs IH]; intros i st out Hi Hlen Hin; cbn [for_loop length Spec.run].
  - cbn [fst snd]. split; [reflexivity|]. split; [reflexivity|].
    intros k. unfold lenZ; cbn [length].
    destruct (i <=? k)%Z eqn:E1, (k <? i + Z.of_nat 0)%Z eqn:E2; simpl; auto; lia.
  - assert (Hx : rdIn input out i = x).
    { specialize (Hin O). cbn [nth length] in Hin. rewrite Z.add_0_r in Hin.
      apply Hin. lia. }
    destruct (stp st x) as [st1 y] eqn:Es.
    assert (Hb : bodyF stp input i (st, out) = (st1, wr out i y)).
    { unfold bodyF. cbn [fst snd]. now rewrite Hx, Es. }
    rewrite Hb.
    unfold lenZ in Hlen; cbn [length] in Hlen.
    specialize (IH (i + 1)%Z st1 (wr out i y)).
    destruct IH as (IH1 & IH2 & IH3).
    + lia.
    + rewrite lenZ_wr. unfold lenZ. lia.
    + intros k Hk.
      replace (i + 1 + Z.of_nat k)%Z with (i + Z.of_nat (S k))%Z by lia.
      pose proof (Hin (S k)) as HS. cbn [nth length] in HS.
      rewrite <- HS by lia.
      destruct input as [inp|]; cbn [rdIn]; [reflexivity|].
      apply rd_wr_other. lia.
    + destruct (Spec.run stp st1 xs) as [st2 ys]. cbn [fst snd] in *.
      split; [exact IH1|]. split; [now rewrite IH2, lenZ_wr|].
      intros k. rewrite IH3. unfold lenZ; cbn [length].
      destruct (Z.eq_dec k i) as [->|Hne].
      * destruct (i + 1 <=? i)%Z eqn:E1; [lia|]. cbn [andb].
        rewrite rd_wr_same by (unfold lenZ; lia).
        destruct (i <=? i)%Z eqn:E3; [|lia].
        destruct (i <? i + Z.of_nat (S (length xs)))%Z eqn:E4; [|lia].
        cbn [andb]. now rewrite Z.sub_diag.
      * rewrite rd_wr_other by auto.
        destruct (i + 1 <=? k)%Z eqn:E1, (k <? i + 1 + Z.of_nat (length xs))%Z eqn:E2,
                 (i <=? k)%Z eqn:E3, (k <? i + Z.of_nat (S (length xs)))%Z eqn:E4;
          cbn [andb]; auto; try lia.
        replace (Z.to_nat (k - i)) with (S (Z.to_nat (k - (i + 1)))) by lia.
        reflexivity.
Qed.

Lemma rd_app_skipn (ys out : list R) (k : Z) :
  (length ys <= length out)%nat ->
  rd (ys ++ skipn (length ys) out) k
  = if ((0 <=? k) && (k <? lenZ ys))%Z%bool then nth (Z.to_nat (k - 0)) ys 0 else rd out k.
Proof.
  intros H. unfold rdA, lenZ. rewrite Z.sub_0_r.
  destruct (k <? 0)%Z eqn:E0.
  - destruct (0 <=? k)%Z eqn:E1; [lia|]. reflexivity.
  - destruct (0 <=? k)%Z eqn:E1; [|lia]. cbn [andb].
    destruct (k <? Z.of_nat (length ys))%Z eqn:E2.
    + apply app_nth1. lia.
    + rewrite app_nth2 by lia. rewrite nth_skipn. f_equal. lia.
Qed.

(** The whole block of a loop on [(state, output)] pairs. *)
Lemma loop_run_block {X : Type} (stp : X -> R -> X * R) (xs out : list R) (st : X) :
  (length xs <= length out)%nat ->
  for_range 0 (lenZ xs) (bodyF stp (Distinct xs)) (st, out)
  = (fst (Spec.run stp st xs),
     snd (Spec.run stp st xs) ++ skipn (length xs) out).
Proof.
  intros Hlen. unfold for_range.
  replace (Z.to_nat (lenZ xs - 0)) with (length xs) by (unfold lenZ; lia).
  destruct (loop_run stp (Distinct xs) xs 0 st out) as (H1 & H2 & H3).
  - lia.
  - unfold lenZ. lia.
  - intros k Hk. cbn [rdIn]. unfold rdA.
    destruct (0 + Z.of_nat k <? 0)%Z eqn:E; [lia|].
    f_equal. lia.
  - cbv zeta in *.
    destruct (for_loop (length xs) 0 1 (bodyF stp (Distinct xs)) (st, out)) as [st' out'].
    cbn [fst snd] in *. f_equal; [exact H1|].
    pose proof (run_length stp xs st) as HL.
    apply (list_eq_rd _ _ 0).
    + rewrite H2. unfold lenZ. rewrite length_app, length_skipn. lia.
    + intros k _. rewrite H3. rewrite <- HL. rewrite rd_app_skipn by lia.
      unfold lenZ. rewrite !HL, Z.add_0_l. reflexivity.
Qed.

Lemma comb_body_view (input : InputRef) (len : Z) (g damp : R) (i : Z)
    (s : SharcCombFilter.locals) :
  combView (SharcCombFilter.scalarBody input len g damp i s)
  = bodyF (Spec.combStep len g damp) input i (combView s).
Proof. reflexivity. Qed.

Lemma allpass_body_view (input : InputRef) (len : Z) (g : R) (i : Z)
    (s : SharcAllpassFilter.locals) :
  allpassView (SharcAllpassFilter.scalarBody input len g i s)
  = bodyF (Spec.allpassStep len g) input i (allpassView s).
Proof.
  unfold allpassView, SharcAllpassFilter.scalarBody, bodyF, Spec.allpassStep.
  cbn [fst snd SharcAllpassFilter.buffer SharcAllpassFilter.idx SharcAllpassFilter.output].
  rewrite (Rmult_comm (rd (SharcAllpassFilter.buffer s) (SharcAllpassFilter.idx s)) g).
  reflexivity.
Qed.

(** The scalar comb loop, on its local variables, is the per-sample step of
    section 4.2 run over the block. *)
Lemma comb_scalar_loop (f : SharcCombFilter.t) (xs out : list R) :
  (length xs <= length out)%nat ->
  let r := Spec.combRun (SharcCombFilter.delaySamples f) (SharcCombFilter.feedbackGain f)
             (SharcCombFilter.dampingCoeff f)
             (SharcCombFilter.delayLine f, SharcCombFilter.writeIndex f,
              SharcCombFilter.filterState f) xs in
  combView
    (for_range 0 (lenZ xs)
       (SharcCombFilter.scalarBody (Distinct xs) (SharcCombFilter.delaySamples f)
          (SharcCombFilter.feedbackGain f) (SharcCombFilter.dampingCoeff f))
       (SharcCombFilter.start f out))
  = (fst r, snd r ++ skipn (length xs) out).
Proof.
  intros Hlen r. unfold for_range.
  rewrite (for_loop_morph combView _ 0 1 _
             (bodyF (Spec.combStep (SharcCombFilter.delaySamples f)
                       (SharcCombFilter.feedbackGain f) (SharcCombFilter.dampingCoeff f))
                    (Distinct xs)) _ (comb_body_view _ _ _ _)).
  exact (loop_run_block _ xs out _ Hlen).
Qed.

(** C8.  On a prepared comb filter, from any state and for any input block,
    [processBlockScalar] is the per-sample step of section 4.2 run over the
    block: each sample reads [delayed] at the cursor before the write,
    updates the damping memory to [delayed + d * (flt - delayed)], writes
    [input + g * flt] at the cursor and to the output, and moves the cursor
    on by one, back to 0 at the active delay length.  The output array holds
    the step's outputs in its first [numSamples] places, and the filter
    keeps the delay line, cursor and damping memory the last step left. *)
Theorem C8_comb_scalar_follows_step (f : SharcCombFilter.t) (xs out : list R) :
  SharcCombFilter.prepared f = true ->
  (length xs <= length out)%nat ->
  let r := Spec.combRun (SharcCombFilter.delaySamples f) (SharcCombFilter.feedbackGain f)
             (SharcCombFilter.dampingCoeff f)
             (SharcCombFilter.delayLine f, SharcCombFilter.writeIndex f,
              SharcCombFilter.filterState f) xs in
  SharcCombFilter.processBlockScalar f (Distinct xs) out (lenZ xs)
  = (SharcCombFilter.mk (fst (fst (fst r))) (SharcCombFilter.delaySamples f)
       (snd (fst (fst r))) (SharcCombFilter.feedbackGain f)
       (SharcCombFilter.dampingCoeff f) (snd (fst r)) (SharcCombFilter.sRate f) true,
     snd r ++ skipn (length xs) out).
Proof.
  intros Hp Hlen r. unfold SharcCombFilter.processBlockScalar. rewrite Hp. cbn [negb].
  pose proof (comb_scalar_loop f xs out Hlen) as HM. cbv zeta in HM. fold r in HM.
  destruct (for_range 0 (lenZ xs) _ (SharcCombFilter.start f out)) as [b i fl o].
  unfold combView in HM. cbn [SharcCombFilter.buffer SharcCombFilter.idx
    SharcCombFilter.flt SharcCombFilter.output] in HM.
  unfold SharcCombFilter.finish. cbn [SharcCombFilter.buffer SharcCombFilter.idx
    SharcCombFilter.flt SharcCombFilter.output].
  rewrite Hp. inversion HM; subst. reflexivity.
Qed.

Lemma C8_comb_scalar_follows_step_witness :
  let f := SharcCombFilter.prepare SharcCombFilter.default 48000 2 0.5 5000 in
  let xs := [1; 0; 0] in
  let out := [0; 0; 0] in
  let r := Spec.combRun (SharcCombFilter.delaySamples f) (SharcCombFilter.feedbackGain f)
             (SharcCombFilter.dampingCoeff f)
             (SharcCombFilter.delayLine f, SharcCombFilter.writeIndex f,
              SharcCombFilter.filterState f) xs in
  SharcCombFilter.processBlockScalar f (Distinct xs) out (lenZ xs)
  = (SharcCombFilter.mk (fst (fst (fst r))) (SharcCombFilter.delaySamples f)
       (snd (fst (fst r))) (SharcCombFilter.feedbackGain f)
       (SharcCombFilter.dampingCoeff f) (snd (fst r)) (SharcCombFilter.sRate f) true,
     snd r ++ skipn (length xs) out).
Proof.
  apply (C8_comb_scalar_follows_step
           (SharcCombFilter.prepare SharcCombFilter.default 48000 2 0.5 5000)
           [1; 0; 0] [0; 0; 0]).
  - reflexivity.
  - simpl. lia.
Defined.

(** The scalar allpass loop is the per-sample step of section 4.3 run over
    the block. *)
Lemma allpass_scalar_follows_step (f : SharcAllpassFilter.t) (xs out : list R) :
  SharcAllpassFilter.prepared f = true ->
  (length xs <= length out)%nat ->
  let r := Spec.allpassRun (SharcAllpassFilter.delaySamples f) (SharcAllpassFilter.apGain f)
             (SharcAllpassFilter.delayLine f, SharcAllpassFilter.writeIndex f) xs in
  SharcAllpassFilter.processBlockScalar f (Distinct xs) out (lenZ xs)
  = (SharcAllpassFilter.mk (fst (fst r)) (SharcAllpassFilter.delaySamples f)
       (snd (fst r)) (SharcAllpassFilter.apGain f) true,
     snd r ++ skipn (length xs) out).
Proof.
  intros Hp Hlen r. unfold SharcAllpassFilter.processBlockScalar. rewrite Hp. cbn [negb].
  pose proof (for_loop_morph allpassView (Z.to_nat (lenZ xs - 0)) 0 1
                (SharcAllpassFilter.scalarBody (Distinct xs)
                   (SharcAllpassFilter.delaySamples f) (SharcAllpassFilter.apGain f))
                (bodyF (Spec.allpassStep (SharcAllpassFilter.delaySamples f)
                          (SharcAllpassFilter.apGain f))
                       (Distinct xs))
                (SharcAllpassFilter.start f out)
                (allpass_body_view _ _ _)) as HM.
  fold (for_range 0 (lenZ xs)
          (SharcAllpassFilter.scalarBody (Distinct xs)
             (SharcAllpassFilter.delaySamples f) (SharcAllpassFilter.apGain f))
          (SharcAllpassFilter.start f out)) in HM.
  fold (for_range 0 (lenZ xs)
          (bodyF (Spec.allpassStep (SharcAllpassFilter.delaySamples f)
                    (SharcAllpassFilter.apGain f))
                 (Distinct xs))
          (allpassView (SharcAllpassFilter.start f out))) in HM.
  unfold allpassView at 2 in HM. cbn [SharcAllpassFilter.start SharcAllpassFilter.buffer
    SharcAllpassFilter.idx SharcAllpassFilter.output] in HM.
  rewrite loop_run_block in HM by exact Hlen.
  fold (Spec.allpassRun (SharcAllpassFilter.delaySamples f)
          (SharcAllpassFilter.apGain f)) in HM. fold r in HM.
  destruct (for_range 0 (lenZ xs) _ (SharcAllpassFilter.start f out)) as [b i o].
  unfold allpassView in HM. cbn [SharcAllpassFilter.buffer SharcAllpassFilter.idx
    SharcAllpassFilter.output] in HM.
  unfold SharcAllpassFilter.finish. cbn [SharcAllpassFilter.buffer SharcAllpassFilter.idx
    SharcAllpassFilter.output].
  rewrite Hp.
  inversion HM; subst. reflexivity.
Qed.

(** C9.  The scalar allpass loop does compute [out = -g * input + delayed]
    and write [input + g * delayed] at the cursor, as
    [allpass_scalar_follows_step] shows, but that is not the recurrence
    [y[n] = -g*x[n] + x[n-M] + g*y[n-M]] of the class comment.  On the
    filter [prepare] builds with a delay line of one sample and gain 0.5,
    the input [1, 0] gives [y[0] = -0.5] and [y[1] = 1], where the
    recurrence asks for [y[1] = -0.5*0 + 1 + 0.5*(-0.5) = 0.75]. *)
Theorem C9_allpass_misses_schroeder_recurrence :
  let f := SharcAllpassFilter.prepare SharcAllpassFilter.default 48000 1 0.5 in
  let x := [1; 0] in
  let y := snd (SharcAllpassFilter.processBlockScalar f (Distinct x) [0; 0] 2) in
  let g := SharcAllpassFilter.apGain f in
  let M := SharcAllpassFilter.delaySamples f in
  M = 1%Z /\ y = [- 0.5; 1] /\
  - g * rd x 1 + rd x (1 - M) + g * rd y (1 - M) = 0.75 /\
  rd y 1 <> - g * rd x 1 + rd x (1 - M) + g * rd y (1 - M).
Proof.
  cbv zeta.
  assert (Hy : snd (SharcAllpassFilter.processBlockScalar
                      (SharcAllpassFilter.prepare SharcAllpassFilter.default 48000 1 0.5)
                      (Distinct [1; 0]) [0; 0] 2) = [- 0.5; 1]).
  { change 2%Z with (lenZ [1; 0]).
    rewrite allpass_scalar_follows_step by (try reflexivity; simpl; lia).
    eval_arrays. f_equal; [lra|]. f_equal. lra. }
  rewrite Hy. eval_arrays.
  split; [reflexivity|]. split; [reflexivity|]. split; lra.
Qed.

(** ** The SIMD loops on a short delay line *)

(** C2.  With an active delay length below the register width the SIMD
    loops do not compute what the scalar loops compute.  On a comb filter
    and an allpass filter whose delay line holds one sample, with a
    register of four lanes and the input [1, 0, 0, 0], the scalar comb
    feeds every sample back into the next one and the SIMD comb reads the
    four delayed samples before it writes any: the outputs differ by 0.35 at
    sample 1 (the equivalence asks for 1e-4), and so do the delay lines and
    damping memories the two leave behind.  The allpass loops differ by 1 at
    sample 1. *)
Theorem C2_simd_differs_on_short_delay_line :
  let x := [1; 0; 0; 0] in
  let out := [0; 0; 0; 0] in
  let comb := SharcCombFilter.mk [0] 1 0 0.7 0.5 0 48000 true in
  let ap := SharcAllpassFilter.mk [0] 1 0 0.5 true in
  let cs := SharcCombFilter.processBlockScalar comb (Distinct x) out 4 in
  let cv := SharcCombFilter.processBlockSIMD 4 comb (Distinct x) out 4 in
  let as_ := SharcAllpassFilter.processBlockScalar ap (Distinct x) out 4 in
  let av := SharcAllpassFilter.processBlockSIMD 4 ap (Distinct x) out 4 in
  snd cs = [1; 0.35; 0.2975; 0.252875] /\ snd cv = [1; 0; 0; 0] /\
  SharcCombFilter.delayLine (fst cs) = [0.252875] /\
  SharcCombFilter.delayLine (fst cv) = [0] /\
  SharcCombFilter.filterState (fst cs) = 0.36125 /\
  SharcCombFilter.filterState (fst cv) = 0 /\
  snd as_ = [-0.5; 1; 0.5; 0.25] /\ snd av = [-0.5; 0; 0; 0] /\
  SharcAllpassFilter.delayLine (fst as_) = [0.125] /\
  SharcAllpassFilter.delayLine (fst av) = [0] /\
  1e-4 < Rabs (rd (snd cs) 1 - rd (snd cv) 1) /\
  1e-4 < Rabs (rd (snd as_) 1 - rd (snd av) 1).
Proof.
  cbv zeta.
  assert (H1 : snd (SharcCombFilter.processBlockScalar
                      (SharcCombFilter.mk [0] 1 0 0.7 0.5 0 48000 true)
                      (Distinct [1; 0; 0; 0]) [0; 0; 0; 0] 4)
               = [1; 0.35; 0.2975; 0.252875]) by (eval_arrays; list_lra).
  assert (H2 : snd (SharcCombFilter.processBlockSIMD 4
                      (SharcCombFilter.mk [0] 1 0 0.7 0.5 0 48000 true)
                      (Distinct [1; 0; 0; 0]) [0; 0; 0; 0] 4)
               = [1; 0; 0; 0]) by (eval_arrays; list_lra).
  assert (H3 : snd (SharcAllpassFilter.processBlockScalar
                      (SharcAllpassFilter.mk [0] 1 0 0.5 true)
                      (Distinct [1; 0; 0; 0]) [0; 0; 0; 0] 4)
               = [-0.5; 1; 0.5; 0.25]) by (eval_arrays; list_lra).
  assert (H4 : snd (SharcAllpassFilter.processBlockSIMD 4
                      (SharcAllpassFilter.mk [0] 1 0 0.5 true)
                      (Distinct [1; 0; 0; 0]) [0; 0; 0; 0] 4)
               = [-0.5; 0; 0; 0]) by (eval_arrays; list_lra).
  rewrite H1, H2, H3, H4.
  repeat split.
  - eval_arrays; list_lra.
  - eval_arrays; list_lra.
  - eval_arrays; lra.
  - eval_arrays; lra.
  - eval_arrays; list_lra.
  - eval_arrays; list_lra.
  - eval_arrays. rewrite Rabs_right; lra.
  - eval_arrays. rewrite Rabs_right; lra.
Qed.

(** ** prepareToPlay *)

Lemma for_loop_inv {St : Type} (P : St -> Prop) (n : nat) (i step : Z)
    (body : Z -> St -> St) (s : St) :
  (forall k s', P s' -> P (body k s')) -> P s -> P (for_loop n i step body s).
Proof.
  intros H. revert i s; induction n as [|n IH]; intros i s Hs; simpl; auto.
Qed.

Lemma Forall_rd {A : Type} (P : A -> Prop) (dflt : A) (l : list A) :
  (forall c, (0 <= c < lenZ l)%Z -> P (rdA dflt l c)) -> Forall P l.
Proof.
  intros H. apply Forall_forall. intros x Hx.
  destruct (In_nth l x dflt Hx) as (n & Hn & <-).
  specialize (H (Z.of_nat n)). unfold rdA, lenZ in H.
  destruct (Z.of_nat n <? 0)%Z eqn:E; [lia|].
  rewrite Nat2Z.id in H. apply H. lia.
Qed.

Lemma rd_Forall {A : Type} (P : A -> Prop) (dflt : A) (l : list A) (c : Z) :
  Forall P l -> (0 <= c < lenZ l)%Z -> P (rdA dflt l c).
Proof.
  intros H Hc. rewrite Forall_forall in H. apply H. unfold rdA, lenZ in *.
  destruct (c <? 0)%Z eqn:E; [lia|]. apply nth_In. lia.
Qed.

Lemma lenZ_zeros (n : Z) : lenZ (zeros n) = Z.max n 0.
Proof. unfold lenZ, zeros. rewrite repeat_length. lia. Qed.

Lemma zeros_lenZ_zeros (n : Z) : zeros (lenZ (zeros n)) = zeros n.
Proof. rewrite lenZ_zeros. unfold zeros. f_equal. lia. Qed.

Lemma rd_zeros (n i : Z) : rd (zeros n) i = 0.
Proof.
  unfold rdA, zeros. destruct (i <? 0)%Z; auto.
  destruct (Nat.lt_ge_cases (Z.to_nat i) (Z.to_nat n)) as [H|H].
  - now apply nth_repeat_lt.
  - apply nth_overflow. now rewrite repeat_length.
Qed.

Lemma prepareToPlay_combs (p : DdxReverbAudioProcessor.t) (sr : R) (n : Z) :
  wellFormed p ->
  let cs := DdxReverbAudioProcessor.combs (DdxReverbAudioProcessor.prepareToPlay p sr n) in
  lenZ cs = DdxReverbAudioProcessor.numCombs /\
  forall c, (0 <= c < DdxReverbAudioProcessor.numCombs)%Z ->
    DdxReverbAudioProcessor.combAt cs c
    = SharcCombFilter.setDelaySamples
        (SharcCombFilter.prepare
           (DdxReverbAudioProcessor.combAt (DdxReverbAudioProcessor.combs p) c)
           sr (juce.static_cast_int (sr * 0.1)) 0.7 5000)
        (juce.static_cast_int
           (IZR (DdxReverbAudioProcessor.tableAt DdxReverbAudioProcessor.combDelays c)
            * sr / 48000)).
Proof.
  intros [Hc _]. cbv zeta.
  destruct (for_range_pointwise
              (fun i c =>
                 SharcCombFilter.setDelaySamples
                   (SharcCombFilter.prepare c sr (juce.static_cast_int (sr * 0.1)) 0.7 5000)
                   (juce.static_cast_int
                      (IZR (DdxReverbAudioProcessor.tableAt
                              DdxReverbAudioProcessor.combDelays i) * sr / 48000)))
              SharcCombFilter.default 0 DdxReverbAudioProcessor.numCombs
              (DdxReverbAudioProcessor.combs p)) as [HL HP]; [lia|lia|].
  split.
  - etransitivity; [exact HL|exact Hc].
  - intros c Hcr. unfold DdxReverbAudioProcessor.combAt.
    etransitivity; [apply HP|].
    destruct (0 <=? c)%Z eqn:E1; [|lia].
    destruct (c <? DdxReverbAudioProcessor.numCombs)%Z eqn:E2; [|lia].
    reflexivity.
Qed.

Lemma prepareToPlay_allpasses (p : DdxReverbAudioProcessor.t) (sr : R) (n : Z) :
  wellFormed p ->
  let aps := DdxReverbAudioProcessor.allpasses (DdxReverbAudioProcessor.prepareToPlay p sr n) in
  lenZ aps = DdxReverbAudioProcessor.numAllpasses /\
  forall c, (0 <= c < DdxReverbAudioProcessor.numAllpasses)%Z ->
    DdxReverbAudioProcessor.apAt aps c
    = SharcAllpassFilter.setDelaySamples
        (SharcAllpassFilter.prepare
           (DdxReverbAudioProcessor.apAt (DdxReverbAudioProcessor.allpasses p) c)
           sr (juce.static_cast_int (sr * 0.05)) 0.5)
        (juce.static_cast_int
           (IZR (DdxReverbAudioProcessor.tableAt DdxReverbAudioProcessor.allpassDelays c)
            * sr / 48000)).
Proof.
  intros [_ Ha]. cbv zeta.
  destruct (for_range_pointwise
              (fun i a =>
                 SharcAllpassFilter.setDelaySamples
                   (SharcAllpassFilter.prepare a sr (juce.static_cast_int (sr * 0.05)) 0.5)
                   (juce.static_cast_int
                      (IZR (DdxReverbAudioProcessor.tableAt
                              DdxReverbAudioProcessor.allpassDelays i) * sr / 48000)))
              SharcAllpassFilter.default 0 DdxReverbAudioProcessor.numAllpasses
              (DdxReverbAudioProcessor.allpasses p)) as [HL HP]; [lia|lia|].
  split.
  - etransitivity; [exact HL|exact Ha].
  - intros c Hcr. unfold DdxReverbAudioProcessor.apAt.
    etransitivity; [apply HP|].
    destruct (0 <=? c)%Z eqn:E1; [|lia].
    destruct (c <? DdxReverbAudioProcessor.numAllpasses)%Z eqn:E2; [|lia].
    reflexivity.
Qed.

(** After [prepareToPlay] every member that holds audio is silent: the
    pre-delay line and its cursor, the four combs and the eight allpasses.
    The static hi-cut memory is no member, and [prepareToPlay] cannot reach
    it. *)
Lemma prepareToPlay_members_silent (p : DdxReverbAudioProcessor.t) (sr : R) (n : Z) :
  wellFormed p ->
  let p' := DdxReverbAudioProcessor.prepareToPlay p sr n in
  wellFormed p' /\
  DdxReverbAudioProcessor.preDelayBuffer p'
  = zeros (lenZ (DdxReverbAudioProcessor.preDelayBuffer p')) /\
  DdxReverbAudioProcessor.preDelayWritePos p' = 0%Z /\
  Forall combSilent (DdxReverbAudioProcessor.combs p') /\
  Forall (fun c => SharcCombFilter.prepared c = true) (DdxReverbAudioProcessor.combs p') /\
  Forall allpassSilent (DdxReverbAudioProcessor.allpasses p') /\
  Forall (fun a => SharcAllpassFilter.prepared a = true)
    (DdxReverbAudioProcessor.allpasses p').
Proof.
  intros Hwf. cbv zeta.
  destruct (prepareToPlay_combs p sr n Hwf) as [HLc HPc].
  destruct (prepareToPlay_allpasses p sr n Hwf) as [HLa HPa].
  split; [split; assumption|].
  split; [cbn; now rewrite zeros_lenZ_zeros|].
  split; [reflexivity|].
  split; [|split; [|split]].
  - apply (Forall_rd _ SharcCombFilter.default). intros c Hc.
    rewrite HLc in Hc. fold (DdxReverbAudioProcessor.combAt
      (DdxReverbAudioProcessor.combs (DdxReverbAudioProcessor.prepareToPlay p sr n)) c).
    rewrite (HPc c Hc). unfold combSilent. cbn.
    now rewrite zeros_lenZ_zeros.
  - apply (Forall_rd _ SharcCombFilter.default). intros c Hc.
    rewrite HLc in Hc. fold (DdxReverbAudioProcessor.combAt
      (DdxReverbAudioProcessor.combs (DdxReverbAudioProcessor.prepareToPlay p sr n)) c).
    rewrite (HPc c Hc). reflexivity.
  - apply (Forall_rd _ SharcAllpassFilter.default). intros c Hc.
    rewrite HLa in Hc. fold (DdxReverbAudioProcessor.apAt
      (DdxReverbAudioProcessor.allpasses (DdxReverbAudioProcessor.prepareToPlay p sr n)) c).
    rewrite (HPa c Hc). unfold allpassSilent. cbn.
    now rewrite zeros_lenZ_zeros.
  - apply (Forall_rd _ SharcAllpassFilter.default). intros c Hc.
    rewrite HLa in Hc. fold (DdxReverbAudioProcessor.apAt
      (DdxReverbAudioProcessor.allpasses (DdxReverbAudioProcessor.prepareToPlay p sr n)) c).
    rewrite (HPa c Hc). reflexivity.
Qed.

(** ** processBlock when the block is processed *)

Lemma processBlock_running (simdWidth : Z) (G : Statics)
    (p : DdxReverbAudioProcessor.t) (prm : Params) (buf : AudioBuffer.t) (t0 t1 : R) :
  gtb (bypass prm) 0.5 = false ->
  let dry := DdxReverbAudioProcessor.clearUnused p buf in
  let w := DdxReverbAudioProcessor.wetPath simdWidth G p prm (gtb (simd prm) 0.5) dry in
  DdxReverbAudioProcessor.processBlock simdWidth G p prm buf t0 t1
  = (DdxReverbAudioProcessor.wStatics w,
     DdxReverbAudioProcessor.mk
       (DdxReverbAudioProcessor.totalNumInputChannels p)
       (DdxReverbAudioProcessor.totalNumOutputChannels p)
       (DdxReverbAudioProcessor.wCombs w)
       (DdxReverbAudioProcessor.wAllpasses w)
       (DdxReverbAudioProcessor.wPreDelayBuffer w)
       (DdxReverbAudioProcessor.wPreDelayWritePos w)
       (DdxReverbAudioProcessor.wPreDelaySamples w)
       dry
       (AudioBuffer.setChan (DdxReverbAudioProcessor.tempBuffer p) 0
          (DdxReverbAudioProcessor.wMono w))
       (DdxReverbAudioProcessor.currentSampleRate p)
       (gtb (simd prm) 0.5)
       (DdxReverbAudioProcessor.cpuOf t0 t1 (AudioBuffer.getNumSamples buf)
          (DdxReverbAudioProcessor.currentSampleRate p)),
     DdxReverbAudioProcessor.mixStage p dry (DdxReverbAudioProcessor.wMono w) (wet prm) dry).
Proof.
  intros H. unfold DdxReverbAudioProcessor.processBlock. rewrite H. reflexivity.
Qed.

(** The wet path, stage by stage. *)
Lemma wetPath_stages (simdWidth : Z) (G : Statics) (p : DdxReverbAudioProcessor.t)
    (prm : Params) (simdOn : bool) (buffer : AudioBuffer.t) :
  let n := AudioBuffer.getNumSamples buffer in
  let hc := DdxReverbAudioProcessor.hiCut (hicut prm) n G
              (DdxReverbAudioProcessor.downmix p buffer
                 (AudioBuffer.chan (DdxReverbAudioProcessor.tempBuffer p) 0)) in
  let pds := DdxReverbAudioProcessor.preDelayLength p (predelay prm) in
  let pd := DdxReverbAudioProcessor.preDelay pds n
              (DdxReverbAudioProcessor.preDelayBuffer p,
               DdxReverbAudioProcessor.preDelayWritePos p, snd hc) in
  let cb := DdxReverbAudioProcessor.combStage simdWidth simdOn n
              (DdxReverbAudioProcessor.updateCombs
                 (DdxReverbAudioProcessor.dampingFreqOf (damping prm))
                 (DdxReverbAudioProcessor.combGainOf (decay prm) (bassmult prm)
                    (DdxReverbAudioProcessor.currentSampleRate p))
                 (DdxReverbAudioProcessor.combs p))
              (snd pd) in
  let ap := DdxReverbAudioProcessor.allpassStage simdWidth simdOn n
              (juce.jmap (diffusion prm) 0 20 0.3 0.7)
              (DdxReverbAudioProcessor.allpasses p) (snd cb) in
  DdxReverbAudioProcessor.wetPath simdWidth G p prm simdOn buffer
  = DdxReverbAudioProcessor.mkWet (fst hc) (fst (fst pd)) (snd (fst pd)) pds
      (fst cb) (fst ap) (snd ap).
Proof.
  cbv zeta. unfold DdxReverbAudioProcessor.wetPath.
  destruct (DdxReverbAudioProcessor.hiCut _ _ _ _) as [G1 m1]. cbn [fst snd].
  destruct (DdxReverbAudioProcessor.preDelay _ _ _) as [[b1 w1] m2]. cbn [fst snd].
  destruct (DdxReverbAudioProcessor.combStage _ _ _ _ _) as [cs m3]. cbn [fst snd].
  destruct (DdxReverbAudioProcessor.allpassStage _ _ _ _ _ _) as [aps m4].
  reflexivity.
Qed.

(** ** The comb stage keeps what the loops do not touch *)

Lemma Forall_wr {A : Type} (Q : A -> Prop) (l : list A) (c : Z) (v : A) :
  Forall Q l -> ((0 <= c < lenZ l)%Z -> Q v) -> Forall Q (wr l c v).
Proof.
  intros HF Hv.
  destruct (Z_lt_ge_dec c 0) as [Hneg|Hpos].
  - unfold wr. destruct (c <? 0)%Z eqn:E; [exact HF|lia].
  - destruct (Z_lt_ge_dec c (lenZ l)) as [Hin|Hout].
    + apply (Forall_rd Q v). intros k Hk. rewrite lenZ_wr in Hk.
      destruct (Z.eq_dec c k) as [->|Hne].
      * rewrite rd_wr_same by lia. apply Hv. lia.
      * rewrite rd_wr_other by exact Hne. apply rd_Forall; assumption.
    + replace (wr l c v) with l; [exact HF|].
      apply (list_eq_rd _ _ v); [now rewrite lenZ_wr|].
      intros k Hk. rewrite rd_wr_other by lia. reflexivity.
Qed.

Lemma combAt_Forall (Q : SharcCombFilter.t -> Prop) (cs : list SharcCombFilter.t) (c : Z) :
  Forall Q cs -> (0 <= c < lenZ cs)%Z -> Q (DdxReverbAudioProcessor.combAt cs c).
Proof.
  intros. unfold DdxReverbAudioProcessor.combAt. now apply rd_Forall.
Qed.

Lemma combStage_Forall (simdWidth : Z) (Q : SharcCombFilter.t -> Prop)
    (simdOn : bool) (n : Z) (cs : list SharcCombFilter.t) (m : list R) :
  (forall f inp out, Q f ->
     Q (fst (DdxReverbAudioProcessor.runComb simdWidth simdOn f inp out n))) ->
  Forall Q cs ->
  Forall Q (fst (DdxReverbAudioProcessor.combStage simdWidth simdOn n cs m))
  /\ lenZ (fst (DdxReverbAudioProcessor.combStage simdWidth simdOn n cs m)) = lenZ cs.
Proof.
  intros HQ HF. unfold DdxReverbAudioProcessor.combStage, for_range.
  set (P := fun st : list SharcCombFilter.t * AudioBuffer.t * list R =>
              Forall Q (fst (fst st)) /\ lenZ (fst (fst st)) = lenZ cs).
  assert (HP : P (for_loop (Z.to_nat (DdxReverbAudioProcessor.numCombs - 0)) 0 1
                    (DdxReverbAudioProcessor.combBody simdWidth simdOn n)
                    (cs, AudioBuffer.sized 1 n, m))).
  { apply for_loop_inv.
    - intros k [[cs' cb] m'] [H1 H2]. unfold P in *. cbn [fst snd] in *.
      unfold DdxReverbAudioProcessor.combBody.
      destruct (DdxReverbAudioProcessor.runComb simdWidth simdOn
                  (DdxReverbAudioProcessor.combAt cs' k) (Distinct m')
                  (AudioBuffer.chan (AudioBuffer.clear cb) 0) n) as [f' o'] eqn:E.
      cbn [fst snd]. split.
      + apply Forall_wr; [exact H1|]. intros Hk.
        change f' with (fst (f', o')). rewrite <- E. apply HQ.
        now apply combAt_Forall.
      + now rewrite lenZ_wr.
    - split; [exact HF|reflexivity]. }
  destruct (for_loop _ _ _ _ _) as [[cs' cb] m']. exact HP.
Qed.

Lemma runComb_keeps_settings (simdWidth : Z) (simdOn : bool) (f : SharcCombFilter.t)
    (inp : InputRef) (out : list R) (n : Z) :
  let f' := fst (DdxReverbAudioProcessor.runComb simdWidth simdOn f inp out n) in
  SharcCombFilter.feedbackGain f' = SharcCombFilter.feedbackGain f /\
  SharcCombFilter.dampingCoeff f' = SharcCombFilter.dampingCoeff f /\
  SharcCombFilter.delaySamples f' = SharcCombFilter.delaySamples f /\
  SharcCombFilter.prepared f' = SharcCombFilter.prepared f.
Proof.
  unfold DdxReverbAudioProcessor.runComb, SharcCombFilter.processBlockSIMD,
    SharcCombFilter.processBlockScalar.
  destruct simdOn, (SharcCombFilter.prepared f) eqn:E; cbn [negb fst];
    repeat split; try reflexivity; cbn; auto.
Qed.

Lemma jlimit_range (lo hi v : R) : lo <= hi -> lo <= juce.jlimit lo hi v <= hi.
Proof.
  intros H. unfold juce.jlimit.
  destruct (Rlt_dec v lo); [lra|]. destruct (Rlt_dec hi v); lra.
Qed.

(** When a block is processed, every comb filter is handed the same gain,
    computed once: [clamp (10 ^ (-3 * avgDelayMs / (decayTime * 1000)),
    0.1, 0.99)] times [1 + bassMult * 0.05], with [avgDelayMs] the mean of
    the four entries of the 48 kHz delay table times 1000 over the current
    sample rate; [setGain] stores it clamped into [0, 0.99], and that is
    the gain every comb runs the block with and still has after it. *)
Lemma combs_share_one_gain (simdWidth : Z) (G : Statics)
    (p : DdxReverbAudioProcessor.t) (prm : Params) (buf : AudioBuffer.t) (t0 t1 : R) :
  gtb (bypass prm) 0.5 = false ->
  let avgDelayMs :=
    IZR (1116 + 1188 + 1277 + 1356) / 4 * 1000
    / DdxReverbAudioProcessor.currentSampleRate p in
  let combGain :=
    juce.jlimit 0.1 0.99 (Rpower 10 (-3 * avgDelayMs / (decay prm * 1000)))
    * (1 + bassmult prm * 0.05) in
  let stored := juce.jlimit 0 0.99 combGain in
  let p' := snd (fst (DdxReverbAudioProcessor.processBlock simdWidth G p prm buf t0 t1)) in
  0 <= stored <= 0.99 /\
  Forall (fun c => SharcCombFilter.feedbackGain c = stored)
    (DdxReverbAudioProcessor.updateCombs
       (DdxReverbAudioProcessor.dampingFreqOf (damping prm)) combGain
       (DdxReverbAudioProcessor.combs p)) /\
  Forall (fun c => SharcCombFilter.feedbackGain c = stored)
    (DdxReverbAudioProcessor.combs p') /\
  lenZ (DdxReverbAudioProcessor.combs p') = lenZ (DdxReverbAudioProcessor.combs p).
Proof.
  intros Hb avg combGain stored p'.
  assert (Hupd : Forall (fun c => SharcCombFilter.feedbackGain c = stored)
                   (DdxReverbAudioProcessor.updateCombs
                      (DdxReverbAudioProcessor.dampingFreqOf (damping prm)) combGain
                      (DdxReverbAudioProcessor.combs p))).
  { unfold DdxReverbAudioProcessor.updateCombs. apply Forall_map.
    apply Forall_forall. intros c _. reflexivity. }
  split; [apply jlimit_range; lra|]. split; [exact Hupd|].
  unfold p'. rewrite processBlock_running by exact Hb. cbn [fst snd DdxReverbAudioProcessor.combs].
  rewrite wetPath_stages. cbn [DdxReverbAudioProcessor.wCombs].
  match goal with
  | |- context [DdxReverbAudioProcessor.combStage ?w ?s ?n ?cs ?m] =>
      destruct (combStage_Forall w (fun c => SharcCombFilter.feedbackGain c = stored)
                  s n cs m) as [HF HL]
  end.
  - intros f inp out Hf.
    rewrite (proj1 (runComb_keeps_settings simdWidth _ f inp out _)). exact Hf.
  - exact Hupd.
  - split; [exact HF|]. rewrite HL.
    unfold DdxReverbAudioProcessor.updateCombs, lenZ. now rewrite length_map.
Qed.

(** ** The mixer *)

Lemma mix_loop (dry : AudioBuffer.t) (mono : list R) (w : R) (n : Z) (k : nat) :
  forall (lo : Z) (b : AudioBuffer.t),
  let mixChannel (ch : Z) (c : list R) : list R :=
    juce.FloatVectorOperations.addWithMultiply
      (juce.FloatVectorOperations.multiply
         (juce.FloatVectorOperations.copy c
            (AudioBuffer.chan dry (juce.jmin ch (AudioBuffer.getNumChannels dry - 1))) n)
         (1 - w) n)
      mono (if (ch =? 1)%Z then - w else w) n in
  AudioBuffer.numSamples
    (for_loop k lo 1 (DdxReverbAudioProcessor.mixBody dry mono w n) b)
  = AudioBuffer.numSamples b /\
  AudioBuffer.channels
    (for_loop k lo 1 (DdxReverbAudioProcessor.mixBody dry mono w n) b)
  = for_loop k lo 1 (fun ch chs => wr chs ch (mixChannel ch (rdA [] chs ch)))
      (AudioBuffer.channels b).
Proof.
  cbv zeta.
  induction k as [|k IH]; intros lo b; cbn [for_loop]; auto.
  destruct (IH (lo + 1)%Z (DdxReverbAudioProcessor.mixBody dry mono w n lo b)) as [H1 H2].
  split; [exact H1|]. rewrite H2.
  unfold DdxReverbAudioProcessor.mixBody, AudioBuffer.setChan, AudioBuffer.chan.
  cbn [AudioBuffer.channels]. destruct (lo =? 1)%Z; reflexivity.
Qed.

Lemma mixStage_channels (p : DdxReverbAudioProcessor.t) (dry : AudioBuffer.t)
    (mono : list R) (w : R) (b : AudioBuffer.t) :
  let n := AudioBuffer.getNumSamples b in
  let mixChannel (ch : Z) (c : list R) : list R :=
    juce.FloatVectorOperations.addWithMultiply
      (juce.FloatVectorOperations.multiply
         (juce.FloatVectorOperations.copy c
            (AudioBuffer.chan dry (juce.jmin ch (AudioBuffer.getNumChannels dry - 1))) n)
         (1 - w) n)
      mono (if (ch =? 1)%Z then - w else w) n in
  AudioBuffer.numSamples (DdxReverbAudioProcessor.mixStage p dry mono w b)
  = AudioBuffer.numSamples b /\
  AudioBuffer.channels (DdxReverbAudioProcessor.mixStage p dry mono w b)
  = for_range 0 (DdxReverbAudioProcessor.totalNumOutputChannels p)
      (fun ch chs => wr chs ch (mixChannel ch (rdA [] chs ch)))
      (AudioBuffer.channels b).
Proof.
  cbv zeta. unfold DdxReverbAudioProcessor.mixStage, for_range.
  apply (mix_loop dry mono w (AudioBuffer.getNumSamples b)).
Qed.

Lemma mixChannel_sample (c dryData mono : list R) (w k : R) (n : Z) :
  lenZ c = n ->
  let c' := juce.FloatVectorOperations.addWithMultiply
              (juce.FloatVectorOperations.multiply
                 (juce.FloatVectorOperations.copy c dryData n) (1 - w) n)
              mono k n in
  lenZ c' = n /\
  forall i, (0 <= i < n)%Z -> rd c' i = rd dryData i * (1 - w) + rd mono i * k.
Proof.
  intros Hc. cbv zeta.
  destruct (copy_spec c dryData n) as [L1 P1]; [lia|].
  destruct (multiply_spec (juce.FloatVectorOperations.copy c dryData n) n) with (c := 1 - w)
    as [L2 P2]; [lia|].
  destruct (addWithMultiply_spec
              (juce.FloatVectorOperations.multiply
                 (juce.FloatVectorOperations.copy c dryData n) (1 - w) n) mono n)
    with (c := k) as [L3 P3]; [lia|].
  split; [lia|]. intros i Hi. rewrite P3, P2, P1.
  destruct (0 <=? i)%Z eqn:E1; [|lia]. destruct (i <? n)%Z eqn:E2; [|lia].
  reflexivity.
Qed.

Lemma fits_chan_length (p : DdxReverbAudioProcessor.t) (b : AudioBuffer.t) (ch : Z) :
  fits p b -> (0 <= ch < AudioBuffer.getNumChannels b)%Z ->
  lenZ (AudioBuffer.chan b ch) = AudioBuffer.getNumSamples b.
Proof.
  intros (_ & _ & _ & HF) Hch. unfold AudioBuffer.chan.
  apply (rd_Forall (fun c => lenZ c = AudioBuffer.getNumSamples b)); assumption.
Qed.

(** The block after the clearing loop still fits the processor. *)
Lemma clearUnused_fits (p : DdxReverbAudioProcessor.t) (b : AudioBuffer.t) :
  fits p b -> fits p (DdxReverbAudioProcessor.clearUnused p b).
Proof.
  intros Hfit. pose proof Hfit as (Hin & Hout & Hns & HF).
  destruct (clearUnused_spec p b Hfit) as (HN & HC & Hlow & Hhigh).
  unfold fits. rewrite HN, HC. repeat split; auto.
  apply (Forall_rd _ []). intros ch Hch.
  fold (AudioBuffer.chan (DdxReverbAudioProcessor.clearUnused p b) ch).
  unfold AudioBuffer.getNumChannels in HC. rewrite HC in Hch.
  destruct (Z_lt_ge_dec ch (DdxReverbAudioProcessor.totalNumInputChannels p)) as [Hl|Hg].
  - rewrite Hlow by exact Hl. now apply (fits_chan_length p).
  - destruct (Z_lt_ge_dec ch (DdxReverbAudioProcessor.totalNumOutputChannels p)) as [Hl2|Hg2].
    + apply Hhigh. lia.
    + destruct (clearUnused_channels p b) as [_ HCh].
      unfold AudioBuffer.chan. rewrite HCh.
      destruct (for_range_pointwise
                  (fun (i : Z) c => juce.FloatVectorOperations.clear c (AudioBuffer.numSamples b))
                  [] (DdxReverbAudioProcessor.totalNumInputChannels p)
                  (DdxReverbAudioProcessor.totalNumOutputChannels p)
                  (AudioBuffer.channels b) Hin Hout) as [_ HP].
      rewrite HP.
      destruct (ch <? DdxReverbAudioProcessor.totalNumOutputChannels p)%Z eqn:E; [lia|].
      rewrite andb_false_r. now apply (fits_chan_length p).
Qed.

Lemma mixStage_sample (p : DdxReverbAudioProcessor.t) (dry : AudioBuffer.t)
    (mono : list R) (w : R) (ch : Z) :
  fits p dry ->
  (0 <= ch < DdxReverbAudioProcessor.totalNumOutputChannels p)%Z ->
  let out := DdxReverbAudioProcessor.mixStage p dry mono w dry in
  lenZ (AudioBuffer.chan out ch) = AudioBuffer.getNumSamples dry /\
  forall i, (0 <= i < AudioBuffer.getNumSamples dry)%Z ->
    rd (AudioBuffer.chan out ch) i
    = rd (AudioBuffer.chan dry ch) i * (1 - w)
      + rd mono i * (if (ch =? 1)%Z then - w else w).
Proof.
  intros Hfit Hch. cbv zeta. pose proof Hfit as (Hin & Hout & Hns & HF).
  destruct (mixStage_channels p dry mono w dry) as [_ HC]. cbv zeta in HC.
  assert (E : AudioBuffer.chan (DdxReverbAudioProcessor.mixStage p dry mono w dry) ch
              = juce.FloatVectorOperations.addWithMultiply
                  (juce.FloatVectorOperations.multiply
                     (juce.FloatVectorOperations.copy (AudioBuffer.chan dry ch)
                        (AudioBuffer.chan dry ch) (AudioBuffer.getNumSamples dry))
                     (1 - w) (AudioBuffer.getNumSamples dry))
                  mono (if (ch =? 1)%Z then - w else w) (AudioBuffer.getNumSamples dry)).
  { unfold AudioBuffer.chan at 1. rewrite HC.
    destruct (for_range_pointwise
                (fun (ch : Z) (c : list R) =>
                   juce.FloatVectorOperations.addWithMultiply
                     (juce.FloatVectorOperations.multiply
                        (juce.FloatVectorOperations.copy c
                           (AudioBuffer.chan dry
                              (juce.jmin ch (AudioBuffer.getNumChannels dry - 1)))
                           (AudioBuffer.getNumSamples dry))
                        (1 - w) (AudioBuffer.getNumSamples dry))
                     mono (if (ch =? 1)%Z then - w else w) (AudioBuffer.getNumSamples dry))
                [] 0 (DdxReverbAudioProcessor.totalNumOutputChannels p)
                (AudioBuffer.channels dry)) as [_ HP]; [lia|exact Hout|].
    rewrite HP.
    destruct (0 <=? ch)%Z eqn:E1; [|lia].
    destruct (ch <? DdxReverbAudioProcessor.totalNumOutputChannels p)%Z eqn:E2; [|lia].
    cbn [andb].
    replace (juce.jmin ch (AudioBuffer.getNumChannels dry - 1)) with ch
      by (unfold juce.jmin;
          destruct (AudioBuffer.getNumChannels dry - 1 <? ch)%Z eqn:E; lia).
    reflexivity. }
  rewrite E. apply mixChannel_sample.
  apply (fits_chan_length p); [exact Hfit|lia].
Qed.

(** C4.  When a block is processed on the stereo output layout, sample [i]
    of output channel 0 is [dry * (1 - wetMix) + wet * wetMix] and of output
    channel 1 is [dry * (1 - wetMix) - wet * wetMix], with [dry] the
    channel's own sample of the block as stored in the dry copy (the input
    sample on every input channel) and [wet] the one mono signal the
    allpass chain left, the same for both channels.  For [wetMix = 0] the
    output channels are the dry channels; for [wetMix = 1] a silent dry
    sample gives the wet sample on the left and its negation on the
    right. *)
Theorem C4_wet_dry_mix (simdWidth : Z) (G : Statics)
    (p : DdxReverbAudioProcessor.t) (prm : Params) (buf : AudioBuffer.t) (t0 t1 : R) :
  gtb (bypass prm) 0.5 = false ->
  fits p buf ->
  DdxReverbAudioProcessor.totalNumOutputChannels p = 2%Z ->
  let dry := DdxReverbAudioProcessor.clearUnused p buf in
  let wetSig :=
    DdxReverbAudioProcessor.wMono
      (DdxReverbAudioProcessor.wetPath simdWidth G p prm (gtb (simd prm) 0.5) dry) in
  let out := snd (DdxReverbAudioProcessor.processBlock simdWidth G p prm buf t0 t1) in
  let n := AudioBuffer.getNumSamples buf in
  (forall ch, (0 <= ch < DdxReverbAudioProcessor.totalNumInputChannels p)%Z ->
              AudioBuffer.chan dry ch = AudioBuffer.chan buf ch) /\
  (forall i, (0 <= i < n)%Z ->
     rd (AudioBuffer.chan out 0) i
     = rd (AudioBuffer.chan dry 0) i * (1 - wet prm) + rd wetSig i * wet prm /\
     rd (AudioBuffer.chan out 1) i
     = rd (AudioBuffer.chan dry 1) i * (1 - wet prm) - rd wetSig i * wet prm) /\
  (wet prm = 0 ->
     AudioBuffer.chan out 0 = AudioBuffer.chan dry 0 /\
     AudioBuffer.chan out 1 = AudioBuffer.chan dry 1) /\
  (wet prm = 1 ->
     forall i, (0 <= i < n)%Z ->
       rd (AudioBuffer.chan dry 0) i = 0 -> rd (AudioBuffer.chan dry 1) i = 0 ->
       rd (AudioBuffer.chan out 0) i = rd wetSig i /\
       rd (AudioBuffer.chan out 1) i = - rd (AudioBuffer.chan out 0) i).
Proof.
  intros Hb Hfit Hout dry wetSig out n.
  pose proof (clearUnused_fits p buf Hfit) as Hfd. fold dry in Hfd.
  destruct (clearUnused_spec p buf Hfit) as (HN & HC & Hlow & _).
  fold dry in HN, HC, Hlow.
  assert (Eout : out = DdxReverbAudioProcessor.mixStage p dry wetSig (wet prm) dry).
  { unfold out. rewrite processBlock_running by exact Hb. reflexivity. }
  assert (Hs : forall ch, (0 <= ch < 2)%Z ->
             lenZ (AudioBuffer.chan out ch) = n /\
             forall i, (0 <= i < n)%Z ->
               rd (AudioBuffer.chan out ch) i
               = rd (AudioBuffer.chan dry ch) i * (1 - wet prm)
                 + rd wetSig i * (if (ch =? 1)%Z then - wet prm else wet prm)).
  { intros ch Hch. rewrite Eout. unfold n. rewrite <- HN.
    apply mixStage_sample; [exact Hfd|lia]. }
  assert (Hsamples : forall i, (0 <= i < n)%Z ->
     rd (AudioBuffer.chan out 0) i
     = rd (AudioBuffer.chan dry 0) i * (1 - wet prm) + rd wetSig i * wet prm /\
     rd (AudioBuffer.chan out 1) i
     = rd (AudioBuffer.chan dry 1) i * (1 - wet prm) - rd wetSig i * wet prm).
  { intros i Hi.
    destruct (Hs 0%Z) as [_ H0]; [lia|].
    destruct (Hs 1%Z) as [_ H1]; [lia|].
    rewrite (H0 i Hi), (H1 i Hi).
    change (0 =? 1)%Z with false. change (1 =? 1)%Z with true. cbv iota.
    split; lra. }
  split; [intros ch Hch; apply Hlow; lia|].
  split; [exact Hsamples|]. split.
  - intros Hw.
    assert (Hch : forall ch, (0 <= ch < 2)%Z ->
              AudioBuffer.chan out ch = AudioBuffer.chan dry ch).
    { intros ch Hch.
      assert (HLd : lenZ (AudioBuffer.chan dry ch) = n).
      { unfold n. rewrite <- HN. apply (fits_chan_length p); [exact Hfd|].
        destruct Hfd as (_ & H & _). lia. }
      destruct (Hs ch Hch) as [HLo Hv].
      apply (list_eq_rd _ _ 0); [lia|].
      intros k Hk. rewrite HLo in Hk.
      rewrite (Hv k Hk), Hw.
      destruct (ch =? 1)%Z; lra. }
    split; apply Hch; lia.
  - intros Hw i Hi Hd0 Hd1.
    destruct (Hsamples i Hi) as [H0 H1]. rewrite H0, H1, Hd0, Hd1, Hw. split; lra.
Qed.

Lemma C4_wet_dry_mix_witness :
  let p := DdxReverbAudioProcessor.prepareToPlay
             (DdxReverbAudioProcessor.construct 2 2) 48000 2 in
  let buf := AudioBuffer.mk [[1; 0]; [0.5; 0]] 2 in
  let dry := DdxReverbAudioProcessor.clearUnused p buf in
  let wetSig :=
    DdxReverbAudioProcessor.wMono
      (DdxReverbAudioProcessor.wetPath 4 initialStatics p defaultParams
         (gtb (simd defaultParams) 0.5) dry) in
  let out := snd (DdxReverbAudioProcessor.processBlock 4 initialStatics p
                    defaultParams buf 0 1) in
  rd (AudioBuffer.chan out 0) 1
  = rd (AudioBuffer.chan dry 0) 1 * (1 - 0.5) + rd wetSig 1 * 0.5 /\
  rd (AudioBuffer.chan out 1) 1
  = rd (AudioBuffer.chan dry 1) 1 * (1 - 0.5) - rd wetSig 1 * 0.5.
Proof.
  intros p buf.
  assert (Hb : gtb (bypass defaultParams) 0.5 = false) by (apply gtb_false; simpl; lra).
  assert (Hfit : fits p buf).
  { unfold fits, AudioBuffer.getNumChannels, lenZ. cbn.
    repeat split; try lia. repeat constructor. }
  apply (proj1 (proj2 (C4_wet_dry_mix 4 initialStatics p defaultParams buf 0 1
                         Hb Hfit eq_refl)) 1%Z).
  cbn. lia.
Defined.

(** ** The first sample after preparation *)

Lemma comb_one_sample (simdWidth : Z) (f : SharcCombFilter.t) (x o : R) :
  combRested f ->
  snd (DdxReverbAudioProcessor.runComb simdWidth false f (Distinct [x]) [o] 1) = [x].
Proof.
  intros (Hp & Hd & Hf).
  unfold DdxReverbAudioProcessor.runComb, SharcCombFilter.processBlockScalar.
  rewrite Hp. cbn [negb].
  pose proof (comb_scalar_loop f [x] [o] (le_n 1)) as HM. cbv zeta in HM.
  change (lenZ [x]) with 1%Z in HM.
  destruct (for_range 0 1 _ (SharcCombFilter.start f [o])) as [b i fl out'].
  unfold combView in HM. cbn [SharcCombFilter.output] in HM.
  unfold SharcCombFilter.finish. cbn [snd SharcCombFilter.output].
  inversion HM as [[Hb Hi Hfl Ho]]. clear HM Hb Hi Hfl.
  cbn [snd Spec.combRun Spec.run Spec.combStep fst length skipn app].
  rewrite Hd, Hf. f_equal. ring.
Qed.

Lemma combBody_one_sample (simdWidth : Z) (c : Z) (cs : list SharcCombFilter.t) (o m : R) :
  combRested (DdxReverbAudioProcessor.combAt cs c) ->
  DdxReverbAudioProcessor.combBody simdWidth false 1 c (cs, AudioBuffer.mk [[o]] 1, [m])
  = (wr cs c
       (fst (DdxReverbAudioProcessor.runComb simdWidth false
               (DdxReverbAudioProcessor.combAt cs c) (Distinct [m]) [0] 1)),
     AudioBuffer.mk [[m]] 1,
     [if (c =? 0)%Z then m else m + m]).
Proof.
  intros Hr. unfold DdxReverbAudioProcessor.combBody.
  change (AudioBuffer.chan (AudioBuffer.clear (AudioBuffer.mk [[o]] 1)) 0) with [0].
  pose proof (comb_one_sample simdWidth _ m 0 Hr) as H1.
  destruct (DdxReverbAudioProcessor.runComb simdWidth false
              (DdxReverbAudioProcessor.combAt cs c) (Distinct [m]) [0] 1) as [f' o'].
  cbn [fst snd] in *. subst o'.
  destruct (c =? 0)%Z; reflexivity.
Qed.

Lemma combStage_one_sample (simdWidth : Z) (c0 c1 c2 c3 : SharcCombFilter.t) (x : R) :
  combRested c0 -> combRested c1 -> combRested c2 -> combRested c3 ->
  snd (DdxReverbAudioProcessor.combStage simdWidth false 1 [c0; c1; c2; c3] [x])
  = [(x + x + (x + x) + (x + x + (x + x))) * 0.25].
Proof.
  intros H0 H1 H2 H3. unfold DdxReverbAudioProcessor.combStage, for_range.
  change (Z.to_nat (DdxReverbAudioProcessor.numCombs - 0)) with 4%nat.
  change (AudioBuffer.sized 1 1) with (AudioBuffer.mk [[0]] 1).
  cbn [for_loop].
  rewrite combBody_one_sample by exact H0.
  change (0 + 1)%Z with 1%Z.
  rewrite combBody_one_sample by exact H1.
  change (1 + 1)%Z with 2%Z.
  rewrite combBody_one_sample by exact H2.
  change (2 + 1)%Z with 3%Z.
  rewrite combBody_one_sample by exact H3.
  reflexivity.
Qed.

Lemma allpass_one_sample (simdWidth : Z) (f : SharcAllpassFilter.t) (x : R) :
  allpassRested f ->
  snd (DdxReverbAudioProcessor.runAllpass simdWidth false f SameAsOutput [x] 1)
  = [- SharcAllpassFilter.apGain f * x].
Proof.
  intros (Hp & Hd). unfold DdxReverbAudioProcessor.runAllpass,
    SharcAllpassFilter.processBlockScalar, for_range.
  rewrite Hp. change (Z.to_nat (1 - 0)) with 1%nat.
  cbn [negb for_loop SharcAllpassFilter.finish snd SharcAllpassFilter.scalarBody
       SharcAllpassFilter.start SharcAllpassFilter.output SharcAllpassFilter.buffer
       SharcAllpassFilter.idx rdIn].
  rewrite Hd. change (rd [x] 0) with x.
  change (wr [x] 0 (- SharcAllpassFilter.apGain f * x + 0))
    with [- SharcAllpassFilter.apGain f * x + 0].
  f_equal. ring.
Qed.

(** The value a sample has after [k] rested allpasses of gain [g]. *)
Lemma allpassStage_one_sample_gen (simdWidth : Z) (g : R)
    (aps : list SharcAllpassFilter.t) :
  Forall allpassRested aps ->
  forall (done : list SharcAllpassFilter.t) (x : R),
  snd (fold_left
         (fun '(done, m) ap =>
            let '(ap', m') :=
              DdxReverbAudioProcessor.runAllpass simdWidth false
                (SharcAllpassFilter.setGain ap g) SameAsOutput m 1 in
            (done ++ [ap'], m'))
         aps (done, [x]))
  = [fold_left (fun v _ => - juce.jlimit (-0.99) 0.99 g * v) aps x].
Proof.
  induction 1 as [|a aps Ha _ IH]; intros done x; cbn [fold_left snd]; [reflexivity|].
  assert (Hr : allpassRested (SharcAllpassFilter.setGain a g)) by exact Ha.
  pose proof (allpass_one_sample simdWidth _ x Hr) as H1.
  destruct (DdxReverbAudioProcessor.runAllpass simdWidth false
              (SharcAllpassFilter.setGain a g) SameAsOutput [x] 1) as [a' m'].
  cbn [snd] in H1. subst m'. apply IH.
Qed.

Lemma allpassStage_one_sample (simdWidth : Z) (g x : R)
    (aps : list SharcAllpassFilter.t) :
  Forall allpassRested aps ->
  snd (DdxReverbAudioProcessor.allpassStage simdWidth false 1 g aps [x])
  = [fold_left (fun v _ => - juce.jlimit (-0.99) 0.99 g * v) aps x].
Proof.
  intros H. unfold DdxReverbAudioProcessor.allpassStage.
  now apply allpassStage_one_sample_gen.
Qed.

Lemma allpassStage_length (simdWidth : Z) (simdOn : bool) (n : Z) (g : R)
    (aps : list SharcAllpassFilter.t) (m : list R) :
  lenZ (fst (DdxReverbAudioProcessor.allpassStage simdWidth simdOn n g aps m)) = lenZ aps.
Proof.
  unfold DdxReverbAudioProcessor.allpassStage.
  assert (H : forall (done : list SharcAllpassFilter.t) (m : list R),
            length (fst (fold_left
              (fun '(done, m) ap =>
                 let '(ap', m') :=
                   DdxReverbAudioProcessor.runAllpass simdWidth simdOn
                     (SharcAllpassFilter.setGain ap g) SameAsOutput m n in
                 (done ++ [ap'], m'))
              aps (done, m))) = (length done + length aps)%nat).
  { induction aps as [|a aps IH]; intros done m'; cbn [fold_left fst length]; [lia|].
    destruct (DdxReverbAudioProcessor.runAllpass simdWidth simdOn
                (SharcAllpassFilter.setGain a g) SameAsOutput m' n) as [a' m''].
    rewrite IH, length_app. cbn [length]. lia. }
  unfold lenZ. rewrite H. reflexivity.
Qed.

(** Silence and preparation give rest. *)
Lemma combSilent_rested (c : SharcCombFilter.t) :
  combSilent c -> SharcCombFilter.prepared c = true -> combRested c.
Proof.
  intros (Hl & Hw & Hf) Hp. repeat split; auto. rewrite Hl. apply rd_zeros.
Qed.

Lemma allpassSilent_rested (a : SharcAllpassFilter.t) :
  allpassSilent a -> SharcAllpassFilter.prepared a = true -> allpassRested a.
Proof.
  intros (Hl & Hw) Hp. split; auto. rewrite Hl. apply rd_zeros.
Qed.

Lemma Forall_and {A : Type} (P Q R : A -> Prop) (l : list A) :
  (forall x, P x -> Q x -> R x) -> Forall P l -> Forall Q l -> Forall R l.
Proof.
  intros H HP. induction HP as [|x l Hx _ IH]; intros HQ; constructor;
    inversion HQ; subst; auto.
Qed.

Lemma prepareToPlay_rested (p : DdxReverbAudioProcessor.t) (sr : R) (n : Z) :
  wellFormed p ->
  let p' := DdxReverbAudioProcessor.prepareToPlay p sr n in
  Forall combRested (DdxReverbAudioProcessor.combs p') /\
  Forall allpassRested (DdxReverbAudioProcessor.allpasses p').
Proof.
  intros Hwf. destruct (prepareToPlay_members_silent p sr n Hwf)
    as (_ & _ & _ & Hcs & Hcp & Has & Hap).
  split.
  - exact (Forall_and _ _ _ _ combSilent_rested Hcs Hcp).
  - exact (Forall_and _ _ _ _ allpassSilent_rested Has Hap).
Qed.

Lemma updateCombs_rested (df g : R) (cs : list SharcCombFilter.t) :
  Forall combRested cs -> Forall combRested (DdxReverbAudioProcessor.updateCombs df g cs).
Proof.
  intros H. unfold DdxReverbAudioProcessor.updateCombs. apply Forall_map.
  revert H. apply Forall_impl. intros c Hc. exact Hc.
Qed.

Lemma four_elements {A : Type} (l : list A) :
  lenZ l = 4%Z -> exists a b c d, l = [a; b; c; d].
Proof.
  unfold lenZ. destruct l as [|a [|b [|c [|d [|e l]]]]]; cbn [length]; intros H; try lia.
  now exists a, b, c, d.
Qed.

Lemma static_cast_int_IZR (z : Z) : juce.static_cast_int (IZR z) = z.
Proof.
  unfold juce.static_cast_int. destruct (Rlt_dec (IZR z) 0) as [H|H].
  - rewrite <- opp_IZR. rewrite <- (Int_part_spec (IZR (- z)) (- z)%Z); [lia|lra].
  - symmetry. apply Int_part_spec. lra.
Qed.

Lemma static_cast_int_eq (x : R) (z : Z) : x = IZR z -> juce.static_cast_int x = z.
Proof. intros ->. apply static_cast_int_IZR. Qed.

Lemma preDelay_skip (pds n : Z) (st : list R * Z * list R) :
  (pds <= 0)%Z -> DdxReverbAudioProcessor.preDelay pds n st = st.
Proof.
  intros H. unfold DdxReverbAudioProcessor.preDelay.
  destruct (pds >? 0)%Z eqn:E; [lia|reflexivity].
Qed.

Lemma preDelayLength_zero (p : DdxReverbAudioProcessor.t) :
  (DdxReverbAudioProcessor.preDelayLength p 0 <= 0)%Z.
Proof.
  unfold DdxReverbAudioProcessor.preDelayLength.
  rewrite (static_cast_int_eq _ 0) by (unfold Rdiv; rewrite !Rmult_0_l; reflexivity).
  unfold juce.jlimitZ. cbn [Z.ltb Z.compare].
  destruct (_ <? 0)%Z eqn:E; lia.
Qed.

Lemma downmix_stereo_one (p : DdxReverbAudioProcessor.t) (xl xr t : R) :
  DdxReverbAudioProcessor.totalNumInputChannels p = 2%Z ->
  DdxReverbAudioProcessor.downmix p (AudioBuffer.mk [[xl]; [xr]] 1) [t]
  = [(xl + xr) * 0.5].
Proof.
  intros H. unfold DdxReverbAudioProcessor.downmix. rewrite H. reflexivity.
Qed.

Lemma hiCut_one (h : R) (G : Statics) (m : R) :
  gtb h 0.01 = true ->
  DdxReverbAudioProcessor.hiCut h 1 G [m]
  = (mkStatics (prevSample G + juce.decibelsToGain (- h) * (m - prevSample G)),
     [prevSample G + juce.decibelsToGain (- h) * (m - prevSample G)]).
Proof.
  intros H. unfold DdxReverbAudioProcessor.hiCut. rewrite H. reflexivity.
Qed.

Lemma fold_left_scale {A : Type} (k : R) (l : list A) (x : R) :
  fold_left (fun v _ => k * v) l x = k ^ length l * x.
Proof.
  revert x; induction l as [|a l IH]; intros x; cbn [fold_left length pow]; [ring|].
  rewrite IH. ring.
Qed.

(** The wet signal of a one-sample stereo block on a processor that has
    just been prepared for blocks of one sample, with no pre-delay, the
    hi-cut on and the scalar path: the hi-cut sample [h] leaves the comb
    stage as [8 * h * 0.25] and the eight allpasses scale it by the eighth
    power of their gain. *)
Lemma wetPath_first_block (simdWidth : Z) (G : Statics)
    (p0 : DdxReverbAudioProcessor.t) (sr : R) (prm : Params) (xl xr : R) :
  wellFormed p0 ->
  DdxReverbAudioProcessor.totalNumInputChannels p0 = 2%Z ->
  predelay prm = 0 ->
  gtb (hicut prm) 0.01 = true ->
  let p := DdxReverbAudioProcessor.prepareToPlay p0 sr 1 in
  let h := prevSample G
           + juce.decibelsToGain (- hicut prm) * ((xl + xr) * 0.5 - prevSample G) in
  let g := juce.jlimit (-0.99) 0.99 (juce.jmap (diffusion prm) 0 20 0.3 0.7) in
  let w := DdxReverbAudioProcessor.wetPath simdWidth G p prm false
             (AudioBuffer.mk [[xl]; [xr]] 1) in
  DdxReverbAudioProcessor.wStatics w = mkStatics h /\
  DdxReverbAudioProcessor.wMono w = [(- g) ^ 8 * (2 * h)].
Proof.
  intros Hwf Hin Hpd Hhc p h g w.
  destruct (prepareToPlay_rested p0 sr 1 Hwf) as [Hcr Har]. fold p in Hcr, Har.
  destruct (prepareToPlay_members_silent p0 sr 1 Hwf) as ([HLc HLa] & _). fold p in HLc, HLa.
  unfold w. rewrite wetPath_stages. cbn [DdxReverbAudioProcessor.wStatics
    DdxReverbAudioProcessor.wMono AudioBuffer.getNumSamples AudioBuffer.numSamples].
  change (AudioBuffer.chan (DdxReverbAudioProcessor.tempBuffer p) 0) with [0].
  rewrite downmix_stereo_one by exact Hin.
  rewrite hiCut_one by exact Hhc. cbn [fst snd]. fold h.
  split; [reflexivity|].
  rewrite Hpd, preDelay_skip by apply preDelayLength_zero. cbn [snd].
  destruct (four_elements _ HLc) as (c0 & c1 & c2 & c3 & Ecs).
  pose proof (updateCombs_rested
                (DdxReverbAudioProcessor.dampingFreqOf (damping prm))
                (DdxReverbAudioProcessor.combGainOf (decay prm) (bassmult prm)
                   (DdxReverbAudioProcessor.currentSampleRate p))
                _ Hcr) as Hur.
  rewrite Ecs in Hur |- *. cbn [DdxReverbAudioProcessor.updateCombs map] in Hur |- *.
  inversion Hur as [|? ? H0 Hur1]; subst.
  inversion Hur1 as [|? ? H1 Hur2]; subst.
  inversion Hur2 as [|? ? H2 Hur3]; subst.
  inversion Hur3 as [|? ? H3 _]; subst.
  rewrite combStage_one_sample by assumption.
  rewrite allpassStage_one_sample by exact Har.
  rewrite fold_left_scale.
  replace (length (DdxReverbAudioProcessor.allpasses p)) with 8%nat
    by (unfold lenZ, DdxReverbAudioProcessor.numAllpasses in HLa; lia).
  fold g. apply (f_equal (fun v => [(- g) ^ 8 * v])). lra.
Qed.

Lemma processBlock_wellFormed (simdWidth : Z) (G : Statics)
    (p : DdxReverbAudioProcessor.t) (prm : Params) (buf : AudioBuffer.t) (t0 t1 : R) :
  wellFormed p ->
  let p' := snd (fst (DdxReverbAudioProcessor.processBlock simdWidth G p prm buf t0 t1)) in
  wellFormed p' /\
  DdxReverbAudioProcessor.totalNumInputChannels p'
  = DdxReverbAudioProcessor.totalNumInputChannels p /\
  DdxReverbAudioProcessor.totalNumOutputChannels p'
  = DdxReverbAudioProcessor.totalNumOutputChannels p.
Proof.
  intros [Hc Ha]. cbv zeta.
  destruct (gtb (bypass prm) 0.5) eqn:Hb.
  - rewrite processBlock_bypassed by exact Hb. cbn [fst snd]. repeat split; assumption.
  - rewrite processBlock_running by exact Hb.
    cbn [fst snd DdxReverbAudioProcessor.totalNumInputChannels
         DdxReverbAudioProcessor.totalNumOutputChannels].
    split; [|split; reflexivity].
    unfold wellFormed. cbn [DdxReverbAudioProcessor.combs DdxReverbAudioProcessor.allpasses].
    rewrite wetPath_stages.
    cbn [DdxReverbAudioProcessor.wCombs DdxReverbAudioProcessor.wAllpasses].
    split.
    + match goal with
      | |- context [DdxReverbAudioProcessor.combStage ?w ?s ?n ?cs ?m] =>
          destruct (combStage_Forall w (fun _ => True) s n cs m) as [_ HL]
      end; [auto|apply Forall_forall; auto|].
      rewrite HL. unfold DdxReverbAudioProcessor.updateCombs, lenZ.
      rewrite length_map. exact Hc.
    + rewrite allpassStage_length. exact Ha.
Qed.

Lemma clearUnused_stereo (p : DdxReverbAudioProcessor.t) (b : AudioBuffer.t) :
  DdxReverbAudioProcessor.totalNumInputChannels p = 2%Z ->
  DdxReverbAudioProcessor.totalNumOutputChannels p = 2%Z ->
  DdxReverbAudioProcessor.clearUnused p b = b.
Proof.
  intros Hi Ho. unfold DdxReverbAudioProcessor.clearUnused. rewrite Hi, Ho. reflexivity.
Qed.

Lemma jlimit_inside (lo hi v : R) : lo <= v <= hi -> juce.jlimit lo hi v = v.
Proof.
  intros H. unfold juce.jlimit.
  destruct (Rlt_dec v lo); [lra|]. destruct (Rlt_dec hi v); [lra|reflexivity].
Qed.

Lemma decibelsToGain_minus_20 : juce.decibelsToGain (- (20)) = 0.1.
Proof.
  unfold juce.decibelsToGain, juce.pow.
  destruct (Rlt_dec (-100) (- (20))) as [_|H]; [|lra].
  replace (- (20) * 0.05) with (- (1)) by lra.
  rewrite Rpower_Ropp, Rpower_1 by lra. lra.
Qed.

(** The first block of a freshly prepared stereo processor: one sample per
    channel, no pre-delay, the hi-cut on, the scalar path. *)
Lemma processBlock_first_block (simdWidth : Z) (G : Statics)
    (p0 : DdxReverbAudioProcessor.t) (sr : R) (prm : Params) (xl xr t0 t1 : R) :
  wellFormed p0 ->
  DdxReverbAudioProcessor.totalNumInputChannels p0 = 2%Z ->
  DdxReverbAudioProcessor.totalNumOutputChannels p0 = 2%Z ->
  gtb (bypass prm) 0.5 = false ->
  gtb (simd prm) 0.5 = false ->
  predelay prm = 0 ->
  gtb (hicut prm) 0.01 = true ->
  let h := prevSample G
           + juce.decibelsToGain (- hicut prm) * ((xl + xr) * 0.5 - prevSample G) in
  let g := juce.jlimit (-0.99) 0.99 (juce.jmap (diffusion prm) 0 20 0.3 0.7) in
  let r := DdxReverbAudioProcessor.processBlock simdWidth G
             (DdxReverbAudioProcessor.prepareToPlay p0 sr 1) prm
             (AudioBuffer.mk [[xl]; [xr]] 1) t0 t1 in
  fst (fst r) = mkStatics h /\
  rd (AudioBuffer.chan (snd r) 0) 0 = xl * (1 - wet prm) + (- g) ^ 8 * (2 * h) * wet prm /\
  rd (AudioBuffer.chan (snd r) 1) 0 = xr * (1 - wet prm) - (- g) ^ 8 * (2 * h) * wet prm.
Proof.
  intros Hwf Hin Hout Hb Hs Hpd Hhc h g r.
  set (p := DdxReverbAudioProcessor.prepareToPlay p0 sr 1) in *.
  set (buf := AudioBuffer.mk [[xl]; [xr]] 1) in *.
  assert (Hfit : fits p buf).
  { unfold fits, AudioBuffer.getNumChannels, lenZ. cbn.
    rewrite Hin, Hout. repeat split; try lia. repeat constructor. }
  assert (Hdry : DdxReverbAudioProcessor.clearUnused p buf = buf)
    by (apply clearUnused_stereo; assumption).
  destruct (wetPath_first_block simdWidth G p0 sr prm xl xr Hwf Hin Hpd Hhc) as [HG HM].
  fold p buf h g in HG, HM.
  unfold r. rewrite processBlock_running by exact Hb. rewrite Hdry, Hs.
  cbn [fst snd]. split; [exact HG|]. rewrite HM.
  destruct (mixStage_sample p buf [(- g) ^ 8 * (2 * h)] (wet prm) 0 Hfit) as [_ H0];
    [cbn; lia|].
  destruct (mixStage_sample p buf [(- g) ^ 8 * (2 * h)] (wet prm) 1 Hfit) as [_ H1];
    [cbn; lia|].
  rewrite (H0 0%Z), (H1 0%Z) by (cbn; lia).
  change (rd (AudioBuffer.chan buf 0) 0) with xl.
  change (rd (AudioBuffer.chan buf 1) 0) with xr.
  change (rd [(- g) ^ 8 * (2 * h)] 0) with ((- g) ^ 8 * (2 * h)).
  change (0 =? 1)%Z with false. change (1 =? 1)%Z with true. cbv iota.
  split; ring.
Qed.

Lemma construct_wellFormed (nIn nOut : Z) :
  wellFormed (DdxReverbAudioProcessor.construct nIn nOut).
Proof. split; reflexivity. Qed.

Lemma combBank_one_sample (c0 c1 c2 c3 : SharcCombFilter.t) (x : R) :
  combRested c0 -> combRested c1 -> combRested c2 -> combRested c3 ->
  Spec.combBankSample [c0; c1; c2; c3] [x] 1 0 = (x + (x + (x + (x + 0)))) * 0.25.
Proof.
  intros H0 H1 H2 H3. unfold Spec.combBankSample. cbn [fold_right].
  change (zeros 1) with [0].
  pose proof (comb_one_sample 4 c0 x 0 H0) as E0.
  pose proof (comb_one_sample 4 c1 x 0 H1) as E1.
  pose proof (comb_one_sample 4 c2 x 0 H2) as E2.
  pose proof (comb_one_sample 4 c3 x 0 H3) as E3.
  unfold DdxReverbAudioProcessor.runComb in E0, E1, E2, E3.
  rewrite E0, E1, E2, E3. reflexivity.
Qed.

(** C1.  The comb loop does not run the four combs on the same signal: it
    copies the first comb's output over [monoData] and adds each later
    output to it, and [monoData] is also the input of the next comb.  On a
    processor prepared at 48 kHz, with the default decay, damping and bass
    settings, the one-sample block [1] leaves the comb stage as [2]: the
    combs see 1, 1, 2 and 4, and the sum 8 is scaled by 0.25.  Four combs
    on the identical input give 4 * 1 * 0.25 = 1. *)
Theorem C1_combs_run_in_a_chain :
  let p := DdxReverbAudioProcessor.prepareToPlay
             (DdxReverbAudioProcessor.construct 2 2) 48000 1 in
  let cs := DdxReverbAudioProcessor.updateCombs
              (DdxReverbAudioProcessor.dampingFreqOf 50)
              (DdxReverbAudioProcessor.combGainOf 5 0 48000)
              (DdxReverbAudioProcessor.combs p) in
  let code := snd (DdxReverbAudioProcessor.combStage 4 false 1 cs [1]) in
  code = [2] /\
  Spec.combBankSample cs [1] 1 0 = 1 /\
  rd code 0 <> Spec.combBankSample cs [1] 1 0.
Proof.
  intros p cs code.
  pose proof (construct_wellFormed 2 2) as Hwf.
  destruct (prepareToPlay_rested _ 48000 1 Hwf) as [Hcr _]. fold p in Hcr.
  destruct (prepareToPlay_members_silent _ 48000 1 Hwf) as ([HLc _] & _). fold p in HLc.
  pose proof (updateCombs_rested (DdxReverbAudioProcessor.dampingFreqOf 50)
                (DdxReverbAudioProcessor.combGainOf 5 0 48000) _ Hcr) as Hur.
  fold cs in Hur.
  assert (HL : lenZ cs = 4%Z).
  { unfold cs, DdxReverbAudioProcessor.updateCombs, lenZ. rewrite length_map. exact HLc. }
  destruct (four_elements _ HL) as (c0 & c1 & c2 & c3 & Ecs).
  rewrite Ecs in Hur.
  inversion Hur as [|? ? H0 Hur1]; subst.
  inversion Hur1 as [|? ? H1 Hur2]; subst.
  inversion Hur2 as [|? ? H2 Hur3]; subst.
  inversion Hur3 as [|? ? H3 _]; subst.
  assert (Ecode : code = [2]).
  { unfold code. rewrite Ecs, combStage_one_sample by assumption.
    apply (f_equal (fun v => [v])). lra. }
  assert (Espec : Spec.combBankSample cs [1] 1 0 = 1).
  { rewrite Ecs, combBank_one_sample by assumption. lra. }
  split; [exact Ecode|]. split; [exact Espec|].
  rewrite Ecode, Espec. change (rd [2] 0) with 2. lra.
Qed.

(** ** The static hi-cut memory *)

Lemma processA_eq (simdWidth : Z) (w : World) (b : Block) :
  let r := DdxReverbAudioProcessor.processBlock simdWidth (statics w) (instA w)
             (bParams b) (bBuffer b) (bStart b) (bEnd b) in
  processA simdWidth w b = (mkWorld (fst (fst r)) (snd (fst r)) (instB w), snd r).
Proof.
  cbv zeta. unfold processA.
  destruct (DdxReverbAudioProcessor.processBlock _ _ _ _ _ _ _) as [[G a] out].
  reflexivity.
Qed.

Lemma processB_eq (simdWidth : Z) (w : World) (b : Block) :
  let r := DdxReverbAudioProcessor.processBlock simdWidth (statics w) (instB w)
             (bParams b) (bBuffer b) (bStart b) (bEnd b) in
  processB simdWidth w b = (mkWorld (fst (fst r)) (instA w) (snd (fst r)), snd r).
Proof.
  cbv zeta. unfold processB.
  destruct (DdxReverbAudioProcessor.processBlock _ _ _ _ _ _ _) as [[G a] out].
  reflexivity.
Qed.

(** The first block of a processor prepared at any rate, for the settings
    of the examples below: hi-cut 20 dB, no pre-delay, diffusion 10,
    wet 0.5, a one-sample stereo block. *)
Lemma example_block (G : Statics) (p0 : DdxReverbAudioProcessor.t) (sr x t0 t1 : R) :
  wellFormed p0 ->
  DdxReverbAudioProcessor.totalNumInputChannels p0 = 2%Z ->
  DdxReverbAudioProcessor.totalNumOutputChannels p0 = 2%Z ->
  let h := prevSample G + 0.1 * (x - prevSample G) in
  let r := DdxReverbAudioProcessor.processBlock 4 G
             (DdxReverbAudioProcessor.prepareToPlay p0 sr 1)
             (mkParams 5 0 50 10 20 0 0.5 0 0)
             (AudioBuffer.mk [[x]; [x]] 1) t0 t1 in
  fst (fst r) = mkStatics h /\
  rd (AudioBuffer.chan (snd r) 0) 0 = x * 0.5 + h / 256 /\
  rd (AudioBuffer.chan (snd r) 1) 0 = x * 0.5 - h / 256.
Proof.
  intros Hwf Hin Hout h r.
  destruct (processBlock_first_block 4 G p0 sr (mkParams 5 0 50 10 20 0 0.5 0 0)
              x x t0 t1 Hwf Hin Hout) as (HG & HL & HR).
  - apply gtb_false. cbn. lra.
  - apply gtb_false. cbn. lra.
  - reflexivity.
  - apply gtb_true. cbn. lra.
  - cbn [hicut diffusion wet] in HG, HL, HR.
    rewrite decibelsToGain_minus_20 in HG, HL, HR.
    rewrite (jlimit_inside (-0.99) 0.99 (juce.jmap 10 0 20 0.3 0.7)) in HL, HR
      by (unfold juce.jmap; lra).
    fold r in HG, HL, HR.
    replace (prevSample G + 0.1 * ((x + x) * 0.5 - prevSample G)) with h in HG, HL, HR
      by (unfold h; lra).
    split; [exact HG|].
    rewrite HL, HR. unfold juce.jmap.
    replace (0.3 + (0.7 - 0.3) * (10 - 0) / (20 - 0)) with 0.5 by lra.
    cbn [pow]. split; lra.
Qed.

(** C7.  The hi-cut memory is the function-local static [prevSample] of
    [processBlock], one variable for every instance in the process.  Two
    processors A and B are constructed and prepared alike; B processes the
    one-sample block [1 | 1] at hi-cut 20 dB.  When A has processed the
    same block before, B itself is untouched, but the hi-cut memory B
    starts from is 0.1 instead of 0 and B's left output sample is
    [0.5 + 0.19/256] instead of [0.5 + 0.1/256]. *)
Theorem C7_hicut_memory_is_shared_between_instances :
  let p := DdxReverbAudioProcessor.prepareToPlay
             (DdxReverbAudioProcessor.construct 2 2) 48000 1 in
  let w0 := mkWorld initialStatics p p in
  let blk := mkBlock (mkParams 5 0 50 10 20 0 0.5 0 0) (AudioBuffer.mk [[1]; [1]] 1) 0 1 in
  let alone := processB 4 w0 blk in
  let wA := fst (processA 4 w0 blk) in
  let after := processB 4 wA blk in
  instB wA = instB w0 /\
  prevSample (statics w0) = 0 /\
  prevSample (statics wA) = 0.1 /\
  rd (AudioBuffer.chan (snd alone) 0) 0 = 0.5 + 0.1 / 256 /\
  rd (AudioBuffer.chan (snd after) 0) 0 = 0.5 + 0.19 / 256 /\
  snd alone <> snd after.
Proof.
  intros p w0 blk alone wA after.
  pose proof (construct_wellFormed 2 2) as Hwf.
  pose proof (example_block initialStatics _ 48000 1 0 1 Hwf eq_refl eq_refl)
    as (HG0 & HL0 & _).
  pose proof (example_block (mkStatics (0 + 0.1 * (1 - 0))) _ 48000 1 0 1
                Hwf eq_refl eq_refl) as (_ & HL1 & _).
  cbn [prevSample initialStatics] in HG0, HL0, HL1.
  assert (EA : wA = mkWorld (mkStatics (0 + 0.1 * (1 - 0)))
                      (snd (fst (DdxReverbAudioProcessor.processBlock 4 initialStatics p
                                   (bParams blk) (bBuffer blk) 0 1))) p).
  { unfold wA. rewrite processA_eq. unfold w0, blk, p.
    cbn [fst statics instA instB bStart bEnd bParams bBuffer].
    rewrite HG0. reflexivity. }
  assert (Halone : rd (AudioBuffer.chan (snd alone) 0) 0 = 0.5 + 0.1 / 256).
  { unfold alone. rewrite processB_eq. unfold w0, blk, p.
    cbn [snd statics instB bStart bEnd bParams bBuffer].
    rewrite HL0. lra. }
  assert (Hafter : rd (AudioBuffer.chan (snd after) 0) 0 = 0.5 + 0.19 / 256).
  { unfold after. rewrite processB_eq, EA. unfold blk, p.
    cbn [snd statics instB bStart bEnd bParams bBuffer].
    rewrite HL1. lra. }
  split; [rewrite EA; reflexivity|]. split; [reflexivity|].
  split; [rewrite EA; cbn [statics prevSample]; lra|].
  split; [exact Halone|]. split; [exact Hafter|].
  intros E. rewrite E in Halone. rewrite Halone in Hafter. lra.
Qed.

(** C6.  [prepareToPlay] silences every member that holds audio, but the
    hi-cut memory is the static [prevSample], which it cannot reach.  A
    processor prepared at 48 kHz processes the block [1 | 1] at hi-cut
    20 dB and is then prepared again at 96 kHz: its pre-delay line, combs
    and allpasses are silent and their cursors at 0, the hi-cut memory is
    still 0.1, and the next block, of silence, comes out as [0.09/256] on
    the left. *)
Theorem C6_prepare_leaves_hicut_memory :
  let p := DdxReverbAudioProcessor.prepareToPlay
             (DdxReverbAudioProcessor.construct 2 2) 48000 1 in
  let prm := mkParams 5 0 50 10 20 0 0.5 0 0 in
  let r1 := DdxReverbAudioProcessor.processBlock 4 initialStatics p prm
              (AudioBuffer.mk [[1]; [1]] 1) 0 1 in
  let G1 := fst (fst r1) in
  let p2 := DdxReverbAudioProcessor.prepareToPlay (snd (fst r1)) 96000 1 in
  let r2 := DdxReverbAudioProcessor.processBlock 4 G1 p2 prm
              (AudioBuffer.mk [[0]; [0]] 1) 1 2 in
  DdxReverbAudioProcessor.preDelayBuffer p2
  = zeros (lenZ (DdxReverbAudioProcessor.preDelayBuffer p2)) /\
  DdxReverbAudioProcessor.preDelayWritePos p2 = 0%Z /\
  Forall combSilent (DdxReverbAudioProcessor.combs p2) /\
  Forall allpassSilent (DdxReverbAudioProcessor.allpasses p2) /\
  prevSample G1 = 0.1 /\
  rd (AudioBuffer.chan (snd r2) 0) 0 = 0.09 / 256.
Proof.
  intros p prm r1 G1 p2 r2.
  pose proof (construct_wellFormed 2 2) as Hwf.
  destruct (processBlock_wellFormed 4 initialStatics p prm
              (AudioBuffer.mk [[1]; [1]] 1) 0 1) as (Hwf1 & Hin1 & Hout1).
  { apply (prepareToPlay_members_silent _ 48000 1 Hwf). }
  fold r1 in Hwf1, Hin1, Hout1.
  destruct (prepareToPlay_members_silent (snd (fst r1)) 96000 1 Hwf1)
    as (_ & Hpd & Hpos & Hcs & _ & Has & _).
  fold p2 in Hpd, Hpos, Hcs, Has.
  assert (HG1 : G1 = mkStatics (0 + 0.1 * (1 - 0))).
  { exact (proj1 (example_block initialStatics _ 48000 1 0 1 Hwf eq_refl eq_refl)). }
  repeat (split; [assumption|]).
  split; [rewrite HG1; cbn [prevSample]; lra|].
  pose proof (example_block G1 (snd (fst r1)) 96000 0 1 2 Hwf1 Hin1 Hout1) as (_ & HL & _).
  unfold r2, p2, prm. rewrite HL, HG1. cbn [prevSample]. lra.
Qed.

(** ** The SIMD loops on a delay line of at least a register's length *)

Lemma rem_wrap (a len : Z) :
  (0 < len)%Z -> (0 <= a < 2 * len)%Z ->
  Z.rem a len = if (a <? len)%Z then a else (a - len)%Z.
Proof.
  intros Hl Ha. rewrite Z.rem_mod_nonneg by lia.
  destruct (a <? len)%Z eqn:E.
  - apply Z.mod_small. lia.
  - symmetry. apply (Z.mod_unique a len 1); lia.
Qed.

Lemma for_loop_ext_range {St : Type} (n : nat) (lo : Z) (f g : Z -> St -> St) (s : St) :
  (forall j s', (lo <= j < lo + Z.of_nat n)%Z -> f j s' = g j s') ->
  for_loop n lo 1 f s = for_loop n lo 1 g s.
Proof.
  revert lo s; induction n as [|n IH]; intros lo s H; cbn [for_loop]; auto.
  rewrite H by lia. apply IH. intros j s' Hj. apply H. lia.
Qed.

Lemma for_loop_app {St : Type} (a b : nat) (lo step : Z) (f : Z -> St -> St) (s : St) :
  for_loop (a + b) lo step f s
  = for_loop b (lo + Z.of_nat a * step)%Z step f (for_loop a lo step f s).
Proof.
  revert lo s; induction a as [|a IH]; intros lo s.
  - cbn [for_loop Nat.add]. f_equal. lia.
  - cbn [for_loop Nat.add]. rewrite IH. f_equal. lia.
Qed.

Lemma lenZ_writes (pos : Z -> Z) (val : Z -> R) (k : nat) (a : list R) :
  lenZ (writes pos val k a) = lenZ a.
Proof.
  unfold writes. apply (for_loop_inv (fun x => lenZ x = lenZ a)); [|reflexivity].
  intros j x Hx. now rewrite lenZ_wr.
Qed.

Lemma writes_S (pos : Z -> Z) (val : Z -> R) (k : nat) (a : list R) :
  writes pos val (S k) a
  = wr (writes pos val k a) (pos (Z.of_nat k)) (val (Z.of_nat k)).
Proof.
  unfold writes. rewrite for_loop_last.
  replace (0 + Z.of_nat k * 1)%Z with (Z.of_nat k) by lia. reflexivity.
Qed.

Lemma rd_writes_other (pos : Z -> Z) (val : Z -> R) (k : nat) (a : list R) (q : Z) :
  (forall j, (0 <= j < Z.of_nat k)%Z -> pos j <> q) ->
  rd (writes pos val k a) q = rd a q.
Proof.
  induction k as [|k IH]; intros H; [reflexivity|].
  rewrite writes_S, rd_wr_other by (apply H; lia).
  apply IH. intros j Hj. apply H. lia.
Qed.

Lemma rd_writes_id (off : Z) (val : Z -> R) (k : nat) (a : list R) (j : Z) :
  (0 <= off)%Z -> (off + Z.of_nat k <= lenZ a)%Z -> (0 <= j < Z.of_nat k)%Z ->
  rd (writes (fun j => off + j)%Z val k a) (off + j) = val j.
Proof.
  intros Hoff. revert j. induction k as [|k IH]; intros j Hk Hj; [lia|].
  rewrite writes_S.
  destruct (Z.eq_dec j (Z.of_nat k)) as [->|Hne].
  - apply rd_wr_same. rewrite lenZ_writes. lia.
  - rewrite rd_wr_other by lia. apply IH; lia.
Qed.

Lemma lanePos_range (p len j : Z) :
  (0 < len)%Z -> (0 <= p < len)%Z -> (0 <= j <= len)%Z ->
  (0 <= lanePos p len j < len)%Z.
Proof.
  intros Hl Hp Hj. unfold lanePos. rewrite rem_wrap by lia.
  destruct (p + j <? len)%Z eqn:E; lia.
Qed.

Lemma lanePos_distinct (p len j k : Z) :
  (0 < len)%Z -> (0 <= p < len)%Z -> (0 <= j < k)%Z -> (k < len)%Z ->
  lanePos p len j <> lanePos p len k.
Proof.
  intros Hl Hp Hj Hk. unfold lanePos. rewrite !rem_wrap by lia.
  destruct (p + j <? len)%Z eqn:E1, (p + k <? len)%Z eqn:E2; lia.
Qed.

Lemma lanePos_next (p len k : Z) :
  (0 < len)%Z -> (0 <= p < len)%Z -> (0 <= k < len)%Z ->
  (if (lanePos p len k + 1 >=? len)%Z then 0%Z else (lanePos p len k + 1)%Z)
  = lanePos p len (k + 1).
Proof.
  intros Hl Hp Hk. unfold lanePos. rewrite !rem_wrap by lia.
  destruct (p + k <? len)%Z eqn:E1, (p + (k + 1) <? len)%Z eqn:E2;
    match goal with |- (if ?c then _ else _) = _ => destruct c eqn:E3 end; lia.
Qed.

Lemma combLane_nat (B : list R) (p len : Z) (damp g F : R) (inp : list R) (i : Z)
    (k : nat) :
  combLane B p len damp g F inp i (Z.of_nat k)
  = rd inp (i + Z.of_nat k)
    + g * (rd B (lanePos p len (Z.of_nat k))
           + damp * (laneFlt B p len damp F k - rd B (lanePos p len (Z.of_nat k)))).
Proof. unfold combLane. rewrite Nat2Z.id. reflexivity. Qed.

(** [k] turns of the scalar comb loop, lane by lane. *)
Lemma comb_scalar_lanes (inp : list R) (len : Z) (g damp : R) (i : Z)
    (s : SharcCombFilter.locals) (k : nat) :
  (0 < len)%Z -> (0 <= SharcCombFilter.idx s < len)%Z ->
  (len <= lenZ (SharcCombFilter.buffer s))%Z ->
  (Z.of_nat k <= len)%Z ->
  let B := SharcCombFilter.buffer s in
  let p := SharcCombFilter.idx s in
  let y := combLane B p len damp g (SharcCombFilter.flt s) inp i in
  for_loop k i 1 (SharcCombFilter.scalarBody (Distinct inp) len g damp) s
  = SharcCombFilter.mkLocals
      (writes (lanePos p len) y k B)
      (lanePos p len (Z.of_nat k))
      (laneFlt B p len damp (SharcCombFilter.flt s) k)
      (writes (fun j => i + j)%Z y k (SharcCombFilter.output s)).
Proof.
  intros Hl Hp HB. cbv zeta. induction k as [|k IH]; intros Hk.
  - cbn [for_loop laneFlt]. unfold writes. cbn [for_loop].
    unfold lanePos. rewrite Z.add_0_r, rem_wrap by lia.
    destruct (SharcCombFilter.idx s <? len)%Z eqn:E; [|lia].
    destruct s; reflexivity.
  - rewrite for_loop_last, IH by lia. rewrite !writes_S.
    unfold SharcCombFilter.scalarBody.
    cbn [SharcCombFilter.buffer SharcCombFilter.idx SharcCombFilter.flt
         SharcCombFilter.output rdIn].
    rewrite rd_writes_other
      by (intros j Hj; apply lanePos_distinct; lia).
    rewrite lanePos_next by lia.
    replace (i + Z.of_nat k * 1)%Z with (i + Z.of_nat k)%Z by lia.
    replace (Z.of_nat k + 1)%Z with (Z.of_nat (S k)) by lia.
    rewrite !combLane_nat. reflexivity.
Qed.

Lemma zip_map (f : R -> R -> R) {A : Type} (a b : A -> R) (l : list A) :
  juce.SIMD.zip f (map a l) (map b l) = map (fun x => f (a x) (b x)) l.
Proof. induction l as [|x l IH]; cbn; [reflexivity|]. now rewrite IH. Qed.

Lemma splat_map (w : Z) (x : R) :
  juce.SIMD.splat w x = map (fun _ => x) (seq 0 (Z.to_nat w)).
Proof.
  unfold juce.SIMD.splat.
  assert (H : forall n k, repeat x n = map (fun _ => x) (seq k n)).
  { induction n as [|n IH]; intros k; cbn; [reflexivity|]. now rewrite (IH (S k)). }
  apply H.
Qed.

Lemma rd_map_seq (f : nat -> R) (n : nat) (j : Z) :
  (0 <= j < Z.of_nat n)%Z -> rd (map f (seq 0 n)) j = f (Z.to_nat j).
Proof.
  intros Hj. unfold rdA. destruct (j <? 0)%Z eqn:E; [lia|].
  rewrite (nth_indep _ 0 (f 0%nat)) by (rewrite length_map, length_seq; lia).
  rewrite (map_nth f (seq 0 n) 0%nat (Z.to_nat j)).
  rewrite seq_nth by lia. reflexivity.
Qed.

(** [copyToRawArray] of a register whose [j]-th lane is [y j]. *)
Lemma copyToRawArray_lanes (y : Z -> R) (n : nat) (a : list R) (off : Z) :
  juce.SIMD.copyToRawArray (map (fun j => y (Z.of_nat j)) (seq 0 n)) a off
  = writes (fun j => off + j)%Z y n a.
Proof.
  unfold juce.SIMD.copyToRawArray, writes, for_range, lenZ.
  rewrite length_map, length_seq, Z.sub_0_r, Nat2Z.id.
  apply for_loop_ext_range. intros j s Hj.
  rewrite rd_map_seq by lia. rewrite Z2Nat.id by lia. reflexivity.
Qed.

(** The first loop of a SIMD group: the delayed samples of its lanes. *)
Lemma gather_lanes (B : list R) (p len w : Z) :
  (0 <= w <= 8)%Z ->
  let D := for_range 0 w (fun j d => wr d j (rd B (Z.rem (p + j) len))) (zeros 8) in
  forall j, (0 <= j < w)%Z -> rd D j = laneDelayed B p len j.
Proof.
  intros Hw D j Hj.
  destruct (for_range_pointwise (fun j (_ : R) => rd B (Z.rem (p + j) len)) 0 0 w (zeros 8))
    as [_ HP]; [lia|rewrite lenZ_zeros; lia|].
  unfold D. rewrite HP.
  destruct (0 <=? j)%Z eqn:E1; [|lia]. destruct (j <? w)%Z eqn:E2; [|lia].
  reflexivity.
Qed.

(** The damping loop of a SIMD comb group. *)
Lemma scan_lanes (B D : list R) (p len : Z) (damp F : R) (k : nat) :
  (Z.of_nat k <= 8)%Z ->
  (forall j, (0 <= j < Z.of_nat k)%Z -> rd D j = laneDelayed B p len j) ->
  let r := for_loop k 0 1
             (fun j '(fl, dv) =>
                let fl' := rd D j + damp * (fl - rd D j) in (fl', wr dv j fl'))
             (F, zeros 8) in
  fst r = laneFlt B p len damp F k /\
  lenZ (snd r) = 8%Z /\
  forall j, (0 <= j < Z.of_nat k)%Z ->
    rd (snd r) j = laneFlt B p len damp F (S (Z.to_nat j)).
Proof.
  induction k as [|k IH]; intros Hk HD; cbv zeta.
  - cbn [for_loop fst snd laneFlt]. split; [reflexivity|]. split; [apply lenZ_zeros|].
    intros j Hj. lia.
  - rewrite for_loop_last. replace (0 + Z.of_nat k * 1)%Z with (Z.of_nat k) by lia.
    destruct IH as (I1 & I2 & I3); [lia|intros j Hj; apply HD; lia|].
    destruct (for_loop k 0 1 _ (F, zeros 8)) as [fl dv]. cbn [fst snd] in *.
    rewrite HD by lia. subst fl.
    split; [reflexivity|]. split; [now rewrite lenZ_wr|].
    intros j Hj. destruct (Z.eq_dec j (Z.of_nat k)) as [->|Hne].
    + rewrite rd_wr_same by lia. rewrite Nat2Z.id. reflexivity.
    + rewrite rd_wr_other by lia. apply I3. lia.
Qed.

(** One SIMD group of the comb filter, lane by lane. *)
Lemma comb_simd_lanes (w : Z) (inp : list R) (len : Z) (g damp : R) (i : Z)
    (s : SharcCombFilter.locals) :
  (0 <= w <= 8)%Z ->
  let B := SharcCombFilter.buffer s in
  let p := SharcCombFilter.idx s in
  let y := combLane B p len damp g (SharcCombFilter.flt s) inp i in
  SharcCombFilter.simdBody w (Distinct inp) len g damp i s
  = SharcCombFilter.mkLocals
      (writes (lanePos p len) y (Z.to_nat w) B)
      (lanePos p len w)
      (laneFlt B p len damp (SharcCombFilter.flt s) (Z.to_nat w))
      (writes (fun j => i + j)%Z y (Z.to_nat w) (SharcCombFilter.output s)).
Proof.
  intros Hw B p y. unfold SharcCombFilter.simdBody. fold B p.
  set (D := for_range 0 w (fun j d => wr d j (rd B (Z.rem (p + j) len))) (zeros 8)).
  pose proof (gather_lanes B p len w Hw) as HD. cbv zeta in HD. fold D in HD.
  destruct (scan_lanes B D p len damp (SharcCombFilter.flt s) (Z.to_nat w))
    as (S1 & S2 & S3); [lia|intros j Hj; apply HD; lia|].
  unfold for_range at 1. rewrite Z.sub_0_r.
  destruct (for_loop (Z.to_nat w) 0 1 _ (SharcCombFilter.flt s, zeros 8)) as [fl dv].
  cbn [fst snd] in S1, S2, S3. subst fl.
  assert (Hout : juce.SIMD.vadd (juce.SIMD.fromRawArray w (arrIn (Distinct inp)
                                   (SharcCombFilter.output s)) i)
                   (juce.SIMD.vmul (juce.SIMD.splat w g) (juce.SIMD.fromRawArray w dv 0))
                 = map (fun j => y (Z.of_nat j)) (seq 0 (Z.to_nat w))).
  { unfold juce.SIMD.vadd, juce.SIMD.vmul, juce.SIMD.fromRawArray. cbn [arrIn].
    rewrite splat_map, !zip_map. apply map_ext_in. intros j Hj.
    apply in_seq in Hj. unfold y. rewrite combLane_nat.
    rewrite Z.add_0_l, S3 by lia. rewrite Nat2Z.id. reflexivity. }
  rewrite Hout, !copyToRawArray_lanes.
  f_equal.
  unfold for_range, writes. rewrite Z.sub_0_r.
  apply for_loop_ext_range. intros j b Hj.
  change (Z.rem (p + j) len) with (lanePos p len j). f_equal.
  rewrite <- (Z.add_0_l j) at 1. apply rd_writes_id; [lia|rewrite lenZ_zeros; lia|lia].
Qed.

(** A SIMD group of the comb filter is [simdWidth] turns of the scalar
    loop, when the active delay length is at least the register width and
    the cursor is inside the active length. *)
Lemma comb_simd_group (w : Z) (inp : list R) (len : Z) (g damp : R) (i : Z)
    (s : SharcCombFilter.locals) :
  (0 <= w <= 8)%Z -> (w <= len)%Z -> (0 < len)%Z ->
  (0 <= SharcCombFilter.idx s < len)%Z ->
  (len <= lenZ (SharcCombFilter.buffer s))%Z ->
  SharcCombFilter.simdBody w (Distinct inp) len g damp i s
  = for_loop (Z.to_nat w) i 1 (SharcCombFilter.scalarBody (Distinct inp) len g damp) s.
Proof.
  intros Hw Hwl Hl Hp HB.
  rewrite comb_simd_lanes by exact Hw.
  rewrite comb_scalar_lanes by (try assumption; lia).
  rewrite Z2Nat.id by lia. reflexivity.
Qed.

Lemma comb_scalar_inv (inp : InputRef) (len : Z) (g damp : R) (L : Z) (k : nat) (i : Z)
    (s : SharcCombFilter.locals) :
  (0 < len)%Z ->
  (0 <= SharcCombFilter.idx s < len)%Z /\ lenZ (SharcCombFilter.buffer s) = L ->
  let s' := for_loop k i 1 (SharcCombFilter.scalarBody inp len g damp) s in
  (0 <= SharcCombFilter.idx s' < len)%Z /\ lenZ (SharcCombFilter.buffer s') = L.
Proof.
  intros Hl Hs. cbv zeta.
  apply (for_loop_inv (fun x => (0 <= SharcCombFilter.idx x < len)%Z
                                /\ lenZ (SharcCombFilter.buffer x) = L)); [|exact Hs].
  intros j x [Hx1 Hx2]. unfold SharcCombFilter.scalarBody.
  cbn [SharcCombFilter.idx SharcCombFilter.buffer]. rewrite lenZ_wr.
  split; [|exact Hx2].
  destruct (SharcCombFilter.idx x + 1 >=? len)%Z eqn:E; lia.
Qed.

(** The SIMD main loop of the comb filter is the scalar loop over the same
    samples. *)
Lemma comb_simd_main_loop (w : Z) (inp : list R) (len : Z) (g damp : R)
    (s : SharcCombFilter.locals) (k : nat) :
  (1 <= w <= 8)%Z -> (w <= len)%Z ->
  (0 <= SharcCombFilter.idx s < len)%Z ->
  (len <= lenZ (SharcCombFilter.buffer s))%Z ->
  for_loop k 0 w (SharcCombFilter.simdBody w (Distinct inp) len g damp) s
  = for_loop (k * Z.to_nat w) 0 1
      (SharcCombFilter.scalarBody (Distinct inp) len g damp) s.
Proof.
  intros Hw Hwl Hp HB. induction k as [|k IH]; [reflexivity|].
  rewrite for_loop_last, IH.
  replace (S k * Z.to_nat w)%nat with (k * Z.to_nat w + Z.to_nat w)%nat by lia.
  rewrite for_loop_app.
  destruct (comb_scalar_inv (Distinct inp) len g damp
              (lenZ (SharcCombFilter.buffer s)) (k * Z.to_nat w) 0 s)
    as [H1 H2]; [lia|split; [exact Hp|reflexivity]|].
  rewrite comb_simd_group by lia.
  f_equal. lia.
Qed.

(** With an active delay length of at least the register width and the
    cursor inside the active length, the SIMD version of the comb filter
    gives the output block and the filter state of the scalar version. *)
Lemma comb_simd_is_scalar (w : Z) (f : SharcCombFilter.t) (inp out : list R) (n : Z) :
  (1 <= w <= 8)%Z ->
  (w <= SharcCombFilter.delaySamples f)%Z ->
  (SharcCombFilter.delaySamples f <= lenZ (SharcCombFilter.delayLine f))%Z ->
  (0 <= SharcCombFilter.writeIndex f < SharcCombFilter.delaySamples f)%Z ->
  (0 <= n)%Z ->
  SharcCombFilter.processBlockSIMD w f (Distinct inp) out n
  = SharcCombFilter.processBlockScalar f (Distinct inp) out n.
Proof.
  intros Hw Hwl HB Hp Hn.
  unfold SharcCombFilter.processBlockSIMD, SharcCombFilter.processBlockScalar.
  destruct (negb (SharcCombFilter.prepared f)); [reflexivity|]. f_equal.
  rewrite comb_simd_main_loop by (cbn; lia).
  unfold for_range.
  assert (Hq : (0 <= n / w)%Z) by (apply Z.div_pos; lia).
  pose proof (Z.div_mod n w ltac:(lia)) as Hdm.
  pose proof (Z.mod_pos_bound n w ltac:(lia)) as Hm.
  replace (Z.to_nat (n - 0)) with (Z.to_nat (n / w) * Z.to_nat w
                                   + Z.to_nat (n - n / w * w))%nat by nia.
  rewrite for_loop_app. f_equal. nia.
Qed.

(** [k] turns of the scalar allpass loop, lane by lane. *)
Lemma allpass_scalar_lanes (inp : list R) (len : Z) (g : R) (i : Z)
    (s : SharcAllpassFilter.locals) (k : nat) :
  (0 < len)%Z -> (0 <= SharcAllpassFilter.idx s < len)%Z ->
  (len <= lenZ (SharcAllpassFilter.buffer s))%Z ->
  (Z.of_nat k <= len)%Z ->
  let B := SharcAllpassFilter.buffer s in
  let p := SharcAllpassFilter.idx s in
  for_loop k i 1 (SharcAllpassFilter.scalarBody (Distinct inp) len g) s
  = SharcAllpassFilter.mkLocals
      (writes (lanePos p len) (allpassLaneStore B p len g inp i) k B)
      (lanePos p len (Z.of_nat k))
      (writes (fun j => i + j)%Z (allpassLaneOut B p len g inp i) k
         (SharcAllpassFilter.output s)).
Proof.
  intros Hl Hp HB. cbv zeta. induction k as [|k IH]; intros Hk.
  - cbn [for_loop]. unfold writes. cbn [for_loop].
    unfold lanePos. rewrite Z.add_0_r, rem_wrap by lia.
    destruct (SharcAllpassFilter.idx s <? len)%Z eqn:E; [|lia].
    destruct s; reflexivity.
  - rewrite for_loop_last, IH by lia. rewrite !writes_S.
    unfold SharcAllpassFilter.scalarBody.
    cbn [SharcAllpassFilter.buffer SharcAllpassFilter.idx
         SharcAllpassFilter.output rdIn].
    rewrite rd_writes_other
      by (intros j Hj; apply lanePos_distinct; lia).
    rewrite lanePos_next by lia.
    replace (i + Z.of_nat k * 1)%Z with (i + Z.of_nat k)%Z by lia.
    replace (Z.of_nat k + 1)%Z with (Z.of_nat (S k)) by lia.
    reflexivity.
Qed.

(** One SIMD group of the allpass filter, lane by lane. *)
Lemma allpass_simd_lanes (w : Z) (inp : list R) (len : Z) (g : R) (i : Z)
    (s : SharcAllpassFilter.locals) :
  (0 <= w <= 8)%Z ->
  let B := SharcAllpassFilter.buffer s in
  let p := SharcAllpassFilter.idx s in
  SharcAllpassFilter.simdBody w (Distinct inp) len g i s
  = SharcAllpassFilter.mkLocals
      (writes (lanePos p len) (allpassLaneStore B p len g inp i) (Z.to_nat w) B)
      (lanePos p len w)
      (writes (fun j => i + j)%Z (allpassLaneOut B p len g inp i) (Z.to_nat w)
         (SharcAllpassFilter.output s)).
Proof.
  intros Hw B p. unfold SharcAllpassFilter.simdBody. fold B p.
  set (D := for_range 0 w (fun j d => wr d j (rd B (Z.rem (p + j) len))) (zeros 8)).
  pose proof (gather_lanes B p len w Hw) as HD. cbv zeta in HD. fold D in HD.
  assert (Hout : juce.SIMD.vadd
                   (juce.SIMD.scale
                      (juce.SIMD.vmul (juce.SIMD.splat w g)
                         (juce.SIMD.fromRawArray w (arrIn (Distinct inp)
                            (SharcAllpassFilter.output s)) i)) (-1))
                   (juce.SIMD.fromRawArray w D 0)
                 = map (fun j => allpassLaneOut B p len g inp i (Z.of_nat j))
                     (seq 0 (Z.to_nat w))).
  { unfold juce.SIMD.vadd, juce.SIMD.vmul, juce.SIMD.scale, juce.SIMD.fromRawArray.
    cbn [arrIn]. rewrite splat_map, zip_map, map_map, zip_map.
    apply map_ext_in. intros j Hj. apply in_seq in Hj.
    rewrite Z.add_0_l, HD by lia. unfold allpassLaneOut. ring. }
  assert (Hnew : juce.SIMD.vadd
                   (juce.SIMD.fromRawArray w (arrIn (Distinct inp)
                      (SharcAllpassFilter.output s)) i)
                   (juce.SIMD.vmul (juce.SIMD.splat w g) (juce.SIMD.fromRawArray w D 0))
                 = map (fun j => allpassLaneStore B p len g inp i (Z.of_nat j))
                     (seq 0 (Z.to_nat w))).
  { unfold juce.SIMD.vadd, juce.SIMD.vmul, juce.SIMD.fromRawArray.
    cbn [arrIn]. rewrite splat_map, !zip_map.
    apply map_ext_in. intros j Hj. apply in_seq in Hj.
    rewrite Z.add_0_l, HD by lia. unfold allpassLaneStore. ring. }
  rewrite Hout, Hnew, !copyToRawArray_lanes.
  f_equal.
  unfold for_range, writes. rewrite Z.sub_0_r.
  apply for_loop_ext_range. intros j b Hj.
  change (Z.rem (p + j) len) with (lanePos p len j). f_equal.
  rewrite <- (Z.add_0_l j) at 1. apply rd_writes_id; [lia|rewrite lenZ_zeros; lia|lia].
Qed.

Lemma allpass_simd_group (w : Z) (inp : list R) (len : Z) (g : R) (i : Z)
    (s : SharcAllpassFilter.locals) :
  (0 <= w <= 8)%Z -> (w <= len)%Z -> (0 < len)%Z ->
  (0 <= SharcAllpassFilter.idx s < len)%Z ->
  (len <= lenZ (SharcAllpassFilter.buffer s))%Z ->
  SharcAllpassFilter.simdBody w (Distinct inp) len g i s
  = for_loop (Z.to_nat w) i 1 (SharcAllpassFilter.scalarBody (Distinct inp) len g) s.
Proof.
  intros Hw Hwl Hl Hp HB.
  rewrite allpass_simd_lanes by exact Hw.
  rewrite allpass_scalar_lanes by (try assumption; lia).
  rewrite Z2Nat.id by lia. reflexivity.
Qed.

Lemma allpass_scalar_inv (inp : InputRef) (len : Z) (g : R) (L : Z) (k : nat) (i : Z)
    (s : SharcAllpassFilter.locals) :
  (0 < len)%Z ->
  (0 <= SharcAllpassFilter.idx s < len)%Z /\ lenZ (SharcAllpassFilter.buffer s) = L ->
  let s' := for_loop k i 1 (SharcAllpassFilter.scalarBody inp len g) s in
  (0 <= SharcAllpassFilter.idx s' < len)%Z /\ lenZ (SharcAllpassFilter.buffer s') = L.
Proof.
  intros Hl Hs. cbv zeta.
  apply (for_loop_inv (fun x => (0 <= SharcAllpassFilter.idx x < len)%Z
                                /\ lenZ (SharcAllpassFilter.buffer x) = L)); [|exact Hs].
  intros j x [Hx1 Hx2]. unfold SharcAllpassFilter.scalarBody.
  cbn [SharcAllpassFilter.idx SharcAllpassFilter.buffer]. rewrite lenZ_wr.
  split; [|exact Hx2].
  destruct (SharcAllpassFilter.idx x + 1 >=? len)%Z eqn:E; lia.
Qed.

Lemma allpass_simd_main_loop (w : Z) (inp : list R) (len : Z) (g : R)
    (s : SharcAllpassFilter.locals) (k : nat) :
  (1 <= w <= 8)%Z -> (w <= len)%Z ->
  (0 <= SharcAllpassFilter.idx s < len)%Z ->
  (len <= lenZ (SharcAllpassFilter.buffer s))%Z ->
  for_loop k 0 w (SharcAllpassFilter.simdBody w (Distinct inp) len g) s
  = for_loop (k * Z.to_nat w) 0 1
      (SharcAllpassFilter.scalarBody (Distinct inp) len g) s.
Proof.
  intros Hw Hwl Hp HB. induction k as [|k IH]; [reflexivity|].
  rewrite for_loop_last, IH.
  replace (S k * Z.to_nat w)%nat with (k * Z.to_nat w + Z.to_nat w)%nat by lia.
  rewrite for_loop_app.
  destruct (allpass_scalar_inv (Distinct inp) len g
              (lenZ (SharcAllpassFilter.buffer s)) (k * Z.to_nat w) 0 s)
    as [H1 H2]; [lia|split; [exact Hp|reflexivity]|].
  rewrite allpass_simd_group by lia.
  f_equal. lia.
Qed.

(** The same for the allpass filter. *)
Lemma allpass_simd_is_scalar (w : Z) (f : SharcAllpassFilter.t) (inp out : list R) (n : Z) :
  (1 <= w <= 8)%Z ->
  (w <= SharcAllpassFilter.delaySamples f)%Z ->
  (SharcAllpassFilter.delaySamples f <= lenZ (SharcAllpassFilter.delayLine f))%Z ->
  (0 <= SharcAllpassFilter.writeIndex f < SharcAllpassFilter.delaySamples f)%Z ->
  (0 <= n)%Z ->
  SharcAllpassFilter.processBlockSIMD w f (Distinct inp) out n
  = SharcAllpassFilter.processBlockScalar f (Distinct inp) out n.
Proof.
  intros Hw Hwl HB Hp Hn.
  unfold SharcAllpassFilter.processBlockSIMD, SharcAllpassFilter.processBlockScalar.
  destruct (negb (SharcAllpassFilter.prepared f)); [reflexivity|]. f_equal.
  rewrite allpass_simd_main_loop by (cbn; lia).
  unfold for_range.
  assert (Hq : (0 <= n / w)%Z) by (apply Z.div_pos; lia).
  pose proof (Z.div_mod n w ltac:(lia)) as Hdm.
  pose proof (Z.mod_pos_bound n w ltac:(lia)) as Hm.
  replace (Z.to_nat (n - 0)) with (Z.to_nat (n / w) * Z.to_nat w
                                   + Z.to_nat (n - n / w * w))%nat by nia.
  rewrite for_loop_app. f_equal. nia.
Qed.

(** ** What the allpass loop realises *)

Lemma rd_writes_hit (pos : Z -> Z) (val : Z -> R) (k : nat) (a : list R) (j0 : Z) :
  (0 <= j0 < Z.of_nat k)%Z -> (0 <= pos j0 < lenZ a)%Z ->
  (forall j, (j0 < j < Z.of_nat k)%Z -> pos j <> pos j0) ->
  rd (writes pos val k a) (pos j0) = val j0.
Proof.
  induction k as [|k IH]; intros Hj Hp Hd; [lia|].
  rewrite writes_S.
  destruct (Z.eq_dec j0 (Z.of_nat k)) as [->|Hne].
  - apply rd_wr_same. now rewrite lenZ_writes.
  - rewrite rd_wr_other by (apply Hd; lia).
    apply IH; [lia|exact Hp|]. intros j Hj'. apply Hd. lia.
Qed.

(** The output array after [N] turns of the scalar allpass loop holds at
    [n < N] what turn [n] computed from the state it found. *)
Lemma allpass_output_at (inp : list R) (len : Z) (g : R) (s : SharcAllpassFilter.locals)
    (N : nat) (n : Z) :
  (0 <= n < Z.of_nat N)%Z -> (Z.of_nat N <= lenZ (SharcAllpassFilter.output s))%Z ->
  let body := SharcAllpassFilter.scalarBody (Distinct inp) len g in
  let st := for_loop (Z.to_nat n) 0 1 body s in
  rd (SharcAllpassFilter.output (for_loop N 0 1 body s)) n
  = - g * rd inp n + rd (SharcAllpassFilter.buffer st) (SharcAllpassFilter.idx st).
Proof.
  intros Hn HN. cbv zeta.
  assert (HL : forall k, lenZ (SharcAllpassFilter.output
                 (for_loop k 0 1 (SharcAllpassFilter.scalarBody (Distinct inp) len g) s))
               = lenZ (SharcAllpassFilter.output s)).
  { intros k. apply (for_loop_inv (fun x => lenZ (SharcAllpassFilter.output x)
                                            = lenZ (SharcAllpassFilter.output s)));
      [|reflexivity].
    intros j x Hx. unfold SharcAllpassFilter.scalarBody.
    cbn [SharcAllpassFilter.output]. now rewrite lenZ_wr. }
  induction N as [|N IH]; [lia|].
  rewrite for_loop_last. replace (0 + Z.of_nat N * 1)%Z with (Z.of_nat N) by lia.
  unfold SharcAllpassFilter.scalarBody at 1. cbn [SharcAllpassFilter.output rdIn].
  destruct (Z.eq_dec n (Z.of_nat N)) as [->|Hne].
  - rewrite rd_wr_same by (rewrite HL; lia). rewrite Nat2Z.id. reflexivity.
  - rewrite rd_wr_other by lia. apply IH; lia.
Qed.

(** The delayed sample turn [n >= M] reads is what turn [n - M] stored. *)
Lemma allpass_delayed_at (inp : list R) (M : Z) (g : R) (s : SharcAllpassFilter.locals)
    (n : Z) :
  (1 <= M)%Z -> (0 <= SharcAllpassFilter.idx s < M)%Z ->
  (M <= lenZ (SharcAllpassFilter.buffer s))%Z -> (M <= n)%Z ->
  let body := SharcAllpassFilter.scalarBody (Distinct inp) M g in
  let st := for_loop (Z.to_nat n) 0 1 body s in
  let st0 := for_loop (Z.to_nat (n - M)) 0 1 body s in
  rd (SharcAllpassFilter.buffer st) (SharcAllpassFilter.idx st)
  = rd inp (n - M)
    + rd (SharcAllpassFilter.buffer st0) (SharcAllpassFilter.idx st0) * g.
Proof.
  intros HM Hp HB Hn. cbv zeta.
  set (body := SharcAllpassFilter.scalarBody (Distinct inp) M g).
  set (st0 := for_loop (Z.to_nat (n - M)) 0 1 body s).
  destruct (allpass_scalar_inv (Distinct inp) M g (lenZ (SharcAllpassFilter.buffer s))
              (Z.to_nat (n - M)) 0 s) as [H1 H2]; [lia|split; [exact Hp|reflexivity]|].
  fold body st0 in H1, H2.
  replace (Z.to_nat n) with (Z.to_nat (n - M) + Z.to_nat M)%nat by lia.
  rewrite for_loop_app. fold st0.
  replace (0 + Z.of_nat (Z.to_nat (n - M)) * 1)%Z with (n - M)%Z by lia.
  unfold body. rewrite allpass_scalar_lanes by lia.
  cbn [SharcAllpassFilter.buffer SharcAllpassFilter.idx].
  rewrite Z2Nat.id by lia.
  assert (E0 : lanePos (SharcAllpassFilter.idx st0) M 0 = SharcAllpassFilter.idx st0).
  { unfold lanePos. rewrite Z.add_0_r, rem_wrap by lia.
    destruct (SharcAllpassFilter.idx st0 <? M)%Z eqn:E; lia. }
  assert (EM : lanePos (SharcAllpassFilter.idx st0) M M
               = lanePos (SharcAllpassFilter.idx st0) M 0).
  { rewrite E0. unfold lanePos. rewrite rem_wrap by lia.
    destruct (SharcAllpassFilter.idx st0 + M <? M)%Z eqn:E; lia. }
  rewrite EM, rd_writes_hit.
  - unfold allpassLaneStore, laneDelayed. rewrite E0, Z.add_0_r. reflexivity.
  - lia.
  - rewrite E0. lia.
  - intros j Hj. apply not_eq_sym. apply lanePos_distinct; lia.
Qed.

(** On a prepared allpass filter with the cursor inside the active length
    [M], the scalar loop realises
    [y[n] = -g*x[n] + (1 + g*g)*x[n-M] + g*y[n-M]] for [n >= M]: the
    recurrence of the class comment holds with [(1 + g*g)*x[n-M]] in the
    place of [x[n-M]]. *)
Lemma allpass_realised_recurrence (f : SharcAllpassFilter.t) (xs out : list R) (n : Z) :
  SharcAllpassFilter.prepared f = true ->
  let M := SharcAllpassFilter.delaySamples f in
  let g := SharcAllpassFilter.apGain f in
  (1 <= M <= lenZ (SharcAllpassFilter.delayLine f))%Z ->
  (0 <= SharcAllpassFilter.writeIndex f < M)%Z ->
  (lenZ xs <= lenZ out)%Z ->
  (M <= n < lenZ xs)%Z ->
  let y := snd (SharcAllpassFilter.processBlockScalar f (Distinct xs) out (lenZ xs)) in
  rd y n = - g * rd xs n + (1 + g * g) * rd xs (n - M) + g * rd y (n - M).
Proof.
  intros Hp M g HM Hw Hlen Hn y.
  unfold y, SharcAllpassFilter.processBlockScalar. rewrite Hp.
  cbn [negb SharcAllpassFilter.finish snd]. unfold for_range.
  rewrite Z.sub_0_r. fold M g.
  set (s := SharcAllpassFilter.start f out).
  assert (HN : Z.of_nat (Z.to_nat (lenZ xs)) = lenZ xs) by (unfold lenZ; lia).
  rewrite (allpass_output_at xs M g s (Z.to_nat (lenZ xs)) n) by (cbn; lia).
  rewrite (allpass_output_at xs M g s (Z.to_nat (lenZ xs)) (n - M)) by (cbn; lia).
  rewrite (allpass_delayed_at xs M g s n) by (cbn; lia).
  ring.
Qed.

(** ** The allpass filters work in place *)

Lemma for_loop_eq_inv {St : Type} (P : Z -> St -> Prop) (n : nat) (i step : Z)
    (f g : Z -> St -> St) (s : St) :
  P i s ->
  (forall j s', P j s' -> f j s' = g j s' /\ P (j + step)%Z (g j s')) ->
  for_loop n i step f s = for_loop n i step g s
  /\ P (i + Z.of_nat n * step)%Z (for_loop n i step g s).
Proof.
  intros Hs H. revert i s Hs. induction n as [|n IH]; intros i s Hs.
  - cbn [for_loop]. split; [reflexivity|]. now replace (i + Z.of_nat 0 * step)%Z with i by lia.
  - cbn [for_loop]. destruct (H i s Hs) as [E HP]. rewrite E.
    destruct (IH (i + step)%Z (g i s) HP) as [E' HP']. split; [exact E'|].
    now replace (i + Z.of_nat (S n) * step)%Z with (i + step + Z.of_nat n * step)%Z by lia.
Qed.

Lemma for_loop_inv_range {St : Type} (P : St -> Prop) (n : nat) (lo : Z)
    (body : Z -> St -> St) (s : St) :
  (forall j s', (lo <= j < lo + Z.of_nat n)%Z -> P s' -> P (body j s')) ->
  P s -> P (for_loop n lo 1 body s).
Proof.
  revert lo s; induction n as [|n IH]; intros lo s H Hs; cbn [for_loop]; auto.
  apply IH; [intros j s' Hj; apply H; lia|]. apply H; [lia|exact Hs].
Qed.

Lemma rd_copyToRawArray_other (v a : list R) (off k : Z) :
  (k < off \/ off + lenZ v <= k)%Z ->
  rd (juce.SIMD.copyToRawArray v a off) k = rd a k.
Proof.
  intros Hk. unfold juce.SIMD.copyToRawArray, for_range.
  apply (for_loop_inv_range (fun x => rd x k = rd a k)); [|reflexivity].
  intros j x Hj Hx. rewrite rd_wr_other by (unfold lenZ in *; lia). exact Hx.
Qed.

Lemma zip_length_le (f : R -> R -> R) (a b : list R) :
  (length (juce.SIMD.zip f a b) <= length a)%nat.
Proof.
  revert b; induction a as [|x a IH]; intros [|y b]; cbn; try lia.
  specialize (IH b). lia.
Qed.

Lemma allpass_scalar_step_in_place (m : list R) (len : Z) (g : R) (j : Z)
    (s : SharcAllpassFilter.locals) :
  untouchedFrom m j s ->
  SharcAllpassFilter.scalarBody SameAsOutput len g j s
  = SharcAllpassFilter.scalarBody (Distinct m) len g j s
  /\ untouchedFrom m (j + 1) (SharcAllpassFilter.scalarBody (Distinct m) len g j s).
Proof.
  intros Hs. split.
  - unfold SharcAllpassFilter.scalarBody. cbn [rdIn]. rewrite (Hs j) by lia. reflexivity.
  - intros k Hk. unfold SharcAllpassFilter.scalarBody. cbn [SharcAllpassFilter.output].
    rewrite rd_wr_other by lia. apply Hs. lia.
Qed.

Lemma allpass_simd_step_in_place (w : Z) (m : list R) (len : Z) (g : R) (j : Z)
    (s : SharcAllpassFilter.locals) :
  (0 <= w)%Z ->
  untouchedFrom m j s ->
  SharcAllpassFilter.simdBody w SameAsOutput len g j s
  = SharcAllpassFilter.simdBody w (Distinct m) len g j s
  /\ untouchedFrom m (j + w) (SharcAllpassFilter.simdBody w (Distinct m) len g j s).
Proof.
  intros Hw Hs.
  assert (E : juce.SIMD.fromRawArray w (SharcAllpassFilter.output s) j
              = juce.SIMD.fromRawArray w m j).
  { unfold juce.SIMD.fromRawArray. apply map_ext. intros l. apply Hs. lia. }
  split.
  - unfold SharcAllpassFilter.simdBody. cbn [arrIn]. rewrite E. reflexivity.
  - intros k Hk. unfold SharcAllpassFilter.simdBody. cbn [SharcAllpassFilter.output arrIn].
    rewrite rd_copyToRawArray_other; [apply Hs; lia|]. right.
    match goal with |- (j + lenZ (juce.SIMD.vadd ?a ?b) <= k)%Z =>
      assert (HL : (lenZ (juce.SIMD.vadd a b) <= w)%Z)
    end; [|lia].
    unfold juce.SIMD.vadd, juce.SIMD.scale, juce.SIMD.vmul, juce.SIMD.splat, lenZ.
    match goal with |- (Z.of_nat (length (juce.SIMD.zip ?f ?a ?b)) <= w)%Z =>
      pose proof (zip_length_le f a b) as H1 end.
    rewrite length_map in H1.
    match type of H1 with (_ <= length (juce.SIMD.zip ?f ?a ?b))%nat =>
      pose proof (zip_length_le f a b) as H2 end.
    rewrite repeat_length in H2. lia.
Qed.

(** [processBlock] hands every allpass the same array as input and output.
    The scalar loop reads [input[i]] before it writes [output[i]] and never
    reads an earlier sample again, so it computes what it computes from a
    separate copy of the input. *)
Lemma allpass_scalar_in_place (f : SharcAllpassFilter.t) (m : list R) (n : Z) :
  SharcAllpassFilter.processBlockScalar f SameAsOutput m n
  = SharcAllpassFilter.processBlockScalar f (Distinct m) m n.
Proof.
  unfold SharcAllpassFilter.processBlockScalar.
  destruct (negb (SharcAllpassFilter.prepared f)); [reflexivity|]. f_equal.
  unfold for_range.
  apply (for_loop_eq_inv (untouchedFrom m)).
  - intros k _. reflexivity.
  - apply allpass_scalar_step_in_place.
Qed.

(** The SIMD loop loads the register from [input + i] before it stores to
    [output + i]: the same holds for it. *)
Lemma allpass_simd_in_place (w : Z) (f : SharcAllpassFilter.t) (m : list R) (n : Z) :
  (0 <= w)%Z -> (0 <= n)%Z ->
  SharcAllpassFilter.processBlockSIMD w f SameAsOutput m n
  = SharcAllpassFilter.processBlockSIMD w f (Distinct m) m n.
Proof.
  intros Hw Hn. unfold SharcAllpassFilter.processBlockSIMD.
  destruct (negb (SharcAllpassFilter.prepared f)); [reflexivity|]. f_equal.
  destruct (for_loop_eq_inv (untouchedFrom m) (Z.to_nat (n / w)) 0 w
              (SharcAllpassFilter.simdBody w SameAsOutput
                 (SharcAllpassFilter.delaySamples f) (SharcAllpassFilter.apGain f))
              (SharcAllpassFilter.simdBody w (Distinct m)
                 (SharcAllpassFilter.delaySamples f) (SharcAllpassFilter.apGain f))
              (SharcAllpassFilter.start f m)) as [E HP].
  - intros k _. reflexivity.
  - intros j s Hs. now apply allpass_simd_step_in_place.
  - rewrite E. unfold for_range.
    apply (for_loop_eq_inv (untouchedFrom m)).
    + intros k Hk. apply HP.
      assert (Hq : (0 <= n / w)%Z) by (apply Z_div_nonneg_nonneg; lia).
      rewrite Z2Nat.id by lia. lia.
    + apply allpass_scalar_step_in_place.
Qed.

(** In place as well, the SIMD version of the allpass filter gives what
    the scalar version gives when the active delay length is at least the
    register width and the cursor is inside it. *)
Lemma allpass_simd_is_scalar_in_place (w : Z) (f : SharcAllpassFilter.t) (m : list R)
    (n : Z) :
  (1 <= w <= 8)%Z ->
  (w <= SharcAllpassFilter.delaySamples f)%Z ->
  (SharcAllpassFilter.delaySamples f <= lenZ (SharcAllpassFilter.delayLine f))%Z ->
  (0 <= SharcAllpassFilter.writeIndex f < SharcAllpassFilter.delaySamples f)%Z ->
  (0 <= n)%Z ->
  SharcAllpassFilter.processBlockSIMD w f SameAsOutput m n
  = SharcAllpassFilter.processBlockScalar f SameAsOutput m n.
Proof.
  intros Hw Hwl HB Hp Hn.
  rewrite allpass_simd_in_place by lia.
  rewrite allpass_scalar_in_place.
  now apply allpass_simd_is_scalar.
Qed.

(** ** The delay average at 48 kHz *)

(** At 48 kHz [prepareToPlay] gives every comb its table entry as active
    delay length, and the [avgDelayMs] of [processBlock] is the mean of the
    four combs' delay times in milliseconds.  At another rate the combs'
    lengths are rescaled and the table in [avgDelayMs] is not. *)
Lemma avgDelayMs_at_48k (p0 : DdxReverbAudioProcessor.t) (n : Z) :
  wellFormed p0 ->
  let p := DdxReverbAudioProcessor.prepareToPlay p0 48000 n in
  let delayMs (c : Z) : R :=
    IZR (SharcCombFilter.delaySamples
           (DdxReverbAudioProcessor.combAt (DdxReverbAudioProcessor.combs p) c))
    / 48000 * 1000 in
  DdxReverbAudioProcessor.avgDelayMs (DdxReverbAudioProcessor.currentSampleRate p)
  = (delayMs 0%Z + delayMs 1%Z + delayMs 2%Z + delayMs 3%Z) / 4.
Proof.
  intros Hwf p delayMs.
  destruct (prepareToPlay_combs p0 48000 n Hwf) as [_ HP]. cbv zeta in HP. fold p in HP.
  assert (Hd : forall c d, (0 <= c < 4)%Z ->
            DdxReverbAudioProcessor.tableAt DdxReverbAudioProcessor.combDelays c = d ->
            (1 <= d <= 4800)%Z -> delayMs c = IZR d / 48000 * 1000).
  { intros c d Hc Ht Hr. unfold delayMs. rewrite (HP c Hc). rewrite Ht.
    cbn [SharcCombFilter.setDelaySamples SharcCombFilter.prepare
         SharcCombFilter.delaySamples SharcCombFilter.delayLine].
    rewrite (static_cast_int_eq (48000 * 0.1) 4800) by lra.
    rewrite (static_cast_int_eq (IZR d * 48000 / 48000) d) by (field).
    rewrite lenZ_zeros. unfold juce.jlimitZ.
    destruct (d <? 1)%Z eqn:E1; [lia|].
    destruct (Z.max 4800 0 <? d)%Z eqn:E2; [lia|]. reflexivity. }
  rewrite (Hd 0%Z 1116%Z), (Hd 1%Z 1188%Z), (Hd 2%Z 1277%Z), (Hd 3%Z 1356%Z)
    by (try reflexivity; lia).
  unfold DdxReverbAudioProcessor.avgDelayMs.
  change (DdxReverbAudioProcessor.currentSampleRate p) with 48000.
  change (DdxReverbAudioProcessor.tableAt DdxReverbAudioProcessor.combDelays 0) with 1116%Z.
  change (DdxReverbAudioProcessor.tableAt DdxReverbAudioProcessor.combDelays 1) with 1188%Z.
  change (DdxReverbAudioProcessor.tableAt DdxReverbAudioProcessor.combDelays 2) with 1277%Z.
  change (DdxReverbAudioProcessor.tableAt DdxReverbAudioProcessor.combDelays 3) with 1356%Z.
  rewrite !plus_IZR. lra.
Qed.

(** ** The delay average at other rates *)

Lemma ln_10_above_2 : 2 < ln 10.
Proof.
  rewrite <- (ln_exp 2). apply ln_increasing; [apply exp_pos|].
  replace 2 with (1 + 1) by lra. rewrite exp_plus.
  pose proof exp_le_3 as H3. pose proof (exp_pos 1) as Hp. nra.
Qed.

(** [10 ^ (-t)] lies inside the clamp [0.1, 0.99] for [t] from 0.0051 to 1. *)
Lemma pow10_inside_clamp (t : R) :
  0.0051 <= t <= 1 -> 0.1 <= Rpower 10 (- t) < 0.99.
Proof.
  intros [Hlo Hhi]. split.
  - replace 0.1 with (Rpower 10 (- (1))) by (rewrite Rpower_Ropp, Rpower_1; lra).
    apply Rle_Rpower; lra.
  - rewrite Rpower_Ropp. unfold Rpower.
    pose proof ln_10_above_2 as Hl.
    assert (Hx : t * ln 10 <> 0) by nra.
    pose proof (exp_ineq1 (t * ln 10) Hx) as He.
    assert (Hb : 1 / 0.99 < exp (t * ln 10)) by nra.
    apply (Rmult_lt_reg_r (exp (t * ln 10))); [apply exp_pos|].
    rewrite Rinv_l by (apply Rgt_not_eq, exp_pos). lra.
Qed.

(** [prepareToPlay] at [k] times 48 kHz gives every comb [k] times its
    table delay. *)
Lemma prepareToPlay_comb_delays (p0 : DdxReverbAudioProcessor.t) (k n : Z) :
  wellFormed p0 -> (1 <= k)%Z ->
  map SharcCombFilter.delaySamples
    (DdxReverbAudioProcessor.combs
       (DdxReverbAudioProcessor.prepareToPlay p0 (48000 * IZR k) n))
  = [k * 1116; k * 1188; k * 1277; k * 1356]%Z.
Proof.
  intros Hwf Hk. assert (HkR : 1 <= IZR k) by now apply IZR_le.
  destruct (prepareToPlay_combs p0 (48000 * IZR k) n Hwf) as [HL HP]. cbv zeta in HL, HP.
  assert (Hd : forall c d, (0 <= c < 4)%Z ->
            DdxReverbAudioProcessor.tableAt DdxReverbAudioProcessor.combDelays c = d ->
            (1 <= d <= 4800)%Z ->
            SharcCombFilter.delaySamples
              (DdxReverbAudioProcessor.combAt
                 (DdxReverbAudioProcessor.combs
                    (DdxReverbAudioProcessor.prepareToPlay p0 (48000 * IZR k) n)) c)
            = (k * d)%Z).
  { intros c d Hc Ht Hr. rewrite (HP c Hc). rewrite Ht.
    cbn [SharcCombFilter.setDelaySamples SharcCombFilter.prepare
         SharcCombFilter.delaySamples SharcCombFilter.delayLine].
    rewrite (static_cast_int_eq (48000 * IZR k * 0.1) (4800 * k))
      by (rewrite mult_IZR; lra).
    rewrite (static_cast_int_eq (IZR d * (48000 * IZR k) / 48000) (k * d))
      by (rewrite mult_IZR; lra).
    rewrite lenZ_zeros. unfold juce.jlimitZ.
    destruct (k * d <? 1)%Z eqn:E1; [nia|].
    destruct (Z.max (4800 * k) 0 <? k * d)%Z eqn:E2; [nia|]. reflexivity. }
  pose proof (Hd 0%Z 1116%Z ltac:(lia) eq_refl ltac:(lia)) as H0.
  pose proof (Hd 1%Z 1188%Z ltac:(lia) eq_refl ltac:(lia)) as H1.
  pose proof (Hd 2%Z 1277%Z ltac:(lia) eq_refl ltac:(lia)) as H2.
  pose proof (Hd 3%Z 1356%Z ltac:(lia) eq_refl ltac:(lia)) as H3.
  destruct (four_elements _ HL) as (a & b & c & d & E).
  rewrite E in H0, H1, H2, H3 |- *.
  unfold DdxReverbAudioProcessor.combAt, rdA in H0, H1, H2, H3.
  simpl in H0, H1, H2, H3. cbn [map]. now rewrite H0, H1, H2, H3.
Qed.

Lemma bankAverageDelayMs_of_delays (sr : R) (cs : list SharcCombFilter.t) (a b c d : Z) :
  map SharcCombFilter.delaySamples cs = [a; b; c; d] ->
  Spec.bankAverageDelayMs sr cs
  = (IZR a / sr * 1000 + (IZR b / sr * 1000 + (IZR c / sr * 1000
       + (IZR d / sr * 1000 + 0)))) / 4.
Proof.
  intros E. destruct cs as [|c0 [|c1 [|c2 [|c3 [|c4 cs]]]]]; try discriminate E.
  cbn [map] in E. injection E as E0 E1 E2 E3.
  unfold Spec.bankAverageDelayMs, Spec.delayMs. cbn [fold_right].
  rewrite E0, E1, E2, E3. reflexivity.
Qed.

(** At 48 kHz the gain every comb gets is the gain of section 4.2, from
    the mean of the combs' own delay times. *)
Lemma combGain_at_48k (w : Z) (G : Statics) (p0 : DdxReverbAudioProcessor.t) (n : Z)
    (prm : Params) (buf : AudioBuffer.t) (t0 t1 : R) :
  wellFormed p0 -> gtb (bypass prm) 0.5 = false ->
  let p := DdxReverbAudioProcessor.prepareToPlay p0 48000 n in
  Forall (fun c => SharcCombFilter.feedbackGain c
                   = Spec.combGain 48000 (decay prm) (bassmult prm)
                       (DdxReverbAudioProcessor.combs p))
    (DdxReverbAudioProcessor.combs
       (snd (fst (DdxReverbAudioProcessor.processBlock w G p prm buf t0 t1)))).
Proof.
  intros Hwf Hb p.
  pose proof (prepareToPlay_comb_delays p0 1 n Hwf ltac:(lia)) as Hd.
  replace (48000 * 1) with 48000 in Hd by lra. fold p in Hd.
  pose proof (bankAverageDelayMs_of_delays 48000 _ _ _ _ _ Hd) as Havg.
  destruct (combs_share_one_gain w G p prm buf t0 t1 Hb) as (_ & _ & HF & _).
  assert (E : Spec.bankAverageDelayMs 48000 (DdxReverbAudioProcessor.combs p)
              = IZR (1116 + 1188 + 1277 + 1356) / 4 * 1000 / 48000)
    by (rewrite Havg, !plus_IZR, !mult_IZR; lra).
  revert HF. apply Forall_impl. intros c Hc. rewrite Hc.
  unfold Spec.combGain, juce.pow. rewrite E. reflexivity.
Qed.

(** C5.  [processBlock] does hand every comb one gain, clamped as the
    claim says, but the [avgDelayMs] it is computed from is the mean of the
    48 kHz delay table times 1000 over the current sample rate, which is
    the bank-average comb delay time only at 48 kHz ([avgDelayMs_at_48k]).
    [prepareToPlay] rescales the combs' delays to the rate and the formula
    does not.  At 96 kHz the combs run 2232, 2376, 2554 and 2712 samples,
    25.71 ms on average as at 48 kHz, while [avgDelayMs] is 12.86 ms: with
    a decay time of 5 s and no bass multiply every comb gets
    [10 ^ (-0.0077) = 0.982] where the bank-average delay time asks for
    [10 ^ (-0.0154) = 0.965]. *)
Theorem C5_gain_formula_ignores_the_rescaled_delays :
  let p := DdxReverbAudioProcessor.prepareToPlay
             (DdxReverbAudioProcessor.construct 2 2) 96000 1 in
  let prm := mkParams 5 50 50 10 0 0 0.5 0 0 in
  let p' := snd (fst (DdxReverbAudioProcessor.processBlock 4 initialStatics p prm
                        (AudioBuffer.mk [[1]; [1]] 1) 0 1)) in
  let tableMean := IZR (1116 + 1188 + 1277 + 1356) / 4 in
  let claimed := Spec.combGain 96000 (decay prm) (bassmult prm)
                   (DdxReverbAudioProcessor.combs p) in
  map SharcCombFilter.delaySamples (DdxReverbAudioProcessor.combs p)
  = [2232; 2376; 2554; 2712]%Z /\
  Spec.bankAverageDelayMs 96000 (DdxReverbAudioProcessor.combs p)
  = tableMean * 1000 / 48000 /\
  DdxReverbAudioProcessor.avgDelayMs (DdxReverbAudioProcessor.currentSampleRate p)
  = tableMean * 1000 / 96000 /\
  claimed = Rpower 10 (-3 * (tableMean * 1000 / 48000) / (5 * 1000)) /\
  lenZ (DdxReverbAudioProcessor.combs p') = 4%Z /\
  Forall (fun c => SharcCombFilter.feedbackGain c
                   = Rpower 10 (-3 * (tableMean * 1000 / 96000) / (5 * 1000)))
    (DdxReverbAudioProcessor.combs p') /\
  Forall (fun c => claimed < SharcCombFilter.feedbackGain c)
    (DdxReverbAudioProcessor.combs p').
Proof.
  intros p prm p' tableMean claimed.
  pose proof (construct_wellFormed 2 2) as Hwf.
  pose proof (prepareToPlay_comb_delays _ 2 1 Hwf ltac:(lia)) as Hd.
  replace (48000 * 2) with 96000 in Hd by lra. fold p in Hd.
  change [2 * 1116; 2 * 1188; 2 * 1277; 2 * 1356]%Z
    with [2232; 2376; 2554; 2712]%Z in Hd.
  pose proof (bankAverageDelayMs_of_delays 96000 _ _ _ _ _ Hd) as Havg.
  assert (Hmean : tableMean = 4937 / 4)
    by (unfold tableMean; rewrite !plus_IZR; lra).
  assert (Havg' : Spec.bankAverageDelayMs 96000 (DdxReverbAudioProcessor.combs p)
                  = tableMean * 1000 / 48000) by (rewrite Havg, Hmean; lra).
  assert (Hcode : DdxReverbAudioProcessor.avgDelayMs
                    (DdxReverbAudioProcessor.currentSampleRate p)
                  = tableMean * 1000 / 96000) by reflexivity.
  destruct (pow10_inside_clamp (3 * (tableMean * 1000 / 48000) / (5 * 1000)))
    as [A1 A2]; [rewrite Hmean; lra|].
  destruct (pow10_inside_clamp (3 * (tableMean * 1000 / 96000) / (5 * 1000)))
    as [B1 B2]; [rewrite Hmean; lra|].
  replace (- (3 * (tableMean * 1000 / 48000) / (5 * 1000)))
    with (-3 * (tableMean * 1000 / 48000) / (5 * 1000)) in A1, A2 by lra.
  replace (- (3 * (tableMean * 1000 / 96000) / (5 * 1000)))
    with (-3 * (tableMean * 1000 / 96000) / (5 * 1000)) in B1, B2 by lra.
  assert (Hclaimed : claimed
                     = Rpower 10 (-3 * (tableMean * 1000 / 48000) / (5 * 1000))).
  { unfold claimed, Spec.combGain, juce.pow, prm. cbn [decay bassmult].
    rewrite Havg'. rewrite (jlimit_inside 0.1 0.99) by lra.
    rewrite Rmult_0_l, Rplus_0_r, Rmult_1_r. apply jlimit_inside. lra. }
  assert (Hlt : Rpower 10 (-3 * (tableMean * 1000 / 48000) / (5 * 1000))
                < Rpower 10 (-3 * (tableMean * 1000 / 96000) / (5 * 1000)))
    by (apply Rpower_lt; [lra|rewrite Hmean; lra]).
  destruct (combs_share_one_gain 4 initialStatics p prm (AudioBuffer.mk [[1]; [1]] 1) 0 1)
    as (_ & _ & HF & HL); [apply gtb_false; cbn; lra|].
  fold p' in HF, HL.
  assert (Hstored : Forall (fun c => SharcCombFilter.feedbackGain c
                      = Rpower 10 (-3 * (tableMean * 1000 / 96000) / (5 * 1000)))
                      (DdxReverbAudioProcessor.combs p')).
  { revert HF. apply Forall_impl. intros c Hc. rewrite Hc.
    change (DdxReverbAudioProcessor.currentSampleRate p) with 96000.
    cbn [decay bassmult prm]. fold tableMean.
    rewrite (jlimit_inside 0.1 0.99) by lra.
    rewrite Rmult_0_l, Rplus_0_r, Rmult_1_r. apply jlimit_inside. lra. }
  split; [exact Hd|]. split; [exact Havg'|]. split; [exact Hcode|].
  split; [exact Hclaimed|]. split.
  - rewrite HL. apply (prepareToPlay_combs _ 96000 1 Hwf).
  - split; [exact Hstored|].
    revert Hstored. apply Forall_impl. intros c Hc. rewrite Hc, Hclaimed. exact Hlt.
Qed.

(** ** A cursor beyond the active length *)

(** [setDelaySamples] may shorten the active length below the cursor.  The
    scalar loop then reads the delay line at the cursor once more before it
    wraps, the SIMD loop at the cursor modulo the new length: an allpass
    prepared with six samples, run over five samples and shortened to four,
    gives [0, 1, 1, 1] on silence with the scalar loop and [1, 1, 1, 1]
    with the SIMD loop. *)
Lemma allpass_simd_differs_on_stale_cursor :
  let f0 := SharcAllpassFilter.prepare SharcAllpassFilter.default 48000 6 0.5 in
  let f1 := fst (SharcAllpassFilter.processBlockScalar f0 (Distinct [1; 1; 1; 1; 1])
                   [0; 0; 0; 0; 0] 5) in
  let f2 := SharcAllpassFilter.setDelaySamples f1 4 in
  SharcAllpassFilter.writeIndex f2 = 5%Z /\
  SharcAllpassFilter.delaySamples f2 = 4%Z /\
  snd (SharcAllpassFilter.processBlockScalar f2 (Distinct [0; 0; 0; 0]) [0; 0; 0; 0] 4)
  = [0; 1; 1; 1] /\
  snd (SharcAllpassFilter.processBlockSIMD 4 f2 (Distinct [0; 0; 0; 0]) [0; 0; 0; 0] 4)
  = [1; 1; 1; 1].
Proof.
  cbv zeta. split; [reflexivity|]. split; [reflexivity|].
  split; eval_arrays; list_lra.
Qed.

(** ** The SIMD switch on a processor with long enough delay lines *)

Section SimdSwitch.

Variable w : Z.
Hypothesis Hw : (1 <= w <= 8)%Z.

Lemma runComb_simd_off (f : SharcCombFilter.t) (inp out : list R) (n : Z) :
  combSafe w f -> (0 <= n)%Z ->
  DdxReverbAudioProcessor.runComb w true f (Distinct inp) out n
  = DdxReverbAudioProcessor.runComb w false f (Distinct inp) out n.
Proof.
  intros Hs Hn. unfold DdxReverbAudioProcessor.runComb.
  destruct (SharcCombFilter.prepared f) eqn:Hp.
  - destruct (Hs Hp) as [H1 H2]. apply comb_simd_is_scalar; lia.
  - unfold SharcCombFilter.processBlockSIMD, SharcCombFilter.processBlockScalar.
    rewrite Hp. reflexivity.
Qed.

Lemma runComb_keeps_safe (f : SharcCombFilter.t) (inp : InputRef) (out : list R) (n : Z) :
  combSafe w f ->
  combSafe w (fst (DdxReverbAudioProcessor.runComb w false f inp out n)).
Proof.
  intros Hs. unfold DdxReverbAudioProcessor.runComb, SharcCombFilter.processBlockScalar.
  destruct (SharcCombFilter.prepared f) eqn:Hp; cbn [negb fst]; [|exact Hs].
  destruct (Hs Hp) as [H1 H2]. intros _.
  unfold for_range.
  destruct (comb_scalar_inv inp (SharcCombFilter.delaySamples f)
              (SharcCombFilter.feedbackGain f) (SharcCombFilter.dampingCoeff f)
              (lenZ (SharcCombFilter.delayLine f)) (Z.to_nat (n - 0)) 0
              (SharcCombFilter.start f out)) as [I1 I2];
    [lia|split; [exact H2|reflexivity]|].
  unfold SharcCombFilter.finish.
  cbn [fst SharcCombFilter.delaySamples SharcCombFilter.delayLine SharcCombFilter.writeIndex].
  rewrite I2. split; [exact H1|exact I1].
Qed.

Lemma combAt_safe (cs : list SharcCombFilter.t) (c : Z) :
  Forall (combSafe w) cs -> combSafe w (DdxReverbAudioProcessor.combAt cs c).
Proof.
  intros H. unfold DdxReverbAudioProcessor.combAt.
  destruct (Z_lt_ge_dec c 0) as [Hn|Hn].
  - unfold rdA. destruct (c <? 0)%Z eqn:E; [|lia]. intros Hp. discriminate Hp.
  - destruct (Z_lt_ge_dec c (lenZ cs)) as [Hl|Hl].
    + apply rd_Forall; [exact H|lia].
    + rewrite rd_outside by lia. intros Hp. discriminate Hp.
Qed.

Lemma combStage_simd_off (n : Z) (cs : list SharcCombFilter.t) (m : list R) :
  Forall (combSafe w) cs -> (0 <= n)%Z ->
  DdxReverbAudioProcessor.combStage w true n cs m
  = DdxReverbAudioProcessor.combStage w false n cs m
  /\ Forall (combSafe w) (fst (DdxReverbAudioProcessor.combStage w false n cs m)).
Proof.
  intros Hs Hn. unfold DdxReverbAudioProcessor.combStage, for_range.
  destruct (for_loop_eq_inv
              (fun (_ : Z) (st : list SharcCombFilter.t * AudioBuffer.t * list R) =>
                 Forall (combSafe w) (fst (fst st)))
              (Z.to_nat (DdxReverbAudioProcessor.numCombs - 0)) 0 1
              (DdxReverbAudioProcessor.combBody w true n)
              (DdxReverbAudioProcessor.combBody w false n)
              (cs, AudioBuffer.sized 1 n, m)) as [E HP].
  - exact Hs.
  - intros c [[cs' cb] m'] Hs'. cbn [fst] in Hs'.
    unfold DdxReverbAudioProcessor.combBody.
    rewrite runComb_simd_off by (try apply combAt_safe; assumption).
    split; [reflexivity|].
    pose proof (runComb_keeps_safe (DdxReverbAudioProcessor.combAt cs' c) (Distinct m')
                  (AudioBuffer.chan (AudioBuffer.clear cb) 0) n
                  (combAt_safe cs' c Hs')) as Hk.
    destruct (DdxReverbAudioProcessor.runComb w false _ _ _ _) as [f' o'].
    cbn [fst] in *. apply Forall_wr; [exact Hs'|]. intros _. exact Hk.
  - rewrite E.
    destruct (for_loop _ _ _ (DdxReverbAudioProcessor.combBody w false n) _)
      as [[cs' cb] m'].
    cbn [fst] in *. split; [reflexivity|exact HP].
Qed.

Lemma runAllpass_simd_off (f : SharcAllpassFilter.t) (m : list R) (n : Z) :
  allpassSafe w f -> (0 <= n)%Z ->
  DdxReverbAudioProcessor.runAllpass w true f SameAsOutput m n
  = DdxReverbAudioProcessor.runAllpass w false f SameAsOutput m n.
Proof.
  intros Hs Hn. unfold DdxReverbAudioProcessor.runAllpass.
  destruct (SharcAllpassFilter.prepared f) eqn:Hp.
  - destruct (Hs Hp) as [H1 H2]. apply allpass_simd_is_scalar_in_place; lia.
  - unfold SharcAllpassFilter.processBlockSIMD, SharcAllpassFilter.processBlockScalar.
    rewrite Hp. reflexivity.
Qed.

Lemma runAllpass_keeps_safe (f : SharcAllpassFilter.t) (inp : InputRef) (out : list R)
    (n : Z) :
  allpassSafe w f ->
  allpassSafe w (fst (DdxReverbAudioProcessor.runAllpass w false f inp out n)).
Proof.
  intros Hs. unfold DdxReverbAudioProcessor.runAllpass,
    SharcAllpassFilter.processBlockScalar.
  destruct (SharcAllpassFilter.prepared f) eqn:Hp; cbn [negb fst]; [|exact Hs].
  destruct (Hs Hp) as [H1 H2]. intros _.
  unfold for_range.
  destruct (allpass_scalar_inv inp (SharcAllpassFilter.delaySamples f)
              (SharcAllpassFilter.apGain f)
              (lenZ (SharcAllpassFilter.delayLine f)) (Z.to_nat (n - 0)) 0
              (SharcAllpassFilter.start f out)) as [I1 I2];
    [lia|split; [exact H2|reflexivity]|].
  unfold SharcAllpassFilter.finish.
  cbn [fst SharcAllpassFilter.delaySamples SharcAllpassFilter.delayLine
       SharcAllpassFilter.writeIndex].
  rewrite I2. split; [exact H1|exact I1].
Qed.

Lemma allpassStage_simd_off (n : Z) (g : R) (aps : list SharcAllpassFilter.t)
    (m : list R) :
  Forall (allpassSafe w) aps -> (0 <= n)%Z ->
  DdxReverbAudioProcessor.allpassStage w true n g aps m
  = DdxReverbAudioProcessor.allpassStage w false n g aps m
  /\ Forall (allpassSafe w) (fst (DdxReverbAudioProcessor.allpassStage w false n g aps m)).
Proof.
  intros Hs Hn. unfold DdxReverbAudioProcessor.allpassStage.
  assert (H : forall (done : list SharcAllpassFilter.t) (m : list R),
            Forall (allpassSafe w) done ->
            fold_left
              (fun '(done, m) ap =>
                 let '(ap', m') :=
                   DdxReverbAudioProcessor.runAllpass w true
                     (SharcAllpassFilter.setGain ap g) SameAsOutput m n in
                 (done ++ [ap'], m'))
              aps (done, m)
            = fold_left
                (fun '(done, m) ap =>
                   let '(ap', m') :=
                     DdxReverbAudioProcessor.runAllpass w false
                       (SharcAllpassFilter.setGain ap g) SameAsOutput m n in
                   (done ++ [ap'], m'))
                aps (done, m)
            /\ Forall (allpassSafe w)
                 (fst (fold_left
                         (fun '(done, m) ap =>
                            let '(ap', m') :=
                              DdxReverbAudioProcessor.runAllpass w false
                                (SharcAllpassFilter.setGain ap g) SameAsOutput m n in
                            (done ++ [ap'], m'))
                         aps (done, m)))).
  { induction Hs as [|a aps Ha _ IH]; intros done m' Hd; cbn [fold_left fst].
    - split; [reflexivity|exact Hd].
    - assert (Hg : allpassSafe w (SharcAllpassFilter.setGain a g)) by exact Ha.
      rewrite runAllpass_simd_off by assumption.
      pose proof (runAllpass_keeps_safe _ SameAsOutput m' n Hg) as Hk.
      destruct (DdxReverbAudioProcessor.runAllpass w false
                  (SharcAllpassFilter.setGain a g) SameAsOutput m' n) as [a' m''].
      cbn [fst] in Hk. apply IH. apply Forall_app. split; [exact Hd|].
      constructor; [exact Hk|constructor]. }
  apply H. constructor.
Qed.

Lemma updateCombs_safe (df g : R) (cs : list SharcCombFilter.t) :
  Forall (combSafe w) cs ->
  Forall (combSafe w) (DdxReverbAudioProcessor.updateCombs df g cs).
Proof.
  intros H. unfold DdxReverbAudioProcessor.updateCombs. apply Forall_map.
  revert H. apply Forall_impl. intros c Hc. exact Hc.
Qed.

(** On a processor whose filters are safe for the register width the wet
    path does not depend on the SIMD switch, and leaves the filters safe. *)
Lemma wetPath_simd_off (G : Statics) (p : DdxReverbAudioProcessor.t) (prm : Params)
    (buf : AudioBuffer.t) :
  simdSafe w p -> (0 <= AudioBuffer.getNumSamples buf)%Z ->
  DdxReverbAudioProcessor.wetPath w G p prm true buf
  = DdxReverbAudioProcessor.wetPath w G p prm false buf
  /\ Forall (combSafe w)
       (DdxReverbAudioProcessor.wCombs
          (DdxReverbAudioProcessor.wetPath w G p prm false buf))
  /\ Forall (allpassSafe w)
       (DdxReverbAudioProcessor.wAllpasses
          (DdxReverbAudioProcessor.wetPath w G p prm false buf)).
Proof.
  intros [Hc Ha] Hn. rewrite !wetPath_stages.
  cbn [DdxReverbAudioProcessor.wCombs DdxReverbAudioProcessor.wAllpasses].
  match goal with
  | |- context [DdxReverbAudioProcessor.combStage w true ?n ?cs ?m] =>
      destruct (combStage_simd_off n cs m) as [Ec Sc];
        [apply updateCombs_safe; exact Hc|exact Hn|]
  end.
  rewrite Ec.
  match goal with
  | |- context [DdxReverbAudioProcessor.allpassStage w true ?n ?g ?aps ?m] =>
      destruct (allpassStage_simd_off n g aps m) as [Ea Sa]; [exact Ha|exact Hn|]
  end.
  rewrite Ea. repeat split; assumption.
Qed.

(** On such a processor the SIMD switch changes nothing but the [useSIMD]
    member: the statics, the block and every other member come out the
    same with the switch on and off, and the filters stay safe. *)
Lemma processBlock_simd_switch (G : Statics) (p : DdxReverbAudioProcessor.t)
    (prm prm' : Params) (buf : AudioBuffer.t) (t0 t1 : R) :
  simdSafe w p -> (0 <= AudioBuffer.getNumSamples buf)%Z ->
  gtb (simd prm) 0.5 = true ->
  prm' = mkParams (decay prm) (predelay prm) (damping prm) (diffusion prm)
           (hicut prm) (bassmult prm) (wet prm) (bypass prm) 0 ->
  let r := DdxReverbAudioProcessor.processBlock w G p prm buf t0 t1 in
  let r' := DdxReverbAudioProcessor.processBlock w G p prm' buf t0 t1 in
  fst (fst r) = fst (fst r') /\
  snd r = snd r' /\
  simdSafe w (snd (fst r)) /\
  forall on,
    DdxReverbAudioProcessor.mk
      (DdxReverbAudioProcessor.totalNumInputChannels (snd (fst r)))
      (DdxReverbAudioProcessor.totalNumOutputChannels (snd (fst r)))
      (DdxReverbAudioProcessor.combs (snd (fst r)))
      (DdxReverbAudioProcessor.allpasses (snd (fst r)))
      (DdxReverbAudioProcessor.preDelayBuffer (snd (fst r)))
      (DdxReverbAudioProcessor.preDelayWritePos (snd (fst r)))
      (DdxReverbAudioProcessor.preDelaySamples (snd (fst r)))
      (DdxReverbAudioProcessor.dryBuffer (snd (fst r)))
      (DdxReverbAudioProcessor.tempBuffer (snd (fst r)))
      (DdxReverbAudioProcessor.currentSampleRate (snd (fst r)))
      on
      (DdxReverbAudioProcessor.cpuUsage (snd (fst r)))
    = DdxReverbAudioProcessor.mk
        (DdxReverbAudioProcessor.totalNumInputChannels (snd (fst r')))
        (DdxReverbAudioProcessor.totalNumOutputChannels (snd (fst r')))
        (DdxReverbAudioProcessor.combs (snd (fst r')))
        (DdxReverbAudioProcessor.allpasses (snd (fst r')))
        (DdxReverbAudioProcessor.preDelayBuffer (snd (fst r')))
        (DdxReverbAudioProcessor.preDelayWritePos (snd (fst r')))
        (DdxReverbAudioProcessor.preDelaySamples (snd (fst r')))
        (DdxReverbAudioProcessor.dryBuffer (snd (fst r')))
        (DdxReverbAudioProcessor.tempBuffer (snd (fst r')))
        (DdxReverbAudioProcessor.currentSampleRate (snd (fst r')))
        on
        (DdxReverbAudioProcessor.cpuUsage (snd (fst r'))).
Proof.
  intros Hs Hn Hon -> r r'. unfold r, r'.
  destruct (gtb (bypass prm) 0.5) eqn:Hb.
  - rewrite !processBlock_bypassed by exact Hb. cbn [fst snd].
    repeat split; try reflexivity; apply Hs.
  - assert (Hoff : gtb 0 0.5 = false) by (apply gtb_false; lra).
    rewrite !processBlock_running by exact Hb.
    cbn [simd fst snd]. rewrite Hon, Hoff.
    assert (HN : (0 <= AudioBuffer.getNumSamples
                         (DdxReverbAudioProcessor.clearUnused p buf))%Z).
    { destruct (clearUnused_channels p buf) as [E _].
      unfold AudioBuffer.getNumSamples in *. now rewrite E. }
    destruct (wetPath_simd_off G p prm (DdxReverbAudioProcessor.clearUnused p buf) Hs HN)
      as (E & Sc & Sa).
    assert (E' : DdxReverbAudioProcessor.wetPath w G p
                   (mkParams (decay prm) (predelay prm) (damping prm) (diffusion prm)
                      (hicut prm) (bassmult prm) (wet prm) (bypass prm) 0)
                   false (DdxReverbAudioProcessor.clearUnused p buf)
                 = DdxReverbAudioProcessor.wetPath w G p prm false
                     (DdxReverbAudioProcessor.clearUnused p buf)) by reflexivity.
    rewrite E, E'. cbn [wet].
    repeat split; try reflexivity; assumption.
Qed.

End SimdSwitch.

(** At 48 kHz [prepareToPlay] leaves every filter safe for a register of up
    to eight lanes: the shortest delay of the tables is 37 samples. *)
Lemma prepareToPlay_48k_simdSafe (w : Z) (p0 : DdxReverbAudioProcessor.t) (n : Z) :
  (w <= 8)%Z -> wellFormed p0 ->
  simdSafe w (DdxReverbAudioProcessor.prepareToPlay p0 48000 n).
Proof.
  intros Hw Hwf.
  destruct (prepareToPlay_combs p0 48000 n Hwf) as [HLc HPc].
  destruct (prepareToPlay_allpasses p0 48000 n Hwf) as [HLa HPa].
  cbv zeta in *.
  assert (Hsc : forall d : Z, juce.static_cast_int (IZR d * 48000 / 48000) = d).
  { intros d. apply static_cast_int_eq. field. }
  split.
  - apply (Forall_rd _ SharcCombFilter.default). intros c Hc. rewrite HLc in Hc.
    fold (DdxReverbAudioProcessor.combAt
            (DdxReverbAudioProcessor.combs
               (DdxReverbAudioProcessor.prepareToPlay p0 48000 n)) c).
    rewrite (HPc c Hc). intros _.
    cbn [SharcCombFilter.setDelaySamples SharcCombFilter.prepare
         SharcCombFilter.delaySamples SharcCombFilter.delayLine
         SharcCombFilter.writeIndex].
    rewrite (static_cast_int_eq (48000 * 0.1) 4800) by lra.
    rewrite Hsc, lenZ_zeros.
    unfold DdxReverbAudioProcessor.numCombs in Hc.
    assert (Hcases : c = 0%Z \/ c = 1%Z \/ c = 2%Z \/ c = 3%Z) by lia.
    destruct Hcases as [-> | [-> | [-> | ->]]]; vm_compute juce.jlimitZ; lia.
  - apply (Forall_rd _ SharcAllpassFilter.default). intros c Hc. rewrite HLa in Hc.
    fold (DdxReverbAudioProcessor.apAt
            (DdxReverbAudioProcessor.allpasses
               (DdxReverbAudioProcessor.prepareToPlay p0 48000 n)) c).
    rewrite (HPa c Hc). intros _.
    cbn [SharcAllpassFilter.setDelaySamples SharcAllpassFilter.prepare
         SharcAllpassFilter.delaySamples SharcAllpassFilter.delayLine
         SharcAllpassFilter.writeIndex].
    rewrite (static_cast_int_eq (48000 * 0.05) 2400) by lra.
    rewrite Hsc, lenZ_zeros.
    unfold DdxReverbAudioProcessor.numAllpasses in Hc.
    assert (Hcases : c = 0%Z \/ c = 1%Z \/ c = 2%Z \/ c = 3%Z
                     \/ c = 4%Z \/ c = 5%Z \/ c = 6%Z \/ c = 7%Z) by lia.
    destruct Hcases as [-> | [-> | [-> | [-> | [-> | [-> | [-> | ->]]]]]]];
      vm_compute juce.jlimitZ; lia.
Qed.

(** * Further properties of the engine *)

(** ** Blocks in pieces *)

Lemma run_app {X : Type} (stp : X -> R -> X * R) (xs ys : list R) (st : X) :
  Spec.run stp st (xs ++ ys)
  = (fst (Spec.run stp (fst (Spec.run stp st xs)) ys),
     snd (Spec.run stp st xs) ++ snd (Spec.run stp (fst (Spec.run stp st xs)) ys)).
Proof.
  revert st; induction xs as [|x xs IH]; intros st; cbn [app Spec.run fst snd].
  - now destruct (Spec.run stp st ys).
  - destruct (stp st x) as [st1 y]. rewrite IH.
    destruct (Spec.run stp st1 xs) as [st2 zs]. cbn [fst snd].
    destruct (Spec.run stp st2 ys) as [st3 us]. reflexivity.
Qed.

Lemma skipn_exact {A : Type} (l : list A) (n : nat) : n = length l -> skipn n l = [].
Proof. intros ->. apply skipn_all. Qed.

Lemma comb_scalar_result (f : SharcCombFilter.t) (xs out : list R) :
  SharcCombFilter.prepared f = true ->
  length out = length xs ->
  let r := Spec.combRun (SharcCombFilter.delaySamples f) (SharcCombFilter.feedbackGain f)
             (SharcCombFilter.dampingCoeff f)
             (SharcCombFilter.delayLine f, SharcCombFilter.writeIndex f,
              SharcCombFilter.filterState f) xs in
  let res := SharcCombFilter.processBlockScalar f (Distinct xs) out (lenZ xs) in
  (SharcCombFilter.delayLine (fst res), SharcCombFilter.writeIndex (fst res),
   SharcCombFilter.filterState (fst res)) = fst r /\
  snd res = snd r /\
  fst res = SharcCombFilter.mk (SharcCombFilter.delayLine (fst res))
              (SharcCombFilter.delaySamples f) (SharcCombFilter.writeIndex (fst res))
              (SharcCombFilter.feedbackGain f) (SharcCombFilter.dampingCoeff f)
              (SharcCombFilter.filterState (fst res)) (SharcCombFilter.sRate f) true.
Proof.
  intros Hp Hlen r res. unfold res, SharcCombFilter.processBlockScalar.
  rewrite Hp. cbn [negb].
  pose proof (comb_scalar_loop f xs out ltac:(lia)) as HM. cbv zeta in HM. fold r in HM.
  destruct (for_range 0 (lenZ xs) _ (SharcCombFilter.start f out)) as [b i fl o].
  unfold combView in HM. cbn [SharcCombFilter.buffer SharcCombFilter.idx
    SharcCombFilter.flt SharcCombFilter.output] in HM.
  rewrite skipn_exact, app_nil_r in HM by (symmetry; exact Hlen).
  unfold SharcCombFilter.finish. cbn. rewrite Hp.
  inversion HM; subst. repeat split; reflexivity.
Qed.

(** X1.  The scalar comb loop does not depend on how the host cuts the
    signal into blocks: [processBlockScalar] on [xs ++ ys] in one call gives
    the output of the call on [xs] followed by the output of the call on
    [ys] made on the filter the first call left, and the same final filter.
    (A filter that is not prepared returns at once in all three calls.) *)
Theorem X1_comb_scalar_block_split (f : SharcCombFilter.t) (xs ys o1 o2 : list R) :
  length o1 = length xs -> length o2 = length ys ->
  let r1 := SharcCombFilter.processBlockScalar f (Distinct xs) o1 (lenZ xs) in
  let r2 := SharcCombFilter.processBlockScalar (fst r1) (Distinct ys) o2 (lenZ ys) in
  SharcCombFilter.processBlockScalar f (Distinct (xs ++ ys)) (o1 ++ o2) (lenZ (xs ++ ys))
  = (fst r2, snd r1 ++ snd r2).
Proof.
  intros H1 H2 r1 r2.
  destruct (SharcCombFilter.prepared f) eqn:Hp.
  - assert (H12 : length (o1 ++ o2) = length (xs ++ ys))
      by (rewrite !length_app; lia).
    destruct (comb_scalar_result f (xs ++ ys) (o1 ++ o2) Hp H12) as (A1 & A2 & A3).
    destruct (comb_scalar_result f xs o1 Hp H1) as (B1 & B2 & B3). fold r1 in B1, B2, B3.
    assert (Hp1 : SharcCombFilter.prepared (fst r1) = true) by (rewrite B3; reflexivity).
    destruct (comb_scalar_result (fst r1) ys o2 Hp1 H2) as (C1 & C2 & C3).
    fold r2 in C1, C2, C3.
    assert (S1 : SharcCombFilter.delaySamples (fst r1) = SharcCombFilter.delaySamples f)
      by (rewrite B3; reflexivity).
    assert (S2 : SharcCombFilter.feedbackGain (fst r1) = SharcCombFilter.feedbackGain f)
      by (rewrite B3; reflexivity).
    assert (S3 : SharcCombFilter.dampingCoeff (fst r1) = SharcCombFilter.dampingCoeff f)
      by (rewrite B3; reflexivity).
    assert (S4 : SharcCombFilter.sRate (fst r1) = SharcCombFilter.sRate f)
      by (rewrite B3; reflexivity).
    rewrite S1, S2, S3 in C1, C2. rewrite S1, S2, S3, S4 in C3.
    unfold Spec.combRun in *. rewrite run_app in A1, A2. cbn [fst snd] in A1, A2.
    rewrite <- B1 in A1, A2. rewrite B1 in C1, C2. rewrite <- B1 in C1, C2.
    rewrite <- C1 in A1. rewrite <- B2, <- C2 in A2.
    destruct (SharcCombFilter.processBlockScalar f (Distinct (xs ++ ys)) (o1 ++ o2)
                (lenZ (xs ++ ys))) as [f' o'].
    cbn [fst snd] in A1, A2, A3. rewrite A3, C3, A2. inversion A1. reflexivity.
  - unfold r2, r1, SharcCombFilter.processBlockScalar. rewrite Hp. cbn [negb fst snd].
    rewrite Hp. reflexivity.
Qed.

Lemma X1_comb_scalar_block_split_witness :
  let f := SharcCombFilter.prepare SharcCombFilter.default 48000 2 0.5 5000 in
  let r1 := SharcCombFilter.processBlockScalar f (Distinct [1; 0]) [0; 0] (lenZ [1; 0]) in
  let r2 := SharcCombFilter.processBlockScalar (fst r1) (Distinct [0; 2; 0]) [0; 0; 0]
              (lenZ [0; 2; 0]) in
  SharcCombFilter.processBlockScalar f (Distinct ([1; 0] ++ [0; 2; 0]))
    ([0; 0] ++ [0; 0; 0]) (lenZ ([1; 0] ++ [0; 2; 0]))
  = (fst r2, snd r1 ++ snd r2).
Proof.
  intros f.
  exact (X1_comb_scalar_block_split f [1; 0] [0; 2; 0] [0; 0] [0; 0; 0] eq_refl eq_refl).
Defined.

(** X2.  The scalar allpass loop does not depend on the block cut either:
    one call on [xs ++ ys] gives the outputs of the calls on [xs] and then
    on [ys], and the same final filter. *)
Theorem X2_allpass_scalar_block_split (f : SharcAllpassFilter.t) (xs ys o1 o2 : list R) :
  length o1 = length xs -> length o2 = length ys ->
  let r1 := SharcAllpassFilter.processBlockScalar f (Distinct xs) o1 (lenZ xs) in
  let r2 := SharcAllpassFilter.processBlockScalar (fst r1) (Distinct ys) o2 (lenZ ys) in
  SharcAllpassFilter.processBlockScalar f (Distinct (xs ++ ys)) (o1 ++ o2)
    (lenZ (xs ++ ys))
  = (fst r2, snd r1 ++ snd r2).
Proof.
  intros H1 H2 r1 r2.
  destruct (SharcAllpassFilter.prepared f) eqn:Hp.
  - assert (H12 : (length (xs ++ ys) <= length (o1 ++ o2))%nat)
      by (rewrite !length_app; lia).
    pose proof (allpass_scalar_follows_step f (xs ++ ys) (o1 ++ o2) Hp H12) as A.
    pose proof (allpass_scalar_follows_step f xs o1 Hp ltac:(lia)) as B.
    cbv zeta in A, B. fold r1 in B.
    rewrite skipn_exact, app_nil_r in A by (rewrite !length_app; lia).
    rewrite skipn_exact, app_nil_r in B by lia.
    assert (Hp1 : SharcAllpassFilter.prepared (fst r1) = true) by (rewrite B; reflexivity).
    pose proof (allpass_scalar_follows_step (fst r1) ys o2 Hp1 ltac:(lia)) as C.
    cbv zeta in C. fold r2 in C.
    rewrite skipn_exact, app_nil_r in C by lia.
    rewrite A, C, B. cbn [fst snd SharcAllpassFilter.delaySamples SharcAllpassFilter.apGain
      SharcAllpassFilter.delayLine SharcAllpassFilter.writeIndex].
    unfold Spec.allpassRun. rewrite run_app. cbn [fst snd].
    rewrite <- surjective_pairing. reflexivity.
  - unfold r2, r1, SharcAllpassFilter.processBlockScalar. rewrite Hp. cbn [negb fst snd].
    rewrite Hp. reflexivity.
Qed.

Lemma X2_allpass_scalar_block_split_witness :
  let f := SharcAllpassFilter.prepare SharcAllpassFilter.default 48000 2 0.5 in
  let r1 := SharcAllpassFilter.processBlockScalar f (Distinct [1; 0]) [0; 0]
              (lenZ [1; 0]) in
  let r2 := SharcAllpassFilter.processBlockScalar (fst r1) (Distinct [0; 2; 0]) [0; 0; 0]
              (lenZ [0; 2; 0]) in
  SharcAllpassFilter.processBlockScalar f (Distinct ([1; 0] ++ [0; 2; 0]))
    ([0; 0] ++ [0; 0; 0]) (lenZ ([1; 0] ++ [0; 2; 0]))
  = (fst r2, snd r1 ++ snd r2).
Proof.
  intros f.
  exact (X2_allpass_scalar_block_split f [1; 0] [0; 2; 0] [0; 0] [0; 0; 0]
           eq_refl eq_refl).
Defined.

(** ** reset *)

Lemma comb_simd_body_length (w : Z) (inp : InputRef) (len : Z) (g damp : R) (i : Z)
    (s : SharcCombFilter.locals) :
  lenZ (SharcCombFilter.buffer (SharcCombFilter.simdBody w inp len g damp i s))
  = lenZ (SharcCombFilter.buffer s).
Proof.
  unfold SharcCombFilter.simdBody.
  destruct (for_range 0 w _ (SharcCombFilter.flt s, zeros 8)) as [fl dv].
  cbn [SharcCombFilter.buffer]. unfold for_range.
  apply (for_loop_inv (fun b => lenZ b = lenZ (SharcCombFilter.buffer s))); [|reflexivity].
  intros j b Hb. now rewrite lenZ_wr.
Qed.

Lemma allpass_simd_body_length (w : Z) (inp : InputRef) (len : Z) (g : R) (i : Z)
    (s : SharcAllpassFilter.locals) :
  lenZ (SharcAllpassFilter.buffer (SharcAllpassFilter.simdBody w inp len g i s))
  = lenZ (SharcAllpassFilter.buffer s).
Proof.
  unfold SharcAllpassFilter.simdBody.
  cbn [SharcAllpassFilter.buffer]. unfold for_range.
  apply (for_loop_inv (fun b => lenZ b = lenZ (SharcAllpassFilter.buffer s))); [|reflexivity].
  intros j b Hb. now rewrite lenZ_wr.
Qed.

(** Neither path of either filter resizes the delay line. *)
Lemma runComb_line_length (w : Z) (simdOn : bool) (f : SharcCombFilter.t)
    (inp : InputRef) (out : list R) (n : Z) :
  lenZ (SharcCombFilter.delayLine
          (fst (DdxReverbAudioProcessor.runComb w simdOn f inp out n)))
  = lenZ (SharcCombFilter.delayLine f).
Proof.
  unfold DdxReverbAudioProcessor.runComb, SharcCombFilter.processBlockSIMD,
    SharcCombFilter.processBlockScalar.
  destruct simdOn, (SharcCombFilter.prepared f); cbn [negb fst]; try reflexivity;
    unfold SharcCombFilter.finish; cbn [fst SharcCombFilter.delayLine]; unfold for_range.
  - apply (for_loop_inv (fun s => lenZ (SharcCombFilter.buffer s)
                                  = lenZ (SharcCombFilter.delayLine f))).
    + intros j s Hs. unfold SharcCombFilter.scalarBody. cbn [SharcCombFilter.buffer].
      now rewrite lenZ_wr.
    + apply (for_loop_inv (fun s => lenZ (SharcCombFilter.buffer s)
                                    = lenZ (SharcCombFilter.delayLine f))); [|reflexivity].
      intros j s Hs. now rewrite comb_simd_body_length.
  - apply (for_loop_inv (fun s => lenZ (SharcCombFilter.buffer s)
                                  = lenZ (SharcCombFilter.delayLine f))); [|reflexivity].
    intros j s Hs. unfold SharcCombFilter.scalarBody. cbn [SharcCombFilter.buffer].
    now rewrite lenZ_wr.
Qed.

Lemma runAllpass_line_length (w : Z) (simdOn : bool) (f : SharcAllpassFilter.t)
    (inp : InputRef) (out : list R) (n : Z) :
  lenZ (SharcAllpassFilter.delayLine
          (fst (DdxReverbAudioProcessor.runAllpass w simdOn f inp out n)))
  = lenZ (SharcAllpassFilter.delayLine f).
Proof.
  unfold DdxReverbAudioProcessor.runAllpass, SharcAllpassFilter.processBlockSIMD,
    SharcAllpassFilter.processBlockScalar.
  destruct simdOn, (SharcAllpassFilter.prepared f); cbn [negb fst]; try reflexivity;
    unfold SharcAllpassFilter.finish; cbn [fst SharcAllpassFilter.delayLine];
    unfold for_range.
  - apply (for_loop_inv (fun s => lenZ (SharcAllpassFilter.buffer s)
                                  = lenZ (SharcAllpassFilter.delayLine f))).
    + intros j s Hs. unfold SharcAllpassFilter.scalarBody. cbn [SharcAllpassFilter.buffer].
      now rewrite lenZ_wr.
    + apply (for_loop_inv (fun s => lenZ (SharcAllpassFilter.buffer s)
                                    = lenZ (SharcAllpassFilter.delayLine f))); [|reflexivity].
      intros j s Hs. now rewrite allpass_simd_body_length.
  - apply (for_loop_inv (fun s => lenZ (SharcAllpassFilter.buffer s)
                                  = lenZ (SharcAllpassFilter.delayLine f))); [|reflexivity].
    intros j s Hs. unfold SharcAllpassFilter.scalarBody. cbn [SharcAllpassFilter.buffer].
    now rewrite lenZ_wr.
Qed.

Lemma runAllpass_keeps_settings (w : Z) (simdOn : bool) (f : SharcAllpassFilter.t)
    (inp : InputRef) (out : list R) (n : Z) :
  let f' := fst (DdxReverbAudioProcessor.runAllpass w simdOn f inp out n) in
  SharcAllpassFilter.apGain f' = SharcAllpassFilter.apGain f /\
  SharcAllpassFilter.delaySamples f' = SharcAllpassFilter.delaySamples f /\
  SharcAllpassFilter.prepared f' = SharcAllpassFilter.prepared f.
Proof.
  unfold DdxReverbAudioProcessor.runAllpass, SharcAllpassFilter.processBlockSIMD,
    SharcAllpassFilter.processBlockScalar.
  destruct simdOn, (SharcAllpassFilter.prepared f) eqn:E; cbn [negb fst];
    repeat split; try reflexivity; cbn; auto.
Qed.

(** X3.  [reset] erases what a filter has processed: whatever block
    either path ([processBlockScalar] or [processBlockSIMD]) has just run,
    the filter reset after the block is the filter reset before it, with
    zeros in a delay line of unchanged length, cursor 0, damping memory 0
    and the settings kept.  A reset filter is silent, and [reset] applied
    twice is [reset] applied once. *)
Theorem X3_reset_forgets_history (w : Z) (simdOn : bool)
    (f : SharcCombFilter.t) (a : SharcAllpassFilter.t)
    (inp : InputRef) (out : list R) (n : Z) :
  SharcCombFilter.reset (fst (DdxReverbAudioProcessor.runComb w simdOn f inp out n))
  = SharcCombFilter.reset f /\
  SharcAllpassFilter.reset (fst (DdxReverbAudioProcessor.runAllpass w simdOn a inp out n))
  = SharcAllpassFilter.reset a /\
  combSilent (SharcCombFilter.reset f) /\
  allpassSilent (SharcAllpassFilter.reset a) /\
  SharcCombFilter.reset (SharcCombFilter.reset f) = SharcCombFilter.reset f /\
  SharcAllpassFilter.reset (SharcAllpassFilter.reset a) = SharcAllpassFilter.reset a.
Proof.
  pose proof (runComb_line_length w simdOn f inp out n) as HLc.
  pose proof (runComb_keeps_settings w simdOn f inp out n) as (Hg & Hd & Hs & Hp).
  pose proof (runAllpass_line_length w simdOn a inp out n) as HLa.
  pose proof (runAllpass_keeps_settings w simdOn a inp out n) as (Hg' & Hs' & Hp').
  assert (Hsr : SharcCombFilter.sRate
                  (fst (DdxReverbAudioProcessor.runComb w simdOn f inp out n))
                = SharcCombFilter.sRate f).
  { unfold DdxReverbAudioProcessor.runComb, SharcCombFilter.processBlockSIMD,
      SharcCombFilter.processBlockScalar.
    destruct simdOn, (SharcCombFilter.prepared f); reflexivity. }
  repeat split.
  - unfold SharcCombFilter.reset. rewrite HLc, Hg, Hd, Hs, Hp, Hsr. reflexivity.
  - unfold SharcAllpassFilter.reset. rewrite HLa, Hg', Hs', Hp'. reflexivity.
  - cbn. now rewrite zeros_lenZ_zeros.
  - cbn. now rewrite zeros_lenZ_zeros.
  - unfold SharcCombFilter.reset. cbn. now rewrite zeros_lenZ_zeros.
  - unfold SharcAllpassFilter.reset. cbn. now rewrite zeros_lenZ_zeros.
Qed.

(** ** Bounds *)

Lemma for_loop_ind {St : Type} (P : Z -> St -> Prop) (n : nat) (i step : Z)
    (body : Z -> St -> St) (s : St) :
  P i s ->
  (forall q s', (0 <= q < Z.of_nat n)%Z ->
     P (i + q * step)%Z s' -> P (i + (q + 1) * step)%Z (body (i + q * step)%Z s')) ->
  P (i + Z.of_nat n * step)%Z (for_loop n i step body s).
Proof.
  revert i s. induction n as [|n IH]; intros i s Hs H.
  - cbn [for_loop]. now replace (i + Z.of_nat 0 * step)%Z with i by lia.
  - cbn [for_loop].
    replace (i + Z.of_nat (S n) * step)%Z with (i + step + Z.of_nat n * step)%Z by lia.
    apply IH.
    + specialize (H 0%Z s ltac:(lia)).
      replace (i + 0 * step)%Z with i in H by lia.
      replace (i + (0 + 1) * step)%Z with (i + step)%Z in H by lia. auto.
    + intros q s' Hq Hs'.
      replace (i + step + q * step)%Z with (i + (q + 1) * step)%Z in * by lia.
      replace (i + step + (q + 1) * step)%Z with (i + (q + 1 + 1) * step)%Z by lia.
      apply H; [lia|exact Hs'].
Qed.

Lemma Rabs_bound (x B : R) : Rabs x <= B <-> - B <= x <= B.
Proof.
  split.
  - intros H. unfold Rabs in H. destruct (Rcase_abs x); lra.
  - intros H. unfold Rabs. destruct (Rcase_abs x); lra.
Qed.

Lemma rd_bounded (B : R) (a : list R) (i : Z) :
  0 <= B -> Forall (fun v => Rabs v <= B) a -> Rabs (rd a i) <= B.
Proof.
  intros HB HF.
  destruct (Z_lt_ge_dec i 0) as [Hn|Hn].
  - unfold rdA. destruct (i <? 0)%Z eqn:E; [|lia]. rewrite Rabs_R0. exact HB.
  - destruct (Z_lt_ge_dec i (lenZ a)) as [Hl|Hl].
    + apply (rd_Forall (fun v => Rabs v <= B)); [exact HF|lia].
    + rewrite rd_outside by lia. rewrite Rabs_R0. exact HB.
Qed.

Lemma rd_wr_cases (a : list R) (i j : Z) (v : R) :
  rd (wr a i v) j = if ((i =? j) && (0 <=? j) && (j <? lenZ a))%Z%bool then v else rd a j.
Proof.
  destruct (Z.eq_dec i j) as [->|Hne].
  - rewrite Z.eqb_refl. cbn [andb].
    destruct (0 <=? j)%Z eqn:E1; cbn [andb].
    + destruct (j <? lenZ a)%Z eqn:E2.
      * apply rd_wr_same. lia.
      * rewrite !rd_outside; auto; try rewrite lenZ_wr; lia.
    + unfold rdA. destruct (j <? 0)%Z eqn:E; [reflexivity|lia].
  - rewrite rd_wr_other by exact Hne.
    destruct (i =? j)%Z eqn:E; [lia|]. reflexivity.
Qed.

Lemma dampingCoeff_range (freq sr : R) :
  0 <= freq -> 0 < sr -> 0 < exp (- juce.twoPi * freq / sr) <= 1.
Proof.
  intros Hf Hs. split; [apply exp_pos|].
  assert (Hx : - juce.twoPi * freq / sr <= 0).
  { unfold juce.twoPi, Rdiv. pose proof PI_RGT_0 as Hpi.
    assert (0 < / sr) by (apply Rinv_0_lt_compat; exact Hs).
    assert (0 <= 2 * PI * freq) by nra.
    replace (- (2 * PI) * freq * / sr) with (- ((2 * PI * freq) * / sr)) by ring.
    assert (0 <= 2 * PI * freq * / sr) by (apply Rmult_le_pos; lra). lra. }
  destruct Hx as [Hlt|Heq].
  - left. rewrite <- exp_0. apply exp_increasing. exact Hlt.
  - rewrite Heq, exp_0. lra.
Qed.

Section CombBound.

Variables (g d M B : R) (len : Z) (inp : list R).
Hypothesis Hg : 0 <= g.
Hypothesis Hd : 0 <= d <= 1.
Hypothesis HB : 0 <= B.
Hypothesis HM : M + g * B <= B.

Lemma damp_bounded (D F : R) : Rabs D <= B -> Rabs F <= B -> Rabs (D + d * (F - D)) <= B.
Proof.
  intros H1 H2. apply Rabs_bound in H1. apply Rabs_bound in H2. apply Rabs_bound.
  split; nra.
Qed.

Lemma sample_bounded (x F : R) : Rabs x <= M -> Rabs F <= B -> Rabs (x + g * F) <= B.
Proof.
  intros H1 H2. apply Rabs_bound in H1. apply Rabs_bound in H2. apply Rabs_bound.
  split; nra.
Qed.

Lemma comb_scalar_step_bounded (i : Z) (s : SharcCombFilter.locals) :
  Rabs (rd inp i) <= M -> (0 <= i)%Z ->
  combBounded B i s ->
  combBounded B (i + 1) (SharcCombFilter.scalarBody (Distinct inp) len g d i s).
Proof.
  intros Hx Hi (HF & Hm & Ho). unfold combBounded, SharcCombFilter.scalarBody.
  cbn [SharcCombFilter.buffer SharcCombFilter.flt SharcCombFilter.output rdIn].
  pose proof (rd_bounded B _ (SharcCombFilter.idx s) HB HF) as HD.
  pose proof (damp_bounded _ _ HD Hm) as HF'.
  pose proof (sample_bounded _ _ Hx HF') as HN.
  split; [|split].
  - apply Forall_wr; [exact HF|]. intros _. exact HN.
  - exact HF'.
  - intros k Hk. rewrite rd_wr_cases.
    destruct ((i =? k) && (0 <=? k) && (k <? lenZ (SharcCombFilter.output s)))%Z%bool eqn:E.
    + exact HN.
    + destruct (Z.eq_dec k i) as [->|Hne]; [|apply Ho; lia].
      rewrite Z.eqb_refl in E. cbn [andb] in E.
      destruct (0 <=? i)%Z eqn:E1; [|lia]. cbn [andb] in E.
      rewrite rd_outside by lia. rewrite Rabs_R0. exact HB.
Qed.

Lemma comb_scalar_loop_bounded (n : nat) (lo : Z) (s : SharcCombFilter.locals) :
  (0 <= lo)%Z ->
  (forall i, (lo <= i < lo + Z.of_nat n)%Z -> Rabs (rd inp i) <= M) ->
  combBounded B lo s ->
  combBounded B (lo + Z.of_nat n)
    (for_loop n lo 1 (SharcCombFilter.scalarBody (Distinct inp) len g d) s).
Proof.
  intros Hlo Hin Hs.
  pose proof (for_loop_ind (combBounded B) n lo 1
                (SharcCombFilter.scalarBody (Distinct inp) len g d) s) as H.
  rewrite Z.mul_1_r in H. apply H; [exact Hs|].
  intros q s' Hq Hs'. rewrite Z.mul_1_r in Hs'.
  replace (lo + (q + 1) * 1)%Z with (lo + q + 1)%Z by lia. rewrite Z.mul_1_r.
  apply comb_scalar_step_bounded; [apply Hin; lia|lia|exact Hs'].
Qed.

Lemma laneFlt_bounded (Bf : list R) (p : Z) (F : R) (k : nat) :
  Forall (fun v => Rabs v <= B) Bf -> Rabs F <= B ->
  Rabs (laneFlt Bf p len d F k) <= B.
Proof.
  intros HF Hm. induction k as [|k IH]; cbn [laneFlt]; [exact Hm|].
  apply damp_bounded; [|exact IH]. unfold laneDelayed. now apply rd_bounded.
Qed.

Lemma Forall_writes (Q : R -> Prop) (pos : Z -> Z) (val : Z -> R) (k : nat) (a : list R) :
  Forall Q a -> (forall j, (0 <= j < Z.of_nat k)%Z -> Q (val j)) ->
  Forall Q (writes pos val k a).
Proof.
  intros Ha. induction k as [|k IH]; intros Hv; [exact Ha|].
  rewrite writes_S. apply Forall_wr; [apply IH; intros j Hj; apply Hv; lia|].
  intros _. apply Hv. lia.
Qed.

Lemma rd_writes_id_gen (off : Z) (val : Z -> R) (k : nat) (a : list R) (j : Z) :
  (0 <= off)%Z -> (0 <= j < Z.of_nat k)%Z ->
  rd (writes (fun j => off + j)%Z val k a) (off + j)
  = if (off + j <? lenZ a)%Z then val j else 0.
Proof.
  intros Hoff. revert j. induction k as [|k IH]; intros j Hj; [lia|].
  rewrite writes_S, rd_wr_cases, lenZ_writes.
  destruct (Z.eq_dec j (Z.of_nat k)) as [->|Hne].
  - rewrite Z.eqb_refl. cbn [andb].
    destruct (0 <=? off + Z.of_nat k)%Z eqn:E1; [|lia]. cbn [andb].
    destruct (off + Z.of_nat k <? lenZ a)%Z eqn:E2; [reflexivity|].
    apply rd_outside. rewrite lenZ_writes. lia.
  - destruct (off + Z.of_nat k =? off + j)%Z eqn:E; [lia|]. cbn [andb].
    apply IH. lia.
Qed.

Lemma comb_simd_step_bounded (w i : Z) (s : SharcCombFilter.locals) :
  (0 <= w <= 8)%Z -> (0 <= i)%Z ->
  (forall k, (i <= k < i + w)%Z -> Rabs (rd inp k) <= M) ->
  combBounded B i s ->
  combBounded B (i + w) (SharcCombFilter.simdBody w (Distinct inp) len g d i s).
Proof.
  intros Hw Hi Hin (HF & Hm & Ho). rewrite comb_simd_lanes by exact Hw.
  unfold combBounded. cbn [SharcCombFilter.buffer SharcCombFilter.flt SharcCombFilter.output].
  assert (Hy : forall j, (0 <= j < Z.of_nat (Z.to_nat w))%Z ->
            Rabs (combLane (SharcCombFilter.buffer s) (SharcCombFilter.idx s) len d g
                    (SharcCombFilter.flt s) inp i j) <= B).
  { intros j Hj. unfold combLane. apply sample_bounded; [apply Hin; lia|].
    now apply laneFlt_bounded. }
  split; [|split].
  - apply Forall_writes; assumption.
  - now apply laneFlt_bounded.
  - intros k Hk. destruct (Z_lt_ge_dec k i) as [Hlt|Hge].
    + rewrite rd_writes_other by (intros j Hj; lia). apply Ho. lia.
    + replace k with (i + (k - i))%Z by lia. rewrite rd_writes_id_gen by lia.
      destruct (_ <? _)%Z; [apply Hy; lia|]. rewrite Rabs_R0. exact HB.
Qed.

End CombBound.

(** X4.  A comb filter cannot blow up.  After [setDampingFreq] with a
    frequency that is not negative (on a positive sample rate) and
    [setGain] with any value, the feedback gain is in [0, 0.99] and the
    damping coefficient in (0, 1]; a prepared filter whose delay line and
    damping memory are within [100 * M] then maps a block of samples within
    [M] to output samples within [100 * M] and keeps its delay line and
    damping memory within [100 * M] - on the scalar path and on the SIMD
    path, for every register width from 1 to 8 and every delay length. *)
Theorem X4_comb_stays_bounded (w : Z) (simdOn : bool) (f0 : SharcCombFilter.t)
    (newGain freq : R) (inp out : list R) (n : Z) (M : R) :
  (1 <= w <= 8)%Z -> (0 <= n)%Z -> 0 <= M ->
  SharcCombFilter.prepared f0 = true ->
  0 < SharcCombFilter.sRate f0 -> 0 <= freq ->
  (forall i, (0 <= i < n)%Z -> Rabs (rd inp i) <= M) ->
  Forall (fun v => Rabs v <= 100 * M) (SharcCombFilter.delayLine f0) ->
  Rabs (SharcCombFilter.filterState f0) <= 100 * M ->
  let f := SharcCombFilter.setGain (SharcCombFilter.setDampingFreq f0 freq) newGain in
  let r := DdxReverbAudioProcessor.runComb w simdOn f (Distinct inp) out n in
  (forall i, (0 <= i < n)%Z -> Rabs (rd (snd r) i) <= 100 * M) /\
  Forall (fun v => Rabs v <= 100 * M) (SharcCombFilter.delayLine (fst r)) /\
  Rabs (SharcCombFilter.filterState (fst r)) <= 100 * M.
Proof.
  intros Hw Hn HM Hp Hsr Hfreq Hin HF Hm f r.
  set (g := SharcCombFilter.feedbackGain f).
  set (d := SharcCombFilter.dampingCoeff f).
  assert (Hg : 0 <= g <= 0.99) by (apply jlimit_range; lra).
  assert (Hd : 0 <= d <= 1).
  { pose proof (dampingCoeff_range freq (SharcCombFilter.sRate f0) Hfreq Hsr) as H.
    unfold d, f. cbn. lra. }
  assert (HB : 0 <= 100 * M) by lra.
  assert (HMB : M + g * (100 * M) <= 100 * M) by nra.
  assert (H0 : combBounded (100 * M) 0 (SharcCombFilter.start f out)).
  { split; [exact HF|]. split; [exact Hm|]. intros k Hk. lia. }
  assert (Hq : (0 <= n / w)%Z) by (apply Z.div_pos; lia).
  pose proof (Z.div_mod n w ltac:(lia)) as Hdm.
  pose proof (Z.mod_pos_bound n w ltac:(lia)) as Hmod.
  assert (Hres : combBounded (100 * M) n
            (SharcCombFilter.mkLocals (SharcCombFilter.delayLine (fst r))
               (SharcCombFilter.writeIndex (fst r))
               (SharcCombFilter.filterState (fst r)) (snd r))).
  { unfold r, DdxReverbAudioProcessor.runComb, SharcCombFilter.processBlockSIMD,
      SharcCombFilter.processBlockScalar.
    replace (SharcCombFilter.prepared f) with true by (symmetry; exact Hp).
    cbn [negb]. fold g d.
    destruct simdOn.
    - set (s1 := for_loop (Z.to_nat (n / w)) 0 w _ (SharcCombFilter.start f out)).
      assert (H1 : combBounded (100 * M) (n / w * w) s1).
      { pose proof (for_loop_ind (combBounded (100 * M)) (Z.to_nat (n / w)) 0 w
                      (SharcCombFilter.simdBody w (Distinct inp)
                         (SharcCombFilter.delaySamples f) g d)
                      (SharcCombFilter.start f out) H0) as H.
        rewrite Z2Nat.id, Z.add_0_l in H by lia. apply H.
        intros q s' Hq' Hs'. rewrite Z.add_0_l in *.
        replace ((q + 1) * w)%Z with (q * w + w)%Z by lia.
        apply (comb_simd_step_bounded g d M); try assumption; try lia; try nia; try lra.
        intros k Hk. apply Hin. nia. }
      unfold for_range.
      pose proof (comb_scalar_loop_bounded g d M (100 * M)
                    (SharcCombFilter.delaySamples f) inp ltac:(lra) Hd HB HMB
                    (Z.to_nat (n - n / w * w)) (n / w * w)%Z s1 ltac:(nia)) as H2.
      replace (n / w * w + Z.of_nat (Z.to_nat (n - n / w * w)))%Z with n in H2 by nia.
      specialize (H2 ltac:(intros i Hi; apply Hin; nia) H1).
      destruct (for_loop _ _ 1 _ s1) as [b i fl o]. exact H2.
    - unfold for_range.
      pose proof (comb_scalar_loop_bounded g d M (100 * M)
                    (SharcCombFilter.delaySamples f) inp ltac:(lra) Hd HB HMB
                    (Z.to_nat (n - 0)) 0%Z (SharcCombFilter.start f out) ltac:(lia)) as H2.
      replace (0 + Z.of_nat (Z.to_nat (n - 0)))%Z with n in H2 by lia.
      specialize (H2 ltac:(intros i Hi; apply Hin; lia) H0).
      destruct (for_loop _ _ 1 _ _) as [b i fl o]. exact H2. }
  destruct Hres as (R1 & R2 & R3). cbn in R1, R2, R3.
  split; [exact R3|]. split; assumption.
Qed.

Lemma X4_comb_stays_bounded_witness :
  let f0 := SharcCombFilter.prepare SharcCombFilter.default 48000 2 0.7 5000 in
  let f := SharcCombFilter.setGain (SharcCombFilter.setDampingFreq f0 3000) 1.5 in
  let r := DdxReverbAudioProcessor.runComb 4 true f (Distinct [1; -1; 1; -1; 1])
             [0; 0; 0; 0; 0] 5 in
  Rabs (rd (snd r) 4) <= 100 * 1.
Proof.
  intros f0 f r.
  refine (proj1 (X4_comb_stays_bounded 4 true f0 1.5 3000 [1; -1; 1; -1; 1]
                   [0; 0; 0; 0; 0] 5 1 _ _ _ _ _ _ _ _ _) 4%Z _); try lia; try lra.
  - reflexivity.
  - cbn. lra.
  - intros i Hi.
    assert (Hc : i = 0%Z \/ i = 1%Z \/ i = 2%Z \/ i = 3%Z \/ i = 4%Z) by lia.
    destruct Hc as [-> | [-> | [-> | [-> | ->]]]]; eval_arrays; apply Rabs_bound; lra.
  - repeat constructor; cbn; rewrite Rabs_R0; lra.
  - cbn. rewrite Rabs_R0. lra.
Defined.

(** ** What the comb loop realises *)

Lemma rd_quiet (a : list R) (i : Z) : Forall (fun v => v = 0) a -> rd a i = 0.
Proof.
  intros H. destruct (Z_lt_ge_dec i 0) as [Hn|Hn].
  - unfold rdA. destruct (i <? 0)%Z eqn:E; [reflexivity|lia].
  - destruct (Z_lt_ge_dec i (lenZ a)) as [Hl|Hl].
    + apply (rd_Forall (fun v => v = 0)); [exact H|lia].
    + apply rd_outside. lia.
Qed.

Lemma comb_output_length (inp : InputRef) (len : Z) (g d : R) (k : nat) (i : Z)
    (s : SharcCombFilter.locals) :
  lenZ (SharcCombFilter.output
          (for_loop k i 1 (SharcCombFilter.scalarBody inp len g d) s))
  = lenZ (SharcCombFilter.output s).
Proof.
  apply (for_loop_inv (fun x => lenZ (SharcCombFilter.output x)
                                = lenZ (SharcCombFilter.output s))); [|reflexivity].
  intros j x Hx. unfold SharcCombFilter.scalarBody.
  cbn [SharcCombFilter.output]. now rewrite lenZ_wr.
Qed.

(** The output array after [N] turns of the scalar comb loop holds at
    [n < N] the input sample plus [g] times the damping memory turn [n]
    left. *)
Lemma comb_output_at (inp : list R) (len : Z) (g d : R) (s : SharcCombFilter.locals)
    (N : nat) (n : Z) :
  (0 <= n < Z.of_nat N)%Z -> (Z.of_nat N <= lenZ (SharcCombFilter.output s))%Z ->
  let body := SharcCombFilter.scalarBody (Distinct inp) len g d in
  rd (SharcCombFilter.output (for_loop N 0 1 body s)) n
  = rd inp n + g * SharcCombFilter.flt (for_loop (S (Z.to_nat n)) 0 1 body s).
Proof.
  intros Hn HN. cbv zeta.
  induction N as [|N IH]; [lia|].
  rewrite for_loop_last. replace (0 + Z.of_nat N * 1)%Z with (Z.of_nat N) by lia.
  destruct (Z.eq_dec n (Z.of_nat N)) as [->|Hne].
  - rewrite Nat2Z.id. rewrite (for_loop_last N).
    replace (0 + Z.of_nat N * 1)%Z with (Z.of_nat N) by lia.
    unfold SharcCombFilter.scalarBody at 1 3.
    cbn [SharcCombFilter.output SharcCombFilter.flt rdIn].
    rewrite rd_wr_same by (rewrite comb_output_length; lia). reflexivity.
  - unfold SharcCombFilter.scalarBody at 1. cbn [SharcCombFilter.output].
    rewrite rd_wr_other by lia. apply IH; lia.
Qed.

(** The damping memory after turn [n], from the state turn [n] found. *)
Lemma comb_flt_step (inp : list R) (len : Z) (g d : R) (s : SharcCombFilter.locals)
    (n : nat) :
  let body := SharcCombFilter.scalarBody (Distinct inp) len g d in
  let st := for_loop n 0 1 body s in
  let D := rd (SharcCombFilter.buffer st) (SharcCombFilter.idx st) in
  SharcCombFilter.flt (for_loop (S n) 0 1 body s) = D + d * (SharcCombFilter.flt st - D).
Proof. cbv zeta. rewrite for_loop_last. reflexivity. Qed.

(** The delayed sample turn [n >= M] reads is the sample turn [n - M]
    stored, which is the sample it put out. *)
Lemma comb_delayed_at (inp : list R) (M : Z) (g d : R) (s : SharcCombFilter.locals)
    (n : Z) :
  (1 <= M)%Z -> (0 <= SharcCombFilter.idx s < M)%Z ->
  (M <= lenZ (SharcCombFilter.buffer s))%Z -> (M <= n)%Z ->
  let body := SharcCombFilter.scalarBody (Distinct inp) M g d in
  let st := for_loop (Z.to_nat n) 0 1 body s in
  rd (SharcCombFilter.buffer st) (SharcCombFilter.idx st)
  = rd inp (n - M)
    + g * SharcCombFilter.flt (for_loop (S (Z.to_nat (n - M))) 0 1 body s).
Proof.
  intros HM Hp HB Hn. cbv zeta.
  rewrite (comb_flt_step inp M g d s (Z.to_nat (n - M))).
  set (body := SharcCombFilter.scalarBody (Distinct inp) M g d).
  set (st0 := for_loop (Z.to_nat (n - M)) 0 1 body s).
  destruct (comb_scalar_inv (Distinct inp) M g d (lenZ (SharcCombFilter.buffer s))
              (Z.to_nat (n - M)) 0 s) as [H1 H2]; [lia|split; [exact Hp|reflexivity]|].
  fold body st0 in H1, H2.
  replace (Z.to_nat n) with (Z.to_nat (n - M) + Z.to_nat M)%nat by lia.
  rewrite for_loop_app. fold st0.
  replace (0 + Z.of_nat (Z.to_nat (n - M)) * 1)%Z with (n - M)%Z by lia.
  unfold body. rewrite comb_scalar_lanes by lia.
  cbn [SharcCombFilter.buffer SharcCombFilter.idx].
  rewrite Z2Nat.id by lia.
  assert (E0 : lanePos (SharcCombFilter.idx st0) M 0 = SharcCombFilter.idx st0).
  { unfold lanePos. rewrite Z.add_0_r, rem_wrap by lia.
    destruct (SharcCombFilter.idx st0 <? M)%Z eqn:E; lia. }
  assert (EM : lanePos (SharcCombFilter.idx st0) M M
               = lanePos (SharcCombFilter.idx st0) M 0).
  { rewrite E0. unfold lanePos. rewrite rem_wrap by lia.
    destruct (SharcCombFilter.idx st0 + M <? M)%Z eqn:E; lia. }
  rewrite EM, rd_writes_hit.
  - unfold combLane. cbn [Z.to_nat laneFlt]. unfold laneDelayed.
    change (Z.of_nat 0) with 0%Z. rewrite E0, Z.add_0_r. reflexivity.
  - lia.
  - rewrite E0. lia.
  - intros j Hj. apply not_eq_sym. apply lanePos_distinct; lia.
Qed.

Lemma laneFlt_quiet (B : list R) (p len : Z) (d : R) (k : nat) :
  Forall (fun v => v = 0) B -> laneFlt B p len d 0 k = 0.
Proof.
  intros HB. induction k as [|k IH]; cbn [laneFlt]; [reflexivity|].
  unfold laneDelayed. rewrite IH, rd_quiet by exact HB. ring.
Qed.

(** X5.  What the scalar comb loop realises.  On a prepared filter with
    the cursor inside the active length [M], output sample [n >= M] of a
    block is [y[n] = x[n] + g*(1-d)*y[n-M] + d*(y[n-1] - x[n-1])]: a
    feedback comb with the one-pole lowpass of coefficient [d] in its loop.
    On a filter whose delay line and damping memory are zero the first [M]
    output samples are the input samples. *)
Theorem X5_comb_realised_recurrence (f : SharcCombFilter.t) (xs out : list R) :
  SharcCombFilter.prepared f = true ->
  let M := SharcCombFilter.delaySamples f in
  let g := SharcCombFilter.feedbackGain f in
  let d := SharcCombFilter.dampingCoeff f in
  (1 <= M <= lenZ (SharcCombFilter.delayLine f))%Z ->
  (0 <= SharcCombFilter.writeIndex f < M)%Z ->
  (lenZ xs <= lenZ out)%Z ->
  let y := snd (SharcCombFilter.processBlockScalar f (Distinct xs) out (lenZ xs)) in
  (forall n, (M <= n < lenZ xs)%Z ->
     rd y n = rd xs n + g * (1 - d) * rd y (n - M) + d * (rd y (n - 1) - rd xs (n - 1))) /\
  (combQuiet f ->
   forall n, (0 <= n < lenZ xs)%Z -> (n < M)%Z -> rd y n = rd xs n).
Proof.
  intros Hp M g d HM Hw Hlen y.
  unfold y, SharcCombFilter.processBlockScalar. rewrite Hp.
  cbn [negb SharcCombFilter.finish snd]. unfold for_range.
  rewrite Z.sub_0_r. fold M g d.
  set (s := SharcCombFilter.start f out).
  set (body := SharcCombFilter.scalarBody (Distinct xs) M g d).
  assert (HN : Z.of_nat (Z.to_nat (lenZ xs)) = lenZ xs) by (unfold lenZ; lia).
  assert (Hout : forall n, (0 <= n < lenZ xs)%Z ->
            rd (SharcCombFilter.output (for_loop (Z.to_nat (lenZ xs)) 0 1 body s)) n
            = rd xs n + g * SharcCombFilter.flt (for_loop (S (Z.to_nat n)) 0 1 body s)).
  { intros n Hn. apply comb_output_at; cbn; lia. }
  split.
  - intros n Hn.
    rewrite (Hout n), (Hout (n - M)%Z), (Hout (n - 1)%Z) by lia.
    unfold body. rewrite (comb_flt_step xs M g d s (Z.to_nat n)).
    rewrite (comb_delayed_at xs M g d s n) by (cbn; lia).
    replace (S (Z.to_nat (n - 1))) with (Z.to_nat n) by lia.
    ring.
  - intros (HQ & HF) n Hn HnM. rewrite (Hout n Hn).
    unfold body. rewrite comb_scalar_lanes by (cbn; lia).
    cbn [SharcCombFilter.flt s SharcCombFilter.start SharcCombFilter.buffer].
    rewrite HF, laneFlt_quiet by exact HQ. ring.
Qed.

Lemma X5_comb_realised_recurrence_witness :
  let f := SharcCombFilter.prepare SharcCombFilter.default 48000 2 0.5 5000 in
  let g := SharcCombFilter.feedbackGain f in
  let d := SharcCombFilter.dampingCoeff f in
  let xs := [1; 0; 0] in
  let y := snd (SharcCombFilter.processBlockScalar f (Distinct xs) [0; 0; 0] (lenZ xs)) in
  rd y 2 = rd xs 2 + g * (1 - d) * rd y (2 - 2) + d * (rd y (2 - 1) - rd xs (2 - 1)).
Proof.
  intros f g d xs y.
  refine (proj1 (X5_comb_realised_recurrence f xs [0; 0; 0] _ _ _ _) 2%Z _);
    try reflexivity; unfold lenZ; simpl; unfold juce.jlimitZ; simpl; lia.
Defined.

(** ** What the allpass loop realises, from the first sample on *)

(** X6.  What the scalar allpass loop realises.  On a prepared filter
    with the cursor inside the active length [M], output sample [n >= M] of
    a block is [y[n] = -g*x[n] + (1 + g*g)*x[n-M] + g*y[n-M]]; on a filter
    whose delay line is zero the first [M] output samples are
    [-g * x[n]]. *)
Theorem X6_allpass_realised_recurrence (f : SharcAllpassFilter.t) (xs out : list R) :
  SharcAllpassFilter.prepared f = true ->
  let M := SharcAllpassFilter.delaySamples f in
  let g := SharcAllpassFilter.apGain f in
  (1 <= M <= lenZ (SharcAllpassFilter.delayLine f))%Z ->
  (0 <= SharcAllpassFilter.writeIndex f < M)%Z ->
  (lenZ xs <= lenZ out)%Z ->
  let y := snd (SharcAllpassFilter.processBlockScalar f (Distinct xs) out (lenZ xs)) in
  (forall n, (M <= n < lenZ xs)%Z ->
     rd y n = - g * rd xs n + (1 + g * g) * rd xs (n - M) + g * rd y (n - M)) /\
  (allpassQuiet f ->
   forall n, (0 <= n < lenZ xs)%Z -> (n < M)%Z -> rd y n = - g * rd xs n).
Proof.
  intros Hp M g HM Hw Hlen y. split.
  - intros n Hn. now apply allpass_realised_recurrence.
  - intros HQ n Hn HnM.
    unfold y, SharcAllpassFilter.processBlockScalar. rewrite Hp.
    cbn [negb SharcAllpassFilter.finish snd]. unfold for_range.
    rewrite Z.sub_0_r. fold M g.
    set (s := SharcAllpassFilter.start f out).
    assert (HN : Z.of_nat (Z.to_nat (lenZ xs)) = lenZ xs) by (unfold lenZ; lia).
    rewrite (allpass_output_at xs M g s (Z.to_nat (lenZ xs)) n) by (cbn; lia).
    rewrite allpass_scalar_lanes by (cbn; lia).
    cbn [SharcAllpassFilter.buffer SharcAllpassFilter.idx s SharcAllpassFilter.start].
    rewrite rd_writes_other.
    + rewrite (rd_quiet (SharcAllpassFilter.delayLine f)) by exact HQ. ring.
    + intros j Hj. rewrite Z2Nat.id by lia. apply lanePos_distinct; lia.
Qed.

Lemma X6_allpass_realised_recurrence_witness :
  let f := SharcAllpassFilter.prepare SharcAllpassFilter.default 48000 2 0.5 in
  let g := SharcAllpassFilter.apGain f in
  let xs := [1; 0; 0] in
  let y := snd (SharcAllpassFilter.processBlockScalar f (Distinct xs) [0; 0; 0] (lenZ xs)) in
  rd y 2 = - g * rd xs 2 + (1 + g * g) * rd xs (2 - 2) + g * rd y (2 - 2).
Proof.
  intros f g xs y.
  refine (proj1 (X6_allpass_realised_recurrence f xs [0; 0; 0] _ _ _ _) 2%Z _);
    try reflexivity; unfold lenZ; simpl; unfold juce.jlimitZ; simpl; lia.
Defined.

(** ** Scaled delays at any sample rate *)

Lemma static_cast_int_bounds (x : R) :
  0 <= x -> IZR (juce.static_cast_int x) <= x < IZR (juce.static_cast_int x) + 1.
Proof.
  intros Hx. unfold juce.static_cast_int.
  destruct (Rlt_dec x 0) as [H|H]; [lra|].
  destruct (base_Int_part x) as [H1 H2]. lra.
Qed.

Lemma static_cast_int_ge (x : R) (z : Z) :
  0 <= x -> IZR z <= x -> (z <= juce.static_cast_int x)%Z.
Proof.
  intros Hx Hz. destruct (static_cast_int_bounds x Hx) as [_ H].
  assert (Hlt : IZR z < IZR (juce.static_cast_int x + 1)) by (rewrite plus_IZR; lra).
  apply lt_IZR in Hlt. lia.
Qed.

Lemma static_cast_int_mono (x y : R) :
  0 <= x <= y -> (juce.static_cast_int x <= juce.static_cast_int y)%Z.
Proof.
  intros [Hx Hy]. apply static_cast_int_ge; [lra|].
  destruct (static_cast_int_bounds x Hx) as [H _]. lra.
Qed.

(** A table delay [T] between 37 and 4800 samples at 48 kHz, scaled to the
    rate [sr], is at least [w] when [w * 48000 <= 37 * sr], and fits a line
    of [sr * frac] samples when [T <= 48000 * frac]. *)
Lemma scaled_delay_range (w T : Z) (sr frac : R) :
  (1 <= w)%Z -> (37 <= T)%Z -> IZR T <= 48000 * frac ->
  IZR w * 48000 <= 37 * sr ->
  let scaled := juce.static_cast_int (IZR T * sr / 48000) in
  let maxDelay := juce.static_cast_int (sr * frac) in
  (w <= scaled <= maxDelay)%Z /\
  juce.jlimitZ 1 (lenZ (zeros maxDelay)) scaled = scaled /\
  lenZ (zeros maxDelay) = maxDelay.
Proof.
  intros Hw HT HTf Hsr scaled maxDelay.
  assert (Hw' : 1 <= IZR w) by (apply IZR_le in Hw; exact Hw).
  assert (HT' : 37 <= IZR T) by (apply IZR_le in HT; exact HT).
  assert (Hs : 0 < sr) by lra.
  assert (H1 : IZR w <= IZR T * sr / 48000).
  { apply (Rmult_le_reg_r 48000); [lra|].
    replace (IZR T * sr / 48000 * 48000) with (IZR T * sr) by field. nra. }
  assert (H2 : IZR T * sr / 48000 <= sr * frac).
  { apply (Rmult_le_reg_r 48000); [lra|].
    replace (IZR T * sr / 48000 * 48000) with (IZR T * sr) by field. nra. }
  assert (R1 : (w <= scaled)%Z) by (apply static_cast_int_ge; lra).
  assert (R2 : (scaled <= maxDelay)%Z) by (apply static_cast_int_mono; lra).
  assert (R3 : lenZ (zeros maxDelay) = maxDelay) by (rewrite lenZ_zeros; lia).
  split; [lia|]. split; [|exact R3].
  rewrite R3. unfold juce.jlimitZ.
  destruct (scaled <? 1)%Z eqn:E1; [lia|].
  destruct (maxDelay <? scaled)%Z eqn:E2; [lia|]. reflexivity.
Qed.

Lemma combDelays_range (c : Z) :
  (0 <= c < DdxReverbAudioProcessor.numCombs)%Z ->
  (37 <= DdxReverbAudioProcessor.tableAt DdxReverbAudioProcessor.combDelays c <= 4800)%Z.
Proof.
  unfold DdxReverbAudioProcessor.numCombs. intros Hc.
  assert (Hcases : c = 0%Z \/ c = 1%Z \/ c = 2%Z \/ c = 3%Z) by lia.
  destruct Hcases as [-> | [-> | [-> | ->]]]; vm_compute; split; discriminate.
Qed.

Lemma allpassDelays_range (c : Z) :
  (0 <= c < DdxReverbAudioProcessor.numAllpasses)%Z ->
  (37 <= DdxReverbAudioProcessor.tableAt DdxReverbAudioProcessor.allpassDelays c <= 2400)%Z.
Proof.
  unfold DdxReverbAudioProcessor.numAllpasses. intros Hc.
  assert (Hcases : c = 0%Z \/ c = 1%Z \/ c = 2%Z \/ c = 3%Z
                   \/ c = 4%Z \/ c = 5%Z \/ c = 6%Z \/ c = 7%Z) by lia.
  destruct Hcases as [-> | [-> | [-> | [-> | [-> | [-> | [-> | ->]]]]]]];
    vm_compute; split; discriminate.
Qed.

(** X7.  [prepareToPlay] at a sample rate [sr] with
    [w * 48000 <= 37 * sr] (for [w = 1] from 1298 Hz on, for a register of
    eight lanes from 10379 Hz on) gives every comb and every allpass its
    table delay scaled to the rate, [static_cast<int> (delay * sr / 48000)],
    never clamped: the scaled delay is at least [w] and at most the length
    of the line, which is [static_cast<int> (sr * 0.1)] samples for a comb
    and [static_cast<int> (sr * 0.05)] for an allpass; every filter is
    prepared and its cursor is 0. *)
Theorem X7_prepareToPlay_scales_delays (w : Z) (p0 : DdxReverbAudioProcessor.t)
    (sr : R) (n : Z) :
  wellFormed p0 -> (1 <= w)%Z -> IZR w * 48000 <= 37 * sr ->
  let p := DdxReverbAudioProcessor.prepareToPlay p0 sr n in
  (forall c, (0 <= c < DdxReverbAudioProcessor.numCombs)%Z ->
     let f := DdxReverbAudioProcessor.combAt (DdxReverbAudioProcessor.combs p) c in
     SharcCombFilter.prepared f = true /\
     SharcCombFilter.writeIndex f = 0%Z /\
     lenZ (SharcCombFilter.delayLine f) = juce.static_cast_int (sr * 0.1) /\
     SharcCombFilter.delaySamples f
     = juce.static_cast_int
         (IZR (DdxReverbAudioProcessor.tableAt DdxReverbAudioProcessor.combDelays c)
          * sr / 48000) /\
     (w <= SharcCombFilter.delaySamples f <= lenZ (SharcCombFilter.delayLine f))%Z) /\
  (forall c, (0 <= c < DdxReverbAudioProcessor.numAllpasses)%Z ->
     let f := DdxReverbAudioProcessor.apAt (DdxReverbAudioProcessor.allpasses p) c in
     SharcAllpassFilter.prepared f = true /\
     SharcAllpassFilter.writeIndex f = 0%Z /\
     lenZ (SharcAllpassFilter.delayLine f) = juce.static_cast_int (sr * 0.05) /\
     SharcAllpassFilter.delaySamples f
     = juce.static_cast_int
         (IZR (DdxReverbAudioProcessor.tableAt DdxReverbAudioProcessor.allpassDelays c)
          * sr / 48000) /\
     (w <= SharcAllpassFilter.delaySamples f <= lenZ (SharcAllpassFilter.delayLine f))%Z).
Proof.
  intros Hwf Hw Hsr p.
  destruct (prepareToPlay_combs p0 sr n Hwf) as [_ HPc].
  destruct (prepareToPlay_allpasses p0 sr n Hwf) as [_ HPa].
  cbv zeta in HPc, HPa. fold p in HPc, HPa.
  split.
  - intros c Hc f. unfold f. rewrite (HPc c Hc).
    destruct (combDelays_range c Hc) as [T1 T2].
    destruct (scaled_delay_range w _ sr 0.1 Hw T1) as (S1 & S2 & S3);
      [apply IZR_le in T2; lra|exact Hsr|].
    cbn [SharcCombFilter.setDelaySamples SharcCombFilter.prepare
         SharcCombFilter.prepared SharcCombFilter.writeIndex
         SharcCombFilter.delaySamples SharcCombFilter.delayLine].
    rewrite S2, S3. repeat split; try reflexivity; lia.
  - intros c Hc f. unfold f. rewrite (HPa c Hc).
    destruct (allpassDelays_range c Hc) as [T1 T2].
    destruct (scaled_delay_range w _ sr 0.05 Hw T1) as (S1 & S2 & S3);
      [apply IZR_le in T2; lra|exact Hsr|].
    cbn [SharcAllpassFilter.setDelaySamples SharcAllpassFilter.prepare
         SharcAllpassFilter.prepared SharcAllpassFilter.writeIndex
         SharcAllpassFilter.delaySamples SharcAllpassFilter.delayLine].
    rewrite S2, S3. repeat split; try reflexivity; lia.
Qed.

Lemma X7_prepareToPlay_scales_delays_witness :
  let p := DdxReverbAudioProcessor.prepareToPlay
             (DdxReverbAudioProcessor.construct 2 2) 44100 512 in
  let f := DdxReverbAudioProcessor.combAt (DdxReverbAudioProcessor.combs p) 3 in
  SharcCombFilter.delaySamples f = juce.static_cast_int (IZR 1356 * 44100 / 48000) /\
  (8 <= SharcCombFilter.delaySamples f <= lenZ (SharcCombFilter.delayLine f))%Z.
Proof.
  intros p f.
  pose proof (proj1 (X7_prepareToPlay_scales_delays 8
                       (DdxReverbAudioProcessor.construct 2 2) 44100 512
                       (construct_wellFormed 2 2) ltac:(lia) ltac:(lra)) 3%Z
                ltac:(unfold DdxReverbAudioProcessor.numCombs; lia)) as H.
  cbv zeta in H. destruct H as (_ & _ & _ & H4 & H5). split; [exact H4|exact H5].
Defined.

(** A processor that [prepareToPlay] has prepared at a rate of at least
    [w * 48000 / 37] is safe for a register of [w] lanes. *)
Lemma prepareToPlay_simdSafe (w : Z) (p0 : DdxReverbAudioProcessor.t) (sr : R) (n : Z) :
  wellFormed p0 -> (1 <= w)%Z -> IZR w * 48000 <= 37 * sr ->
  simdSafe w (DdxReverbAudioProcessor.prepareToPlay p0 sr n).
Proof.
  intros Hwf Hw Hsr.
  destruct (prepareToPlay_combs p0 sr n Hwf) as [HLc HPc].
  destruct (prepareToPlay_allpasses p0 sr n Hwf) as [HLa HPa].
  cbv zeta in *.
  split.
  - apply (Forall_rd _ SharcCombFilter.default). intros c Hc. rewrite HLc in Hc.
    fold (DdxReverbAudioProcessor.combAt
            (DdxReverbAudioProcessor.combs
               (DdxReverbAudioProcessor.prepareToPlay p0 sr n)) c).
    rewrite (HPc c Hc). intros _.
    destruct (combDelays_range c Hc) as [T1 T2].
    destruct (scaled_delay_range w _ sr 0.1 Hw T1) as (S1 & S2 & S3);
      [apply IZR_le in T2; lra|exact Hsr|].
    cbn [SharcCombFilter.setDelaySamples SharcCombFilter.prepare
         SharcCombFilter.delaySamples SharcCombFilter.delayLine
         SharcCombFilter.writeIndex].
    rewrite S2, S3. lia.
  - apply (Forall_rd _ SharcAllpassFilter.default). intros c Hc. rewrite HLa in Hc.
    fold (DdxReverbAudioProcessor.apAt
            (DdxReverbAudioProcessor.allpasses
               (DdxReverbAudioProcessor.prepareToPlay p0 sr n)) c).
    rewrite (HPa c Hc). intros _.
    destruct (allpassDelays_range c Hc) as [T1 T2].
    destruct (scaled_delay_range w _ sr 0.05 Hw T1) as (S1 & S2 & S3);
      [apply IZR_le in T2; lra|exact Hsr|].
    cbn [SharcAllpassFilter.setDelaySamples SharcAllpassFilter.prepare
         SharcAllpassFilter.delaySamples SharcAllpassFilter.delayLine
         SharcAllpassFilter.writeIndex].
    rewrite S2, S3. lia.
Qed.

(** ** Cursors stay inside their lines *)

Lemma rem_range (a len : Z) : (0 <= a)%Z -> (0 < len)%Z -> (0 <= Z.rem a len < len)%Z.
Proof. intros Ha Hl. rewrite Z.rem_mod_nonneg by lia. apply Z.mod_pos_bound. lia. Qed.

Lemma comb_simd_inv (w : Z) (inp : InputRef) (len : Z) (g damp : R) (L : Z) (k : nat)
    (i : Z) (s : SharcCombFilter.locals) :
  (0 <= w)%Z -> (0 < len)%Z ->
  (0 <= SharcCombFilter.idx s < len)%Z /\ lenZ (SharcCombFilter.buffer s) = L ->
  let s' := for_loop k i w (SharcCombFilter.simdBody w inp len g damp) s in
  (0 <= SharcCombFilter.idx s' < len)%Z /\ lenZ (SharcCombFilter.buffer s') = L.
Proof.
  intros Hw Hl Hs. cbv zeta.
  apply (for_loop_inv (fun x => (0 <= SharcCombFilter.idx x < len)%Z
                                /\ lenZ (SharcCombFilter.buffer x) = L)); [|exact Hs].
  intros j x [Hx1 Hx2]. rewrite comb_simd_body_length. split; [|exact Hx2].
  unfold SharcCombFilter.simdBody.
  destruct (for_range 0 w _ (SharcCombFilter.flt x, zeros 8)) as [fl dv].
  cbn [SharcCombFilter.idx]. apply rem_range; lia.
Qed.

Lemma allpass_simd_inv (w : Z) (inp : InputRef) (len : Z) (g : R) (L : Z) (k : nat)
    (i : Z) (s : SharcAllpassFilter.locals) :
  (0 <= w)%Z -> (0 < len)%Z ->
  (0 <= SharcAllpassFilter.idx s < len)%Z /\ lenZ (SharcAllpassFilter.buffer s) = L ->
  let s' := for_loop k i w (SharcAllpassFilter.simdBody w inp len g) s in
  (0 <= SharcAllpassFilter.idx s' < len)%Z /\ lenZ (SharcAllpassFilter.buffer s') = L.
Proof.
  intros Hw Hl Hs. cbv zeta.
  apply (for_loop_inv (fun x => (0 <= SharcAllpassFilter.idx x < len)%Z
                                /\ lenZ (SharcAllpassFilter.buffer x) = L)); [|exact Hs].
  intros j x [Hx1 Hx2]. rewrite allpass_simd_body_length. split; [|exact Hx2].
  unfold SharcAllpassFilter.simdBody. cbn [SharcAllpassFilter.idx].
  apply rem_range; lia.
Qed.

(** Either path of a comb filter leaves the cursor inside the active
    length, whatever the register width. *)
Lemma runComb_in_range (w : Z) (simdOn : bool) (f : SharcCombFilter.t) (inp : InputRef)
    (out : list R) (n : Z) :
  (0 <= w)%Z -> combSafe 1 f ->
  combSafe 1 (fst (DdxReverbAudioProcessor.runComb w simdOn f inp out n)).
Proof.
  intros Hw Hs.
  unfold DdxReverbAudioProcessor.runComb, SharcCombFilter.processBlockSIMD,
    SharcCombFilter.processBlockScalar.
  destruct (SharcCombFilter.prepared f) eqn:Hp; cbn [negb];
    [|destruct simdOn; exact Hs].
  destruct (Hs Hp) as [H1 H2]. unfold for_range.
  assert (H0 : (0 <= SharcCombFilter.idx (SharcCombFilter.start f out)
                < SharcCombFilter.delaySamples f)%Z
               /\ lenZ (SharcCombFilter.buffer (SharcCombFilter.start f out))
                  = lenZ (SharcCombFilter.delayLine f)) by (split; [exact H2|reflexivity]).
  destruct simdOn.
  - pose proof (comb_simd_inv w inp (SharcCombFilter.delaySamples f)
                  (SharcCombFilter.feedbackGain f) (SharcCombFilter.dampingCoeff f)
                  _ (Z.to_nat (n / w)) 0 _ Hw ltac:(lia) H0) as I. cbv zeta in I.
    pose proof (comb_scalar_inv inp (SharcCombFilter.delaySamples f)
                  (SharcCombFilter.feedbackGain f) (SharcCombFilter.dampingCoeff f)
                  _ (Z.to_nat (n - n / w * w)) (n / w * w)%Z _ ltac:(lia) I) as [I1 I2].
    intros _. unfold SharcCombFilter.finish.
    cbn [fst SharcCombFilter.delaySamples SharcCombFilter.delayLine
         SharcCombFilter.writeIndex].
    rewrite I2. split; [exact H1|exact I1].
  - pose proof (comb_scalar_inv inp (SharcCombFilter.delaySamples f)
                  (SharcCombFilter.feedbackGain f) (SharcCombFilter.dampingCoeff f)
                  _ (Z.to_nat (n - 0)) 0 _ ltac:(lia) H0) as [I1 I2].
    intros _. unfold SharcCombFilter.finish.
    cbn [fst SharcCombFilter.delaySamples SharcCombFilter.delayLine
         SharcCombFilter.writeIndex].
    rewrite I2. split; [exact H1|exact I1].
Qed.

Lemma runAllpass_in_range (w : Z) (simdOn : bool) (f : SharcAllpassFilter.t)
    (inp : InputRef) (out : list R) (n : Z) :
  (0 <= w)%Z -> allpassSafe 1 f ->
  allpassSafe 1 (fst (DdxReverbAudioProcessor.runAllpass w simdOn f inp out n)).
Proof.
  intros Hw Hs.
  unfold DdxReverbAudioProcessor.runAllpass, SharcAllpassFilter.processBlockSIMD,
    SharcAllpassFilter.processBlockScalar.
  destruct (SharcAllpassFilter.prepared f) eqn:Hp; cbn [negb];
    [|destruct simdOn; exact Hs].
  destruct (Hs Hp) as [H1 H2]. unfold for_range.
  assert (H0 : (0 <= SharcAllpassFilter.idx (SharcAllpassFilter.start f out)
                < SharcAllpassFilter.delaySamples f)%Z
               /\ lenZ (SharcAllpassFilter.buffer (SharcAllpassFilter.start f out))
                  = lenZ (SharcAllpassFilter.delayLine f))
    by (split; [exact H2|reflexivity]).
  destruct simdOn.
  - pose proof (allpass_simd_inv w inp (SharcAllpassFilter.delaySamples f)
                  (SharcAllpassFilter.apGain f)
                  _ (Z.to_nat (n / w)) 0 _ Hw ltac:(lia) H0) as I. cbv zeta in I.
    pose proof (allpass_scalar_inv inp (SharcAllpassFilter.delaySamples f)
                  (SharcAllpassFilter.apGain f)
                  _ (Z.to_nat (n - n / w * w)) (n / w * w)%Z _ ltac:(lia) I) as [I1 I2].
    intros _. unfold SharcAllpassFilter.finish.
    cbn [fst SharcAllpassFilter.delaySamples SharcAllpassFilter.delayLine
         SharcAllpassFilter.writeIndex].
    rewrite I2. split; [exact H1|exact I1].
  - pose proof (allpass_scalar_inv inp (SharcAllpassFilter.delaySamples f)
                  (SharcAllpassFilter.apGain f)
                  _ (Z.to_nat (n - 0)) 0 _ ltac:(lia) H0) as [I1 I2].
    intros _. unfold SharcAllpassFilter.finish.
    cbn [fst SharcAllpassFilter.delaySamples SharcAllpassFilter.delayLine
         SharcAllpassFilter.writeIndex].
    rewrite I2. split; [exact H1|exact I1].
Qed.

(** What [setGain] and a block make of every allpass that satisfies [P]
    holds of every allpass after the chain. *)
Lemma allpassStage_Forall (w : Z) (P Q : SharcAllpassFilter.t -> Prop) (simdOn : bool)
    (n : Z) (g : R) (aps : list SharcAllpassFilter.t) (m : list R) :
  (forall f m', P f ->
     Q (fst (DdxReverbAudioProcessor.runAllpass w simdOn
               (SharcAllpassFilter.setGain f g) SameAsOutput m' n))) ->
  Forall P aps ->
  Forall Q (fst (DdxReverbAudioProcessor.allpassStage w simdOn n g aps m)).
Proof.
  intros HQ HF. unfold DdxReverbAudioProcessor.allpassStage.
  assert (H : forall (done : list SharcAllpassFilter.t) (m : list R),
            Forall Q done ->
            Forall Q
              (fst (fold_left
                      (fun '(done, m) ap =>
                         let '(ap', m') :=
                           DdxReverbAudioProcessor.runAllpass w simdOn
                             (SharcAllpassFilter.setGain ap g) SameAsOutput m n in
                         (done ++ [ap'], m'))
                      aps (done, m)))).
  { induction HF as [|a aps Ha _ IH]; intros done m' Hd; cbn [fold_left fst].
    - exact Hd.
    - pose proof (HQ a m' Ha) as Hk.
      destruct (DdxReverbAudioProcessor.runAllpass w simdOn
                  (SharcAllpassFilter.setGain a g) SameAsOutput m' n) as [a' m''].
      cbn [fst] in Hk. apply IH. apply Forall_app. split; [exact Hd|].
      constructor; [exact Hk|constructor]. }
  apply H. constructor.
Qed.

Lemma preDelay_in_range (pds n : Z) (buf : list R) (pos : Z) (m : list R) :
  (0 <= pos < lenZ buf)%Z ->
  let r := DdxReverbAudioProcessor.preDelay pds n (buf, pos, m) in
  (0 <= snd (fst r) < lenZ (fst (fst r)))%Z /\ lenZ (fst (fst r)) = lenZ buf.
Proof.
  intros Hpos. cbv zeta. unfold DdxReverbAudioProcessor.preDelay.
  destruct (pds >? 0)%Z; [|cbn [fst snd]; lia].
  unfold for_range.
  apply (for_loop_inv (fun st : list R * Z * list R =>
           (0 <= snd (fst st) < lenZ (fst (fst st)))%Z /\ lenZ (fst (fst st)) = lenZ buf)).
  - intros j [[b wp] mm] [H1 H2]. cbn [fst snd] in *. rewrite lenZ_wr.
    split; [|exact H2]. destruct (wp + 1 >=? lenZ b)%Z eqn:E; lia.
  - cbn [fst snd]. lia.
Qed.

Lemma processBlock_in_range (w : Z) (G : Statics) (p : DdxReverbAudioProcessor.t)
    (prm : Params) (buf : AudioBuffer.t) (t0 t1 : R) :
  (0 <= w)%Z -> cursorsInRange p ->
  cursorsInRange (snd (fst (DdxReverbAudioProcessor.processBlock w G p prm buf t0 t1))).
Proof.
  intros Hw (Hc & Ha & Hpd).
  destruct (gtb (bypass prm) 0.5) eqn:Hb.
  - rewrite processBlock_bypassed by exact Hb. cbn [fst snd]. repeat split; assumption || lia.
  - rewrite processBlock_running by exact Hb. cbn [fst snd].
    unfold cursorsInRange.
    cbn [DdxReverbAudioProcessor.combs DdxReverbAudioProcessor.allpasses
         DdxReverbAudioProcessor.preDelayWritePos DdxReverbAudioProcessor.preDelayBuffer].
    rewrite wetPath_stages.
    cbn [DdxReverbAudioProcessor.wCombs DdxReverbAudioProcessor.wAllpasses
         DdxReverbAudioProcessor.wPreDelayWritePos DdxReverbAudioProcessor.wPreDelayBuffer].
    split; [|split].
    + match goal with
      | |- context [DdxReverbAudioProcessor.combStage ?w ?s ?n ?cs ?m] =>
          destruct (combStage_Forall w (combSafe 1) s n cs m) as [HF _]
      end.
      * intros f inp out Hf. now apply runComb_in_range.
      * unfold DdxReverbAudioProcessor.updateCombs. apply Forall_map.
        revert Hc. apply Forall_impl. intros c Hcs. exact Hcs.
      * exact HF.
    + apply (allpassStage_Forall w (allpassSafe 1)); [|exact Ha].
      intros f m' Hf. apply runAllpass_in_range; [exact Hw|exact Hf].
    + match goal with
      | |- context [DdxReverbAudioProcessor.preDelay ?pds ?n (?b, ?pos, ?m)] =>
          pose proof (preDelay_in_range pds n b pos m Hpd) as [H1 H2]
      end.
      exact H1.
Qed.

(** X8.  Once [prepareToPlay] has run at a rate of at least 1298 Hz
    ([48000 <= 37 * sr]), no run of [processBlock] calls - whatever the
    parameter values, the blocks and the positions of the SIMD switch -
    takes a cursor out of its line: after every block each prepared comb
    and allpass has [1 <= delaySamples <= delayLine.size()] and
    [0 <= writeIndex < delaySamples], and
    [0 <= preDelayWritePos < preDelayBuffer.size()]. *)
Theorem X8_cursors_stay_in_range (w : Z) (G : Statics) (p0 : DdxReverbAudioProcessor.t)
    (sr : R) (n : Z) (bs : list Block) :
  wellFormed p0 -> (0 <= w)%Z -> 48000 <= 37 * sr ->
  cursorsInRange
    (snd (runBlocks w (G, DdxReverbAudioProcessor.prepareToPlay p0 sr n) bs)).
Proof.
  intros Hwf Hw Hsr.
  assert (H0 : cursorsInRange (DdxReverbAudioProcessor.prepareToPlay p0 sr n)).
  { destruct (prepareToPlay_simdSafe 1 p0 sr n Hwf ltac:(lia) ltac:(lra)) as [Hc Ha].
    split; [exact Hc|]. split; [exact Ha|].
    cbn [DdxReverbAudioProcessor.prepareToPlay DdxReverbAudioProcessor.preDelayWritePos
         DdxReverbAudioProcessor.preDelayBuffer].
    rewrite lenZ_zeros.
    assert (1 <= juce.static_cast_int (sr * 0.5))%Z
      by (apply static_cast_int_ge; lra).
    lia. }
  unfold runBlocks.
  set (st := (G, DdxReverbAudioProcessor.prepareToPlay p0 sr n)).
  change (cursorsInRange (snd st)) in H0. clearbody st.
  revert st H0. induction bs as [|b bs IH]; intros st H0; cbn [fold_left]; [exact H0|].
  apply IH. unfold stepBlock. now apply processBlock_in_range.
Qed.

Lemma X8_cursors_stay_in_range_witness :
  cursorsInRange
    (snd (runBlocks 4
            (initialStatics,
             DdxReverbAudioProcessor.prepareToPlay
               (DdxReverbAudioProcessor.construct 2 2) 44100 2)
            [mkBlock (mkParams 5 50 50 10 0 0 0.5 0 1) (AudioBuffer.mk [[1; 0]; [0; 1]] 2) 0 1])).
Proof.
  apply (X8_cursors_stay_in_range 4 initialStatics
           (DdxReverbAudioProcessor.construct 2 2) 44100 2).
  - apply construct_wellFormed.
  - lia.
  - lra.
Defined.

(** ** The SIMD switch over a run of blocks *)

(** [processBlock] never reads the [useSIMD] member it finds. *)
Lemma processBlock_forgetSimd (w : Z) (G : Statics) (p : DdxReverbAudioProcessor.t)
    (prm : Params) (buf : AudioBuffer.t) (t0 t1 : R) :
  let r := DdxReverbAudioProcessor.processBlock w G p prm buf t0 t1 in
  let r' := DdxReverbAudioProcessor.processBlock w G (forgetSimd p) prm buf t0 t1 in
  fst (fst r) = fst (fst r') /\ snd r = snd r' /\
  forgetSimd (snd (fst r)) = forgetSimd (snd (fst r')).
Proof.
  cbv zeta. destruct (gtb (bypass prm) 0.5) eqn:Hb.
  - rewrite !processBlock_bypassed by exact Hb. cbn [fst snd]. repeat split.
  - rewrite !processBlock_running by exact Hb. cbn [fst snd]. repeat split.
Qed.

Lemma simdSafe_forgetSimd (w : Z) (p q : DdxReverbAudioProcessor.t) :
  forgetSimd p = forgetSimd q -> simdSafe w p -> simdSafe w q.
Proof.
  intros E H.
  change (simdSafe w (forgetSimd q)). rewrite <- E. exact H.
Qed.

(** One block on a safe processor, with the switch as the host set it and
    with the switch off. *)
Lemma block_simdOff (w : Z) (G : Statics) (p1 p2 : DdxReverbAudioProcessor.t) (b : Block) :
  (1 <= w <= 8)%Z ->
  forgetSimd p1 = forgetSimd p2 -> simdSafe w p1 ->
  (0 <= AudioBuffer.getNumSamples (bBuffer b))%Z ->
  let r := DdxReverbAudioProcessor.processBlock w G p1 (bParams b) (bBuffer b)
             (bStart b) (bEnd b) in
  let r' := DdxReverbAudioProcessor.processBlock w G p2 (bParams (simdOff b))
              (bBuffer (simdOff b)) (bStart (simdOff b)) (bEnd (simdOff b)) in
  fst (fst r) = fst (fst r') /\ snd r = snd r' /\
  forgetSimd (snd (fst r)) = forgetSimd (snd (fst r')) /\
  simdSafe w (snd (fst r)).
Proof.
  intros Hw E Hs Hn r r'.
  destruct (processBlock_forgetSimd w G p1 (bParams b) (bBuffer b) (bStart b) (bEnd b))
    as (A1 & A2 & A3).
  destruct (processBlock_forgetSimd w G p2 (bParams (simdOff b)) (bBuffer (simdOff b))
              (bStart (simdOff b)) (bEnd (simdOff b))) as (B1 & B2 & B3).
  fold r in A1, A2, A3. fold r' in B1, B2, B3.
  rewrite <- E in B1, B2, B3.
  set (q := forgetSimd p1) in *.
  assert (Hq : simdSafe w q) by exact Hs.
  assert (Hcmp :
    let s := DdxReverbAudioProcessor.processBlock w G q (bParams b) (bBuffer b)
               (bStart b) (bEnd b) in
    let s' := DdxReverbAudioProcessor.processBlock w G q (bParams (simdOff b))
                (bBuffer (simdOff b)) (bStart (simdOff b)) (bEnd (simdOff b)) in
    fst (fst s) = fst (fst s') /\ snd s = snd s' /\
    forgetSimd (snd (fst s)) = forgetSimd (snd (fst s')) /\
    simdSafe w (snd (fst s))).
  { cbv zeta. destruct (gtb (simd (bParams b)) 0.5) eqn:Hon.
    - destruct (processBlock_simd_switch w Hw G q (bParams b) (bParams (simdOff b))
                  (bBuffer b) (bStart b) (bEnd b) Hq Hn Hon eq_refl)
        as (C1 & C2 & C3 & C4).
      split; [exact C1|]. split; [exact C2|]. split; [exact (C4 false)|exact C3].
    - assert (Hoff : gtb 0 0.5 = false) by (apply gtb_false; lra).
      destruct (gtb (bypass (bParams b)) 0.5) eqn:Hb.
      + rewrite !processBlock_bypassed by exact Hb. cbn [fst snd].
        repeat split; apply Hq.
      + rewrite !processBlock_running by exact Hb.
        cbn [simdOff bParams bBuffer bStart bEnd simd wet fst snd].
        rewrite Hon, Hoff.
        assert (HN : (0 <= AudioBuffer.getNumSamples
                             (DdxReverbAudioProcessor.clearUnused q (bBuffer b)))%Z).
        { destruct (clearUnused_channels q (bBuffer b)) as [En _].
          unfold AudioBuffer.getNumSamples in *. now rewrite En. }
        destruct (wetPath_simd_off w Hw G q (bParams b)
                    (DdxReverbAudioProcessor.clearUnused q (bBuffer b)) Hq HN)
          as (_ & Sc & Sa).
        repeat split; assumption. }
  cbv zeta in Hcmp. destruct Hcmp as (D1 & D2 & D3 & D4).
  split; [congruence|]. split; [congruence|]. split; [congruence|].
  apply (simdSafe_forgetSimd w _ _ (eq_sym A3)). exact D4.
Qed.

(** X9.  At a sample rate with [w * 48000 <= 37 * sr] (from 10379 Hz on
    for a register of eight lanes) the SIMD switch changes nothing a
    listener or a later block can observe: over any run of blocks after
    [prepareToPlay], the output blocks, the statics and the processor but
    for its [useSIMD] member are the same with the switch as the host set
    it block by block and with the switch off in every block. *)
Theorem X9_simd_switch_over_blocks (w : Z) (G : Statics)
    (p0 : DdxReverbAudioProcessor.t) (sr : R) (n : Z) (bs : list Block) :
  wellFormed p0 -> (1 <= w <= 8)%Z -> IZR w * 48000 <= 37 * sr ->
  Forall (fun b => (0 <= AudioBuffer.getNumSamples (bBuffer b))%Z) bs ->
  let st := (G, DdxReverbAudioProcessor.prepareToPlay p0 sr n) in
  playBlocks w st bs = playBlocks w st (map simdOff bs) /\
  fst (runBlocks w st bs) = fst (runBlocks w st (map simdOff bs)) /\
  forgetSimd (snd (runBlocks w st bs)) = forgetSimd (snd (runBlocks w st (map simdOff bs))).
Proof.
  intros Hwf Hw Hsr Hbs st.
  pose proof (prepareToPlay_simdSafe w p0 sr n Hwf ltac:(lia) Hsr) as H0.
  assert (Hgen : forall (G1 : Statics) (p1 p2 : DdxReverbAudioProcessor.t),
            forgetSimd p1 = forgetSimd p2 -> simdSafe w p1 ->
            playBlocks w (G1, p1) bs = playBlocks w (G1, p2) (map simdOff bs) /\
            fst (runBlocks w (G1, p1) bs) = fst (runBlocks w (G1, p2) (map simdOff bs)) /\
            forgetSimd (snd (runBlocks w (G1, p1) bs))
            = forgetSimd (snd (runBlocks w (G1, p2) (map simdOff bs)))).
  { induction Hbs as [|b bs Hb _ IH]; intros G1 p1 p2 E Hs.
    - cbn. repeat split. exact E.
    - destruct (block_simdOff w G1 p1 p2 b Hw E Hs Hb) as (B1 & B2 & B3 & B4).
      cbv zeta in B1, B2, B3, B4.
      cbn [playBlocks map runBlocks fold_left fst snd]. unfold stepBlock at 2 4 6 8.
      cbn [fst snd].
      set (r := DdxReverbAudioProcessor.processBlock w G1 p1 (bParams b) (bBuffer b)
                  (bStart b) (bEnd b)) in *.
      set (r' := DdxReverbAudioProcessor.processBlock w G1 p2 (bParams (simdOff b))
                   (bBuffer (simdOff b)) (bStart (simdOff b)) (bEnd (simdOff b))) in *.
      destruct r as [[G2 q1] o1], r' as [[G2' q2] o2]. cbn [fst snd] in *. subst G2' o2.
      destruct (IH G2 q1 q2 B3 B4) as (I1 & I2 & I3).
      unfold runBlocks in I2, I3.
      split; [now rewrite I1|]. split; assumption. }
  apply Hgen; [reflexivity|exact H0].
Qed.

Lemma X9_simd_switch_over_blocks_witness :
  let st := (initialStatics,
             DdxReverbAudioProcessor.prepareToPlay
               (DdxReverbAudioProcessor.construct 2 2) 44100 8) in
  let b := mkBlock (mkParams 5 50 50 10 0 0 0.5 0 1)
             (AudioBuffer.mk [[1; 0; 0; 0; 0; 0; 0; 0]; [0; 1; 0; 0; 0; 0; 0; 0]] 8) 0 1 in
  playBlocks 8 st [b; b] = playBlocks 8 st (map simdOff [b; b]).
Proof.
  intros st b.
  refine (proj1 (X9_simd_switch_over_blocks 8 initialStatics
                   (DdxReverbAudioProcessor.construct 2 2) 44100 8 [b; b] _ _ _ _)).
  - apply construct_wellFormed.
  - lia.
  - lra.
  - repeat constructor; cbn; lia.
Defined.

(** ** Blocks shorter than a register *)

Section ShortBlock.

Variables (w n : Z).
Hypothesis Hn : (0 <= n < w)%Z.

Lemma runComb_short (f : SharcCombFilter.t) (inp : InputRef) (out : list R) :
  DdxReverbAudioProcessor.runComb w true f inp out n
  = DdxReverbAudioProcessor.runComb w false f inp out n.
Proof.
  unfold DdxReverbAudioProcessor.runComb, SharcCombFilter.processBlockSIMD,
    SharcCombFilter.processBlockScalar.
  rewrite Z.div_small by exact Hn. reflexivity.
Qed.

Lemma runAllpass_short (f : SharcAllpassFilter.t) (inp : InputRef) (out : list R) :
  DdxReverbAudioProcessor.runAllpass w true f inp out n
  = DdxReverbAudioProcessor.runAllpass w false f inp out n.
Proof.
  unfold DdxReverbAudioProcessor.runAllpass, SharcAllpassFilter.processBlockSIMD,
    SharcAllpassFilter.processBlockScalar.
  rewrite Z.div_small by exact Hn. reflexivity.
Qed.

Lemma combStage_short (cs : list SharcCombFilter.t) (m : list R) :
  DdxReverbAudioProcessor.combStage w true n cs m
  = DdxReverbAudioProcessor.combStage w false n cs m.
Proof.
  unfold DdxReverbAudioProcessor.combStage, for_range.
  rewrite (for_loop_ext _ 0 1 (DdxReverbAudioProcessor.combBody w true n)
             (DdxReverbAudioProcessor.combBody w false n)); [reflexivity|].
  intros c [[cs' cb] m']. unfold DdxReverbAudioProcessor.combBody.
  now rewrite runComb_short.
Qed.

Lemma allpassStage_short (g : R) (aps : list SharcAllpassFilter.t) (m : list R) :
  DdxReverbAudioProcessor.allpassStage w true n g aps m
  = DdxReverbAudioProcessor.allpassStage w false n g aps m.
Proof.
  unfold DdxReverbAudioProcessor.allpassStage.
  generalize (@nil SharcAllpassFilter.t, m).
  induction aps as [|a aps IH]; intros [done m']; cbn [fold_left]; [reflexivity|].
  rewrite runAllpass_short. apply IH.
Qed.

End ShortBlock.

(** X10.  A block shorter than the SIMD register is processed by the
    scalar tail alone: for [numSamples < simdWidth], [processBlock] gives
    the same output block, the same statics and the same processor but for
    [useSIMD] with the switch on and with the switch off, on every
    processor state - also one on which the SIMD loops differ from the
    scalar loops on longer blocks. *)
Theorem X10_short_block_ignores_simd (w : Z) (G : Statics)
    (p : DdxReverbAudioProcessor.t) (prm : Params) (buf : AudioBuffer.t) (t0 t1 : R) :
  (0 <= AudioBuffer.getNumSamples buf < w)%Z ->
  let prm' := mkParams (decay prm) (predelay prm) (damping prm) (diffusion prm)
                (hicut prm) (bassmult prm) (wet prm) (bypass prm) 0 in
  let r := DdxReverbAudioProcessor.processBlock w G p prm buf t0 t1 in
  let r' := DdxReverbAudioProcessor.processBlock w G p prm' buf t0 t1 in
  fst (fst r) = fst (fst r') /\ snd r = snd r' /\
  forgetSimd (snd (fst r)) = forgetSimd (snd (fst r')).
Proof.
  intros Hn prm' r r'. unfold r, r'.
  destruct (gtb (bypass prm) 0.5) eqn:Hb.
  - rewrite !processBlock_bypassed by exact Hb. repeat split.
  - rewrite !processBlock_running by exact Hb.
    assert (Hoff : gtb 0 0.5 = false) by (apply gtb_false; lra).
    cbn [prm' simd wet fst snd]. rewrite Hoff.
    assert (HN : AudioBuffer.getNumSamples (DdxReverbAudioProcessor.clearUnused p buf)
                 = AudioBuffer.getNumSamples buf).
    { destruct (clearUnused_channels p buf) as [E _]. exact E. }
    assert (E : DdxReverbAudioProcessor.wetPath w G p prm (gtb (simd prm) 0.5)
                  (DdxReverbAudioProcessor.clearUnused p buf)
                = DdxReverbAudioProcessor.wetPath w G p prm' false
                    (DdxReverbAudioProcessor.clearUnused p buf)).
    { destruct (gtb (simd prm) 0.5); [|reflexivity].
      rewrite !wetPath_stages. rewrite HN.
      rewrite combStage_short by exact Hn.
      rewrite allpassStage_short by exact Hn. reflexivity. }
    rewrite E. repeat split.
Qed.

Lemma X10_short_block_ignores_simd_witness :
  let p := DdxReverbAudioProcessor.prepareToPlay
             (DdxReverbAudioProcessor.construct 2 2) 8000 4 in
  let buf := AudioBuffer.mk [[1; 0; 0]; [0; 1; 0]] 3 in
  snd (DdxReverbAudioProcessor.processBlock 4 initialStatics p
         (mkParams 5 50 50 10 0 0 0.5 0 1) buf 0 1)
  = snd (DdxReverbAudioProcessor.processBlock 4 initialStatics p
           (mkParams 5 50 50 10 0 0 0.5 0 0) buf 0 1).
Proof.
  intros p buf.
  refine (proj1 (proj2 (X10_short_block_ignores_simd 4 initialStatics p
                          (mkParams 5 50 50 10 0 0 0.5 0 1) buf 0 1 _))).
  cbn. lia.
Defined.

(** ** Every knob position gives stable filters *)

Lemma withinLayout_ranges (prm : Params) :
  withinLayout prm ->
  2 <= decay prm <= 20 /\ 0 <= predelay prm <= 500 /\ 0 <= damping prm <= 100 /\
  0 <= diffusion prm <= 20 /\ 0 <= hicut prm <= 30 /\ -10 <= bassmult prm <= 10 /\
  0 <= wet prm <= 1.
Proof.
  unfold withinLayout, createParameterLayout. intros H.
  repeat match goal with
         | H : Forall _ (_ :: _) |- _ => inversion H; clear H; subst
         end.
  cbn in *. repeat split; lra.
Qed.

Lemma combGain_stored_range (decayTime bassMult sr : R) :
  -10 <= bassMult <= 10 ->
  0.05 <= juce.jlimit 0 0.99 (DdxReverbAudioProcessor.combGainOf decayTime bassMult sr)
       <= 0.99.
Proof.
  intros Hb. unfold DdxReverbAudioProcessor.combGainOf.
  match goal with |- context [juce.jlimit 0.1 0.99 ?v] =>
    pose proof (jlimit_range 0.1 0.99 v ltac:(lra)) as Hj;
    set (c := juce.jlimit 0.1 0.99 v) in *
  end.
  unfold juce.jlimit.
  destruct (Rlt_dec (c * (1 + bassMult * 0.05)) 0); [nra|].
  destruct (Rlt_dec 0.99 (c * (1 + bassMult * 0.05))); [lra|]. split; nra.
Qed.

Lemma dampingFreqOf_range (pct : R) :
  0 <= pct <= 100 -> 2000 <= DdxReverbAudioProcessor.dampingFreqOf pct <= 20000.
Proof.
  intros H. unfold DdxReverbAudioProcessor.dampingFreqOf, juce.jmap. lra.
Qed.

Lemma dampingCoeff_strict (freq sr : R) :
  0 < freq -> 0 < sr -> 0 < exp (- juce.twoPi * freq / sr) < 1.
Proof.
  intros Hf Hs. split; [apply exp_pos|].
  rewrite <- exp_0. apply exp_increasing.
  unfold juce.twoPi, Rdiv. pose proof PI_RGT_0 as Hpi.
  assert (0 < / sr) by (apply Rinv_0_lt_compat; exact Hs).
  assert (0 < 2 * PI * freq) by nra.
  replace (- (2 * PI) * freq * / sr) with (- ((2 * PI * freq) * / sr)) by ring.
  assert (0 < 2 * PI * freq * / sr) by (apply Rmult_lt_0_compat; lra). lra.
Qed.

Lemma apGain_range (diff : R) :
  0 <= diff <= 20 ->
  0.3 <= juce.jlimit (-0.99) 0.99 (juce.jmap diff 0 20 0.3 0.7) <= 0.7.
Proof.
  intros H. assert (Hm : 0.3 <= juce.jmap diff 0 20 0.3 0.7 <= 0.7)
    by (unfold juce.jmap; lra).
  rewrite jlimit_inside by lra. exact Hm.
Qed.

(** X11.  Every knob position the layout of [createParameterLayout]
    allows gives stable filters: when the raw parameter values of a block
    lie in the ranges of the layout and the combs were prepared at a
    positive sample rate, after [processBlock] every comb has a feedback
    gain in [0.05, 0.99] and a damping coefficient strictly between 0 and
    1, and every allpass has a gain in [0.3, 0.7]. *)
Theorem X11_layout_gives_stable_filters (w : Z) (G : Statics)
    (p : DdxReverbAudioProcessor.t) (prm : Params) (buf : AudioBuffer.t) (t0 t1 : R) :
  withinLayout prm ->
  gtb (bypass prm) 0.5 = false ->
  Forall (fun c => 0 < SharcCombFilter.sRate c) (DdxReverbAudioProcessor.combs p) ->
  let p' := snd (fst (DdxReverbAudioProcessor.processBlock w G p prm buf t0 t1)) in
  Forall (fun c => 0.05 <= SharcCombFilter.feedbackGain c <= 0.99 /\
                   0 < SharcCombFilter.dampingCoeff c < 1)
    (DdxReverbAudioProcessor.combs p') /\
  Forall (fun a => 0.3 <= SharcAllpassFilter.apGain a <= 0.7)
    (DdxReverbAudioProcessor.allpasses p').
Proof.
  intros Hlay Hb Hsr p'.
  destruct (withinLayout_ranges prm Hlay) as (Hdec & Hpre & Hdam & Hdif & Hhc & Hbm & Hwet).
  unfold p'. rewrite processBlock_running by exact Hb.
  cbn [fst snd DdxReverbAudioProcessor.combs DdxReverbAudioProcessor.allpasses].
  rewrite wetPath_stages.
  cbn [DdxReverbAudioProcessor.wCombs DdxReverbAudioProcessor.wAllpasses].
  split.
  - match goal with
    | |- context [DdxReverbAudioProcessor.combStage ?w ?s ?n ?cs ?m] =>
        destruct (combStage_Forall w
                    (fun c => 0.05 <= SharcCombFilter.feedbackGain c <= 0.99 /\
                              0 < SharcCombFilter.dampingCoeff c < 1)
                    s n cs m) as [HF _]
    end; [| |exact HF].
    + intros f inp out Hf.
      destruct (runComb_keeps_settings w (gtb (simd prm) 0.5) f inp out
                  (AudioBuffer.getNumSamples (DdxReverbAudioProcessor.clearUnused p buf)))
        as (E1 & E2 & _).
      rewrite E1, E2. exact Hf.
    + unfold DdxReverbAudioProcessor.updateCombs. apply Forall_map.
      revert Hsr. apply Forall_impl. intros c Hc.
      cbn [SharcCombFilter.setGain SharcCombFilter.setDampingFreq
           SharcCombFilter.feedbackGain SharcCombFilter.dampingCoeff SharcCombFilter.sRate].
      split; [now apply combGain_stored_range|].
      apply dampingCoeff_strict; [|exact Hc].
      pose proof (dampingFreqOf_range (damping prm) Hdam). lra.
  - apply (allpassStage_Forall w (fun _ => True)).
    + intros f m' _.
      rewrite (proj1 (runAllpass_keeps_settings w _ _ SameAsOutput m' _)).
      cbn [SharcAllpassFilter.setGain SharcAllpassFilter.apGain].
      now apply apGain_range.
    + apply Forall_forall. auto.
Qed.

Lemma X11_layout_gives_stable_filters_witness :
  let p := DdxReverbAudioProcessor.prepareToPlay
             (DdxReverbAudioProcessor.construct 2 2) 48000 1 in
  let p' := snd (fst (DdxReverbAudioProcessor.processBlock 4 initialStatics p
                        defaultParams (AudioBuffer.mk [[1]; [1]] 1) 0 1)) in
  Forall (fun a => 0.3 <= SharcAllpassFilter.apGain a <= 0.7)
    (DdxReverbAudioProcessor.allpasses p').
Proof.
  intros p p'.
  refine (proj2 (X11_layout_gives_stable_filters 4 initialStatics p defaultParams
                   (AudioBuffer.mk [[1]; [1]] 1) 0 1 _ _ _)).
  - unfold withinLayout, createParameterLayout. repeat constructor; cbn; lra.
  - apply gtb_false. cbn. lra.
  - repeat constructor; cbn; lra.
Defined.

(** ** The pre-delay is a pure delay *)

Lemma mod_distinct (N a b : Z) :
  (0 < N)%Z -> (0 < a - b < N)%Z -> (a mod N <> b mod N)%Z.
Proof.
  intros HN Hab E.
  assert (H : ((a - b) mod N = 0)%Z).
  { rewrite Zminus_mod, E, Z.sub_diag. apply Z.mod_0_l. lia. }
  rewrite Z.mod_small in H by lia. lia.
Qed.

Lemma mod_succ (N x : Z) :
  (0 < N)%Z ->
  (if (x mod N + 1 >=? N)%Z then 0%Z else (x mod N + 1)%Z) = ((x + 1) mod N)%Z.
Proof.
  intros HN. pose proof (Z.mod_pos_bound x N HN) as Hb.
  rewrite <- (Zplus_mod_idemp_l x 1 N).
  destruct (x mod N + 1 >=? N)%Z eqn:E.
  - replace (x mod N + 1)%Z with N by lia. now rewrite Z.mod_same by lia.
  - now rewrite (Z.mod_small (x mod N + 1)) by lia.
Qed.

Lemma mod_back (N x D : Z) :
  (0 < D < N)%Z ->
  (if (x mod N - D <? 0)%Z then (x mod N - D + N)%Z else (x mod N - D)%Z)
  = ((x - D) mod N)%Z.
Proof.
  intros HD. pose proof (Z.mod_pos_bound x N ltac:(lia)) as Hb.
  rewrite <- (Zminus_mod_idemp_l x D N).
  destruct (x mod N - D <? 0)%Z eqn:E.
  - apply (Z.mod_unique _ _ (-1)); lia.
  - now rewrite (Z.mod_small (x mod N - D)) by lia.
Qed.

Lemma preDelay_step (D : Z) (buf : list R) (pos : Z) (m : list R) (k : Z)
    (st : list R * Z * list R) :
  (0 < D < lenZ buf)%Z -> (0 <= k < lenZ m)%Z ->
  preDelayInv D buf pos m k st ->
  preDelayInv D buf pos m (k + 1)
    (let '(b, writePos, mm) := st in
     let readPos := (writePos - D)%Z in
     let readPos := if (readPos <? 0)%Z then (readPos + lenZ b)%Z else readPos in
     let delayed := rd b readPos in
     let buf' := wr b writePos (rd mm k) in
     let m' := wr mm k delayed in
     let writePos' := if (writePos + 1 >=? lenZ b)%Z then 0%Z else (writePos + 1)%Z in
     (buf', writePos', m')).
Proof.
  intros HD Hk. destruct st as [[b wp] mm]. unfold preDelayInv.
  set (N := lenZ buf) in *.
  intros (I1 & I2 & I3 & I4 & I5 & I6 & I7).
  assert (HN : (0 < N)%Z) by lia.
  pose proof (Z.mod_pos_bound (pos + k) N HN) as Hwp. rewrite <- I2 in Hwp.
  cbv zeta. rewrite I1.
  assert (Eread : (if (wp - D <? 0)%Z then (wp - D + N)%Z else (wp - D)%Z)
                  = ((pos + k - D) mod N)%Z).
  { rewrite I2. apply mod_back. lia. }
  rewrite Eread.
  assert (Edel : rd b ((pos + k - D) mod N)
                 = if (k <? D)%Z then rd buf ((pos + k - D) mod N) else rd m (k - D)).
  { destruct (k <? D)%Z eqn:E.
    - apply I7. intros j Hj. apply mod_distinct; lia.
    - replace (pos + k - D)%Z with (pos + (k - D))%Z by lia. apply I6; lia. }
  rewrite lenZ_wr, lenZ_wr.
  split; [exact I1|]. split.
  { rewrite I2. replace (pos + (k + 1))%Z with (pos + k + 1)%Z by lia.
    apply mod_succ. exact HN. }
  split; [exact I3|]. split; [|split; [|split]].
  - intros i Hi. destruct (Z.eq_dec i k) as [->|Hne].
    + rewrite rd_wr_same by lia. exact Edel.
    + rewrite rd_wr_other by lia. apply I4. lia.
  - intros i Hi. rewrite rd_wr_other by lia. apply I5. lia.
  - intros j Hj HjN. destruct (Z.eq_dec j k) as [->|Hne].
    + rewrite <- I2. rewrite rd_wr_same by lia. apply I5. lia.
    + rewrite rd_wr_other.
      * apply I6; lia.
      * rewrite I2. apply mod_distinct; lia.
  - intros q Hq. rewrite rd_wr_other.
    + apply I7. intros j Hj. apply Hq. lia.
    + rewrite I2. apply Hq. lia.
Qed.

(** The pre-delay loop over a whole block keeps [preDelayInv]. *)
Lemma preDelay_block_inv (D n : Z) (buf : list R) (pos : Z) (m : list R) :
  (0 < D < lenZ buf)%Z -> (0 <= pos < lenZ buf)%Z -> (0 <= n <= lenZ m)%Z ->
  preDelayInv D buf pos m n (DdxReverbAudioProcessor.preDelay D n (buf, pos, m)).
Proof.
  intros HD Hpos Hn. unfold DdxReverbAudioProcessor.preDelay.
  destruct (D >? 0)%Z eqn:E; [|lia].
  unfold for_range. rewrite Z.sub_0_r.
  pose proof (for_loop_ind (preDelayInv D buf pos m) (Z.to_nat n) 0 1
                (fun i '(buf0, writePos, m0) =>
                   let readPos := (writePos - D)%Z in
                   let readPos := if (readPos <? 0)%Z then (readPos + lenZ buf0)%Z
                                  else readPos in
                   let delayed := rd buf0 readPos in
                   let buf' := wr buf0 writePos (rd m0 i) in
                   let m' := wr m0 i delayed in
                   let writePos' := if (writePos + 1 >=? lenZ buf0)%Z then 0%Z
                                    else (writePos + 1)%Z in
                   (buf', writePos', m'))
                (buf, pos, m)) as HI.
  rewrite Z2Nat.id, Z.mul_1_r, Z.add_0_l in HI by lia. apply HI.
  - unfold preDelayInv. rewrite Z.add_0_r, Z.mod_small by lia.
    repeat split; try reflexivity; intros; try lia.
  - intros q [[b wp] mm] Hq Hs.
    replace (0 + q * 1)%Z with q in * by lia.
    replace (0 + (q + 1) * 1)%Z with (q + 1)%Z by lia.
    apply (preDelay_step D buf pos m q (b, wp, mm)); [exact HD|lia|exact Hs].
Qed.

(** X12.  The pre-delay loop is a pure delay of [D] samples on a
    circular buffer of [N > D] samples: output sample [i >= D] of the block
    is input sample [i - D], and output sample [i < D] is the buffer entry
    at [(pos + i - D) mod N], written [D - i] samples before the block
    began.  The samples beyond the block are untouched, the write position
    moves on to [(pos + n) mod N], and the buffer keeps the last
    [min (n, N)] input samples, sample [j] at [(pos + j) mod N]. *)
Theorem X12_predelay_is_a_pure_delay (D n : Z) (buf : list R) (pos : Z) (m : list R) :
  (0 < D < lenZ buf)%Z -> (0 <= pos < lenZ buf)%Z -> (0 <= n <= lenZ m)%Z ->
  let N := lenZ buf in
  let r := DdxReverbAudioProcessor.preDelay D n (buf, pos, m) in
  (forall i, (0 <= i < n)%Z ->
     rd (snd r) i = if (i <? D)%Z then rd buf ((pos + i - D) mod N) else rd m (i - D)) /\
  (forall i, (n <= i)%Z -> rd (snd r) i = rd m i) /\
  lenZ (snd r) = lenZ m /\
  snd (fst r) = ((pos + n) mod N)%Z /\
  lenZ (fst (fst r)) = N /\
  (forall j, (0 <= j < n)%Z -> (n - N <= j)%Z ->
     rd (fst (fst r)) ((pos + j) mod N) = rd m j).
Proof.
  intros HD Hpos Hn N r.
  pose proof (preDelay_block_inv D n buf pos m HD Hpos Hn) as H. fold r in H.
  destruct r as [[b wp] mm]. unfold preDelayInv in H.
  destruct H as (I1 & I2 & I3 & I4 & I5 & I6 & I7). cbn [fst snd].
  repeat split; assumption.
Qed.

Lemma X12_predelay_is_a_pure_delay_witness :
  let r := DdxReverbAudioProcessor.preDelay 2 3 ([0; 0; 0; 0], 3%Z, [1; 2; 3]) in
  rd (snd r) 2 = rd [1; 2; 3] (2 - 2) /\ snd (fst r) = ((3 + 3) mod 4)%Z.
Proof.
  intros r.
  pose proof (X12_predelay_is_a_pure_delay 2 3 [0; 0; 0; 0] 3 [1; 2; 3]
                ltac:(cbn; lia) ltac:(cbn; lia) ltac:(cbn; lia)) as H.
  cbv zeta in H. destruct H as (H1 & _ & _ & H4 & _).
  split; [exact (H1 2%Z ltac:(lia))|exact H4].
Defined.

(** ** The hi-cut filter *)

Lemma ln_10_pos : 0 < ln 10.
Proof. rewrite <- ln_1. apply ln_increasing; lra. Qed.

Lemma cutoffGain_range (h : R) : 0 < h -> 0 <= juce.decibelsToGain (- h) < 1.
Proof.
  intros Hh. unfold juce.decibelsToGain, juce.pow.
  destruct (Rlt_dec (-100) (- h)); [|lra].
  unfold Rpower. split; [left; apply exp_pos|].
  rewrite <- exp_0. apply exp_increasing.
  pose proof ln_10_pos. nra.
Qed.

(** The hi-cut loop is a convex combination of its memory and its input. *)
Lemma hiCut_bounded (h : R) (n : Z) (G : Statics) (m : list R) (M : R) :
  0 <= M -> (0 <= n)%Z ->
  Rabs (prevSample G) <= M ->
  (forall i, (0 <= i < n)%Z -> Rabs (rd m i) <= M) ->
  let r := DdxReverbAudioProcessor.hiCut h n G m in
  Rabs (prevSample (fst r)) <= M /\
  (forall i, (0 <= i < n)%Z -> Rabs (rd (snd r) i) <= M) /\
  (forall i, (n <= i)%Z -> rd (snd r) i = rd m i).
Proof.
  intros HM Hn HG Hm r. unfold r, DdxReverbAudioProcessor.hiCut.
  destruct (gtb h 0.01) eqn:Hgt.
  - assert (Hh : 0.01 < h).
    { unfold gtb in Hgt. destruct (Rlt_dec 0.01 h); [assumption|discriminate]. }
    pose proof (cutoffGain_range h ltac:(lra)) as Hc.
    set (c := juce.decibelsToGain (- h)) in *.
    set (P := fun (i : Z) (st : Statics * list R) =>
                Rabs (prevSample (fst st)) <= M /\
                (forall k, (0 <= k < i)%Z -> Rabs (rd (snd st) k) <= M) /\
                (forall k, (i <= k)%Z -> rd (snd st) k = rd m k)).
    assert (HP : P n (for_range 0 n
                        (fun i '(G0, m0) =>
                           let ps := prevSample G0 + c * (rd m0 i - prevSample G0) in
                           (mkStatics ps, wr m0 i ps)) (G, m))).
    { unfold for_range. rewrite Z.sub_0_r.
      pose proof (for_loop_ind P (Z.to_nat n) 0 1
                    (fun i '(G0, m0) =>
                       let ps := prevSample G0 + c * (rd m0 i - prevSample G0) in
                       (mkStatics ps, wr m0 i ps)) (G, m)) as HI.
      rewrite Z2Nat.id, Z.mul_1_r, Z.add_0_l in HI by lia. apply HI.
      - unfold P. cbn [fst snd]. split; [exact HG|]. split; [intros; lia|reflexivity].
      - intros q [G0 m0] Hq (P1 & P2 & P3).
        replace (0 + q * 1)%Z with q in * by lia.
        replace (0 + (q + 1) * 1)%Z with (q + 1)%Z by lia.
        cbn [fst snd] in *. unfold P. cbn [fst snd prevSample].
        assert (Hx : Rabs (rd m0 q) <= M) by (rewrite P3 by lia; apply Hm; lia).
        assert (Hps : Rabs (prevSample G0 + c * (rd m0 q - prevSample G0)) <= M).
        { apply Rabs_bound in P1. apply Rabs_bound in Hx. apply Rabs_bound.
          split; nra. }
        split; [exact Hps|]. split.
        + intros k Hk. rewrite rd_wr_cases.
          destruct ((q =? k) && (0 <=? k) && (k <? lenZ m0))%Z%bool eqn:E; [exact Hps|].
          destruct (Z.eq_dec k q) as [->|Hne]; [|apply P2; lia].
          rewrite Z.eqb_refl in E. cbn [andb] in E.
          destruct (0 <=? q)%Z eqn:E1; [|lia]. cbn [andb] in E.
          rewrite rd_outside by lia. rewrite Rabs_R0. exact HM.
        + intros k Hk. rewrite rd_wr_other by lia. apply P3. lia. }
    destruct HP as (P1 & P2 & P3).
    split; [exact P1|]. split; [exact P2|exact P3].
  - cbn [fst snd]. split; [exact HG|]. split; [exact Hm|reflexivity].
Qed.

(** X13.  The hi-cut loop is a convex combination of its memory and its
    input: with the memory and the samples of the block within [M], every
    output sample and the memory the loop leaves are within [M], because
    the coefficient [decibelsToGain (-hiCutDb)] lies in [0, 1) for every
    [hiCutDb > 0.01].  Samples beyond the block are untouched, and with
    [hiCutDb <= 0.01] the loop is skipped: the block and the memory stay
    as they are. *)
Theorem X13_hicut_stays_bounded (h : R) (n : Z) (G : Statics) (m : list R) (M : R) :
  0 <= M -> (0 <= n)%Z ->
  Rabs (prevSample G) <= M ->
  (forall i, (0 <= i < n)%Z -> Rabs (rd m i) <= M) ->
  let r := DdxReverbAudioProcessor.hiCut h n G m in
  Rabs (prevSample (fst r)) <= M /\
  (forall i, (0 <= i < n)%Z -> Rabs (rd (snd r) i) <= M) /\
  (forall i, (n <= i)%Z -> rd (snd r) i = rd m i) /\
  (h <= 0.01 -> r = (G, m)) /\
  (0.01 < h -> 0 <= juce.decibelsToGain (- h) < 1).
Proof.
  intros HM Hn HG Hm r.
  destruct (hiCut_bounded h n G m M HM Hn HG Hm) as (B1 & B2 & B3). fold r in B1, B2, B3.
  split; [exact B1|]. split; [exact B2|]. split; [exact B3|]. split.
  - intros Hle. unfold r, DdxReverbAudioProcessor.hiCut.
    now rewrite gtb_false by exact Hle.
  - intros Hgt. apply cutoffGain_range. lra.
Qed.

Lemma X13_hicut_stays_bounded_witness :
  let r := DdxReverbAudioProcessor.hiCut 20 2 (mkStatics 0.5) [1; -1] in
  Rabs (prevSample (fst r)) <= 1.
Proof.
  intros r.
  refine (proj1 (X13_hicut_stays_bounded 20 2 (mkStatics 0.5) [1; -1] 1 _ _ _ _));
    try lra; try lia.
  - cbn. apply Rabs_bound. lra.
  - intros i Hi. assert (Hc : i = 0%Z \/ i = 1%Z) by lia.
    destruct Hc as [-> | ->]; eval_arrays; apply Rabs_bound; lra.
Defined.

(** ** The two output channels summed *)

(** X14.  Summing the two output channels cancels the reverb.  On the
    stereo output layout a processed block has
    [out_L[i] + out_R[i] = (1 - wetMix) * (in_L[i] + in_R[i])] for a stereo
    input, whatever the wet signal is.  With a mono input the right channel
    carries no dry signal, [out_R[i] = - wet[i] * wetMix], and the sum is
    [(1 - wetMix) * in_L[i]]. *)
Theorem X14_mono_sum_cancels_wet (simdWidth : Z) (G : Statics)
    (p : DdxReverbAudioProcessor.t) (prm : Params) (buf : AudioBuffer.t) (t0 t1 : R) :
  gtb (bypass prm) 0.5 = false ->
  fits p buf ->
  DdxReverbAudioProcessor.totalNumOutputChannels p = 2%Z ->
  let wetSig :=
    DdxReverbAudioProcessor.wMono
      (DdxReverbAudioProcessor.wetPath simdWidth G p prm (gtb (simd prm) 0.5)
         (DdxReverbAudioProcessor.clearUnused p buf)) in
  let out := snd (DdxReverbAudioProcessor.processBlock simdWidth G p prm buf t0 t1) in
  let n := AudioBuffer.getNumSamples buf in
  (DdxReverbAudioProcessor.totalNumInputChannels p = 2%Z ->
   forall i, (0 <= i < n)%Z ->
     rd (AudioBuffer.chan out 0) i + rd (AudioBuffer.chan out 1) i
     = (1 - wet prm) * (rd (AudioBuffer.chan buf 0) i + rd (AudioBuffer.chan buf 1) i)) /\
  (DdxReverbAudioProcessor.totalNumInputChannels p = 1%Z ->
   forall i, (0 <= i < n)%Z ->
     rd (AudioBuffer.chan out 1) i = - (rd wetSig i * wet prm) /\
     rd (AudioBuffer.chan out 0) i + rd (AudioBuffer.chan out 1) i
     = (1 - wet prm) * rd (AudioBuffer.chan buf 0) i).
Proof.
  intros Hb Hfit Hout wetSig out n.
  set (dry := DdxReverbAudioProcessor.clearUnused p buf) in *.
  pose proof (clearUnused_fits p buf Hfit) as Hfd. fold dry in Hfd.
  destruct (clearUnused_spec p buf Hfit) as (HN & HC & Hlow & Hhigh).
  fold dry in HN, HC, Hlow, Hhigh.
  assert (Eout : out = DdxReverbAudioProcessor.mixStage p dry wetSig (wet prm) dry).
  { unfold out. rewrite processBlock_running by exact Hb. reflexivity. }
  assert (Hs : forall i, (0 <= i < n)%Z ->
     rd (AudioBuffer.chan out 0) i
     = rd (AudioBuffer.chan dry 0) i * (1 - wet prm) + rd wetSig i * wet prm /\
     rd (AudioBuffer.chan out 1) i
     = rd (AudioBuffer.chan dry 1) i * (1 - wet prm) - rd wetSig i * wet prm).
  { intros i Hi. rewrite Eout.
    destruct (mixStage_sample p dry wetSig (wet prm) 0 Hfd ltac:(lia)) as [_ H0].
    destruct (mixStage_sample p dry wetSig (wet prm) 1 Hfd ltac:(lia)) as [_ H1].
    rewrite (H0 i), (H1 i) by (rewrite HN; exact Hi).
    change (0 =? 1)%Z with false. change (1 =? 1)%Z with true. cbv iota.
    split; lra. }
  split.
  - intros Hin i Hi. destruct (Hs i Hi) as [E0 E1].
    rewrite E0, E1, !Hlow by lia. lra.
  - intros Hin i Hi. destruct (Hs i Hi) as [E0 E1].
    destruct (Hhigh 1%Z ltac:(lia)) as [_ Hz].
    rewrite E0, E1, (Hlow 0%Z), (Hz i) by lia. split; lra.
Qed.

Lemma X14_mono_sum_cancels_wet_witness :
  let p := DdxReverbAudioProcessor.prepareToPlay
             (DdxReverbAudioProcessor.construct 2 2) 48000 2 in
  let buf := AudioBuffer.mk [[1; 0]; [0.5; 0]] 2 in
  let out := snd (DdxReverbAudioProcessor.processBlock 4 initialStatics p
                    defaultParams buf 0 1) in
  rd (AudioBuffer.chan out 0) 1 + rd (AudioBuffer.chan out 1) 1
  = (1 - 0.5) * (rd (AudioBuffer.chan buf 0) 1 + rd (AudioBuffer.chan buf 1) 1).
Proof.
  intros p buf.
  assert (Hb : gtb (bypass defaultParams) 0.5 = false) by (apply gtb_false; simpl; lra).
  assert (Hfit : fits p buf).
  { unfold fits, AudioBuffer.getNumChannels, lenZ. cbn.
    repeat split; try lia. repeat constructor. }
  apply (proj1 (X14_mono_sum_cancels_wet 4 initialStatics p defaultParams buf 0 1
                  Hb Hfit eq_refl) eq_refl 1%Z).
  cbn. lia.
Defined.

(** ** Silence in, silence out *)

Lemma silentTo_wr (n i : Z) (m : list R) :
  silentTo n m -> silentTo n (wr m i 0).
Proof.
  intros H k Hk. rewrite rd_wr_cases. destruct (_ && _ && _)%bool; [reflexivity|].
  now apply H.
Qed.

Lemma silentTo_wr_next (i : Z) (m : list R) :
  (0 <= i)%Z -> silentTo i m -> silentTo (i + 1) (wr m i 0).
Proof.
  intros Hi H k Hk. rewrite rd_wr_cases.
  destruct ((i =? k) && (0 <=? k) && (k <? lenZ m))%Z%bool eqn:E; [reflexivity|].
  destruct (Z.eq_dec k i) as [->|Hne]; [|apply H; lia].
  rewrite Z.eqb_refl in E. cbn [andb] in E.
  destruct (0 <=? i)%Z eqn:E1; [|lia]. cbn [andb] in E.
  apply rd_outside. lia.
Qed.

Lemma silentTo_writes (off : Z) (w : nat) (m : list R) :
  (0 <= off)%Z -> silentTo off m ->
  silentTo (off + Z.of_nat w) (writes (fun j => off + j)%Z (fun _ => 0) w m).
Proof.
  intros Hoff H k Hk. destruct (Z_lt_ge_dec k off) as [Hlt|Hge].
  - rewrite rd_writes_other by (intros j Hj; lia). apply H. lia.
  - replace k with (off + (k - off))%Z by lia. rewrite rd_writes_id_gen by lia.
    now destruct (_ <? _)%Z.
Qed.

(** A loop of the form [a[i] = f (i, a[i])] over the first [n] samples
    keeps them zero when [f] gives zero on zero. *)
Lemma silent_loop (f : Z -> R -> R) (n : Z) (a : list R) :
  (forall i, (0 <= i < n)%Z -> f i 0 = 0) ->
  silentTo n a -> silentTo n (for_range 0 n (fun i x => wr x i (f i (rd x i))) a).
Proof.
  intros Hf Ha. unfold for_range.
  apply (for_loop_inv_range (silentTo n)); [|exact Ha].
  intros j x Hj Hx. rewrite (Hx j) by lia. rewrite Hf by lia. now apply silentTo_wr.
Qed.

(** A loop that overwrites the first [n] samples with zeros. *)
Lemma silent_fill (f : Z -> R -> R) (n : Z) (a : list R) :
  (forall i x, (0 <= i < n)%Z -> f i x = 0) ->
  silentTo n (for_range 0 n (fun i x => wr x i (f i (rd x i))) a).
Proof.
  intros Hf. unfold for_range. rewrite Z.sub_0_r.
  destruct (Z_le_gt_dec 0 n) as [Hn|Hn].
  - pose proof (for_loop_ind (fun i x => silentTo i x) (Z.to_nat n) 0 1
                  (fun i x => wr x i (f i (rd x i))) a) as HI.
    rewrite Z2Nat.id, Z.mul_1_r, Z.add_0_l in HI by lia. apply HI.
    + intros k Hk. lia.
    + intros q x Hq Hx. replace (0 + q * 1)%Z with q in * by lia.
      replace (0 + (q + 1) * 1)%Z with (q + 1)%Z by lia.
      rewrite Hf by lia. apply silentTo_wr_next; [lia|exact Hx].
  - intros k Hk. lia.
Qed.

Section QuietFilters.

Variables (len : Z) (g d : R) (inp : list R) (n : Z).
Hypothesis Hin : silentTo n inp.

Lemma comb_scalar_step_quiet (i : Z) (s : SharcCombFilter.locals) :
  (0 <= i < n)%Z -> combQuietAt i s ->
  combQuietAt (i + 1) (SharcCombFilter.scalarBody (Distinct inp) len g d i s).
Proof.
  intros Hi (HB & HF & HO). unfold combQuietAt, SharcCombFilter.scalarBody.
  cbn [SharcCombFilter.buffer SharcCombFilter.flt SharcCombFilter.output rdIn].
  rewrite (rd_quiet _ _ HB), HF, (Hin i Hi).
  replace (0 + d * (0 - 0)) with 0 by ring. replace (0 + g * 0) with 0 by ring.
  split; [|split].
  - apply Forall_wr; [exact HB|]. reflexivity.
  - reflexivity.
  - apply silentTo_wr_next; [lia|exact HO].
Qed.

Lemma comb_scalar_loop_quiet (k : nat) (lo : Z) (s : SharcCombFilter.locals) :
  (0 <= lo)%Z -> (lo + Z.of_nat k <= n)%Z -> combQuietAt lo s ->
  combQuietAt (lo + Z.of_nat k)
    (for_loop k lo 1 (SharcCombFilter.scalarBody (Distinct inp) len g d) s).
Proof.
  intros Hlo Hk Hs.
  pose proof (for_loop_ind combQuietAt k lo 1
                (SharcCombFilter.scalarBody (Distinct inp) len g d) s) as H.
  rewrite Z.mul_1_r in H. apply H; [exact Hs|].
  intros q s' Hq Hs'. replace (lo + q * 1)%Z with (lo + q)%Z in * by lia.
  replace (lo + (q + 1) * 1)%Z with (lo + q + 1)%Z by lia.
  apply comb_scalar_step_quiet; [lia|exact Hs'].
Qed.

Lemma comb_simd_step_quiet (w i : Z) (s : SharcCombFilter.locals) :
  (0 <= w <= 8)%Z -> (0 <= i)%Z -> (i + w <= n)%Z -> combQuietAt i s ->
  combQuietAt (i + w) (SharcCombFilter.simdBody w (Distinct inp) len g d i s).
Proof.
  intros Hw Hi Hiw (HB & HF & HO). rewrite comb_simd_lanes by exact Hw.
  unfold combQuietAt.
  cbn [SharcCombFilter.buffer SharcCombFilter.flt SharcCombFilter.output].
  rewrite HF.
  assert (Hy : forall j, (0 <= j < Z.of_nat (Z.to_nat w))%Z ->
            combLane (SharcCombFilter.buffer s) (SharcCombFilter.idx s) len d g 0 inp i j
            = 0).
  { intros j Hj. unfold combLane. rewrite laneFlt_quiet by exact HB.
    rewrite Hin by lia. ring. }
  split; [|split].
  - apply Forall_writes; assumption.
  - now apply laneFlt_quiet.
  - intros k Hk. destruct (Z_lt_ge_dec k i) as [Hlt|Hge].
    + rewrite rd_writes_other by (intros j Hj; lia). apply HO. lia.
    + replace k with (i + (k - i))%Z by lia. rewrite rd_writes_id_gen by lia.
      destruct (_ <? _)%Z; [apply Hy; lia|reflexivity].
Qed.

Lemma allpass_scalar_step_quiet (i : Z) (s : SharcAllpassFilter.locals) :
  (0 <= i < n)%Z -> allpassQuietAt i s ->
  allpassQuietAt (i + 1) (SharcAllpassFilter.scalarBody (Distinct inp) len g i s).
Proof.
  intros Hi (HB & HO). unfold allpassQuietAt, SharcAllpassFilter.scalarBody.
  cbn [SharcAllpassFilter.buffer SharcAllpassFilter.output rdIn].
  rewrite (rd_quiet _ _ HB), (Hin i Hi).
  replace (- g * 0 + 0) with 0 by ring. replace (0 + 0 * g) with 0 by ring.
  split.
  - apply Forall_wr; [exact HB|]. reflexivity.
  - apply silentTo_wr_next; [lia|exact HO].
Qed.

Lemma allpass_scalar_loop_quiet (k : nat) (lo : Z) (s : SharcAllpassFilter.locals) :
  (0 <= lo)%Z -> (lo + Z.of_nat k <= n)%Z -> allpassQuietAt lo s ->
  allpassQuietAt (lo + Z.of_nat k)
    (for_loop k lo 1 (SharcAllpassFilter.scalarBody (Distinct inp) len g) s).
Proof.
  intros Hlo Hk Hs.
  pose proof (for_loop_ind allpassQuietAt k lo 1
                (SharcAllpassFilter.scalarBody (Distinct inp) len g) s) as H.
  rewrite Z.mul_1_r in H. apply H; [exact Hs|].
  intros q s' Hq Hs'. replace (lo + q * 1)%Z with (lo + q)%Z in * by lia.
  replace (lo + (q + 1) * 1)%Z with (lo + q + 1)%Z by lia.
  apply allpass_scalar_step_quiet; [lia|exact Hs'].
Qed.

Lemma allpass_simd_step_quiet (w i : Z) (s : SharcAllpassFilter.locals) :
  (0 <= w <= 8)%Z -> (0 <= i)%Z -> (i + w <= n)%Z -> allpassQuietAt i s ->
  allpassQuietAt (i + w) (SharcAllpassFilter.simdBody w (Distinct inp) len g i s).
Proof.
  intros Hw Hi Hiw (HB & HO). rewrite allpass_simd_lanes by exact Hw.
  unfold allpassQuietAt. cbn [SharcAllpassFilter.buffer SharcAllpassFilter.output].
  split.
  - apply Forall_writes; [exact HB|]. intros j Hj.
    unfold allpassLaneStore, laneDelayed. rewrite (rd_quiet _ _ HB), Hin by lia. ring.
  - intros k Hk. destruct (Z_lt_ge_dec k i) as [Hlt|Hge].
    + rewrite rd_writes_other by (intros j Hj; lia). apply HO. lia.
    + replace k with (i + (k - i))%Z by lia. rewrite rd_writes_id_gen by lia.
      destruct (_ <? _)%Z; [|reflexivity].
      unfold allpassLaneOut, laneDelayed. rewrite (rd_quiet _ _ HB), Hin by lia. ring.
Qed.

End QuietFilters.

Lemma runComb_quiet (w : Z) (simdOn : bool) (f : SharcCombFilter.t) (inp out : list R)
    (n : Z) :
  (1 <= w <= 8)%Z -> (0 <= n)%Z ->
  SharcCombFilter.prepared f = true -> combQuiet f -> silentTo n inp ->
  let r := DdxReverbAudioProcessor.runComb w simdOn f (Distinct inp) out n in
  (SharcCombFilter.prepared (fst r) = true /\ combQuiet (fst r)) /\ silentTo n (snd r).
Proof.
  intros Hw Hn Hp (HQ & HF) Hin r.
  assert (H0 : combQuietAt 0 (SharcCombFilter.start f out)).
  { split; [exact HQ|]. split; [exact HF|]. intros k Hk. lia. }
  assert (Hq : (0 <= n / w)%Z) by (apply Z.div_pos; lia).
  pose proof (Z.div_mod n w ltac:(lia)) as Hdm.
  pose proof (Z.mod_pos_bound n w ltac:(lia)) as Hmod.
  assert (Hres : SharcCombFilter.prepared (fst r) = true /\
            combQuietAt n
              (SharcCombFilter.mkLocals (SharcCombFilter.delayLine (fst r))
                 (SharcCombFilter.writeIndex (fst r))
                 (SharcCombFilter.filterState (fst r)) (snd r))).
  { unfold r, DdxReverbAudioProcessor.runComb, SharcCombFilter.processBlockSIMD,
      SharcCombFilter.processBlockScalar.
    rewrite Hp. cbn [negb].
    destruct simdOn.
    - set (s1 := for_loop (Z.to_nat (n / w)) 0 w _ (SharcCombFilter.start f out)).
      assert (H1 : combQuietAt (n / w * w) s1).
      { pose proof (for_loop_ind combQuietAt (Z.to_nat (n / w)) 0 w
                      (SharcCombFilter.simdBody w (Distinct inp)
                         (SharcCombFilter.delaySamples f) (SharcCombFilter.feedbackGain f)
                         (SharcCombFilter.dampingCoeff f))
                      (SharcCombFilter.start f out) H0) as H.
        rewrite Z2Nat.id, Z.add_0_l in H by lia. apply H.
        intros q s' Hq' Hs'. rewrite Z.add_0_l in *.
        replace ((q + 1) * w)%Z with (q * w + w)%Z by lia.
        apply (comb_simd_step_quiet _ _ _ inp n Hin); try assumption; try lia; nia. }
      unfold for_range.
      pose proof (comb_scalar_loop_quiet (SharcCombFilter.delaySamples f)
                    (SharcCombFilter.feedbackGain f) (SharcCombFilter.dampingCoeff f)
                    inp n Hin (Z.to_nat (n - n / w * w)) (n / w * w)%Z s1
                    ltac:(nia) ltac:(nia) H1) as H2.
      replace (n / w * w + Z.of_nat (Z.to_nat (n - n / w * w)))%Z with n in H2 by nia.
      destruct (for_loop _ _ 1 _ s1) as [b i fl o]. cbn. rewrite Hp. split; [reflexivity|exact H2].
    - unfold for_range.
      pose proof (comb_scalar_loop_quiet (SharcCombFilter.delaySamples f)
                    (SharcCombFilter.feedbackGain f) (SharcCombFilter.dampingCoeff f)
                    inp n Hin (Z.to_nat (n - 0)) 0%Z (SharcCombFilter.start f out)
                    ltac:(lia) ltac:(lia) H0) as H2.
      replace (0 + Z.of_nat (Z.to_nat (n - 0)))%Z with n in H2 by lia.
      destruct (for_loop _ _ 1 _ _) as [b i fl o]. cbn. rewrite Hp. split; [reflexivity|exact H2]. }
  destruct Hres as (R0 & R1 & R2 & R3). cbn in R1, R2, R3.
  split; [split; [exact R0|split; assumption]|exact R3].
Qed.

Lemma runAllpass_quiet (w : Z) (simdOn : bool) (f : SharcAllpassFilter.t) (m : list R)
    (n : Z) :
  (1 <= w <= 8)%Z -> (0 <= n)%Z ->
  SharcAllpassFilter.prepared f = true -> allpassQuiet f -> silentTo n m ->
  let r := DdxReverbAudioProcessor.runAllpass w simdOn f SameAsOutput m n in
  (SharcAllpassFilter.prepared (fst r) = true /\ allpassQuiet (fst r))
  /\ silentTo n (snd r).
Proof.
  intros Hw Hn Hp HQ Hin r.
  assert (H0 : allpassQuietAt 0 (SharcAllpassFilter.start f m)).
  { split; [exact HQ|]. intros k Hk. lia. }
  assert (Hq : (0 <= n / w)%Z) by (apply Z.div_pos; lia).
  pose proof (Z.div_mod n w ltac:(lia)) as Hdm.
  pose proof (Z.mod_pos_bound n w ltac:(lia)) as Hmod.
  assert (Hres : SharcAllpassFilter.prepared (fst r) = true /\
            allpassQuietAt n
              (SharcAllpassFilter.mkLocals (SharcAllpassFilter.delayLine (fst r))
                 (SharcAllpassFilter.writeIndex (fst r)) (snd r))).
  { unfold r, DdxReverbAudioProcessor.runAllpass.
    destruct simdOn.
    - rewrite allpass_simd_in_place by lia.
      unfold SharcAllpassFilter.processBlockSIMD. rewrite Hp. cbn [negb].
      set (s1 := for_loop (Z.to_nat (n / w)) 0 w _ (SharcAllpassFilter.start f m)).
      assert (H1 : allpassQuietAt (n / w * w) s1).
      { pose proof (for_loop_ind allpassQuietAt (Z.to_nat (n / w)) 0 w
                      (SharcAllpassFilter.simdBody w (Distinct m)
                         (SharcAllpassFilter.delaySamples f) (SharcAllpassFilter.apGain f))
                      (SharcAllpassFilter.start f m) H0) as H.
        rewrite Z2Nat.id, Z.add_0_l in H by lia. apply H.
        intros q s' Hq' Hs'. rewrite Z.add_0_l in *.
        replace ((q + 1) * w)%Z with (q * w + w)%Z by lia.
        apply (allpass_simd_step_quiet _ _ m n Hin); try assumption; try lia; nia. }
      unfold for_range.
      pose proof (allpass_scalar_loop_quiet (SharcAllpassFilter.delaySamples f)
                    (SharcAllpassFilter.apGain f)
                    m n Hin (Z.to_nat (n - n / w * w)) (n / w * w)%Z s1
                    ltac:(nia) ltac:(nia) H1) as H2.
      replace (n / w * w + Z.of_nat (Z.to_nat (n - n / w * w)))%Z with n in H2 by nia.
      destruct (for_loop _ _ 1 _ s1) as [b i o]. cbn. rewrite Hp. split; [reflexivity|exact H2].
    - rewrite allpass_scalar_in_place.
      unfold SharcAllpassFilter.processBlockScalar. rewrite Hp. cbn [negb].
      unfold for_range.
      pose proof (allpass_scalar_loop_quiet (SharcAllpassFilter.delaySamples f)
                    (SharcAllpassFilter.apGain f)
                    m n Hin (Z.to_nat (n - 0)) 0%Z (SharcAllpassFilter.start f m)
                    ltac:(lia) ltac:(lia) H0) as H2.
      replace (0 + Z.of_nat (Z.to_nat (n - 0)))%Z with n in H2 by lia.
      destruct (for_loop _ _ 1 _ _) as [b i o]. cbn. rewrite Hp. split; [reflexivity|exact H2]. }
  destruct Hres as (R0 & R1 & R2). cbn in R1, R2.
  split; [split; assumption|exact R2].
Qed.

Lemma downmix_quiet (p : DdxReverbAudioProcessor.t) (b : AudioBuffer.t) (temp : list R) :
  silentTo (AudioBuffer.getNumSamples b) (AudioBuffer.chan b 0) ->
  ((1 < DdxReverbAudioProcessor.totalNumInputChannels p)%Z ->
   silentTo (AudioBuffer.getNumSamples b) (AudioBuffer.chan b 1)) ->
  silentTo (AudioBuffer.getNumSamples b) (DdxReverbAudioProcessor.downmix p b temp).
Proof.
  intros H0 H1. unfold DdxReverbAudioProcessor.downmix.
  set (n := AudioBuffer.getNumSamples b) in *.
  assert (Hc : silentTo n (juce.FloatVectorOperations.copy temp (AudioBuffer.chan b 0) n)).
  { apply (silent_fill (fun i _ => rd (AudioBuffer.chan b 0) i)). intros i x Hi. now apply H0. }
  destruct (_ >? 1)%Z eqn:E; [|exact Hc].
  apply (silent_loop (fun _ x => x * 0.5)); [intros; ring|].
  apply (silent_loop (fun i x => x + rd (AudioBuffer.chan b 1) i)); [|exact Hc].
  intros i Hi. rewrite H1 by lia. ring.
Qed.

Lemma hiCut_quiet (h : R) (n : Z) (G : Statics) (m : list R) :
  (0 <= n)%Z -> prevSample G = 0 -> silentTo n m ->
  prevSample (fst (DdxReverbAudioProcessor.hiCut h n G m)) = 0 /\
  silentTo n (snd (DdxReverbAudioProcessor.hiCut h n G m)).
Proof.
  intros Hn HG Hm.
  destruct (hiCut_bounded h n G m 0 ltac:(lra) Hn) as (B1 & B2 & _).
  - rewrite HG, Rabs_R0. lra.
  - intros i Hi. rewrite Hm by exact Hi. rewrite Rabs_R0. lra.
  - split.
    + apply Rabs_bound in B1. lra.
    + intros i Hi. specialize (B2 i Hi). apply Rabs_bound in B2. lra.
Qed.

Lemma preDelay_quiet (pds n : Z) (buf : list R) (pos : Z) (m : list R) :
  Forall (fun v => v = 0) buf -> silentTo n m ->
  let r := DdxReverbAudioProcessor.preDelay pds n (buf, pos, m) in
  Forall (fun v => v = 0) (fst (fst r)) /\ silentTo n (snd r).
Proof.
  intros HB Hm. cbv zeta. unfold DdxReverbAudioProcessor.preDelay.
  destruct (pds >? 0)%Z; [|cbn [fst snd]; split; assumption].
  unfold for_range.
  apply (for_loop_inv_range (fun st : list R * Z * list R =>
           Forall (fun v => v = 0) (fst (fst st)) /\ silentTo n (snd st))).
  - intros j [[b wp] mm] Hj [H1 H2]. cbn [fst snd] in *.
    rewrite (H2 j) by lia. rewrite (rd_quiet _ _ H1).
    split; [apply Forall_wr; [exact H1|reflexivity]|now apply silentTo_wr].
  - cbn [fst snd]. split; assumption.
Qed.

Lemma combStage_quiet (w : Z) (simdOn : bool) (n : Z) (cs : list SharcCombFilter.t)
    (m : list R) :
  (1 <= w <= 8)%Z -> (0 <= n)%Z ->
  lenZ cs = DdxReverbAudioProcessor.numCombs ->
  Forall (fun c => SharcCombFilter.prepared c = true /\ combQuiet c) cs ->
  silentTo n m ->
  let r := DdxReverbAudioProcessor.combStage w simdOn n cs m in
  Forall (fun c => SharcCombFilter.prepared c = true /\ combQuiet c) (fst r)
  /\ silentTo n (snd r).
Proof.
  intros Hw Hn HL HF Hm. cbv zeta. unfold DdxReverbAudioProcessor.combStage, for_range.
  set (P := fun st : list SharcCombFilter.t * AudioBuffer.t * list R =>
              (Forall (fun c => SharcCombFilter.prepared c = true /\ combQuiet c)
                 (fst (fst st))
               /\ lenZ (fst (fst st)) = DdxReverbAudioProcessor.numCombs)
              /\ silentTo n (snd st)).
  assert (HP : P (for_loop (Z.to_nat (DdxReverbAudioProcessor.numCombs - 0)) 0 1
                    (DdxReverbAudioProcessor.combBody w simdOn n)
                    (cs, AudioBuffer.sized 1 n, m))).
  { apply for_loop_inv_range.
    - intros c [[cs' cb] m'] Hc [[H1 H2] H3]. unfold P in *. cbn [fst snd] in *.
      unfold DdxReverbAudioProcessor.combBody.
      assert (Hf : SharcCombFilter.prepared (DdxReverbAudioProcessor.combAt cs' c) = true
                   /\ combQuiet (DdxReverbAudioProcessor.combAt cs' c)).
      { apply (combAt_Forall _ cs' c H1). rewrite H2. lia. }
      destruct Hf as [Hp Hq].
      pose proof (runComb_quiet w simdOn (DdxReverbAudioProcessor.combAt cs' c) m'
                    (AudioBuffer.chan (AudioBuffer.clear cb) 0) n Hw Hn Hp Hq H3)
        as [Hf' Ho].
      destruct (DdxReverbAudioProcessor.runComb w simdOn _ _ _ n) as [f' o'].
      cbn [fst snd] in *. split; [split|].
      + apply Forall_wr; [exact H1|]. intros _. exact Hf'.
      + now rewrite lenZ_wr.
      + destruct (c =? 0)%Z.
        * apply (silent_fill (fun i _ => rd o' i)). intros i x Hi. now apply Ho.
        * apply (silent_loop (fun i x => x + rd o' i)); [|exact H3].
          intros i Hi. rewrite Ho by exact Hi. ring.
    - unfold P. cbn [fst snd]. repeat split; assumption. }
  destruct (for_loop _ _ _ _ _) as [[cs' cb] m']. unfold P in HP. cbn [fst snd] in *.
  destruct HP as [[H1 _] H3]. split; [exact H1|].
  apply (silent_loop (fun _ x => x * 0.25)); [intros; ring|exact H3].
Qed.

Lemma allpassStage_quiet (w : Z) (simdOn : bool) (n : Z) (g : R)
    (aps : list SharcAllpassFilter.t) (m : list R) :
  (1 <= w <= 8)%Z -> (0 <= n)%Z ->
  Forall (fun a => SharcAllpassFilter.prepared a = true /\ allpassQuiet a) aps ->
  silentTo n m ->
  let r := DdxReverbAudioProcessor.allpassStage w simdOn n g aps m in
  Forall (fun a => SharcAllpassFilter.prepared a = true /\ allpassQuiet a) (fst r)
  /\ silentTo n (snd r).
Proof.
  intros Hw Hn HF Hm. cbv zeta. unfold DdxReverbAudioProcessor.allpassStage.
  assert (H : forall (done : list SharcAllpassFilter.t) (m : list R),
            Forall (fun a => SharcAllpassFilter.prepared a = true /\ allpassQuiet a) done ->
            silentTo n m ->
            let r := fold_left
                       (fun '(done, m) ap =>
                          let '(ap', m') :=
                            DdxReverbAudioProcessor.runAllpass w simdOn
                              (SharcAllpassFilter.setGain ap g) SameAsOutput m n in
                          (done ++ [ap'], m'))
                       aps (done, m) in
            Forall (fun a => SharcAllpassFilter.prepared a = true /\ allpassQuiet a) (fst r)
            /\ silentTo n (snd r)).
  { induction HF as [|a aps [Hp Hq] _ IH]; intros done m' Hd Hm'; cbn [fold_left fst snd].
    - split; assumption.
    - pose proof (runAllpass_quiet w simdOn (SharcAllpassFilter.setGain a g) m' n
                    Hw Hn Hp Hq Hm') as [Hk Ho].
      destruct (DdxReverbAudioProcessor.runAllpass w simdOn
                  (SharcAllpassFilter.setGain a g) SameAsOutput m' n) as [a' m''].
      cbn [fst snd] in Hk, Ho. apply IH; [|exact Ho].
      apply Forall_app. split; [exact Hd|]. constructor; [exact Hk|constructor]. }
  apply H; [constructor|exact Hm].
Qed.

(** X15.  Silence in, silence out.  A processor of prepared filters
    whose delay lines, damping memories, pre-delay line and hi-cut memory
    are all zero turns a block of zeros on its input channels into zeros on
    all its output channels and is left in such a state again - for every
    parameter setting, bypassed or not, on the scalar and on the SIMD
    path. *)
Theorem X15_silence_in_silence_out (w : Z) (G : Statics)
    (p : DdxReverbAudioProcessor.t) (prm : Params) (buf : AudioBuffer.t) (t0 t1 : R) :
  (1 <= w <= 8)%Z ->
  wellFormed p -> quietProcessor G p -> fits p buf ->
  (1 <= DdxReverbAudioProcessor.totalNumInputChannels p)%Z ->
  (forall ch, (0 <= ch < DdxReverbAudioProcessor.totalNumInputChannels p)%Z ->
     silentTo (AudioBuffer.getNumSamples buf) (AudioBuffer.chan buf ch)) ->
  let r := DdxReverbAudioProcessor.processBlock w G p prm buf t0 t1 in
  quietProcessor (fst (fst r)) (snd (fst r)) /\
  forall ch, (0 <= ch < DdxReverbAudioProcessor.totalNumOutputChannels p)%Z ->
    silentTo (AudioBuffer.getNumSamples buf) (AudioBuffer.chan (snd r) ch).
Proof.
  intros Hw Hwf (QG & QP & QC & QA) Hfit Hin Hsil r.
  set (n := AudioBuffer.getNumSamples buf) in *.
  set (dry := DdxReverbAudioProcessor.clearUnused p buf).
  pose proof (clearUnused_fits p buf Hfit) as Hfd. fold dry in Hfd.
  destruct (clearUnused_spec p buf Hfit) as (HN & HC & Hlow & Hhigh).
  fold dry n in HN, HC, Hlow, Hhigh.
  pose proof Hfit as (_ & Hout & Hn & _). fold n in Hn.
  assert (Hdry : forall ch, (0 <= ch < DdxReverbAudioProcessor.totalNumOutputChannels p)%Z
                   \/ (0 <= ch < DdxReverbAudioProcessor.totalNumInputChannels p)%Z ->
                 silentTo n (AudioBuffer.chan dry ch)).
  { intros ch Hch.
    destruct (Z_lt_ge_dec ch (DdxReverbAudioProcessor.totalNumInputChannels p)) as [Hl|Hg].
    - rewrite Hlow by exact Hl. apply Hsil. lia.
    - destruct Hch as [Hch|Hch]; [|lia].
      destruct (Hhigh ch ltac:(lia)) as [_ Hz]. exact Hz. }
  destruct (gtb (bypass prm) 0.5) eqn:Hb.
  - unfold r. rewrite processBlock_bypassed by exact Hb. cbn [fst snd].
    split; [repeat split; assumption|]. intros ch Hch. apply Hdry. left. exact Hch.
  - unfold r. rewrite processBlock_running by exact Hb. cbn [fst snd]. fold dry.
    rewrite wetPath_stages. rewrite HN.
    cbn [DdxReverbAudioProcessor.wStatics DdxReverbAudioProcessor.wMono
         DdxReverbAudioProcessor.wCombs DdxReverbAudioProcessor.wAllpasses
         DdxReverbAudioProcessor.wPreDelayBuffer].
    set (dm := DdxReverbAudioProcessor.downmix p dry _).
    assert (Hdm : silentTo n dm).
    { unfold dm. rewrite <- HN. apply downmix_quiet; rewrite HN.
      - apply Hdry. right. lia.
      - intros H1. apply Hdry. right. lia. }
    destruct (hiCut_quiet (hicut prm) n G dm Hn QG Hdm) as [HG1 Hhc].
    set (hc := DdxReverbAudioProcessor.hiCut (hicut prm) n G dm) in *.
    pose proof (preDelay_quiet (DdxReverbAudioProcessor.preDelayLength p (predelay prm)) n
                  (DdxReverbAudioProcessor.preDelayBuffer p)
                  (DdxReverbAudioProcessor.preDelayWritePos p) (snd hc) QP Hhc)
      as [Hpb Hpm].
    set (pd := DdxReverbAudioProcessor.preDelay _ n _) in *.
    assert (QC' : Forall (fun c => SharcCombFilter.prepared c = true /\ combQuiet c)
                    (DdxReverbAudioProcessor.updateCombs
                       (DdxReverbAudioProcessor.dampingFreqOf (damping prm))
                       (DdxReverbAudioProcessor.combGainOf (decay prm) (bassmult prm)
                          (DdxReverbAudioProcessor.currentSampleRate p))
                       (DdxReverbAudioProcessor.combs p))).
    { unfold DdxReverbAudioProcessor.updateCombs. apply Forall_map.
      revert QC. apply Forall_impl. intros c Hc. exact Hc. }
    destruct Hwf as [HLc HLa].
    pose proof (combStage_quiet w (gtb (simd prm) 0.5) n _ (snd pd) Hw Hn
                  ltac:(unfold DdxReverbAudioProcessor.updateCombs, lenZ;
                        rewrite length_map; exact HLc) QC' Hpm) as [Hcs Hcm].
    set (cb := DdxReverbAudioProcessor.combStage w _ n _ _) in *.
    pose proof (allpassStage_quiet w (gtb (simd prm) 0.5) n
                  (juce.jmap (diffusion prm) 0 20 0.3 0.7)
                  (DdxReverbAudioProcessor.allpasses p) (snd cb) Hw Hn QA Hcm)
      as [Has Ham].
    set (ap := DdxReverbAudioProcessor.allpassStage w _ n _ _ _) in *.
    split.
    + unfold quietProcessor.
      cbn [DdxReverbAudioProcessor.preDelayBuffer DdxReverbAudioProcessor.combs
           DdxReverbAudioProcessor.allpasses].
      repeat split; assumption.
    + intros ch Hch i Hi.
      destruct (mixStage_sample p dry (snd ap) (wet prm) ch Hfd Hch) as [_ Hv].
      rewrite Hv by (rewrite HN; exact Hi).
      rewrite (Hdry ch (or_introl Hch) i Hi), (Ham i Hi). ring.
Qed.

(** ** The first block after preparation *)

Lemma zeros_quiet (n : Z) : Forall (fun v => v = 0) (zeros n).
Proof.
  apply Forall_forall. intros x Hx. unfold zeros in Hx.
  now apply repeat_spec in Hx.
Qed.

Lemma prepareToPlay_quiet (p0 : DdxReverbAudioProcessor.t) (sr : R) (n : Z) :
  wellFormed p0 ->
  quietProcessor initialStatics (DdxReverbAudioProcessor.prepareToPlay p0 sr n).
Proof.
  intros Hwf.
  destruct (prepareToPlay_members_silent p0 sr n Hwf)
    as (_ & Hpd & _ & Hcs & Hcp & Has & Hap).
  split; [reflexivity|]. split; [|split].
  - rewrite Hpd. apply zeros_quiet.
  - apply (Forall_and _ _ _ _ (fun c (H1 : combSilent c)
             (H2 : SharcCombFilter.prepared c = true) =>
             conj H2 (conj (eq_ind_r (Forall (fun v => v = 0))
                              (zeros_quiet _) (proj1 H1))
                           (proj2 (proj2 H1)))) Hcs Hcp).
  - apply (Forall_and _ _ _ _ (fun a (H1 : allpassSilent a)
             (H2 : SharcAllpassFilter.prepared a = true) =>
             conj H2 (eq_ind_r (Forall (fun v => v = 0))
                        (zeros_quiet _) (proj1 H1))) Has Hap).
Qed.

Lemma X15_silence_in_silence_out_witness :
  let p := DdxReverbAudioProcessor.prepareToPlay
             (DdxReverbAudioProcessor.construct 2 2) 48000 2 in
  let r := DdxReverbAudioProcessor.processBlock 4 initialStatics p
             (mkParams 5 50 50 10 12 0 0.5 0 1) (AudioBuffer.mk [[0; 0]; [0; 0]] 2) 0 1 in
  rd (AudioBuffer.chan (snd r) 1) 1 = 0.
Proof.
  intros p r.
  refine (proj2 (X15_silence_in_silence_out 4 initialStatics p
                   (mkParams 5 50 50 10 12 0 0.5 0 1)
                   (AudioBuffer.mk [[0; 0]; [0; 0]] 2) 0 1 _ _ _ _ _ _) 1%Z _ 1%Z _).
  - lia.
  - apply prepareToPlay_members_silent. apply construct_wellFormed.
  - apply prepareToPlay_quiet. apply construct_wellFormed.
  - unfold fits, AudioBuffer.getNumChannels, lenZ. cbn.
    repeat split; try lia. repeat constructor.
  - cbn. lia.
  - intros ch Hch i Hi. cbn in Hch, Hi.
    assert (Hc : ch = 0%Z \/ ch = 1%Z) by lia.
    assert (Hc' : i = 0%Z \/ i = 1%Z) by lia.
    destruct Hc as [-> | ->], Hc' as [-> | ->]; reflexivity.
  - cbn. lia.
  - cbn. lia.
Defined.

(** ** The shape of the block *)

Lemma mixStage_untouched (p : DdxReverbAudioProcessor.t) (dry : AudioBuffer.t)
    (mono : list R) (w : R) (b : AudioBuffer.t) (ch : Z) :
  (DdxReverbAudioProcessor.totalNumOutputChannels p <= ch)%Z ->
  AudioBuffer.chan (DdxReverbAudioProcessor.mixStage p dry mono w b) ch
  = AudioBuffer.chan b ch.
Proof.
  intros Hch.
  destruct (mixStage_channels p dry mono w b) as [_ HC]. cbv zeta in HC.
  unfold AudioBuffer.chan. rewrite HC.
  unfold for_range.
  apply (for_loop_inv_range (fun chs => rdA [] chs ch = rdA [] (AudioBuffer.channels b) ch));
    [|reflexivity].
  intros j chs Hj Hc. rewrite rd_wr_other by lia. exact Hc.
Qed.

Lemma clearUnused_untouched (p : DdxReverbAudioProcessor.t) (b : AudioBuffer.t) (ch : Z) :
  (DdxReverbAudioProcessor.totalNumOutputChannels p <= ch)%Z ->
  AudioBuffer.chan (DdxReverbAudioProcessor.clearUnused p b) ch = AudioBuffer.chan b ch.
Proof.
  intros Hch. destruct (clearUnused_channels p b) as [_ HC].
  unfold AudioBuffer.chan. rewrite HC. unfold for_range.
  apply (for_loop_inv_range (fun chs => rdA [] chs ch = rdA [] (AudioBuffer.channels b) ch));
    [|reflexivity].
  intros j chs Hj Hc. rewrite rd_wr_other by lia. exact Hc.
Qed.

(** X16.  [processBlock] keeps the shape of the host's block: the same
    number of channels and of samples, every channel still of that length,
    and the channels from [totalNumOutputChannels] on exactly as they came
    in, bypassed or not. *)
Theorem X16_block_keeps_its_shape (w : Z) (G : Statics)
    (p : DdxReverbAudioProcessor.t) (prm : Params) (buf : AudioBuffer.t) (t0 t1 : R) :
  fits p buf ->
  let out := snd (DdxReverbAudioProcessor.processBlock w G p prm buf t0 t1) in
  AudioBuffer.getNumSamples out = AudioBuffer.getNumSamples buf /\
  AudioBuffer.getNumChannels out = AudioBuffer.getNumChannels buf /\
  (forall ch, (0 <= ch < AudioBuffer.getNumChannels buf)%Z ->
     lenZ (AudioBuffer.chan out ch) = AudioBuffer.getNumSamples buf) /\
  (forall ch, (DdxReverbAudioProcessor.totalNumOutputChannels p <= ch)%Z ->
     AudioBuffer.chan out ch = AudioBuffer.chan buf ch).
Proof.
  intros Hfit out.
  set (dry := DdxReverbAudioProcessor.clearUnused p buf).
  pose proof (clearUnused_fits p buf Hfit) as Hfd. fold dry in Hfd.
  destruct (clearUnused_spec p buf Hfit) as (HN & HC & _). fold dry in HN, HC.
  destruct (gtb (bypass prm) 0.5) eqn:Hb.
  - unfold out. rewrite processBlock_bypassed by exact Hb. cbn [snd]. fold dry.
    split; [exact HN|]. split; [exact HC|]. split.
    + intros ch Hch. rewrite <- HN. apply (fits_chan_length p); [exact Hfd|].
      rewrite HC. exact Hch.
    + intros ch Hch. now apply clearUnused_untouched.
  - unfold out. rewrite processBlock_running by exact Hb. cbn [snd]. fold dry.
    set (mono := DdxReverbAudioProcessor.wMono _).
    destruct (mixStage_channels p dry mono (wet prm) dry) as [HN' HC'].
    cbv zeta in HC'.
    pose proof Hfd as (Hin & Hout & Hns & HF).
    assert (HL : lenZ (AudioBuffer.channels
                         (DdxReverbAudioProcessor.mixStage p dry mono (wet prm) dry))
                 = lenZ (AudioBuffer.channels dry)).
    { rewrite HC'. unfold for_range.
      apply (for_loop_inv (fun chs => lenZ chs = lenZ (AudioBuffer.channels dry)));
        [|reflexivity].
      intros j chs Hc. now rewrite lenZ_wr. }
    split; [unfold AudioBuffer.getNumSamples in *; now rewrite HN'|].
    split; [unfold AudioBuffer.getNumChannels in *; now rewrite HL|].
    split.
    + intros ch Hch.
      destruct (Z_lt_ge_dec ch (DdxReverbAudioProcessor.totalNumOutputChannels p))
        as [Hl|Hg].
      * destruct (mixStage_sample p dry mono (wet prm) ch Hfd ltac:(lia)) as [E _].
        rewrite E. exact HN.
      * rewrite mixStage_untouched by lia. rewrite <- HN.
        apply (fits_chan_length p); [exact Hfd|]. rewrite HC. exact Hch.
    + intros ch Hch. rewrite mixStage_untouched by exact Hch.
      now apply clearUnused_untouched.
Qed.

Lemma X16_block_keeps_its_shape_witness :
  let p := DdxReverbAudioProcessor.prepareToPlay
             (DdxReverbAudioProcessor.construct 1 2) 48000 2 in
  let buf := AudioBuffer.mk [[1; 0]; [2; 3]; [4; 5]] 2 in
  let out := snd (DdxReverbAudioProcessor.processBlock 4 initialStatics p
                    defaultParams buf 0 1) in
  AudioBuffer.getNumChannels out = 3%Z /\ AudioBuffer.chan out 2 = [4; 5].
Proof.
  intros p buf out.
  assert (Hfit : fits p buf).
  { unfold fits, AudioBuffer.getNumChannels, lenZ. cbn.
    repeat split; try lia. repeat constructor. }
  pose proof (X16_block_keeps_its_shape 4 initialStatics p defaultParams buf 0 1 Hfit)
    as (_ & H2 & _ & H4).
  split; [exact H2|]. apply (H4 2%Z). cbn. lia.
Defined.

(** ** The CPU figure over a run of blocks *)

Lemma stepBlock_sampleRate (w : Z) (st : Statics * DdxReverbAudioProcessor.t) (b : Block) :
  DdxReverbAudioProcessor.currentSampleRate (snd (stepBlock w st b))
  = DdxReverbAudioProcessor.currentSampleRate (snd st).
Proof.
  unfold stepBlock. destruct (gtb (bypass (bParams b)) 0.5) eqn:Hb.
  - now rewrite processBlock_bypassed by exact Hb.
  - now rewrite processBlock_running by exact Hb.
Qed.

Lemma runBlocks_app (w : Z) (st : Statics * DdxReverbAudioProcessor.t)
    (bs cs : list Block) :
  runBlocks w st (bs ++ cs) = runBlocks w (runBlocks w st bs) cs.
Proof. unfold runBlocks. apply fold_left_app. Qed.

Lemma runBlocks_sampleRate (w : Z) (bs : list Block)
    (st : Statics * DdxReverbAudioProcessor.t) :
  DdxReverbAudioProcessor.currentSampleRate (snd (runBlocks w st bs))
  = DdxReverbAudioProcessor.currentSampleRate (snd st).
Proof.
  revert st. induction bs as [|b bs IH]; intros st; [reflexivity|].
  cbn [runBlocks fold_left]. fold (runBlocks w (stepBlock w st b) bs).
  rewrite IH. apply stepBlock_sampleRate.
Qed.

(** X17.  [getCpuUsage] after any run of blocks is the figure of the
    last block that was not bypassed,
    [((end - start) / 1000) / (numSamples / sampleRate)] from the two clock
    readings of that block, with no averaging over earlier blocks; if every
    block of the run was bypassed it is the value from before the run. *)
Theorem X17_cpu_usage_is_of_last_running_block (w : Z) (G : Statics)
    (p : DdxReverbAudioProcessor.t) (bs : list Block) :
  DdxReverbAudioProcessor.getCpuUsage (snd (runBlocks w (G, p) bs))
  = match lastRunning bs with
    | Some b =>
        ((bEnd b - bStart b) / 1000)
        / (IZR (AudioBuffer.getNumSamples (bBuffer b))
           / DdxReverbAudioProcessor.currentSampleRate p)
    | None => DdxReverbAudioProcessor.getCpuUsage p
    end.
Proof.
  induction bs as [|b bs IH] using rev_ind; [reflexivity|].
  rewrite runBlocks_app. unfold lastRunning. rewrite rev_app_distr.
  cbn [rev app find]. cbn [runBlocks fold_left].
  unfold stepBlock, bypassed.
  destruct (gtb (bypass (bParams b)) 0.5) eqn:Hb; cbn [negb].
  - rewrite processBlock_bypassed by exact Hb. cbn [fst snd].
    exact IH.
  - rewrite processBlock_running by exact Hb. cbn [fst snd].
    unfold DdxReverbAudioProcessor.getCpuUsage. cbn [DdxReverbAudioProcessor.cpuUsage].
    unfold DdxReverbAudioProcessor.cpuOf.
    now rewrite runBlocks_sampleRate.
Qed.

(** ** setDelaySamples and the cursor *)

Lemma jlimitZ_range (lo hi v : Z) :
  (lo <= hi)%Z -> (lo <= juce.jlimitZ lo hi v <= hi)%Z.
Proof.
  intros H. unfold juce.jlimitZ.
  destruct (v <? lo)%Z eqn:E1; [lia|]. destruct (hi <? v)%Z eqn:E2; lia.
Qed.

(** One turn of the scalar loop brings any cursor that is not negative
    inside the active length. *)
Lemma comb_scalar_recovers (inp : InputRef) (len : Z) (g damp : R) (k : nat) (i : Z)
    (s : SharcCombFilter.locals) :
  (0 < len)%Z -> (0 <= SharcCombFilter.idx s)%Z -> (0 < k)%nat ->
  let s' := for_loop k i 1 (SharcCombFilter.scalarBody inp len g damp) s in
  (0 <= SharcCombFilter.idx s' < len)%Z.
Proof.
  intros Hl Hs Hk. cbv zeta. destruct k as [|k]; [lia|]. cbn [for_loop].
  apply (comb_scalar_inv inp len g damp
           (lenZ (SharcCombFilter.buffer (SharcCombFilter.scalarBody inp len g damp i s)))
           k (i + 1)); [exact Hl|].
  split; [|reflexivity].
  unfold SharcCombFilter.scalarBody. cbn [SharcCombFilter.idx].
  destruct (SharcCombFilter.idx s + 1 >=? len)%Z eqn:E; lia.
Qed.

Lemma comb_simd_recovers (w : Z) (inp : InputRef) (len : Z) (g damp : R) (k : nat) (i : Z)
    (s : SharcCombFilter.locals) :
  (0 <= w)%Z -> (0 < len)%Z -> (0 <= SharcCombFilter.idx s)%Z -> (0 < k)%nat ->
  let s' := for_loop k i w (SharcCombFilter.simdBody w inp len g damp) s in
  (0 <= SharcCombFilter.idx s' < len)%Z.
Proof.
  intros Hw Hl Hs Hk. cbv zeta. destruct k as [|k]; [lia|]. cbn [for_loop].
  apply (comb_simd_inv w inp len g damp
           (lenZ (SharcCombFilter.buffer (SharcCombFilter.simdBody w inp len g damp i s)))
           k (i + w)); [exact Hw|exact Hl|].
  split; [|reflexivity].
  unfold SharcCombFilter.simdBody.
  destruct (for_range 0 w _ (SharcCombFilter.flt s, zeros 8)) as [fl dv].
  cbn [SharcCombFilter.idx]. apply rem_range; lia.
Qed.

(** X18.  [setDelaySamples] on a prepared comb with a non-empty delay
    line keeps the active delay length between 1 and the length of the
    line - the requested length when that is in range, 1 when it is below,
    the length of the line when it is above - and leaves the cursor where
    it was, possibly at or beyond a shortened active length.  The next
    block of at least one sample, on either path, brings the cursor back
    inside the active length. *)
Theorem X18_setDelaySamples_contract (w : Z) (simdOn : bool) (f : SharcCombFilter.t)
    (newDelay : Z) (inp : InputRef) (out : list R) (n : Z) :
  SharcCombFilter.prepared f = true ->
  (1 <= lenZ (SharcCombFilter.delayLine f))%Z ->
  (0 <= SharcCombFilter.writeIndex f)%Z ->
  (1 <= w)%Z -> (1 <= n)%Z ->
  let f' := SharcCombFilter.setDelaySamples f newDelay in
  let f'' := fst (DdxReverbAudioProcessor.runComb w simdOn f' inp out n) in
  (1 <= SharcCombFilter.delaySamples f' <= lenZ (SharcCombFilter.delayLine f'))%Z /\
  ((1 <= newDelay <= lenZ (SharcCombFilter.delayLine f))%Z ->
   SharcCombFilter.delaySamples f' = newDelay) /\
  ((newDelay < 1)%Z -> SharcCombFilter.delaySamples f' = 1%Z) /\
  ((lenZ (SharcCombFilter.delayLine f) < newDelay)%Z ->
   SharcCombFilter.delaySamples f' = lenZ (SharcCombFilter.delayLine f)) /\
  SharcCombFilter.writeIndex f' = SharcCombFilter.writeIndex f /\
  (0 <= SharcCombFilter.writeIndex f'' < SharcCombFilter.delaySamples f'')%Z.
Proof.
  intros Hp HL Hwi Hw Hn f' f''.
  pose proof (jlimitZ_range 1 (lenZ (SharcCombFilter.delayLine f)) newDelay HL) as HR.
  split; [exact HR|]. split; [|split; [|split; [|split; [reflexivity|]]]].
  - intros Hd. cbn. unfold juce.jlimitZ.
    destruct (newDelay <? 1)%Z eqn:E1; [lia|].
    destruct (lenZ (SharcCombFilter.delayLine f) <? newDelay)%Z eqn:E2; [lia|reflexivity].
  - intros Hd. cbn. unfold juce.jlimitZ.
    destruct (newDelay <? 1)%Z eqn:E1; [reflexivity|lia].
  - intros Hd. cbn. unfold juce.jlimitZ.
    destruct (newDelay <? 1)%Z eqn:E1; [lia|].
    destruct (lenZ (SharcCombFilter.delayLine f) <? newDelay)%Z eqn:E2; [reflexivity|lia].
  - set (len := SharcCombFilter.delaySamples f') in *.
    assert (Hlen : (0 < len)%Z) by (unfold len, f'; cbn; lia).
    assert (Hp' : SharcCombFilter.prepared f' = true) by exact Hp.
    assert (Hq : (0 <= n / w)%Z) by (apply Z.div_pos; lia).
    pose proof (Z.div_mod n w ltac:(lia)) as Hdm.
    pose proof (Z.mod_pos_bound n w ltac:(lia)) as Hmod.
    unfold f'', DdxReverbAudioProcessor.runComb, SharcCombFilter.processBlockSIMD,
      SharcCombFilter.processBlockScalar.
    rewrite Hp'. cbn [negb]. fold len.
    destruct simdOn; unfold SharcCombFilter.finish;
      cbn [fst SharcCombFilter.writeIndex SharcCombFilter.delaySamples]; fold len;
      unfold for_range.
    + destruct (Z.eq_dec (n / w) 0) as [E0|E0].
      * rewrite E0. cbn [Z.to_nat for_loop].
        apply comb_scalar_recovers; [exact Hlen|exact Hwi|nia].
      * match goal with
        | |- context [for_loop ?k ?lo 1 ?body ?s1] =>
            apply (comb_scalar_inv inp len (SharcCombFilter.feedbackGain f')
                     (SharcCombFilter.dampingCoeff f')
                     (lenZ (SharcCombFilter.buffer s1)) k lo s1); [exact Hlen|]
        end.
        split; [|reflexivity].
        apply comb_simd_recovers; [lia|exact Hlen|exact Hwi|lia].
    + apply comb_scalar_recovers; [exact Hlen|exact Hwi|lia].
Qed.

Lemma X18_setDelaySamples_contract_witness :
  let f0 := SharcCombFilter.prepare SharcCombFilter.default 48000 6 0.5 5000 in
  let f1 := fst (SharcCombFilter.processBlockScalar f0 (Distinct [1; 1; 1; 1; 1])
                   [0; 0; 0; 0; 0] 5) in
  let f' := SharcCombFilter.setDelaySamples f1 4 in
  let f'' := fst (DdxReverbAudioProcessor.runComb 4 true f' (Distinct [0; 0; 0; 0])
                    [0; 0; 0; 0] 4) in
  SharcCombFilter.writeIndex f' = 5%Z /\ SharcCombFilter.delaySamples f' = 4%Z /\
  (0 <= SharcCombFilter.writeIndex f'' < SharcCombFilter.delaySamples f'')%Z.
Proof.
  intros f0 f1 f' f''.
  split; [reflexivity|].
  pose proof (X18_setDelaySamples_contract 4 true f1 4 (Distinct [0; 0; 0; 0])
                [0; 0; 0; 0] 4 eq_refl) as H.
  specialize (H ltac:(unfold f1; simpl; unfold lenZ; simpl; lia)
                ltac:(unfold f1; simpl; lia) ltac:(lia) ltac:(lia)).
  cbv zeta in H. destruct H as (_ & H2 & _ & _ & _ & H6).
  split; [|exact H6]. apply H2. unfold f1; simpl; unfold lenZ; simpl; lia.
Defined.

(** ** Arrays and the lists of their first samples *)

Lemma addL_length (a b : list R) : length a = length b -> length (addL a b) = length a.
Proof.
  revert b; induction a as [|x a IH]; intros [|y b] H; cbn in *; try lia.
  rewrite IH; lia.
Qed.

Lemma addL_nth (a b : list R) (k : nat) :
  length a = length b -> (k < length a)%nat ->
  nth k (addL a b) 0 = nth k a 0 + nth k b 0.
Proof.
  revert b k; induction a as [|x a IH]; intros [|y b] [|k] H Hk; cbn in *; try lia; auto.
  apply IH; lia.
Qed.

Lemma addL_app (a1 a2 b1 b2 : list R) :
  length a1 = length b1 ->
  addL (a1 ++ a2) (b1 ++ b2) = addL a1 b1 ++ addL a2 b2.
Proof.
  revert b1; induction a1 as [|x a1 IH]; intros [|y b1] H; cbn in *; try lia; auto.
  rewrite IH by lia. reflexivity.
Qed.

Lemma holds_exact (xs : list R) : holds (lenZ xs) xs xs.
Proof.
  split; [reflexivity|]. split; [lia|]. intros k Hk. unfold rdA.
  destruct (k <? 0)%Z eqn:E; [lia|reflexivity].
Qed.

Lemma rd_nth (xs : list R) (k : Z) : (0 <= k)%Z -> rd xs k = nth (Z.to_nat k) xs 0.
Proof. intros H. unfold rdA. destruct (k <? 0)%Z eqn:E; [lia|reflexivity]. Qed.

Lemma holds_app_skipn (ys out : list R) :
  (length ys <= length out)%nat -> holds (lenZ ys) (ys ++ skipn (length ys) out) ys.
Proof.
  intros H. split; [reflexivity|]. split.
  - unfold lenZ. rewrite length_app, length_skipn. lia.
  - intros k Hk. rewrite rd_app_skipn by exact H.
    destruct (0 <=? k)%Z eqn:E1; [|lia]. destruct (k <? lenZ ys)%Z eqn:E2; [|lia].
    cbn [andb]. now rewrite Z.sub_0_r.
Qed.

(** ** The stages of the wet path on the samples of a block *)

(** A loop that takes sample [i] of the block through a one-sample step
    and stores the result in its place. *)
Lemma inplace_run {X : Type} (stp : X -> R -> X * R) (st : X) (n : Z) (m xs : list R) :
  holds n m xs ->
  let res := for_range 0 n (bodyF stp SameAsOutput) (st, m) in
  fst res = fst (Spec.run stp st xs) /\
  lenZ (snd res) = lenZ m /\
  holds n (snd res) (snd (Spec.run stp st xs)).
Proof.
  intros (HL & Hm & Hv). cbv zeta. unfold for_range.
  replace (Z.to_nat (n - 0)) with (length xs) by (unfold lenZ in HL; lia).
  destruct (loop_run stp SameAsOutput xs 0 st m) as (H1 & H2 & H3).
  - lia.
  - lia.
  - intros k Hk. cbn [rdIn]. rewrite Hv by (unfold lenZ in HL; lia).
    f_equal. lia.
  - cbv zeta in H1, H2, H3. split; [exact H1|]. split; [exact H2|].
    split; [|split].
    + unfold lenZ. rewrite run_length. exact HL.
    + rewrite H2. exact Hm.
    + intros k Hk. rewrite H3.
      destruct (0 <=? k)%Z eqn:E1; [|lia].
      destruct (k <? 0 + lenZ xs)%Z eqn:E2; [|lia]. cbn [andb].
      now rewrite Z.sub_0_r.
Qed.

Lemma hiCut_holds (h : R) (n : Z) (G : Statics) (m xs : list R) :
  holds n m xs ->
  let r := DdxReverbAudioProcessor.hiCut h n G m in
  fst r = fst (hiCutL h G xs) /\
  lenZ (snd r) = lenZ m /\
  holds n (snd r) (snd (hiCutL h G xs)).
Proof.
  intros H. cbv zeta. unfold DdxReverbAudioProcessor.hiCut, hiCutL.
  destruct (gtb h 0.01); [|cbn [fst snd]; auto].
  unfold for_range.
  rewrite (for_loop_ext _ 0 1 _
             (bodyF (hiCutStep (juce.decibelsToGain (- h))) SameAsOutput))
    by (intros k [G' m']; reflexivity).
  exact (inplace_run _ G n m xs H).
Qed.

Lemma preDelay_holds (D n : Z) (buf : list R) (pos : Z) (m xs : list R) :
  holds n m xs ->
  let r := DdxReverbAudioProcessor.preDelay D n (buf, pos, m) in
  fst r = fst (preDelayL D (buf, pos) xs) /\
  lenZ (snd r) = lenZ m /\
  holds n (snd r) (snd (preDelayL D (buf, pos) xs)).
Proof.
  intros H. cbv zeta. unfold DdxReverbAudioProcessor.preDelay, preDelayL.
  destruct (D >? 0)%Z; [|cbn [fst snd]; auto].
  unfold for_range.
  rewrite (for_loop_ext _ 0 1 _ (bodyF (preDelayStep D) SameAsOutput))
    by (intros k [[b wp] m']; reflexivity).
  exact (inplace_run _ (buf, pos) n m xs H).
Qed.

Lemma comb_holds (f : SharcCombFilter.t) (m xs out : list R) (n : Z) :
  SharcCombFilter.prepared f = true -> holds n m xs -> (n <= lenZ out)%Z ->
  let r := SharcCombFilter.processBlockScalar f (Distinct m) out n in
  fst r = fst (combL f xs) /\
  lenZ (snd r) = lenZ out /\
  holds n (snd r) (snd (combL f xs)).
Proof.
  intros Hp (HL & Hm & Hv) Ho. cbv zeta.
  assert (Hlen : (length xs <= length out)%nat) by (unfold lenZ in *; lia).
  unfold SharcCombFilter.processBlockScalar. rewrite Hp. cbn [negb].
  assert (E : for_range 0 n
                (SharcCombFilter.scalarBody (Distinct m) (SharcCombFilter.delaySamples f)
                   (SharcCombFilter.feedbackGain f) (SharcCombFilter.dampingCoeff f))
                (SharcCombFilter.start f out)
              = for_range 0 (lenZ xs)
                  (SharcCombFilter.scalarBody (Distinct xs) (SharcCombFilter.delaySamples f)
                     (SharcCombFilter.feedbackGain f) (SharcCombFilter.dampingCoeff f))
                  (SharcCombFilter.start f out)).
  { rewrite HL. unfold for_range. apply for_loop_ext_range. intros k s Hk.
    unfold SharcCombFilter.scalarBody. cbn [rdIn].
    rewrite Hv, (rd_nth xs k) by lia. reflexivity. }
  rewrite E.
  pose proof (comb_scalar_loop f xs out Hlen) as HM. cbv zeta in HM.
  destruct (for_range 0 (lenZ xs) _ (SharcCombFilter.start f out)) as [b i fl o].
  unfold combView in HM. cbn [SharcCombFilter.buffer SharcCombFilter.idx
    SharcCombFilter.flt SharcCombFilter.output] in HM.
  unfold SharcCombFilter.finish, combL. cbn [SharcCombFilter.buffer SharcCombFilter.idx
    SharcCombFilter.flt SharcCombFilter.output fst snd].
  inversion HM; subst. cbn [fst snd]. split; [reflexivity|]. split.
  - unfold lenZ. rewrite length_app, length_skipn.
    unfold Spec.combRun. rewrite run_length. lia.
  - pose proof (holds_app_skipn
                  (snd (Spec.combRun (SharcCombFilter.delaySamples f)
                          (SharcCombFilter.feedbackGain f) (SharcCombFilter.dampingCoeff f)
                          (SharcCombFilter.delayLine f, SharcCombFilter.writeIndex f,
                           SharcCombFilter.filterState f) xs)) out) as HH.
    unfold Spec.combRun in *. rewrite run_length in HH.
    unfold lenZ in HH at 1. rewrite run_length in HH. exact (HH Hlen).
Qed.

Lemma allpass_holds (f : SharcAllpassFilter.t) (m xs : list R) (n : Z) :
  SharcAllpassFilter.prepared f = true -> holds n m xs ->
  let r := SharcAllpassFilter.processBlockScalar f SameAsOutput m n in
  fst r = fst (allpassL f xs) /\
  lenZ (snd r) = lenZ m /\
  holds n (snd r) (snd (allpassL f xs)).
Proof.
  intros Hp (HL & Hm & Hv). cbv zeta.
  assert (Hlen : (length xs <= length m)%nat) by (unfold lenZ in *; lia).
  rewrite allpass_scalar_in_place.
  assert (E : SharcAllpassFilter.processBlockScalar f (Distinct m) m n
              = SharcAllpassFilter.processBlockScalar f (Distinct xs) m (lenZ xs)).
  { unfold SharcAllpassFilter.processBlockScalar. rewrite Hp. cbn [negb].
    rewrite HL. f_equal. unfold for_range. apply for_loop_ext_range. intros k s Hk.
    unfold SharcAllpassFilter.scalarBody. cbn [rdIn].
    rewrite Hv, (rd_nth xs k) by lia. reflexivity. }
  rewrite E, allpass_scalar_follows_step by assumption.
  unfold allpassL. cbn [fst snd]. rewrite Hp. split; [reflexivity|]. split.
  - unfold lenZ. rewrite length_app, length_skipn.
    unfold Spec.allpassRun. rewrite run_length. lia.
  - pose proof (holds_app_skipn
                  (snd (Spec.allpassRun (SharcAllpassFilter.delaySamples f)
                          (SharcAllpassFilter.apGain f)
                          (SharcAllpassFilter.delayLine f, SharcAllpassFilter.writeIndex f)
                          xs)) m) as HH.
    unfold Spec.allpassRun in *. rewrite run_length in HH.
    unfold lenZ in HH at 1. rewrite run_length in HH. rewrite <- HL. exact (HH Hlen).
Qed.

Lemma rd_app_mid {A : Type} (dflt : A) (done rest : list A) (x : A) :
  rdA dflt (done ++ x :: rest) (lenZ done) = x.
Proof.
  unfold rdA, lenZ. destruct (Z.of_nat (length done) <? 0)%Z eqn:E; [lia|].
  rewrite Nat2Z.id, app_nth2, Nat.sub_diag by lia. reflexivity.
Qed.

Lemma updA_app_mid {A : Type} (done rest : list A) (x v : A) :
  updA (done ++ x :: rest) (length done) v = done ++ v :: rest.
Proof. induction done as [|d done IH]; cbn; [reflexivity|]. now rewrite IH. Qed.

Lemma wr_app_mid {A : Type} (done rest : list A) (x v : A) :
  wr (done ++ x :: rest) (lenZ done) v = done ++ v :: rest.
Proof.
  unfold wr, lenZ. destruct (Z.of_nat (length done) <? 0)%Z eqn:E; [lia|].
  rewrite Nat2Z.id. apply updA_app_mid.
Qed.

Lemma clear_length (c : list R) (n : Z) :
  lenZ (juce.FloatVectorOperations.clear c n) = lenZ c.
Proof.
  unfold juce.FloatVectorOperations.clear, for_range.
  apply (for_loop_inv (fun x => lenZ x = lenZ c)); [|reflexivity].
  intros k s H. now rewrite lenZ_wr.
Qed.

Lemma clear_chan_length (cb : AudioBuffer.t) :
  lenZ (AudioBuffer.channels (AudioBuffer.clear cb)) = lenZ (AudioBuffer.channels cb) /\
  lenZ (AudioBuffer.chan (AudioBuffer.clear cb) 0) = lenZ (AudioBuffer.chan cb 0).
Proof.
  unfold AudioBuffer.clear, AudioBuffer.chan. cbn [AudioBuffer.channels].
  split; [unfold lenZ; now rewrite length_map|].
  destruct (AudioBuffer.channels cb) as [|c cs]; [reflexivity|].
  unfold rdA. cbn. apply clear_length.
Qed.

Lemma setChan_chan (cb : AudioBuffer.t) (d : list R) :
  (0 < lenZ (AudioBuffer.channels cb))%Z ->
  lenZ (AudioBuffer.channels (AudioBuffer.setChan cb 0 d)) = lenZ (AudioBuffer.channels cb) /\
  AudioBuffer.chan (AudioBuffer.setChan cb 0 d) 0 = d.
Proof.
  intros H. unfold AudioBuffer.setChan, AudioBuffer.chan. cbn [AudioBuffer.channels].
  split; [apply lenZ_wr|]. apply rd_wr_same. lia.
Qed.

(** The comb loop from comb [lenZ done] on. *)
Lemma comb_loop_holds (w n : Z) (rest : list SharcCombFilter.t) :
  forall (done : list SharcCombFilter.t) (cb : AudioBuffer.t) (m xs : list R),
  Forall (fun c => SharcCombFilter.prepared c = true) rest ->
  holds n m xs ->
  (0 < lenZ (AudioBuffer.channels cb))%Z -> (n <= lenZ (AudioBuffer.chan cb 0))%Z ->
  let r := for_loop (length rest) (lenZ done) 1
             (DdxReverbAudioProcessor.combBody w false n) (done ++ rest, cb, m) in
  let k := combChainL (lenZ done =? 0)%Z rest xs in
  fst (fst r) = done ++ fst k /\ lenZ (snd r) = lenZ m /\ holds n (snd r) (snd k).
Proof.
  induction rest as [|f rest IH]; intros done cb m xs HF Hm Hc Hl;
    cbn [for_loop length combChainL].
  - cbn [fst snd]. split; [reflexivity|]. auto.
  - inversion HF as [|? ? Hp HF']; subst.
    assert (Hstep : exists cb' m',
              DdxReverbAudioProcessor.combBody w false n (lenZ done) (done ++ f :: rest, cb, m)
              = ((done ++ [fst (combL f xs)]) ++ rest, cb', m')
              /\ (0 < lenZ (AudioBuffer.channels cb'))%Z
              /\ (n <= lenZ (AudioBuffer.chan cb' 0))%Z
              /\ lenZ m' = lenZ m
              /\ holds n m' (if (lenZ done =? 0)%Z then snd (combL f xs)
                             else addL xs (snd (combL f xs)))).
    { unfold DdxReverbAudioProcessor.combBody, DdxReverbAudioProcessor.runComb.
      unfold DdxReverbAudioProcessor.combAt. rewrite rd_app_mid.
      destruct (clear_chan_length cb) as [C1 C2].
      destruct (comb_holds f m xs (AudioBuffer.chan (AudioBuffer.clear cb) 0) n Hp Hm)
        as (E1 & E2 & E3); [lia|].
      destruct (SharcCombFilter.processBlockScalar f (Distinct m)
                  (AudioBuffer.chan (AudioBuffer.clear cb) 0) n) as [f' o'].
      cbn [fst snd] in E1, E2, E3.
      destruct (setChan_chan (AudioBuffer.clear cb) o') as [S1 S2]; [lia|].
      eexists; eexists. split; [|split; [|split; [|split]]].
      - rewrite wr_app_mid, <- app_assoc, E1. reflexivity.
      - lia.
      - rewrite S2. lia.
      - destruct (lenZ done =? 0)%Z.
        + apply copy_spec. apply Hm.
        + apply add_spec. apply Hm.
      - destruct Hm as (HL & Hlen & Hv). destruct E3 as (HL' & Hlen' & Hv').
        destruct (lenZ done =? 0)%Z.
        + destruct (copy_spec m o' n Hlen) as [L P].
          split; [exact HL'|]. split; [lia|]. intros k Hk. rewrite P.
          destruct (0 <=? k)%Z eqn:A1; [|lia]. destruct (k <? n)%Z eqn:A2; [|lia].
          cbn [andb]. now apply Hv'.
        + destruct (add_spec m o' n Hlen) as [L P].
          assert (Hll : length xs = length (snd (combL f xs))) by (unfold lenZ in *; lia).
          split; [unfold lenZ in *; rewrite addL_length; lia|]. split; [lia|].
          intros k Hk. rewrite P.
          destruct (0 <=? k)%Z eqn:A1; [|lia]. destruct (k <? n)%Z eqn:A2; [|lia].
          cbn [andb]. rewrite Hv, Hv' by exact Hk.
          rewrite addL_nth; [reflexivity|exact Hll|unfold lenZ in HL; lia]. }
    destruct Hstep as (cb' & m' & E & C1 & C2 & L & H').
    rewrite E.
    replace (lenZ done + 1)%Z with (lenZ (done ++ [fst (combL f xs)]))
      by (unfold lenZ; rewrite length_app; cbn [length]; lia).
    destruct (IH (done ++ [fst (combL f xs)]) cb' m' _ HF' H' C1 C2) as (I1 & I2 & I3).
    cbv zeta in I1, I2, I3.
    replace (lenZ (done ++ [fst (combL f xs)]) =? 0)%Z with false in I1, I3
      by (unfold lenZ; rewrite length_app; cbn [length]; lia).
    cbn [fst snd]. split; [|split].
    + rewrite I1, <- app_assoc. reflexivity.
    + lia.
    + exact I3.
Qed.

Lemma combStage_holds (w n : Z) (cs : list SharcCombFilter.t) (m xs : list R) :
  (0 <= n)%Z -> lenZ cs = DdxReverbAudioProcessor.numCombs ->
  Forall (fun c => SharcCombFilter.prepared c = true) cs ->
  holds n m xs ->
  let r := DdxReverbAudioProcessor.combStage w false n cs m in
  let k := combChainL true cs xs in
  fst r = fst k /\ lenZ (snd r) = lenZ m /\
  holds n (snd r) (map (fun v => v * 0.25) (snd k)).
Proof.
  intros Hn HL HF Hm. cbv zeta. unfold DdxReverbAudioProcessor.combStage, for_range.
  replace (Z.to_nat (DdxReverbAudioProcessor.numCombs - 0)) with (length cs)
    by (unfold lenZ in HL; lia).
  destruct (comb_loop_holds w n cs [] (AudioBuffer.sized 1 n) m xs HF Hm) as (E1 & E2 & E3).
  - reflexivity.
  - change (AudioBuffer.chan (AudioBuffer.sized 1 n) 0) with (zeros n).
    rewrite lenZ_zeros. lia.
  - cbv zeta in E1, E2, E3. cbn [app] in E1, E2, E3.
    change (lenZ (@nil SharcCombFilter.t)) with 0%Z in *.
    change (0 =? 0)%Z with true in *.
    destruct (for_loop (length cs) 0 1 _ _) as [[cs' cb'] m'].
    cbn [fst snd] in *. split; [exact E1|].
    destruct E3 as (L & Hlen & Hv).
    destruct (multiply_spec m' n Hlen 0.25) as [L' P].
    split; [lia|]. split; [unfold lenZ in *; rewrite length_map; exact L|].
    split; [lia|]. intros k Hk. rewrite P.
    destruct (0 <=? k)%Z eqn:A1; [|lia]. destruct (k <? n)%Z eqn:A2; [|lia].
    cbn [andb]. rewrite Hv by exact Hk.
    rewrite (nth_indep (map _ _) 0 (0 * 0.25)) by (rewrite length_map; unfold lenZ in L; lia).
    rewrite (map_nth (fun v => v * 0.25)). reflexivity.
Qed.

Lemma allpass_chain_holds (w n : Z) (g : R) (aps : list SharcAllpassFilter.t) :
  forall (done : list SharcAllpassFilter.t) (m xs : list R),
  Forall (fun a => SharcAllpassFilter.prepared a = true) aps ->
  holds n m xs ->
  let r := fold_left
             (fun '(done, m) ap =>
                let '(ap', m') :=
                  DdxReverbAudioProcessor.runAllpass w false
                    (SharcAllpassFilter.setGain ap g) SameAsOutput m n in
                (done ++ [ap'], m'))
             aps (done, m) in
  let k := allpassChainL g aps xs in
  fst r = done ++ fst k /\ lenZ (snd r) = lenZ m /\ holds n (snd r) (snd k).
Proof.
  induction aps as [|a aps IH]; intros done m xs HF Hm; cbn [fold_left allpassChainL].
  - cbn [fst snd]. rewrite app_nil_r. auto.
  - inversion HF as [|? ? Hp HF']; subst.
    change (DdxReverbAudioProcessor.runAllpass w false (SharcAllpassFilter.setGain a g)
              SameAsOutput m n)
      with (SharcAllpassFilter.processBlockScalar (SharcAllpassFilter.setGain a g)
              SameAsOutput m n).
    destruct (allpass_holds (SharcAllpassFilter.setGain a g) m xs n Hp Hm) as (E1 & E2 & E3).
    destruct (SharcAllpassFilter.processBlockScalar (SharcAllpassFilter.setGain a g)
                SameAsOutput m n) as [a' m'].
    cbn [fst snd] in E1, E2, E3.
    destruct (IH (done ++ [a']) m' _ HF' E3) as (I1 & I2 & I3).
    cbv zeta in I1, I2, I3. cbn [fst snd]. split; [|split].
    + rewrite I1, <- app_assoc, E1. reflexivity.
    + rewrite I2. exact E2.
    + exact I3.
Qed.

Lemma allpassStage_holds (w n : Z) (g : R) (aps : list SharcAllpassFilter.t)
    (m xs : list R) :
  Forall (fun a => SharcAllpassFilter.prepared a = true) aps ->
  holds n m xs ->
  let r := DdxReverbAudioProcessor.allpassStage w false n g aps m in
  let k := allpassChainL g aps xs in
  fst r = fst k /\ lenZ (snd r) = lenZ m /\ holds n (snd r) (snd k).
Proof.
  intros HF Hm. exact (allpass_chain_holds w n g aps [] m xs HF Hm).
Qed.

Lemma downmix_holds (p : DdxReverbAudioProcessor.t) (b : AudioBuffer.t) (temp : list R) :
  (0 <= AudioBuffer.getNumSamples b <= lenZ temp)%Z ->
  lenZ (DdxReverbAudioProcessor.downmix p b temp) = lenZ temp /\
  holds (AudioBuffer.getNumSamples b) (DdxReverbAudioProcessor.downmix p b temp)
    (downmixL (DdxReverbAudioProcessor.totalNumInputChannels p) b).
Proof.
  intros Hn. unfold DdxReverbAudioProcessor.downmix, downmixL.
  set (n := AudioBuffer.getNumSamples b) in *.
  destruct (copy_spec temp (AudioBuffer.chan b 0) n) as [L1 P1]; [lia|].
  assert (Hnth : forall (f : nat -> R) (k : Z), (0 <= k < n)%Z ->
            nth (Z.to_nat k) (map f (seq 0 (Z.to_nat n))) 0 = f (Z.to_nat k)).
  { intros f k Hk.
    rewrite (nth_indep _ 0 (f 0%nat)) by (rewrite length_map, length_seq; lia).
    rewrite (map_nth f), seq_nth by lia. reflexivity. }
  destruct (DdxReverbAudioProcessor.totalNumInputChannels p >? 1)%Z.
  - destruct (add_spec (juce.FloatVectorOperations.copy temp (AudioBuffer.chan b 0) n)
                (AudioBuffer.chan b 1) n) as [L2 P2]; [lia|].
    destruct (multiply_spec
                (juce.FloatVectorOperations.add
                   (juce.FloatVectorOperations.copy temp (AudioBuffer.chan b 0) n)
                   (AudioBuffer.chan b 1) n) n) with (c := 0.5) as [L3 P3]; [lia|].
    split; [lia|]. split; [unfold lenZ; rewrite length_map, length_seq; lia|].
    split; [lia|]. intros k Hk. rewrite P3, P2, P1.
    destruct (0 <=? k)%Z eqn:A1; [|lia]. destruct (k <? n)%Z eqn:A2; [|lia].
    cbn [andb]. rewrite Hnth by exact Hk. cbv zeta. rewrite Z2Nat.id by lia. reflexivity.
  - split; [lia|]. split; [unfold lenZ; rewrite length_map, length_seq; lia|].
    split; [lia|]. intros k Hk. rewrite P1.
    destruct (0 <=? k)%Z eqn:A1; [|lia]. destruct (k <? n)%Z eqn:A2; [|lia].
    cbn [andb]. rewrite Hnth by exact Hk. cbv zeta. rewrite Z2Nat.id by lia. reflexivity.
Qed.

Lemma updateCombs_prepared (d g : R) (cs : list SharcCombFilter.t) :
  Forall (fun c => SharcCombFilter.prepared c = true) cs ->
  Forall (fun c => SharcCombFilter.prepared c = true)
    (DdxReverbAudioProcessor.updateCombs d g cs).
Proof.
  intros H. unfold DdxReverbAudioProcessor.updateCombs. apply Forall_map.
  eapply Forall_impl; [|exact H]. intros c Hc. exact Hc.
Qed.

(** The scalar wet path is [wetL] on the block's samples. *)
Lemma wetPath_holds (w : Z) (G : Statics) (p : DdxReverbAudioProcessor.t)
    (prm : Params) (b : AudioBuffer.t) :
  wellFormed p ->
  Forall (fun c => SharcCombFilter.prepared c = true) (DdxReverbAudioProcessor.combs p) ->
  Forall (fun a => SharcAllpassFilter.prepared a = true)
    (DdxReverbAudioProcessor.allpasses p) ->
  (0 <= AudioBuffer.getNumSamples b
     <= lenZ (AudioBuffer.chan (DdxReverbAudioProcessor.tempBuffer p) 0))%Z ->
  let r := DdxReverbAudioProcessor.wetPath w G p prm false b in
  let k := wetL G p prm (downmixL (DdxReverbAudioProcessor.totalNumInputChannels p) b) in
  DdxReverbAudioProcessor.wStatics r = DdxReverbAudioProcessor.wStatics k /\
  DdxReverbAudioProcessor.wPreDelayBuffer r = DdxReverbAudioProcessor.wPreDelayBuffer k /\
  DdxReverbAudioProcessor.wPreDelayWritePos r = DdxReverbAudioProcessor.wPreDelayWritePos k /\
  DdxReverbAudioProcessor.wPreDelaySamples r = DdxReverbAudioProcessor.wPreDelaySamples k /\
  DdxReverbAudioProcessor.wCombs r = DdxReverbAudioProcessor.wCombs k /\
  DdxReverbAudioProcessor.wAllpasses r = DdxReverbAudioProcessor.wAllpasses k /\
  lenZ (DdxReverbAudioProcessor.wMono r)
  = lenZ (AudioBuffer.chan (DdxReverbAudioProcessor.tempBuffer p) 0) /\
  holds (AudioBuffer.getNumSamples b) (DdxReverbAudioProcessor.wMono r)
    (DdxReverbAudioProcessor.wMono k).
Proof.
  intros [Hwc Hwa] Hpc Hpa Hn. cbv zeta.
  unfold DdxReverbAudioProcessor.wetPath, wetL.
  set (n := AudioBuffer.getNumSamples b) in *.
  set (temp := AudioBuffer.chan (DdxReverbAudioProcessor.tempBuffer p) 0) in *.
  destruct (downmix_holds p b temp Hn) as [L0 H0]. fold n in H0.
  set (xs := downmixL _ b) in *.
  destruct (hiCut_holds (hicut prm) n G _ xs H0) as (A1 & A2 & A3).
  destruct (DdxReverbAudioProcessor.hiCut (hicut prm) n G _) as [G1 m1].
  cbn [fst snd] in A1, A2, A3.
  set (pds := DdxReverbAudioProcessor.preDelayLength p (predelay prm)).
  destruct (preDelay_holds pds n (DdxReverbAudioProcessor.preDelayBuffer p)
              (DdxReverbAudioProcessor.preDelayWritePos p) m1 _ A3) as (B1 & B2 & B3).
  destruct (DdxReverbAudioProcessor.preDelay pds n _) as [[pb pp] m2].
  cbn [fst snd] in B1, B2, B3.
  set (cs := DdxReverbAudioProcessor.updateCombs _ _ _).
  destruct (combStage_holds w n cs m2 _ ltac:(lia)
              ltac:(unfold cs, DdxReverbAudioProcessor.updateCombs, lenZ;
                    rewrite length_map; exact Hwc)
              (updateCombs_prepared _ _ _ Hpc) B3) as (C1 & C2 & C3).
  destruct (DdxReverbAudioProcessor.combStage w false n cs m2) as [cs' m3].
  cbn [fst snd] in C1, C2, C3.
  destruct (allpassStage_holds w n (juce.jmap (diffusion prm) 0 20 0.3 0.7)
              (DdxReverbAudioProcessor.allpasses p) m3 _ Hpa C3) as (D1 & D2 & D3).
  destruct (DdxReverbAudioProcessor.allpassStage w false n _ _ m3) as [aps' m4].
  cbn [fst snd] in D1, D2, D3.
  cbn [DdxReverbAudioProcessor.wStatics DdxReverbAudioProcessor.wPreDelayBuffer
       DdxReverbAudioProcessor.wPreDelayWritePos DdxReverbAudioProcessor.wPreDelaySamples
       DdxReverbAudioProcessor.wCombs DdxReverbAudioProcessor.wAllpasses
       DdxReverbAudioProcessor.wMono].
  rewrite <- B1. cbn [fst snd].
  repeat split; try assumption; try reflexivity; try lia; try apply D3.
Qed.

(** ** A block cut in two, stage by stage *)

Lemma hiCutL_app (h : R) (G : Statics) (xs ys : list R) :
  hiCutL h G (xs ++ ys)
  = (fst (hiCutL h (fst (hiCutL h G xs)) ys),
     snd (hiCutL h G xs) ++ snd (hiCutL h (fst (hiCutL h G xs)) ys)).
Proof.
  unfold hiCutL. destruct (gtb h 0.01); [apply run_app|reflexivity].
Qed.

Lemma preDelayL_app (D : Z) (st : list R * Z) (xs ys : list R) :
  preDelayL D st (xs ++ ys)
  = (fst (preDelayL D (fst (preDelayL D st xs)) ys),
     snd (preDelayL D st xs) ++ snd (preDelayL D (fst (preDelayL D st xs)) ys)).
Proof.
  unfold preDelayL. destruct (D >? 0)%Z; [apply run_app|reflexivity].
Qed.

Lemma preDelayL_line_length (D : Z) (xs : list R) :
  forall st, lenZ (fst (fst (preDelayL D st xs))) = lenZ (fst st).
Proof.
  unfold preDelayL. destruct (D >? 0)%Z; [|reflexivity].
  induction xs as [|x xs IH]; intros [buf pos]; cbn [Spec.run]; [reflexivity|].
  unfold preDelayStep at 1.
  specialize (IH (wr buf pos x,
                  if (pos + 1 >=? lenZ buf)%Z then 0%Z else (pos + 1)%Z)).
  destruct (Spec.run (preDelayStep D) _ xs) as [st2 o2].
  cbn [fst snd] in *. rewrite IH. apply lenZ_wr.
Qed.

Lemma combL_length (f : SharcCombFilter.t) (xs : list R) :
  length (snd (combL f xs)) = length xs.
Proof. unfold combL, Spec.combRun. cbn [snd]. apply run_length. Qed.

Lemma allpassL_length (f : SharcAllpassFilter.t) (xs : list R) :
  length (snd (allpassL f xs)) = length xs.
Proof. unfold allpassL, Spec.allpassRun. cbn [snd]. apply run_length. Qed.

Lemma combL_app (f : SharcCombFilter.t) (xs ys : list R) :
  combL f (xs ++ ys)
  = (fst (combL (fst (combL f xs)) ys),
     snd (combL f xs) ++ snd (combL (fst (combL f xs)) ys)).
Proof.
  unfold combL, Spec.combRun. rewrite run_app.
  cbn [fst snd SharcCombFilter.delayLine SharcCombFilter.delaySamples
       SharcCombFilter.writeIndex SharcCombFilter.feedbackGain
       SharcCombFilter.dampingCoeff SharcCombFilter.filterState
       SharcCombFilter.sRate SharcCombFilter.prepared].
  destruct (Spec.run _ _ xs) as [[[l c] s] o]. cbn [fst snd]. reflexivity.
Qed.

Lemma allpassL_app (f : SharcAllpassFilter.t) (xs ys : list R) :
  allpassL f (xs ++ ys)
  = (fst (allpassL (fst (allpassL f xs)) ys),
     snd (allpassL f xs) ++ snd (allpassL (fst (allpassL f xs)) ys)).
Proof.
  unfold allpassL, Spec.allpassRun. rewrite run_app.
  cbn [fst snd SharcAllpassFilter.delayLine SharcAllpassFilter.delaySamples
       SharcAllpassFilter.writeIndex SharcAllpassFilter.apGain
       SharcAllpassFilter.prepared].
  destruct (Spec.run _ _ xs) as [[l c] o]. cbn [fst snd]. reflexivity.
Qed.

Lemma combChainL_length (cs : list SharcCombFilter.t) :
  forall first xs,
  length (fst (combChainL first cs xs)) = length cs /\
  length (snd (combChainL first cs xs)) = length xs.
Proof.
  induction cs as [|c cs IH]; intros first xs; cbn [combChainL fst snd length]; [auto|].
  destruct (IH false (if first then snd (combL c xs) else addL xs (snd (combL c xs))))
    as [I1 I2].
  rewrite I1, I2. split; [reflexivity|].
  destruct first; [apply combL_length|].
  apply addL_length. now rewrite combL_length.
Qed.

Lemma combChainL_app (cs : list SharcCombFilter.t) :
  forall first xs ys,
  combChainL first cs (xs ++ ys)
  = (fst (combChainL first (fst (combChainL first cs xs)) ys),
     snd (combChainL first cs xs)
       ++ snd (combChainL first (fst (combChainL first cs xs)) ys)).
Proof.
  induction cs as [|c cs IH]; intros first xs ys; cbn [combChainL fst snd]; [reflexivity|].
  rewrite combL_app. cbn [fst snd]. destruct first.
  - rewrite IH. reflexivity.
  - rewrite addL_app by now rewrite combL_length. rewrite IH. reflexivity.
Qed.

Lemma allpassChainL_length (g : R) (aps : list SharcAllpassFilter.t) :
  forall xs,
  length (fst (allpassChainL g aps xs)) = length aps /\
  length (snd (allpassChainL g aps xs)) = length xs.
Proof.
  induction aps as [|a aps IH]; intros xs; cbn [allpassChainL fst snd length]; [auto|].
  destruct (IH (snd (allpassL (SharcAllpassFilter.setGain a g) xs))) as [I1 I2].
  rewrite I1, I2, allpassL_length. auto.
Qed.

Lemma allpassChainL_app (g : R) (aps : list SharcAllpassFilter.t) :
  forall xs ys,
  allpassChainL g aps (xs ++ ys)
  = (fst (allpassChainL g (fst (allpassChainL g aps xs)) ys),
     snd (allpassChainL g aps xs)
       ++ snd (allpassChainL g (fst (allpassChainL g aps xs)) ys)).
Proof.
  induction aps as [|a aps IH]; intros xs ys; cbn [allpassChainL fst snd]; [reflexivity|].
  rewrite allpassL_app. cbn [fst snd]. rewrite IH.
  change (SharcAllpassFilter.setGain
            (fst (allpassL (SharcAllpassFilter.setGain a g) xs)) g)
    with (fst (allpassL (SharcAllpassFilter.setGain a g) xs)).
  reflexivity.
Qed.

(** The combs a block leaves carry the gain and the damping coefficient
    the block set: setting them again from the same parameters changes
    nothing. *)
Lemma updateCombs_again (d g : R) (cs : list SharcCombFilter.t) :
  forall first xs,
  DdxReverbAudioProcessor.updateCombs d g
    (fst (combChainL first (DdxReverbAudioProcessor.updateCombs d g cs) xs))
  = fst (combChainL first (DdxReverbAudioProcessor.updateCombs d g cs) xs).
Proof.
  induction cs as [|c cs IH]; intros first xs; [reflexivity|].
  change (DdxReverbAudioProcessor.updateCombs d g (c :: cs))
    with (SharcCombFilter.setGain (SharcCombFilter.setDampingFreq c d) g
            :: DdxReverbAudioProcessor.updateCombs d g cs).
  cbn [combChainL fst snd].
  change (DdxReverbAudioProcessor.updateCombs d g (?a :: ?l))
    with (SharcCombFilter.setGain (SharcCombFilter.setDampingFreq a d) g
            :: DdxReverbAudioProcessor.updateCombs d g l).
  rewrite IH. reflexivity.
Qed.

Lemma map_scale_app (k : R) (xs ys : list R) :
  map (fun v => v * k) (xs ++ ys) = map (fun v => v * k) xs ++ map (fun v => v * k) ys.
Proof. apply map_app. Qed.

(** The wet path on a block cut in two: the second part starts from what
    the first left. *)
Lemma wetL_app (G : Statics) (p p1 : DdxReverbAudioProcessor.t) (prm : Params)
    (xs ys : list R) :
  let k1 := wetL G p prm xs in
  DdxReverbAudioProcessor.combs p1 = DdxReverbAudioProcessor.wCombs k1 ->
  DdxReverbAudioProcessor.allpasses p1 = DdxReverbAudioProcessor.wAllpasses k1 ->
  DdxReverbAudioProcessor.preDelayBuffer p1 = DdxReverbAudioProcessor.wPreDelayBuffer k1 ->
  DdxReverbAudioProcessor.preDelayWritePos p1
  = DdxReverbAudioProcessor.wPreDelayWritePos k1 ->
  DdxReverbAudioProcessor.currentSampleRate p1
  = DdxReverbAudioProcessor.currentSampleRate p ->
  let k2 := wetL (DdxReverbAudioProcessor.wStatics k1) p1 prm ys in
  wetL G p prm (xs ++ ys)
  = DdxReverbAudioProcessor.mkWet
      (DdxReverbAudioProcessor.wStatics k2) (DdxReverbAudioProcessor.wPreDelayBuffer k2)
      (DdxReverbAudioProcessor.wPreDelayWritePos k2)
      (DdxReverbAudioProcessor.wPreDelaySamples k2)
      (DdxReverbAudioProcessor.wCombs k2) (DdxReverbAudioProcessor.wAllpasses k2)
      (DdxReverbAudioProcessor.wMono k1 ++ DdxReverbAudioProcessor.wMono k2).
Proof.
  intros k1 Hc Ha Hb Hp Hs k2. unfold k2, wetL.
  rewrite Hc, Ha, Hb, Hp, Hs.
  assert (HD : DdxReverbAudioProcessor.preDelayLength p1 (predelay prm)
               = DdxReverbAudioProcessor.preDelayLength p (predelay prm)).
  { unfold DdxReverbAudioProcessor.preDelayLength. rewrite Hb, Hs.
    unfold k1, wetL. cbn [DdxReverbAudioProcessor.wPreDelayBuffer].
    rewrite preDelayL_line_length. reflexivity. }
  rewrite HD. unfold k1, wetL.
  cbn [DdxReverbAudioProcessor.wStatics DdxReverbAudioProcessor.wPreDelayBuffer
       DdxReverbAudioProcessor.wPreDelayWritePos DdxReverbAudioProcessor.wPreDelaySamples
       DdxReverbAudioProcessor.wCombs DdxReverbAudioProcessor.wAllpasses
       DdxReverbAudioProcessor.wMono].
  rewrite updateCombs_again.
  rewrite hiCutL_app. cbn [fst snd].
  rewrite preDelayL_app. cbn [fst snd].
  rewrite combChainL_app. cbn [fst snd].
  rewrite map_scale_app, allpassChainL_app. cbn [fst snd].
  rewrite <- !surjective_pairing. reflexivity.
Qed.

(** ** One scalar block in terms of its samples *)

Lemma rd_app_split (a b : list R) (i : Z) :
  (0 <= i)%Z ->
  rd (a ++ b) i = if (i <? lenZ a)%Z then rd a i else rd b (i - lenZ a).
Proof.
  intros Hi. unfold rdA, lenZ. destruct (i <? 0)%Z eqn:E; [lia|].
  destruct (i <? Z.of_nat (length a))%Z eqn:E1.
  - apply app_nth1. lia.
  - destruct (i - Z.of_nat (length a) <? 0)%Z eqn:E2; [lia|].
    rewrite app_nth2 by lia. f_equal. lia.
Qed.

Lemma rd_nil (i : Z) : rd [] i = 0.
Proof.
  unfold rdA. destruct (i <? 0)%Z; [reflexivity|now destruct (Z.to_nat i)].
Qed.

Lemma chan_absent (b : AudioBuffer.t) (ch : Z) :
  ~ (0 <= ch < AudioBuffer.getNumChannels b)%Z -> AudioBuffer.chan b ch = [].
Proof.
  intros H. unfold AudioBuffer.chan.
  destruct (Z_lt_ge_dec ch 0) as [Hn|Hp].
  - unfold rdA. destruct (ch <? 0)%Z eqn:E; [reflexivity|lia].
  - apply rd_outside. unfold AudioBuffer.getNumChannels in H. lia.
Qed.

Lemma cut_fits (p : DdxReverbAudioProcessor.t) (whole b1 b2 : AudioBuffer.t) :
  fits p b1 -> fits p b2 -> cutInto whole b1 b2 -> fits p whole.
Proof.
  intros Hf1 Hf2 (HN & HC1 & HC2 & Hch).
  pose proof Hf1 as (Hin & Hout & Hns & _). pose proof Hf2 as (_ & _ & Hns2 & _).
  split; [exact Hin|]. split; [lia|]. split; [lia|].
  apply (Forall_rd _ []). intros ch Hc.
  fold (AudioBuffer.chan whole ch). rewrite Hch.
  unfold lenZ. rewrite length_app.
  pose proof (fits_chan_length p b1 ch Hf1) as L1.
  pose proof (fits_chan_length p b2 ch Hf2) as L2.
  unfold AudioBuffer.getNumChannels, lenZ in *. lia.
Qed.

(** A sample of the whole block is a sample of one of its parts. *)
Lemma rd_cut (p : DdxReverbAudioProcessor.t) (whole b1 b2 : AudioBuffer.t) (ch i : Z) :
  fits p b1 -> fits p b2 -> cutInto whole b1 b2 -> (0 <= i)%Z ->
  rd (AudioBuffer.chan whole ch) i
  = if (i <? AudioBuffer.getNumSamples b1)%Z then rd (AudioBuffer.chan b1 ch) i
    else rd (AudioBuffer.chan b2 ch) (i - AudioBuffer.getNumSamples b1).
Proof.
  intros Hf1 Hf2 (HN & HC1 & HC2 & Hch) Hi. rewrite Hch.
  destruct (Z_lt_ge_dec ch 0) as [Hn|Hp];
    [|destruct (Z_lt_ge_dec ch (AudioBuffer.getNumChannels b1)) as [Hl|Hg]].
  - rewrite (chan_absent b1), (chan_absent b2) by lia. cbn [app].
    rewrite !rd_nil. now destruct (i <? AudioBuffer.getNumSamples b1)%Z.
  - rewrite rd_app_split by exact Hi.
    rewrite (fits_chan_length p b1 ch Hf1) by lia. reflexivity.
  - rewrite (chan_absent b1), (chan_absent b2) by lia. cbn [app].
    rewrite !rd_nil. now destruct (i <? AudioBuffer.getNumSamples b1)%Z.
Qed.

Lemma clearUnused_cut (p : DdxReverbAudioProcessor.t) (whole b1 b2 : AudioBuffer.t) :
  fits p b1 -> fits p b2 -> cutInto whole b1 b2 ->
  cutInto (DdxReverbAudioProcessor.clearUnused p whole)
    (DdxReverbAudioProcessor.clearUnused p b1) (DdxReverbAudioProcessor.clearUnused p b2).
Proof.
  intros Hf1 Hf2 Hcut. pose proof (cut_fits p whole b1 b2 Hf1 Hf2 Hcut) as Hf.
  destruct (clearUnused_spec p whole Hf) as (N & C & Lo & Hi).
  destruct (clearUnused_spec p b1 Hf1) as (N1 & C1 & Lo1 & Hi1).
  destruct (clearUnused_spec p b2 Hf2) as (N2 & C2 & Lo2 & Hi2).
  pose proof Hcut as (HN & HC1 & HC2 & Hch).
  pose proof Hf1 as (_ & _ & Hns1 & _). pose proof Hf2 as (_ & _ & Hns2 & _).
  split; [lia|]. split; [lia|]. split; [lia|]. intros ch.
  destruct (Z_lt_ge_dec ch (DdxReverbAudioProcessor.totalNumInputChannels p)) as [Hl|Hg].
  - rewrite Lo, Lo1, Lo2 by exact Hl. apply Hch.
  - destruct (Z_lt_ge_dec ch (DdxReverbAudioProcessor.totalNumOutputChannels p))
      as [Hl2|Hg2].
    + destruct (Hi ch ltac:(lia)) as [L V].
      destruct (Hi1 ch ltac:(lia)) as [L1 V1].
      destruct (Hi2 ch ltac:(lia)) as [L2 V2].
      apply (list_eq_rd _ _ 0).
      * unfold lenZ in *. rewrite length_app. lia.
      * intros k Hk. rewrite V by lia. rewrite rd_app_split by lia. rewrite L1.
        destruct (k <? AudioBuffer.getNumSamples b1)%Z eqn:E.
        -- rewrite V1 by lia. reflexivity.
        -- rewrite V2 by lia. reflexivity.
    + rewrite !clearUnused_untouched by lia. apply Hch.
Qed.

Lemma nth_map_seq (f : nat -> R) (n k : nat) :
  (k < n)%nat -> nth k (map f (seq 0 n)) 0 = f k.
Proof.
  intros Hk. rewrite (nth_indep _ 0 (f 0%nat)) by (rewrite length_map, length_seq; lia).
  rewrite (map_nth f (seq 0 n) 0%nat k), seq_nth by lia. reflexivity.
Qed.

Lemma downmixL_length (nIn : Z) (b : AudioBuffer.t) :
  length (downmixL nIn b) = Z.to_nat (AudioBuffer.getNumSamples b).
Proof. unfold downmixL. now rewrite length_map, length_seq. Qed.

Lemma downmixL_cut (p : DdxReverbAudioProcessor.t) (nIn : Z) (whole b1 b2 : AudioBuffer.t) :
  fits p b1 -> fits p b2 -> cutInto whole b1 b2 ->
  downmixL nIn whole = downmixL nIn b1 ++ downmixL nIn b2.
Proof.
  intros Hf1 Hf2 Hcut. pose proof Hcut as (HN & _).
  pose proof Hf1 as (_ & _ & Hns1 & _). pose proof Hf2 as (_ & _ & Hns2 & _).
  apply (nth_ext _ _ 0 0).
  - rewrite length_app, !downmixL_length. lia.
  - intros k Hk. rewrite downmixL_length in Hk.
    assert (Hw : nth k (downmixL nIn whole) 0
                 = if (nIn >? 1)%Z
                   then (rd (AudioBuffer.chan whole 0) (Z.of_nat k)
                         + rd (AudioBuffer.chan whole 1) (Z.of_nat k)) * 0.5
                   else rd (AudioBuffer.chan whole 0) (Z.of_nat k))
      by (unfold downmixL; now rewrite nth_map_seq by lia).
    rewrite Hw.
    rewrite !(rd_cut p whole b1 b2 _ (Z.of_nat k) Hf1 Hf2 Hcut) by lia.
    destruct (Z.of_nat k <? AudioBuffer.getNumSamples b1)%Z eqn:E.
    + rewrite app_nth1 by (rewrite downmixL_length; lia).
      unfold downmixL. now rewrite nth_map_seq by lia.
    + rewrite app_nth2 by (rewrite downmixL_length; lia).
      rewrite downmixL_length. unfold downmixL. rewrite nth_map_seq by lia.
      cbv zeta.
      replace (Z.of_nat (k - Z.to_nat (AudioBuffer.getNumSamples b1)))
        with (Z.of_nat k - AudioBuffer.getNumSamples b1)%Z by lia.
      reflexivity.
Qed.

Lemma combChainL_prepared (cs : list SharcCombFilter.t) :
  forall first xs,
  Forall (fun c => SharcCombFilter.prepared c = true) cs ->
  Forall (fun c => SharcCombFilter.prepared c = true) (fst (combChainL first cs xs)).
Proof.
  induction cs as [|c cs IH]; intros first xs H; cbn [combChainL fst]; [constructor|].
  inversion H; subst. constructor; [assumption|]. now apply IH.
Qed.

Lemma allpassChainL_prepared (g : R) (aps : list SharcAllpassFilter.t) :
  forall xs,
  Forall (fun a => SharcAllpassFilter.prepared a = true) aps ->
  Forall (fun a => SharcAllpassFilter.prepared a = true) (fst (allpassChainL g aps xs)).
Proof.
  induction aps as [|a aps IH]; intros xs H; cbn [allpassChainL fst]; [constructor|].
  inversion H; subst. constructor; [assumption|]. now apply IH.
Qed.

Lemma mixStage_numChannels (p : DdxReverbAudioProcessor.t) (dry : AudioBuffer.t)
    (mono : list R) (w : R) (b : AudioBuffer.t) :
  AudioBuffer.getNumSamples (DdxReverbAudioProcessor.mixStage p dry mono w b)
  = AudioBuffer.getNumSamples b /\
  AudioBuffer.getNumChannels (DdxReverbAudioProcessor.mixStage p dry mono w b)
  = AudioBuffer.getNumChannels b.
Proof.
  destruct (mixStage_channels p dry mono w b) as [HN HC]. cbv zeta in HC.
  split; [exact HN|]. unfold AudioBuffer.getNumChannels. rewrite HC. unfold for_range.
  apply (for_loop_inv (fun chs => lenZ chs = lenZ (AudioBuffer.channels b)));
    [|reflexivity].
  intros j chs Hc. now rewrite lenZ_wr.
Qed.

Lemma scratch_length (temp : AudioBuffer.t) (d : list R) :
  lenZ d = lenZ (AudioBuffer.chan temp 0) ->
  lenZ (AudioBuffer.chan (AudioBuffer.setChan temp 0 d) 0) = lenZ (AudioBuffer.chan temp 0).
Proof.
  intros H. unfold AudioBuffer.setChan, AudioBuffer.chan in *. cbn [AudioBuffer.channels].
  destruct (AudioBuffer.channels temp) as [|c cs]; [reflexivity|].
  rewrite rd_wr_same by (unfold lenZ; cbn [length]; lia). exact H.
Qed.

(** A running block on the scalar path: the statics, the filters and the
    pre-delay are what [wetL] leaves, and every output channel is the dry
    block times [1 - wet] plus the samples of [wetL] times the wet gain. *)
Lemma processBlock_scalar_samples (w : Z) (G : Statics) (p : DdxReverbAudioProcessor.t)
    (prm : Params) (b : AudioBuffer.t) (t0 t1 : R) :
  wellFormed p ->
  Forall (fun c => SharcCombFilter.prepared c = true) (DdxReverbAudioProcessor.combs p) ->
  Forall (fun a => SharcAllpassFilter.prepared a = true)
    (DdxReverbAudioProcessor.allpasses p) ->
  fits p b ->
  gtb (bypass prm) 0.5 = false -> gtb (simd prm) 0.5 = false ->
  (AudioBuffer.getNumSamples b
     <= lenZ (AudioBuffer.chan (DdxReverbAudioProcessor.tempBuffer p) 0))%Z ->
  let r := DdxReverbAudioProcessor.processBlock w G p prm b t0 t1 in
  let p' := snd (fst r) in
  let dry := DdxReverbAudioProcessor.clearUnused p b in
  let k := wetL G p prm (downmixL (DdxReverbAudioProcessor.totalNumInputChannels p) dry) in
  (fst (fst r) = DdxReverbAudioProcessor.wStatics k /\
   DdxReverbAudioProcessor.combs p' = DdxReverbAudioProcessor.wCombs k /\
   DdxReverbAudioProcessor.allpasses p' = DdxReverbAudioProcessor.wAllpasses k /\
   DdxReverbAudioProcessor.preDelayBuffer p' = DdxReverbAudioProcessor.wPreDelayBuffer k /\
   DdxReverbAudioProcessor.preDelayWritePos p'
   = DdxReverbAudioProcessor.wPreDelayWritePos k /\
   DdxReverbAudioProcessor.preDelaySamples p'
   = DdxReverbAudioProcessor.wPreDelaySamples k) /\
  (DdxReverbAudioProcessor.totalNumInputChannels p'
   = DdxReverbAudioProcessor.totalNumInputChannels p /\
   DdxReverbAudioProcessor.totalNumOutputChannels p'
   = DdxReverbAudioProcessor.totalNumOutputChannels p /\
   DdxReverbAudioProcessor.currentSampleRate p'
   = DdxReverbAudioProcessor.currentSampleRate p /\
   lenZ (AudioBuffer.chan (DdxReverbAudioProcessor.tempBuffer p') 0)
   = lenZ (AudioBuffer.chan (DdxReverbAudioProcessor.tempBuffer p) 0)) /\
  AudioBuffer.getNumSamples (snd r) = AudioBuffer.getNumSamples b /\
  AudioBuffer.getNumChannels (snd r) = AudioBuffer.getNumChannels b /\
  (forall ch, (0 <= ch < DdxReverbAudioProcessor.totalNumOutputChannels p)%Z ->
     lenZ (AudioBuffer.chan (snd r) ch) = AudioBuffer.getNumSamples b /\
     forall i, (0 <= i < AudioBuffer.getNumSamples b)%Z ->
       rd (AudioBuffer.chan (snd r) ch) i
       = rd (AudioBuffer.chan dry ch) i * (1 - wet prm)
         + nth (Z.to_nat i) (DdxReverbAudioProcessor.wMono k) 0
           * (if (ch =? 1)%Z then - wet prm else wet prm)) /\
  (forall ch, ~ (0 <= ch < DdxReverbAudioProcessor.totalNumOutputChannels p)%Z ->
     AudioBuffer.chan (snd r) ch = AudioBuffer.chan dry ch).
Proof.
  intros Hwf Hpc Hpa Hf Hb Hs Ht r p' dry k.
  pose proof (clearUnused_fits p b Hf) as Hfd. fold dry in Hfd.
  destruct (clearUnused_spec p b Hf) as (HN & HC & _). fold dry in HN, HC.
  pose proof Hf as (Hin & Hout & Hns & _).
  destruct (wetPath_holds w G p prm dry Hwf Hpc Hpa ltac:(lia))
    as (W1 & W2 & W3 & W4 & W5 & W6 & W7 & W8).
  fold k in W1, W2, W3, W4, W5, W6, W8.
  assert (Er : r = DdxReverbAudioProcessor.processBlock w G p prm b t0 t1) by reflexivity.
  rewrite processBlock_running in Er by exact Hb. cbv zeta in Er. rewrite Hs in Er.
  fold dry in Er.
  set (wr_ := DdxReverbAudioProcessor.wetPath w G p prm false dry) in *.
  unfold p'. rewrite Er. cbn [fst snd DdxReverbAudioProcessor.combs
    DdxReverbAudioProcessor.allpasses DdxReverbAudioProcessor.preDelayBuffer
    DdxReverbAudioProcessor.preDelayWritePos DdxReverbAudioProcessor.preDelaySamples
    DdxReverbAudioProcessor.totalNumInputChannels
    DdxReverbAudioProcessor.totalNumOutputChannels
    DdxReverbAudioProcessor.currentSampleRate DdxReverbAudioProcessor.tempBuffer].
  destruct (mixStage_numChannels p dry (DdxReverbAudioProcessor.wMono wr_) (wet prm) dry)
    as [MN MC].
  split; [repeat split; assumption|].
  split; [repeat split; try reflexivity; apply scratch_length; exact W7|].
  split; [lia|]. split; [lia|]. split.
  - intros ch Hch.
    destruct (mixStage_sample p dry (DdxReverbAudioProcessor.wMono wr_) (wet prm) ch Hfd Hch)
      as [L V].
    split; [lia|]. intros i Hi. rewrite V by lia.
    destruct W8 as (_ & _ & Hv). rewrite Hv by lia. reflexivity.
  - intros ch Hch.
    destruct (Z_lt_ge_dec ch 0) as [Hn|Hp].
    + rewrite !chan_absent by lia. reflexivity.
    + apply mixStage_untouched. lia.
Qed.

Lemma hiCutL_length (h : R) (G : Statics) (xs : list R) :
  length (snd (hiCutL h G xs)) = length xs.
Proof. unfold hiCutL. destruct (gtb h 0.01); [apply run_length|reflexivity]. Qed.

Lemma preDelayL_length (D : Z) (st : list R * Z) (xs : list R) :
  length (snd (preDelayL D st xs)) = length xs.
Proof. unfold preDelayL. destruct (D >? 0)%Z; [apply run_length|reflexivity]. Qed.

Lemma wetL_length (G : Statics) (p : DdxReverbAudioProcessor.t) (prm : Params)
    (xs : list R) :
  length (DdxReverbAudioProcessor.wMono (wetL G p prm xs)) = length xs /\
  length (DdxReverbAudioProcessor.wCombs (wetL G p prm xs))
  = length (DdxReverbAudioProcessor.combs p) /\
  length (DdxReverbAudioProcessor.wAllpasses (wetL G p prm xs))
  = length (DdxReverbAudioProcessor.allpasses p).
Proof.
  unfold wetL. cbn [DdxReverbAudioProcessor.wMono DdxReverbAudioProcessor.wCombs
    DdxReverbAudioProcessor.wAllpasses].
  split; [|split].
  - rewrite (proj2 (allpassChainL_length _ _ _)), length_map.
    rewrite (proj2 (combChainL_length _ _ _)), preDelayL_length, hiCutL_length.
    reflexivity.
  - rewrite (proj1 (combChainL_length _ _ _)).
    unfold DdxReverbAudioProcessor.updateCombs. apply length_map.
  - apply (proj1 (allpassChainL_length _ _ _)).
Qed.

Lemma wetL_prepared (G : Statics) (p : DdxReverbAudioProcessor.t) (prm : Params)
    (xs : list R) :
  Forall (fun c => SharcCombFilter.prepared c = true) (DdxReverbAudioProcessor.combs p) ->
  Forall (fun a => SharcAllpassFilter.prepared a = true)
    (DdxReverbAudioProcessor.allpasses p) ->
  Forall (fun c => SharcCombFilter.prepared c = true)
    (DdxReverbAudioProcessor.wCombs (wetL G p prm xs)) /\
  Forall (fun a => SharcAllpassFilter.prepared a = true)
    (DdxReverbAudioProcessor.wAllpasses (wetL G p prm xs)).
Proof.
  intros Hc Ha. unfold wetL. cbn [DdxReverbAudioProcessor.wCombs
    DdxReverbAudioProcessor.wAllpasses]. split.
  - apply combChainL_prepared. now apply updateCombs_prepared.
  - now apply allpassChainL_prepared.
Qed.

Lemma clearUnused_layout (p p1 : DdxReverbAudioProcessor.t) (b : AudioBuffer.t) :
  DdxReverbAudioProcessor.totalNumInputChannels p1
  = DdxReverbAudioProcessor.totalNumInputChannels p ->
  DdxReverbAudioProcessor.totalNumOutputChannels p1
  = DdxReverbAudioProcessor.totalNumOutputChannels p ->
  DdxReverbAudioProcessor.clearUnused p1 b = DdxReverbAudioProcessor.clearUnused p b.
Proof. intros H1 H2. unfold DdxReverbAudioProcessor.clearUnused. now rewrite H1, H2. Qed.

Lemma fits_layout (p p1 : DdxReverbAudioProcessor.t) (b : AudioBuffer.t) :
  DdxReverbAudioProcessor.totalNumInputChannels p1
  = DdxReverbAudioProcessor.totalNumInputChannels p ->
  DdxReverbAudioProcessor.totalNumOutputChannels p1
  = DdxReverbAudioProcessor.totalNumOutputChannels p ->
  fits p b -> fits p1 b.
Proof. intros H1 H2. unfold fits. now rewrite H1, H2. Qed.

(** The same on either path, the SIMD path taken on filters whose delays
    are at least the register width. *)
Lemma processBlock_samples (w : Z) (G : Statics) (p : DdxReverbAudioProcessor.t)
    (prm : Params) (b : AudioBuffer.t) (t0 t1 : R) :
  wellFormed p ->
  Forall (fun c => SharcCombFilter.prepared c = true) (DdxReverbAudioProcessor.combs p) ->
  Forall (fun a => SharcAllpassFilter.prepared a = true)
    (DdxReverbAudioProcessor.allpasses p) ->
  fits p b ->
  gtb (bypass prm) 0.5 = false ->
  (gtb (simd prm) 0.5 = true -> (1 <= w <= 8)%Z /\ simdSafe w p) ->
  (AudioBuffer.getNumSamples b
     <= lenZ (AudioBuffer.chan (DdxReverbAudioProcessor.tempBuffer p) 0))%Z ->
  let r := DdxReverbAudioProcessor.processBlock w G p prm b t0 t1 in
  let p' := snd (fst r) in
  let dry := DdxReverbAudioProcessor.clearUnused p b in
  let k := wetL G p prm (downmixL (DdxReverbAudioProcessor.totalNumInputChannels p) dry) in
  (fst (fst r) = DdxReverbAudioProcessor.wStatics k /\
   DdxReverbAudioProcessor.combs p' = DdxReverbAudioProcessor.wCombs k /\
   DdxReverbAudioProcessor.allpasses p' = DdxReverbAudioProcessor.wAllpasses k /\
   DdxReverbAudioProcessor.preDelayBuffer p' = DdxReverbAudioProcessor.wPreDelayBuffer k /\
   DdxReverbAudioProcessor.preDelayWritePos p'
   = DdxReverbAudioProcessor.wPreDelayWritePos k /\
   DdxReverbAudioProcessor.preDelaySamples p'
   = DdxReverbAudioProcessor.wPreDelaySamples k) /\
  (DdxReverbAudioProcessor.totalNumInputChannels p'
   = DdxReverbAudioProcessor.totalNumInputChannels p /\
   DdxReverbAudioProcessor.totalNumOutputChannels p'
   = DdxReverbAudioProcessor.totalNumOutputChannels p /\
   DdxReverbAudioProcessor.currentSampleRate p'
   = DdxReverbAudioProcessor.currentSampleRate p /\
   lenZ (AudioBuffer.chan (DdxReverbAudioProcessor.tempBuffer p') 0)
   = lenZ (AudioBuffer.chan (DdxReverbAudioProcessor.tempBuffer p) 0)) /\
  AudioBuffer.getNumSamples (snd r) = AudioBuffer.getNumSamples b /\
  AudioBuffer.getNumChannels (snd r) = AudioBuffer.getNumChannels b /\
  (forall ch, (0 <= ch < DdxReverbAudioProcessor.totalNumOutputChannels p)%Z ->
     lenZ (AudioBuffer.chan (snd r) ch) = AudioBuffer.getNumSamples b /\
     forall i, (0 <= i < AudioBuffer.getNumSamples b)%Z ->
       rd (AudioBuffer.chan (snd r) ch) i
       = rd (AudioBuffer.chan dry ch) i * (1 - wet prm)
         + nth (Z.to_nat i) (DdxReverbAudioProcessor.wMono k) 0
           * (if (ch =? 1)%Z then - wet prm else wet prm)) /\
  (forall ch, ~ (0 <= ch < DdxReverbAudioProcessor.totalNumOutputChannels p)%Z ->
     AudioBuffer.chan (snd r) ch = AudioBuffer.chan dry ch) /\
  (gtb (simd prm) 0.5 = true -> simdSafe w p').
Proof.
  intros Hwf Hpc Hpa Hf Hb Hsafe Ht r p' dry k.
  destruct (gtb (simd prm) 0.5) eqn:Hs.
  - destruct (Hsafe eq_refl) as [Hw Hss].
    pose proof Hf as (_ & _ & Hns & _).
    destruct (block_simdOff w G p p (mkBlock prm b t0 t1) Hw eq_refl Hss Hns)
      as (E1 & E2 & E3 & E4).
    cbv zeta in E1, E2, E3, E4.
    cbn [bParams bBuffer bStart bEnd simdOff] in E1, E2, E3, E4.
    fold r in E1, E2, E3, E4. fold p' in E3, E4.
    set (prm' := mkParams (decay prm) (predelay prm) (damping prm) (diffusion prm)
                   (hicut prm) (bassmult prm) (wet prm) (bypass prm) 0) in *.
    destruct (processBlock_scalar_samples w G p prm' b t0 t1 Hwf Hpc Hpa Hf Hb
                (gtb_false 0 0.5 ltac:(lra)) Ht) as (A & B & N & C & V & U).
    cbv zeta in A, B, V, U.
    set (r' := DdxReverbAudioProcessor.processBlock w G p prm' b t0 t1) in *.
    change (wetL G p prm'
              (downmixL (DdxReverbAudioProcessor.totalNumInputChannels p)
                 (DdxReverbAudioProcessor.clearUnused p b))) with k in A, V.
    change (DdxReverbAudioProcessor.clearUnused p b) with dry in V, U.
    change (wet prm') with (wet prm) in V.
    assert (F : forall X (f : DdxReverbAudioProcessor.t -> X),
              (forall q, f (forgetSimd q) = f q) -> f p' = f (snd (fst r'))).
    { intros X f Hq. rewrite <- (Hq p'), <- (Hq (snd (fst r'))). now rewrite E3. }
    rewrite E1, E2.
    rewrite (F _ DdxReverbAudioProcessor.combs), (F _ DdxReverbAudioProcessor.allpasses),
      (F _ DdxReverbAudioProcessor.preDelayBuffer),
      (F _ DdxReverbAudioProcessor.preDelayWritePos),
      (F _ DdxReverbAudioProcessor.preDelaySamples),
      (F _ DdxReverbAudioProcessor.totalNumInputChannels),
      (F _ DdxReverbAudioProcessor.totalNumOutputChannels),
      (F _ DdxReverbAudioProcessor.currentSampleRate),
      (F _ DdxReverbAudioProcessor.tempBuffer) by reflexivity.
    repeat (split; [assumption|]). intros _. exact E4.
  - destruct (processBlock_scalar_samples w G p prm b t0 t1 Hwf Hpc Hpa Hf Hb Hs Ht)
      as (A & B & N & C & V & U).
    repeat (split; [assumption|]). intros H. discriminate H.
Qed.

(** X19.  Where the host cuts the audio into blocks cannot be heard.  A
    stretch of audio handed to [processBlock] in one call, or cut at any
    point into two calls one after the other with the same parameter
    values, gives the same output samples on every channel and leaves the
    same hi-cut memory, comb and allpass filters and pre-delay line behind -
    bypassed or running, on the scalar path and, where every filter delay
    is at least the register width, on the SIMD path.  The filters are
    prepared and the scratch buffer holds the whole stretch. *)
Theorem X19_block_cut_is_inaudible (w : Z) (G : Statics)
    (p : DdxReverbAudioProcessor.t) (prm : Params) (whole b1 b2 : AudioBuffer.t)
    (t0 t1 t2 t3 t4 t5 : R) :
  wellFormed p ->
  Forall (fun c => SharcCombFilter.prepared c = true) (DdxReverbAudioProcessor.combs p) ->
  Forall (fun a => SharcAllpassFilter.prepared a = true)
    (DdxReverbAudioProcessor.allpasses p) ->
  fits p b1 -> fits p b2 -> cutInto whole b1 b2 ->
  (gtb (simd prm) 0.5 = true -> (1 <= w <= 8)%Z /\ simdSafe w p) ->
  (AudioBuffer.getNumSamples whole
     <= lenZ (AudioBuffer.chan (DdxReverbAudioProcessor.tempBuffer p) 0))%Z ->
  let r := DdxReverbAudioProcessor.processBlock w G p prm whole t0 t1 in
  let r1 := DdxReverbAudioProcessor.processBlock w G p prm b1 t2 t3 in
  let r2 := DdxReverbAudioProcessor.processBlock w (fst (fst r1)) (snd (fst r1)) prm b2
              t4 t5 in
  cutInto (snd r) (snd r1) (snd r2) /\
  fst (fst r) = fst (fst r2) /\
  DdxReverbAudioProcessor.combs (snd (fst r))
  = DdxReverbAudioProcessor.combs (snd (fst r2)) /\
  DdxReverbAudioProcessor.allpasses (snd (fst r))
  = DdxReverbAudioProcessor.allpasses (snd (fst r2)) /\
  DdxReverbAudioProcessor.preDelayBuffer (snd (fst r))
  = DdxReverbAudioProcessor.preDelayBuffer (snd (fst r2)) /\
  DdxReverbAudioProcessor.preDelayWritePos (snd (fst r))
  = DdxReverbAudioProcessor.preDelayWritePos (snd (fst r2)) /\
  DdxReverbAudioProcessor.preDelaySamples (snd (fst r))
  = DdxReverbAudioProcessor.preDelaySamples (snd (fst r2)).
Proof.
  intros Hwf Hpc Hpa Hf1 Hf2 Hcut Hs Ht r r1 r2.
  pose proof (cut_fits p whole b1 b2 Hf1 Hf2 Hcut) as Hf.
  pose proof (clearUnused_cut p whole b1 b2 Hf1 Hf2 Hcut) as Hdc.
  pose proof Hcut as (HN & HC1 & HC2 & Hch).
  pose proof Hf1 as (_ & _ & Hns1 & _). pose proof Hf2 as (_ & _ & Hns2 & _).
  destruct (gtb (bypass prm) 0.5) eqn:Hb.
  - unfold r, r2, r1. rewrite (processBlock_bypassed w G p prm b1) by exact Hb.
    cbn [fst snd]. rewrite !processBlock_bypassed by exact Hb. cbn [fst snd].
    split; [exact Hdc|]. repeat split; reflexivity.
  - destruct (processBlock_samples w G p prm whole t0 t1 Hwf Hpc Hpa Hf Hb Hs Ht)
      as (A & _ & N & C & V & U & _). fold r in A, N, C, V, U.
    destruct (processBlock_samples w G p prm b1 t2 t3 Hwf Hpc Hpa Hf1 Hb Hs
                ltac:(lia)) as (A1 & B1 & N1 & C1' & V1 & U1 & S1).
    fold r1 in A1, B1, N1, C1', V1, U1, S1.
    cbv zeta in A, V, U, A1, B1, V1, U1, S1.
    set (nIn := DdxReverbAudioProcessor.totalNumInputChannels p) in *.
    set (dry := DdxReverbAudioProcessor.clearUnused p whole) in *.
    set (dry1 := DdxReverbAudioProcessor.clearUnused p b1) in *.
    set (dry2 := DdxReverbAudioProcessor.clearUnused p b2) in *.
    set (k := wetL G p prm (downmixL nIn dry)) in *.
    set (k1 := wetL G p prm (downmixL nIn dry1)) in *.
    set (G1 := fst (fst r1)) in *. set (p1 := snd (fst r1)) in *.
    destruct A1 as (A1s & A1c & A1a & A1b & A1p & A1d).
    destruct B1 as (B1i & B1o & B1r & B1t).
    destruct (wetL_prepared G p prm (downmixL nIn dry1) Hpc Hpa) as [P1c P1a].
    destruct (wetL_length G p prm (downmixL nIn dry1)) as (L1m & L1c & L1a).
    fold k1 in P1c, P1a, L1m, L1c, L1a.
    assert (Hwf1 : wellFormed p1).
    { destruct Hwf as [Wc Wa]. split; unfold lenZ in *.
      - rewrite A1c, L1c. exact Wc.
      - rewrite A1a, L1a. exact Wa. }
    destruct (processBlock_samples w G1 p1 prm b2 t4 t5 Hwf1
                ltac:(rewrite A1c; exact P1c) ltac:(rewrite A1a; exact P1a)
                (fits_layout p p1 b2 B1i B1o Hf2) Hb
                (fun H => conj (proj1 (Hs H)) (S1 H)) ltac:(lia))
      as (A2 & _ & N2 & C2' & V2 & U2 & _).
    fold r2 in A2, N2, C2', V2, U2. cbv zeta in A2, V2, U2.
    rewrite (clearUnused_layout p p1 b2 B1i B1o) in A2, V2, U2.
    rewrite B1i in A2, V2. rewrite B1o in V2, U2.
    fold nIn dry2 in A2, V2, U2. rewrite A1s in A2, V2.
    set (k2 := wetL (DdxReverbAudioProcessor.wStatics k1) p1 prm (downmixL nIn dry2)) in *.
    pose proof (wetL_app G p p1 prm (downmixL nIn dry1) (downmixL nIn dry2)
                  A1c A1a A1b A1p B1r) as Hk.
    cbv zeta in Hk. fold k1 k2 in Hk.
    rewrite <- (downmixL_cut p nIn dry dry1 dry2
                  (clearUnused_fits p b1 Hf1) (clearUnused_fits p b2 Hf2) Hdc) in Hk.
    fold k in Hk.
    destruct A as (As & Ac & Aa & Ab & Ap & Ad).
    destruct A2 as (A2s & A2c & A2a & A2b & A2p & A2d).
    rewrite Hk in As, Ac, Aa, Ab, Ap, Ad.
    cbn [DdxReverbAudioProcessor.wStatics DdxReverbAudioProcessor.wPreDelayBuffer
         DdxReverbAudioProcessor.wPreDelayWritePos DdxReverbAudioProcessor.wPreDelaySamples
         DdxReverbAudioProcessor.wCombs DdxReverbAudioProcessor.wAllpasses]
      in As, Ac, Aa, Ab, Ap, Ad.
    split; [|repeat split; congruence].
    split; [lia|]. split; [lia|]. split; [lia|]. intros ch.
    destruct (Z_lt_ge_dec ch 0) as [Hneg|Hpos];
      [|destruct (Z_lt_ge_dec ch (DdxReverbAudioProcessor.totalNumOutputChannels p))
          as [Hin|Hout]].
    + rewrite U, U1, U2 by lia. apply Hdc.
    + destruct (V ch ltac:(lia)) as [L Vv].
      destruct (V1 ch ltac:(lia)) as [L1 Vv1].
      destruct (V2 ch ltac:(lia)) as [L2 Vv2].
      apply (list_eq_rd _ _ 0).
      * unfold lenZ in *. rewrite length_app. lia.
      * intros i Hi. rewrite Vv by lia. rewrite rd_app_split by lia. rewrite L1.
        rewrite (rd_cut p dry dry1 dry2 ch i
                   (clearUnused_fits p b1 Hf1) (clearUnused_fits p b2 Hf2) Hdc) by lia.
        replace (AudioBuffer.getNumSamples dry1) with (AudioBuffer.getNumSamples b1)
          by (symmetry; apply (clearUnused_spec p b1 Hf1)).
        rewrite Hk. cbn [DdxReverbAudioProcessor.wMono].
        assert (Lk1 : length (DdxReverbAudioProcessor.wMono k1)
                      = Z.to_nat (AudioBuffer.getNumSamples b1)).
        { rewrite L1m, downmixL_length. f_equal.
          apply (clearUnused_spec p b1 Hf1). }
        destruct (i <? AudioBuffer.getNumSamples b1)%Z eqn:E.
        -- rewrite Vv1 by lia. rewrite app_nth1 by lia. reflexivity.
        -- rewrite Vv2 by lia. rewrite app_nth2 by lia. rewrite Lk1.
           replace (Z.to_nat (i - AudioBuffer.getNumSamples b1))
             with (Z.to_nat i - Z.to_nat (AudioBuffer.getNumSamples b1))%nat by lia.
           reflexivity.
    + rewrite U, U1, U2 by lia. apply Hdc.
Qed.

(** ** The onset of the wet signal *)

(** A filter at rest answers zeros with zeros: a step that maps a resting
    state and a zero sample to a resting state and a zero sample keeps the
    leading zeros of a block. *)
Lemma run_prefix_zero {X : Type} (Q : X -> Prop) (stp : X -> R -> X * R) :
  (forall st, Q st -> Q (fst (stp st 0)) /\ snd (stp st 0) = 0) ->
  forall (xs : list R) (d : nat) (st : X),
  Q st -> (forall i, (i < d)%nat -> nth i xs 0 = 0) ->
  forall i, (i < d)%nat -> nth i (snd (Spec.run stp st xs)) 0 = 0.
Proof.
  intros Hstep. induction xs as [|x xs IH]; intros d st HQ Hz i Hi; cbn [Spec.run].
  - now destruct i.
  - assert (Hx : x = 0) by (apply (Hz O); lia). subst x.
    destruct (Hstep st HQ) as [HQ' Hy].
    destruct (stp st 0) as [st1 y]. cbn [fst snd] in HQ', Hy.
    specialize (IH (pred d) st1 HQ').
    destruct (Spec.run stp st1 xs) as [st2 ys]. cbn [snd] in *.
    destruct i as [|i]; [exact Hy|]. cbn [nth]. apply IH; [|lia].
    intros j Hj. apply (Hz (S j)). lia.
Qed.

Lemma combL_prefix (f : SharcCombFilter.t) (xs : list R) (d : nat) :
  combQuiet f -> (forall i, (i < d)%nat -> nth i xs 0 = 0) ->
  forall i, (i < d)%nat -> nth i (snd (combL f xs)) 0 = 0.
Proof.
  intros [Hl Hm]. unfold combL, Spec.combRun. cbn [snd].
  apply (run_prefix_zero (fun st : list R * Z * R =>
           Forall (fun v => v = 0) (fst (fst st)) /\ snd st = 0)).
  - intros [[l c] s] [H1 H2]. cbn [fst snd] in *. subst s.
    unfold Spec.combStep. cbn [fst snd]. rewrite (rd_quiet l c H1).
    split; [split|]; [|lra|lra].
    apply Forall_wr; [exact H1|]. intros _. lra.
  - cbn [fst snd]. split; assumption.
Qed.

Lemma allpassL_prefix (f : SharcAllpassFilter.t) (xs : list R) (d : nat) :
  allpassQuiet f -> (forall i, (i < d)%nat -> nth i xs 0 = 0) ->
  forall i, (i < d)%nat -> nth i (snd (allpassL f xs)) 0 = 0.
Proof.
  intros Hl. unfold allpassL, Spec.allpassRun. cbn [snd].
  apply (run_prefix_zero (fun st : list R * Z => Forall (fun v => v = 0) (fst st))).
  - intros [l c] H1. cbn [fst snd] in *.
    unfold Spec.allpassStep. cbn [fst snd]. rewrite (rd_quiet l c H1).
    split; [|lra]. apply Forall_wr; [exact H1|]. intros _. lra.
  - exact Hl.
Qed.

Lemma addL_prefix (a b : list R) (d : nat) :
  length a = length b ->
  (forall i, (i < d)%nat -> nth i a 0 = 0) ->
  (forall i, (i < d)%nat -> nth i b 0 = 0) ->
  forall i, (i < d)%nat -> nth i (addL a b) 0 = 0.
Proof.
  intros HL Ha Hb i Hi.
  destruct (Nat.lt_ge_cases i (length a)) as [Hlt|Hge].
  - rewrite addL_nth by assumption. rewrite Ha, Hb by exact Hi. lra.
  - apply nth_overflow. rewrite addL_length by exact HL. exact Hge.
Qed.

Lemma combChainL_prefix (cs : list SharcCombFilter.t) (d : nat) :
  forall first xs,
  Forall combQuiet cs -> (forall i, (i < d)%nat -> nth i xs 0 = 0) ->
  forall i, (i < d)%nat -> nth i (snd (combChainL first cs xs)) 0 = 0.
Proof.
  induction cs as [|c cs IH]; intros first xs HF Hz; cbn [combChainL snd]; [exact Hz|].
  inversion HF as [|? ? Hq HF']; subst. apply IH; [exact HF'|].
  pose proof (combL_prefix c xs d Hq Hz) as Hc.
  destruct first; [exact Hc|].
  apply addL_prefix; [now rewrite combL_length|exact Hz|exact Hc].
Qed.

Lemma allpassChainL_prefix (g : R) (aps : list SharcAllpassFilter.t) (d : nat) :
  forall xs,
  Forall allpassQuiet aps -> (forall i, (i < d)%nat -> nth i xs 0 = 0) ->
  forall i, (i < d)%nat -> nth i (snd (allpassChainL g aps xs)) 0 = 0.
Proof.
  induction aps as [|a aps IH]; intros xs HF Hz; cbn [allpassChainL snd]; [exact Hz|].
  inversion HF as [|? ? Hq HF']; subst. apply IH; [exact HF'|].
  apply allpassL_prefix; [exact Hq|exact Hz].
Qed.

(** The first [D] samples out of the pre-delay come from the delay line
    as the block found it. *)
Lemma preDelayL_prefix (D : Z) (buf : list R) (pos : Z) (xs : list R) :
  Forall (fun v => v = 0) buf -> (0 <= pos < lenZ buf)%Z -> (D < lenZ buf)%Z ->
  forall i, (i < Z.to_nat D)%nat -> nth i (snd (preDelayL D (buf, pos) xs)) 0 = 0.
Proof.
  intros Hz Hpos HD i Hi.
  destruct (Nat.lt_ge_cases i (length xs)) as [Hlt|Hge];
    [|apply nth_overflow; now rewrite preDelayL_length].
  destruct (preDelay_holds D (lenZ xs) buf pos xs xs (holds_exact xs)) as (_ & _ & H).
  destruct H as (_ & _ & Hv).
  rewrite <- (Nat2Z.id i), <- Hv by (unfold lenZ; lia).
  pose proof (preDelay_block_inv D (lenZ xs) buf pos xs ltac:(lia) Hpos
                ltac:(unfold lenZ; lia)) as HI.
  destruct (DdxReverbAudioProcessor.preDelay D (lenZ xs) (buf, pos, xs)) as [[b wp] mm].
  unfold preDelayInv in HI. destruct HI as (_ & _ & _ & I4 & _). cbn [snd].
  rewrite I4 by (unfold lenZ; lia).
  destruct (Z.of_nat i <? D)%Z eqn:E; [|lia]. now apply rd_quiet.
Qed.

Lemma wetL_prefix (G : Statics) (p : DdxReverbAudioProcessor.t) (prm : Params)
    (xs : list R) :
  Forall (fun v => v = 0) (DdxReverbAudioProcessor.preDelayBuffer p) ->
  Forall combQuiet (DdxReverbAudioProcessor.combs p) ->
  Forall allpassQuiet (DdxReverbAudioProcessor.allpasses p) ->
  (0 <= DdxReverbAudioProcessor.preDelayWritePos p
     < lenZ (DdxReverbAudioProcessor.preDelayBuffer p))%Z ->
  forall i,
  (i < Z.to_nat (DdxReverbAudioProcessor.preDelayLength p (predelay prm)))%nat ->
  nth i (DdxReverbAudioProcessor.wMono (wetL G p prm xs)) 0 = 0.
Proof.
  intros Hb Hc Ha Hpos. unfold wetL. cbn [DdxReverbAudioProcessor.wMono].
  set (D := DdxReverbAudioProcessor.preDelayLength p (predelay prm)).
  assert (HD : (D < lenZ (DdxReverbAudioProcessor.preDelayBuffer p))%Z).
  { unfold D, DdxReverbAudioProcessor.preDelayLength.
    pose proof (jlimitZ_range 0 (lenZ (DdxReverbAudioProcessor.preDelayBuffer p) - 1)
                  (juce.static_cast_int
                     (predelay prm * DdxReverbAudioProcessor.currentSampleRate p / 1000))
                  ltac:(lia)). lia. }
  apply allpassChainL_prefix; [exact Ha|].
  intros i Hi.
  destruct (Nat.lt_ge_cases i (length (snd (combChainL true
              (DdxReverbAudioProcessor.updateCombs
                 (DdxReverbAudioProcessor.dampingFreqOf (damping prm))
                 (DdxReverbAudioProcessor.combGainOf (decay prm) (bassmult prm)
                    (DdxReverbAudioProcessor.currentSampleRate p))
                 (DdxReverbAudioProcessor.combs p))
              (snd (preDelayL D (DdxReverbAudioProcessor.preDelayBuffer p,
                                 DdxReverbAudioProcessor.preDelayWritePos p)
                      (snd (hiCutL (hicut prm) G xs)))))))) as [Hlt|Hge];
    [|apply nth_overflow; now rewrite length_map].
  rewrite (nth_indep _ 0 (0 * 0.25)) by now rewrite length_map.
  rewrite (map_nth (fun v => v * 0.25)).
  rewrite (combChainL_prefix _ (Z.to_nat D)); [lra| |now apply preDelayL_prefix|exact Hi].
  unfold DdxReverbAudioProcessor.updateCombs. apply Forall_map.
  eapply Forall_impl; [|exact Hc]. intros c Hq. exact Hq.
Qed.

(** X20.  The pre-delay is the onset of the wet signal.  On a processor
    at rest (prepared filters, zeros in every delay line, damping memory,
    the pre-delay line and the hi-cut memory; the pre-delay cursor inside
    its line) the
    first [preDelaySamples] output samples of a running block carry no
    reverb: on every output channel, sample [i] below the pre-delay length
    the block set is the dry sample times [1 - wet], whatever the input and
    the other parameters are.  The scratch buffer holds the block; scalar
    path, or SIMD path on filters whose delays are at least the register
    width. *)
Theorem X20_predelay_is_the_onset_of_the_wet_signal (w : Z) (G : Statics)
    (p : DdxReverbAudioProcessor.t) (prm : Params) (b : AudioBuffer.t) (t0 t1 : R) :
  wellFormed p -> quietProcessor G p ->
  (0 <= DdxReverbAudioProcessor.preDelayWritePos p
     < lenZ (DdxReverbAudioProcessor.preDelayBuffer p))%Z ->
  fits p b ->
  gtb (bypass prm) 0.5 = false ->
  (gtb (simd prm) 0.5 = true -> (1 <= w <= 8)%Z /\ simdSafe w p) ->
  (AudioBuffer.getNumSamples b
     <= lenZ (AudioBuffer.chan (DdxReverbAudioProcessor.tempBuffer p) 0))%Z ->
  let out := snd (DdxReverbAudioProcessor.processBlock w G p prm b t0 t1) in
  let D := DdxReverbAudioProcessor.preDelayLength p (predelay prm) in
  forall ch i,
  (0 <= ch < DdxReverbAudioProcessor.totalNumOutputChannels p)%Z ->
  (0 <= i < AudioBuffer.getNumSamples b)%Z -> (i < D)%Z ->
  rd (AudioBuffer.chan out ch) i
  = rd (AudioBuffer.chan (DdxReverbAudioProcessor.clearUnused p b) ch) i * (1 - wet prm).
Proof.
  intros Hwf (_ & Hqb & Hqc & Hqa) Hpos Hf Hb Hs Ht out D ch i Hch Hi HiD.
  assert (Hpc : Forall (fun c => SharcCombFilter.prepared c = true)
                  (DdxReverbAudioProcessor.combs p))
    by (eapply Forall_impl; [|exact Hqc]; intros c Hc; apply Hc).
  assert (Hpa : Forall (fun a => SharcAllpassFilter.prepared a = true)
                  (DdxReverbAudioProcessor.allpasses p))
    by (eapply Forall_impl; [|exact Hqa]; intros a Ha; apply Ha).
  destruct (processBlock_samples w G p prm b t0 t1 Hwf Hpc Hpa Hf Hb Hs Ht)
    as (_ & _ & _ & _ & V & _).
  cbv zeta in V. destruct (V ch Hch) as [_ Vv]. unfold out. rewrite Vv by exact Hi.
  rewrite wetL_prefix; [lra|exact Hqb| | |exact Hpos|unfold D in HiD; lia].
  - eapply Forall_impl; [|exact Hqc]. intros c Hc. apply Hc.
  - eapply Forall_impl; [|exact Hqa]. intros a Ha. apply Ha.
Qed.

(** ** The wet control at zero *)

(** X21.  With the wet control at 0 the block comes out as it went in:
    the output of [processBlock] is the host's block after the clearing of
    the unused output channels, sample for sample, as if bypassed - from
    any state, on either path. *)
Theorem X21_wet_zero_is_transparent (w : Z) (G : Statics)
    (p : DdxReverbAudioProcessor.t) (prm : Params) (b : AudioBuffer.t) (t0 t1 : R) :
  fits p b -> wet prm = 0 ->
  snd (DdxReverbAudioProcessor.processBlock w G p prm b t0 t1)
  = DdxReverbAudioProcessor.clearUnused p b.
Proof.
  intros Hf Hw.
  destruct (gtb (bypass prm) 0.5) eqn:Hb;
    [now rewrite processBlock_bypassed by exact Hb|].
  rewrite processBlock_running by exact Hb. cbn [snd].
  set (dry := DdxReverbAudioProcessor.clearUnused p b).
  set (mono := DdxReverbAudioProcessor.wMono _).
  pose proof (clearUnused_fits p b Hf) as Hfd. fold dry in Hfd.
  destruct (mixStage_numChannels p dry mono (wet prm) dry) as [MN MC].
  assert (Hch : forall ch,
            AudioBuffer.chan (DdxReverbAudioProcessor.mixStage p dry mono (wet prm) dry) ch
            = AudioBuffer.chan dry ch).
  { intros ch.
    destruct (Z_lt_ge_dec ch 0) as [Hn|Hp];
      [rewrite !chan_absent by lia; reflexivity|].
    destruct (Z_lt_ge_dec ch (DdxReverbAudioProcessor.totalNumOutputChannels p))
      as [Hl|Hg]; [|apply mixStage_untouched; lia].
    destruct (mixStage_sample p dry mono (wet prm) ch Hfd ltac:(lia)) as [L V].
    pose proof Hfd as (_ & Hout & _).
    pose proof (fits_chan_length p dry ch Hfd ltac:(lia)) as Ld.
    apply (list_eq_rd _ _ 0); [lia|]. intros i Hi.
    rewrite V by lia. rewrite Hw. destruct (ch =? 1)%Z; lra. }
  destruct (DdxReverbAudioProcessor.mixStage p dry mono (wet prm) dry) as [chs n] eqn:E.
  destruct dry as [chs' n'] eqn:E'.
  unfold AudioBuffer.getNumSamples, AudioBuffer.getNumChannels in MN, MC.
  cbn [AudioBuffer.numSamples AudioBuffer.channels] in MN, MC.
  unfold AudioBuffer.chan in Hch. cbn [AudioBuffer.channels] in Hch.
  f_equal; [|exact MN].
  apply (list_eq_rd _ _ []); [exact MC|]. intros k _. apply Hch.
Qed.

(** What [prepareToPlay] leaves for the first block, at a rate of at least
    1298 Hz. *)
Lemma prepareToPlay_ready (p0 : DdxReverbAudioProcessor.t) (sr : R) (n : Z) :
  wellFormed p0 -> 48000 <= 37 * sr ->
  let p := DdxReverbAudioProcessor.prepareToPlay p0 sr n in
  wellFormed p /\
  quietProcessor initialStatics p /\
  Forall (fun c => SharcCombFilter.prepared c = true) (DdxReverbAudioProcessor.combs p) /\
  Forall (fun a => SharcAllpassFilter.prepared a = true)
    (DdxReverbAudioProcessor.allpasses p) /\
  (0 <= DdxReverbAudioProcessor.preDelayWritePos p
     < lenZ (DdxReverbAudioProcessor.preDelayBuffer p))%Z /\
  lenZ (AudioBuffer.chan (DdxReverbAudioProcessor.tempBuffer p) 0) = Z.max n 0.
Proof.
  intros Hwf Hsr p.
  destruct (prepareToPlay_members_silent p0 sr n Hwf) as (W & _ & _ & _ & Hcp & _ & Hap).
  split; [exact W|]. split; [now apply prepareToPlay_quiet|].
  split; [exact Hcp|]. split; [exact Hap|]. split.
  - unfold p. cbn [DdxReverbAudioProcessor.prepareToPlay
      DdxReverbAudioProcessor.preDelayWritePos DdxReverbAudioProcessor.preDelayBuffer].
    rewrite lenZ_zeros.
    assert (1 <= juce.static_cast_int (sr * 0.5))%Z by (apply static_cast_int_ge; lra).
    lia.
  - unfold p. cbn [DdxReverbAudioProcessor.prepareToPlay DdxReverbAudioProcessor.tempBuffer].
    change (AudioBuffer.chan (AudioBuffer.sized 1 n) 0) with (zeros n).
    apply lenZ_zeros.
Qed.

Lemma X19_block_cut_is_inaudible_witness :
  let p := DdxReverbAudioProcessor.prepareToPlay
             (DdxReverbAudioProcessor.construct 2 2) 48000 4 in
  let prm := mkParams 5 50 50 10 12 0 0.5 0 1 in
  let whole := AudioBuffer.mk [[1; 2; 3]; [4; 5; 6]] 3 in
  let b1 := AudioBuffer.mk [[1]; [4]] 1 in
  let b2 := AudioBuffer.mk [[2; 3]; [5; 6]] 2 in
  let r := DdxReverbAudioProcessor.processBlock 4 initialStatics p prm whole 0 1 in
  let r1 := DdxReverbAudioProcessor.processBlock 4 initialStatics p prm b1 0 1 in
  let r2 := DdxReverbAudioProcessor.processBlock 4 (fst (fst r1)) (snd (fst r1)) prm b2
              1 2 in
  cutInto (snd r) (snd r1) (snd r2) /\ fst (fst r) = fst (fst r2).
Proof.
  intros p prm whole b1 b2 r r1 r2.
  destruct (prepareToPlay_ready (DdxReverbAudioProcessor.construct 2 2) 48000 4
              (construct_wellFormed 2 2) ltac:(lra)) as (W & _ & Hc & Ha & _ & Ht).
  fold p in W, Hc, Ha, Ht.
  refine ((fun H => conj (proj1 H) (proj1 (proj2 H)))
            (X19_block_cut_is_inaudible 4 initialStatics p prm whole b1 b2 0 1 0 1 1 2
               W Hc Ha _ _ _ _ _)).
  - unfold fits, AudioBuffer.getNumChannels, lenZ. cbn.
    repeat split; try lia. repeat constructor.
  - unfold fits, AudioBuffer.getNumChannels, lenZ. cbn.
    repeat split; try lia. repeat constructor.
  - unfold cutInto, AudioBuffer.getNumChannels, lenZ. cbn.
    repeat split; try lia. intros ch.
    destruct (Z.eq_dec ch 0) as [->|H0]; [reflexivity|].
    destruct (Z.eq_dec ch 1) as [->|H1]; [reflexivity|].
    rewrite !chan_absent by (unfold AudioBuffer.getNumChannels, lenZ; cbn; lia).
    reflexivity.
  - intros _. split; [lia|].
    apply prepareToPlay_48k_simdSafe; [lia|apply construct_wellFormed].
  - rewrite Ht. cbn. lia.
Defined.

Lemma X20_predelay_is_the_onset_of_the_wet_signal_witness :
  let p := DdxReverbAudioProcessor.prepareToPlay
             (DdxReverbAudioProcessor.construct 2 2) 48000 4 in
  let prm := mkParams 5 50 50 10 12 0 0.5 0 1 in
  let b := AudioBuffer.mk [[1; 2; 3]; [4; 5; 6]] 3 in
  let out := snd (DdxReverbAudioProcessor.processBlock 4 initialStatics p prm b 0 1) in
  rd (AudioBuffer.chan out 1) 2
  = rd (AudioBuffer.chan (DdxReverbAudioProcessor.clearUnused p b) 1) 2 * (1 - wet prm).
Proof.
  intros p prm b out.
  destruct (prepareToPlay_ready (DdxReverbAudioProcessor.construct 2 2) 48000 4
              (construct_wellFormed 2 2) ltac:(lra)) as (W & Q & _ & _ & Hp & Ht).
  fold p in W, Q, Hp, Ht.
  refine (X20_predelay_is_the_onset_of_the_wet_signal 4 initialStatics p prm b 0 1
            W Q Hp _ _ _ _ 1%Z 2%Z _ _ _).
  - unfold fits, AudioBuffer.getNumChannels, lenZ. cbn.
    repeat split; try lia. repeat constructor.
  - apply gtb_false. cbn. lra.
  - intros _. split; [lia|].
    apply prepareToPlay_48k_simdSafe; [lia|apply construct_wellFormed].
  - rewrite Ht. cbn. lia.
  - cbn. lia.
  - cbn. lia.
  - unfold DdxReverbAudioProcessor.preDelayLength, p.
    cbn [DdxReverbAudioProcessor.prepareToPlay DdxReverbAudioProcessor.preDelayBuffer
         DdxReverbAudioProcessor.currentSampleRate predelay prm].
    rewrite lenZ_zeros.
    rewrite (static_cast_int_eq (48000 * 0.5) 24000) by lra.
    rewrite (static_cast_int_eq (50 * 48000 / 1000) 2400) by lra.
    cbn. lia.
Defined.

Lemma X21_wet_zero_is_transparent_witness :
  let p := DdxReverbAudioProcessor.prepareToPlay
             (DdxReverbAudioProcessor.construct 1 2) 48000 4 in
  let prm := mkParams 5 50 50 10 12 0 0 0 1 in
  let b := AudioBuffer.mk [[1; 2; 3]; [4; 5; 6]] 3 in
  snd (DdxReverbAudioProcessor.processBlock 4 initialStatics p prm b 0 1)
  = DdxReverbAudioProcessor.clearUnused p b.
Proof.
  intros p prm b.
  apply (X21_wet_zero_is_transparent 4 initialStatics p prm b 0 1).
  - unfold fits, AudioBuffer.getNumChannels, lenZ. cbn.
    repeat split; try lia. repeat constructor.
  - reflexivity.
Defined.

(** ** Superposition *)

Lemma Forall3_length {A : Type} (P : A -> A -> A -> Prop) (l l1 l2 : list A) :
  Forall3 P l l1 l2 -> length l1 = length l /\ length l2 = length l.
Proof.
  induction 1 as [|x y z l l1 l2 _ _ [IH1 IH2]]; cbn [length]; [auto|].
  now rewrite IH1, IH2.
Qed.

Lemma Forall3_nth {A : Type} (P : A -> A -> A -> Prop) (d : A) (l l1 l2 : list A) :
  Forall3 P l l1 l2 ->
  forall i, (i < length l)%nat -> P (nth i l d) (nth i l1 d) (nth i l2 d).
Proof.
  induction 1 as [|x y z l l1 l2 Hx _ IH]; intros i Hi; cbn [length] in Hi; [lia|].
  destruct i as [|i]; [exact Hx|]. cbn [nth]. apply IH. lia.
Qed.

Lemma Forall3_of_nth {A : Type} (P : A -> A -> A -> Prop) (d : A) (l : list A) :
  forall l1 l2,
  length l1 = length l -> length l2 = length l ->
  (forall i, (i < length l)%nat -> P (nth i l d) (nth i l1 d) (nth i l2 d)) ->
  Forall3 P l l1 l2.
Proof.
  induction l as [|x l IH]; intros [|y l1] [|z l2] H1 H2 H; cbn [length] in *;
    try discriminate; constructor.
  - apply (H O). lia.
  - apply IH; [lia|lia|]. intros i Hi. apply (H (S i)). lia.
Qed.

Lemma Forall3_updA {A : Type} (P : A -> A -> A -> Prop) (l l1 l2 : list A) (x y z : A) :
  Forall3 P l l1 l2 -> P x y z ->
  forall n, Forall3 P (updA l n x) (updA l1 n y) (updA l2 n z).
Proof.
  intros H Hx. induction H as [|x' y' z' l l1 l2 Hh Ht IH]; intros n.
  - destruct n; constructor.
  - destruct n as [|n]; cbn [updA]; constructor; auto.
Qed.

Lemma Forall3_wr {A : Type} (P : A -> A -> A -> Prop) (l l1 l2 : list A) (x y z : A)
    (i : Z) :
  Forall3 P l l1 l2 -> P x y z -> Forall3 P (wr l i x) (wr l1 i y) (wr l2 i z).
Proof.
  intros H Hx. unfold wr. destruct (i <? 0)%Z; [exact H|]. now apply Forall3_updA.
Qed.

Lemma mixOf_length (a b : R) (m m1 m2 : list R) :
  mixOf a b m m1 m2 -> lenZ m1 = lenZ m /\ lenZ m2 = lenZ m.
Proof.
  intros H. destruct (Forall3_length _ _ _ _ H) as [H1 H2]. unfold lenZ. lia.
Qed.

Lemma mixOf_rd (a b : R) (m m1 m2 : list R) (k : Z) :
  mixOf a b m m1 m2 -> rd m k = a * rd m1 k + b * rd m2 k.
Proof.
  intros H. destruct (Forall3_length _ _ _ _ H) as [H1 H2]. unfold rdA.
  destruct (k <? 0)%Z; [lra|].
  destruct (Nat.lt_ge_cases (Z.to_nat k) (length m)) as [Hlt|Hge].
  - exact (Forall3_nth _ 0 _ _ _ H _ Hlt).
  - rewrite !nth_overflow by lia. lra.
Qed.

Lemma mixOf_of_rd (a b : R) (m m1 m2 : list R) :
  lenZ m1 = lenZ m -> lenZ m2 = lenZ m ->
  (forall k, (0 <= k < lenZ m)%Z -> rd m k = a * rd m1 k + b * rd m2 k) ->
  mixOf a b m m1 m2.
Proof.
  intros H1 H2 H. apply (Forall3_of_nth _ 0); [unfold lenZ in *; lia..|].
  intros i Hi. specialize (H (Z.of_nat i) ltac:(unfold lenZ; lia)).
  rewrite !rd_nth, Nat2Z.id in H by lia. exact H.
Qed.

(** A step that is linear in its state and its input sample gives a linear
    block. *)
Lemma run_mix {X : Type} (a b : R) (Rel : X -> X -> X -> Prop) (stp : X -> R -> X * R) :
  (forall s s1 s2 x1 x2, Rel s s1 s2 ->
     Rel (fst (stp s (a * x1 + b * x2))) (fst (stp s1 x1)) (fst (stp s2 x2)) /\
     snd (stp s (a * x1 + b * x2)) = a * snd (stp s1 x1) + b * snd (stp s2 x2)) ->
  forall xs xs1 xs2, mixOf a b xs xs1 xs2 ->
  forall s s1 s2, Rel s s1 s2 ->
  Rel (fst (Spec.run stp s xs)) (fst (Spec.run stp s1 xs1)) (fst (Spec.run stp s2 xs2)) /\
  mixOf a b (snd (Spec.run stp s xs)) (snd (Spec.run stp s1 xs1))
    (snd (Spec.run stp s2 xs2)).
Proof.
  intros Hstep xs xs1 xs2 H.
  induction H as [|x x1 x2 xs xs1 xs2 Hx _ IH]; intros s s1 s2 HR; cbn [Spec.run].
  - cbn [fst snd]. split; [exact HR|constructor].
  - subst x. destruct (Hstep s s1 s2 x1 x2 HR) as [HR' Hy].
    destruct (stp s (a * x1 + b * x2)) as [t y].
    destruct (stp s1 x1) as [t1 y1]. destruct (stp s2 x2) as [t2 y2].
    cbn [fst snd] in HR', Hy. specialize (IH t t1 t2 HR').
    destruct (Spec.run stp t xs) as [u ys].
    destruct (Spec.run stp t1 xs1) as [u1 ys1].
    destruct (Spec.run stp t2 xs2) as [u2 ys2].
    cbn [fst snd] in *. split; [apply IH|]. constructor; [exact Hy|apply IH].
Qed.

Lemma hiCutL_mix (a b h : R) (G G1 G2 : Statics) (xs xs1 xs2 : list R) :
  prevSample G = a * prevSample G1 + b * prevSample G2 ->
  mixOf a b xs xs1 xs2 ->
  prevSample (fst (hiCutL h G xs))
  = a * prevSample (fst (hiCutL h G1 xs1)) + b * prevSample (fst (hiCutL h G2 xs2)) /\
  mixOf a b (snd (hiCutL h G xs)) (snd (hiCutL h G1 xs1)) (snd (hiCutL h G2 xs2)).
Proof.
  intros HG Hx. unfold hiCutL. destruct (gtb h 0.01); [|cbn [fst snd]; auto].
  apply (run_mix a b (fun s s1 s2 : Statics =>
           prevSample s = a * prevSample s1 + b * prevSample s2)); [|exact Hx|exact HG].
  intros s s1 s2 x1 x2 HR. unfold hiCutStep. cbn [fst snd prevSample].
  rewrite HR. split; ring.
Qed.

Lemma preDelayL_mix (a b : R) (D : Z) (buf buf1 buf2 : list R) (pos : Z)
    (xs xs1 xs2 : list R) :
  mixOf a b buf buf1 buf2 -> mixOf a b xs xs1 xs2 ->
  let r := preDelayL D (buf, pos) xs in
  let r1 := preDelayL D (buf1, pos) xs1 in
  let r2 := preDelayL D (buf2, pos) xs2 in
  (snd (fst r1) = snd (fst r) /\ snd (fst r2) = snd (fst r)) /\
  mixOf a b (fst (fst r)) (fst (fst r1)) (fst (fst r2)) /\
  mixOf a b (snd r) (snd r1) (snd r2).
Proof.
  intros Hb Hx. cbv zeta. unfold preDelayL.
  destruct (D >? 0)%Z; [|cbn [fst snd]; auto].
  destruct (run_mix a b (fun s s1 s2 : list R * Z =>
              (snd s1 = snd s /\ snd s2 = snd s) /\ mixOf a b (fst s) (fst s1) (fst s2))
              (preDelayStep D)) with (xs := xs) (xs1 := xs1) (xs2 := xs2)
              (s := (buf, pos)) (s1 := (buf1, pos)) (s2 := (buf2, pos))
    as [[H1 H2] H3]; [|exact Hx|cbn [fst snd]; auto|auto].
  intros [l p] [l1 p1] [l2 p2] x1 x2 [[E1 E2] HM]. cbn [fst snd] in E1, E2, HM.
  subst p1 p2. destruct (mixOf_length _ _ _ _ _ HM) as [L1 L2].
  unfold preDelayStep. cbn [fst snd]. rewrite L1, L2.
  split; [split; [auto|]|].
  - apply Forall3_wr; [exact HM|reflexivity].
  - now apply mixOf_rd.
Qed.

Lemma combL_mix (a b : R) (c c1 c2 : SharcCombFilter.t) (xs xs1 xs2 : list R) :
  combMixOf a b c c1 c2 -> mixOf a b xs xs1 xs2 ->
  combMixOf a b (fst (combL c xs)) (fst (combL c1 xs1)) (fst (combL c2 xs2)) /\
  mixOf a b (snd (combL c xs)) (snd (combL c1 xs1)) (snd (combL c2 xs2)).
Proof.
  intros (Hp & (D1 & D2) & (W1 & W2) & (G1 & G2) & (C1 & C2) & Hs & Hf & Hl) Hx.
  unfold combL, Spec.combRun. rewrite D1, D2, W1, W2, G1, G2, C1, C2.
  destruct (run_mix a b (fun s s1 s2 : list R * Z * R =>
              (snd (fst s1) = snd (fst s) /\ snd (fst s2) = snd (fst s)) /\
              snd s = a * snd s1 + b * snd s2 /\
              mixOf a b (fst (fst s)) (fst (fst s1)) (fst (fst s2)))
              (Spec.combStep (SharcCombFilter.delaySamples c)
                 (SharcCombFilter.feedbackGain c) (SharcCombFilter.dampingCoeff c)))
    with (xs := xs) (xs1 := xs1) (xs2 := xs2)
         (s := (SharcCombFilter.delayLine c, SharcCombFilter.writeIndex c,
                SharcCombFilter.filterState c))
         (s1 := (SharcCombFilter.delayLine c1, SharcCombFilter.writeIndex c,
                 SharcCombFilter.filterState c1))
         (s2 := (SharcCombFilter.delayLine c2, SharcCombFilter.writeIndex c,
                 SharcCombFilter.filterState c2))
    as [(H1 & H2 & H3) H4]; [|exact Hx|cbn [fst snd]; auto|].
  - intros [[l p] m] [[l1 p1] m1] [[l2 p2] m2] x1 x2 [[E1 E2] [Hm HM]].
    cbn [fst snd] in E1, E2, Hm, HM. subst p1 p2 m.
    unfold Spec.combStep. cbn [fst snd].
    rewrite (mixOf_rd a b l l1 l2 p HM).
    split; [split; [auto|split]|]; try ring.
    apply Forall3_wr; [exact HM|ring].
  - cbn [fst snd]. split; [|exact H4].
    unfold combMixOf. cbn [SharcCombFilter.prepared SharcCombFilter.delaySamples
      SharcCombFilter.writeIndex SharcCombFilter.feedbackGain SharcCombFilter.dampingCoeff
      SharcCombFilter.sRate SharcCombFilter.filterState SharcCombFilter.delayLine].
    repeat split; try assumption; try reflexivity; try apply Hp; try apply Hs;
      try apply H1.
Qed.

Lemma allpassL_mix (a b : R) (f f1 f2 : SharcAllpassFilter.t) (xs xs1 xs2 : list R) :
  allpassMixOf a b f f1 f2 -> mixOf a b xs xs1 xs2 ->
  allpassMixOf a b (fst (allpassL f xs)) (fst (allpassL f1 xs1)) (fst (allpassL f2 xs2)) /\
  mixOf a b (snd (allpassL f xs)) (snd (allpassL f1 xs1)) (snd (allpassL f2 xs2)).
Proof.
  intros (Hp & (D1 & D2) & (W1 & W2) & (G1 & G2) & Hl) Hx.
  unfold allpassL, Spec.allpassRun. rewrite D1, D2, W1, W2, G1, G2.
  destruct (run_mix a b (fun s s1 s2 : list R * Z =>
              (snd s1 = snd s /\ snd s2 = snd s) /\ mixOf a b (fst s) (fst s1) (fst s2))
              (Spec.allpassStep (SharcAllpassFilter.delaySamples f)
                 (SharcAllpassFilter.apGain f)))
    with (xs := xs) (xs1 := xs1) (xs2 := xs2)
         (s := (SharcAllpassFilter.delayLine f, SharcAllpassFilter.writeIndex f))
         (s1 := (SharcAllpassFilter.delayLine f1, SharcAllpassFilter.writeIndex f))
         (s2 := (SharcAllpassFilter.delayLine f2, SharcAllpassFilter.writeIndex f))
    as [(H1 & H2) H4]; [|exact Hx|cbn [fst snd]; auto|].
  - intros [l p] [l1 p1] [l2 p2] x1 x2 [[E1 E2] HM].
    cbn [fst snd] in E1, E2, HM. subst p1 p2.
    unfold Spec.allpassStep. cbn [fst snd].
    rewrite (mixOf_rd a b l l1 l2 p HM).
    split; [split; [auto|]|]; try ring.
    apply Forall3_wr; [exact HM|ring].
  - cbn [fst snd]. split; [|exact H4].
    unfold allpassMixOf. cbn [SharcAllpassFilter.prepared SharcAllpassFilter.delaySamples
      SharcAllpassFilter.writeIndex SharcAllpassFilter.apGain SharcAllpassFilter.delayLine].
    repeat split; try assumption; try reflexivity; try apply Hp; try apply H1.
Qed.

Lemma addL_mix (a b : R) (x x1 x2 y y1 y2 : list R) :
  mixOf a b x x1 x2 -> mixOf a b y y1 y2 ->
  length y = length x ->
  mixOf a b (addL x y) (addL x1 y1) (addL x2 y2).
Proof.
  intros Hx. revert y y1 y2.
  induction Hx as [|u u1 u2 x x1 x2 Hu _ IH]; intros y y1 y2 Hy HL.
  - inversion Hy; subst; [constructor|discriminate].
  - inversion Hy as [|v v1 v2 y' y1' y2' Hv Hy']; subst; [discriminate|].
    cbn [addL]. constructor; [ring|].
    apply IH; [exact Hy'|]. cbn [length] in HL. lia.
Qed.

Lemma combChainL_mix (a b : R) (cs cs1 cs2 : list SharcCombFilter.t) :
  Forall3 (combMixOf a b) cs cs1 cs2 ->
  forall first xs xs1 xs2, mixOf a b xs xs1 xs2 ->
  Forall3 (combMixOf a b) (fst (combChainL first cs xs)) (fst (combChainL first cs1 xs1))
    (fst (combChainL first cs2 xs2)) /\
  mixOf a b (snd (combChainL first cs xs)) (snd (combChainL first cs1 xs1))
    (snd (combChainL first cs2 xs2)).
Proof.
  induction 1 as [|c c1 c2 cs cs1 cs2 Hc _ IH]; intros first xs xs1 xs2 Hx;
    cbn [combChainL fst snd].
  - split; [constructor|exact Hx].
  - destruct (combL_mix a b c c1 c2 xs xs1 xs2 Hc Hx) as [Hc' Ho].
    destruct (IH false
                (if first then snd (combL c xs) else addL xs (snd (combL c xs)))
                (if first then snd (combL c1 xs1) else addL xs1 (snd (combL c1 xs1)))
                (if first then snd (combL c2 xs2) else addL xs2 (snd (combL c2 xs2))))
      as [I1 I2].
    + destruct first; [exact Ho|].
      apply addL_mix; [exact Hx|exact Ho|apply combL_length].
    + split; [constructor; assumption|exact I2].
Qed.

Lemma allpassChainL_mix (a b g : R) (aps aps1 aps2 : list SharcAllpassFilter.t) :
  Forall3 (allpassMixOf a b) aps aps1 aps2 ->
  forall xs xs1 xs2, mixOf a b xs xs1 xs2 ->
  Forall3 (allpassMixOf a b) (fst (allpassChainL g aps xs))
    (fst (allpassChainL g aps1 xs1)) (fst (allpassChainL g aps2 xs2)) /\
  mixOf a b (snd (allpassChainL g aps xs)) (snd (allpassChainL g aps1 xs1))
    (snd (allpassChainL g aps2 xs2)).
Proof.
  induction 1 as [|f f1 f2 aps aps1 aps2 Hf _ IH]; intros xs xs1 xs2 Hx;
    cbn [allpassChainL fst snd].
  - split; [constructor|exact Hx].
  - assert (Hg : allpassMixOf a b (SharcAllpassFilter.setGain f g)
                   (SharcAllpassFilter.setGain f1 g) (SharcAllpassFilter.setGain f2 g)).
    { destruct Hf as (Hp & Hd & Hw & _ & Hl). unfold allpassMixOf.
      cbn [SharcAllpassFilter.setGain SharcAllpassFilter.prepared
           SharcAllpassFilter.delaySamples SharcAllpassFilter.writeIndex
           SharcAllpassFilter.apGain SharcAllpassFilter.delayLine].
      repeat split; try assumption; try reflexivity; try apply Hp; try apply Hd;
        try apply Hw. }
    destruct (allpassL_mix a b _ _ _ xs xs1 xs2 Hg Hx) as [Hf' Ho].
    destruct (IH _ _ _ Ho) as [I1 I2].
    split; [constructor; assumption|exact I2].
Qed.

Lemma updateCombs_mix (a b d g : R) (cs cs1 cs2 : list SharcCombFilter.t) :
  Forall3 (combMixOf a b) cs cs1 cs2 ->
  Forall3 (combMixOf a b) (DdxReverbAudioProcessor.updateCombs d g cs)
    (DdxReverbAudioProcessor.updateCombs d g cs1)
    (DdxReverbAudioProcessor.updateCombs d g cs2).
Proof.
  induction 1 as [|c c1 c2 cs cs1 cs2 Hc _ IH]; [constructor|].
  unfold DdxReverbAudioProcessor.updateCombs in *. cbn [map]. constructor; [|exact IH].
  destruct Hc as (Hp & Hd & Hw & _ & _ & [S1 S2] & Hf & Hl). unfold combMixOf.
  cbn [SharcCombFilter.setGain SharcCombFilter.setDampingFreq SharcCombFilter.prepared
       SharcCombFilter.delaySamples SharcCombFilter.writeIndex SharcCombFilter.feedbackGain
       SharcCombFilter.dampingCoeff SharcCombFilter.sRate SharcCombFilter.filterState
       SharcCombFilter.delayLine].
  rewrite S1, S2.
  repeat split; try assumption; try reflexivity; try apply Hp; try apply Hd;
    try apply Hw.
Qed.

Lemma map_scale_mix (a b k : R) (xs xs1 xs2 : list R) :
  mixOf a b xs xs1 xs2 ->
  mixOf a b (map (fun v => v * k) xs) (map (fun v => v * k) xs1)
    (map (fun v => v * k) xs2).
Proof.
  induction 1 as [|x x1 x2 xs xs1 xs2 Hx _ IH]; cbn [map]; constructor; [|exact IH].
  subst x. ring.
Qed.

(** The wet path is linear in the block and in the memory it starts from. *)
Lemma wetL_mix (a b : R) (G G1 G2 : Statics) (p p1 p2 : DdxReverbAudioProcessor.t)
    (prm : Params) (xs xs1 xs2 : list R) :
  stateMixOf a b (G, p) (G1, p1) (G2, p2) -> mixOf a b xs xs1 xs2 ->
  let k := wetL G p prm xs in
  let k1 := wetL G1 p1 prm xs1 in
  let k2 := wetL G2 p2 prm xs2 in
  prevSample (DdxReverbAudioProcessor.wStatics k)
  = a * prevSample (DdxReverbAudioProcessor.wStatics k1)
    + b * prevSample (DdxReverbAudioProcessor.wStatics k2) /\
  (DdxReverbAudioProcessor.wPreDelayWritePos k1 = DdxReverbAudioProcessor.wPreDelayWritePos k
   /\ DdxReverbAudioProcessor.wPreDelayWritePos k2
      = DdxReverbAudioProcessor.wPreDelayWritePos k) /\
  mixOf a b (DdxReverbAudioProcessor.wPreDelayBuffer k)
    (DdxReverbAudioProcessor.wPreDelayBuffer k1)
    (DdxReverbAudioProcessor.wPreDelayBuffer k2) /\
  Forall3 (combMixOf a b) (DdxReverbAudioProcessor.wCombs k)
    (DdxReverbAudioProcessor.wCombs k1) (DdxReverbAudioProcessor.wCombs k2) /\
  Forall3 (allpassMixOf a b) (DdxReverbAudioProcessor.wAllpasses k)
    (DdxReverbAudioProcessor.wAllpasses k1) (DdxReverbAudioProcessor.wAllpasses k2) /\
  mixOf a b (DdxReverbAudioProcessor.wMono k) (DdxReverbAudioProcessor.wMono k1)
    (DdxReverbAudioProcessor.wMono k2).
Proof.
  intros (HG & _ & _ & [S1 S2] & [W1 W2] & Hb & Hc & Ha) Hx. cbv zeta.
  unfold wetL.
  cbn [DdxReverbAudioProcessor.wStatics DdxReverbAudioProcessor.wPreDelayBuffer
       DdxReverbAudioProcessor.wPreDelayWritePos DdxReverbAudioProcessor.wCombs
       DdxReverbAudioProcessor.wAllpasses DdxReverbAudioProcessor.wMono].
  destruct (mixOf_length _ _ _ _ _ Hb) as [L1 L2].
  assert (D1 : DdxReverbAudioProcessor.preDelayLength p1 (predelay prm)
               = DdxReverbAudioProcessor.preDelayLength p (predelay prm))
    by (unfold DdxReverbAudioProcessor.preDelayLength; now rewrite L1, S1).
  assert (D2 : DdxReverbAudioProcessor.preDelayLength p2 (predelay prm)
               = DdxReverbAudioProcessor.preDelayLength p (predelay prm))
    by (unfold DdxReverbAudioProcessor.preDelayLength; now rewrite L2, S2).
  rewrite D1, D2, S1, S2, W1, W2.
  destruct (hiCutL_mix a b (hicut prm) G G1 G2 xs xs1 xs2 HG Hx) as [A1 A2].
  destruct (preDelayL_mix a b (DdxReverbAudioProcessor.preDelayLength p (predelay prm))
              _ _ _ (DdxReverbAudioProcessor.preDelayWritePos p) _ _ _ Hb A2)
    as (B1 & B2 & B3).
  cbv zeta in B1, B2, B3.
  destruct (combChainL_mix a b _ _ _
              (updateCombs_mix a b
                 (DdxReverbAudioProcessor.dampingFreqOf (damping prm))
                 (DdxReverbAudioProcessor.combGainOf (decay prm) (bassmult prm)
                    (DdxReverbAudioProcessor.currentSampleRate p))
                 _ _ _ Hc) true _ _ _ B3) as [C1 C2].
  destruct (allpassChainL_mix a b (juce.jmap (diffusion prm) 0 20 0.3 0.7) _ _ _ Ha
              _ _ _ (map_scale_mix a b 0.25 _ _ _ C2)) as [E1 E2].
  repeat split; try assumption; apply B1.
Qed.

Lemma Forall3_Forall {A : Type} (P : A -> A -> A -> Prop) (Q Q1 Q2 : A -> Prop)
    (l l1 l2 : list A) :
  (forall x y z, P x y z -> Q x /\ Q1 y /\ Q2 z) ->
  Forall3 P l l1 l2 -> Forall Q l /\ Forall Q1 l1 /\ Forall Q2 l2.
Proof.
  intros H. induction 1 as [|x y z l l1 l2 Hx _ (I & I1 & I2)]; [repeat constructor|].
  destruct (H x y z Hx) as (Hq & Hq1 & Hq2). repeat split; constructor; assumption.
Qed.

Lemma Forall3_transfer {A : Type} (P : A -> A -> A -> Prop) (Q : A -> Prop)
    (l l1 l2 : list A) :
  (forall x y z, P x y z -> Q x -> Q y /\ Q z) ->
  Forall3 P l l1 l2 -> Forall Q l -> Forall Q l1 /\ Forall Q l2.
Proof.
  intros H. induction 1 as [|x y z l l1 l2 Hx _ IH]; intros HF; [repeat constructor|].
  inversion HF as [|? ? Hq HF']; subst. destruct (IH HF') as [I1 I2].
  destruct (H x y z Hx Hq) as [Hy Hz]. split; constructor; assumption.
Qed.

Lemma mix_prepared (a b : R) (p p1 p2 : DdxReverbAudioProcessor.t) :
  Forall3 (combMixOf a b) (DdxReverbAudioProcessor.combs p)
    (DdxReverbAudioProcessor.combs p1) (DdxReverbAudioProcessor.combs p2) ->
  Forall3 (allpassMixOf a b) (DdxReverbAudioProcessor.allpasses p)
    (DdxReverbAudioProcessor.allpasses p1) (DdxReverbAudioProcessor.allpasses p2) ->
  (Forall (fun c => SharcCombFilter.prepared c = true) (DdxReverbAudioProcessor.combs p)
   /\ Forall (fun c => SharcCombFilter.prepared c = true) (DdxReverbAudioProcessor.combs p1)
   /\ Forall (fun c => SharcCombFilter.prepared c = true) (DdxReverbAudioProcessor.combs p2))
  /\
  (Forall (fun f => SharcAllpassFilter.prepared f = true)
     (DdxReverbAudioProcessor.allpasses p)
   /\ Forall (fun f => SharcAllpassFilter.prepared f = true)
        (DdxReverbAudioProcessor.allpasses p1)
   /\ Forall (fun f => SharcAllpassFilter.prepared f = true)
        (DdxReverbAudioProcessor.allpasses p2)).
Proof.
  intros Hc Ha. split.
  - apply (Forall3_Forall (combMixOf a b)); [|exact Hc]. intros x y z H. apply H.
  - apply (Forall3_Forall (allpassMixOf a b)); [|exact Ha]. intros x y z H. apply H.
Qed.

Lemma mix_simdSafe (a b : R) (w : Z) (p p1 p2 : DdxReverbAudioProcessor.t) :
  Forall3 (combMixOf a b) (DdxReverbAudioProcessor.combs p)
    (DdxReverbAudioProcessor.combs p1) (DdxReverbAudioProcessor.combs p2) ->
  Forall3 (allpassMixOf a b) (DdxReverbAudioProcessor.allpasses p)
    (DdxReverbAudioProcessor.allpasses p1) (DdxReverbAudioProcessor.allpasses p2) ->
  simdSafe w p -> simdSafe w p1 /\ simdSafe w p2.
Proof.
  intros Hc Ha [Sc Sa].
  assert (Tc : forall x y z, combMixOf a b x y z -> combSafe w x ->
                 combSafe w y /\ combSafe w z).
  { intros x y z (Hp & [D1 D2] & [W1 W2] & _ & _ & _ & _ & Hl) Hs.
    destruct (mixOf_length _ _ _ _ _ Hl) as [L1 L2].
    destruct (Hs (proj1 Hp)) as [H1 H2].
    unfold combSafe. rewrite D1, D2, W1, W2, L1, L2. split; intros _; auto. }
  assert (Ta : forall x y z, allpassMixOf a b x y z -> allpassSafe w x ->
                 allpassSafe w y /\ allpassSafe w z).
  { intros x y z (Hp & [D1 D2] & [W1 W2] & _ & Hl) Hs.
    destruct (mixOf_length _ _ _ _ _ Hl) as [L1 L2].
    destruct (Hs (proj1 Hp)) as [H1 H2].
    unfold allpassSafe. rewrite D1, D2, W1, W2, L1, L2. split; intros _; auto. }
  destruct (Forall3_transfer _ _ _ _ _ Tc Hc Sc) as [C1 C2].
  destruct (Forall3_transfer _ _ _ _ _ Ta Ha Sa) as [A1 A2].
  split; split; assumption.
Qed.

Lemma mix_fits (a b : R) (p p1 : DdxReverbAudioProcessor.t) (buf buf1 : AudioBuffer.t) :
  DdxReverbAudioProcessor.totalNumInputChannels p1
  = DdxReverbAudioProcessor.totalNumInputChannels p ->
  DdxReverbAudioProcessor.totalNumOutputChannels p1
  = DdxReverbAudioProcessor.totalNumOutputChannels p ->
  AudioBuffer.getNumSamples buf1 = AudioBuffer.getNumSamples buf ->
  AudioBuffer.getNumChannels buf1 = AudioBuffer.getNumChannels buf ->
  (forall ch, lenZ (AudioBuffer.chan buf1 ch) = lenZ (AudioBuffer.chan buf ch)) ->
  fits p buf -> fits p1 buf1.
Proof.
  intros Hi Ho Hn Hc Hl Hf. pose proof Hf as (F1 & F2 & F3 & F4).
  unfold fits. rewrite Hi, Ho, Hn, Hc. repeat split; try assumption.
  apply (Forall_rd _ []). intros ch Hch. fold (AudioBuffer.chan buf1 ch).
  rewrite Hl. apply (fits_chan_length p); [exact Hf|].
  unfold AudioBuffer.getNumChannels in *. lia.
Qed.

Lemma clearUnused_mix (a b : R) (p : DdxReverbAudioProcessor.t)
    (buf buf1 buf2 : AudioBuffer.t) :
  fits p buf -> fits p buf1 -> fits p buf2 -> bufferMixOf a b buf buf1 buf2 ->
  bufferMixOf a b (DdxReverbAudioProcessor.clearUnused p buf)
    (DdxReverbAudioProcessor.clearUnused p buf1)
    (DdxReverbAudioProcessor.clearUnused p buf2).
Proof.
  intros Hf Hf1 Hf2 ([N1 N2] & [C1 C2] & Hch).
  destruct (clearUnused_spec p buf Hf) as (N & C & Lo & Hi).
  destruct (clearUnused_spec p buf1 Hf1) as (N' & C' & Lo1 & Hi1).
  destruct (clearUnused_spec p buf2 Hf2) as (N'' & C'' & Lo2 & Hi2).
  split; [split; lia|]. split; [split; lia|]. intros ch.
  destruct (Z_lt_ge_dec ch (DdxReverbAudioProcessor.totalNumInputChannels p)) as [Hl|Hg].
  - rewrite Lo, Lo1, Lo2 by exact Hl. apply Hch.
  - destruct (Z_lt_ge_dec ch (DdxReverbAudioProcessor.totalNumOutputChannels p))
      as [Hl2|Hg2].
    + destruct (Hi ch ltac:(lia)) as [L V].
      destruct (Hi1 ch ltac:(lia)) as [L1 V1].
      destruct (Hi2 ch ltac:(lia)) as [L2 V2].
      apply mixOf_of_rd; [lia|lia|]. intros k Hk.
      rewrite V, V1, V2 by lia. ring.
    + rewrite !clearUnused_untouched by lia. apply Hch.
Qed.

Lemma downmixL_mix (a b : R) (nIn : Z) (buf buf1 buf2 : AudioBuffer.t) :
  bufferMixOf a b buf buf1 buf2 ->
  mixOf a b (downmixL nIn buf) (downmixL nIn buf1) (downmixL nIn buf2).
Proof.
  intros ([N1 N2] & _ & Hch).
  apply (Forall3_of_nth _ 0); [rewrite !downmixL_length; lia..|].
  intros i Hi. rewrite downmixL_length in Hi. unfold downmixL.
  rewrite !nth_map_seq by lia. cbv zeta.
  rewrite (mixOf_rd a b _ _ _ (Z.of_nat i) (Hch 0%Z)).
  rewrite (mixOf_rd a b _ _ _ (Z.of_nat i) (Hch 1%Z)).
  destruct (nIn >? 1)%Z; ring.
Qed.

(** X22.  The engine is linear.  If the hi-cut memory, the filter and
    pre-delay memories and the input block of a processor are the
    superposition [a * (.) + b * (.)] of those of two others with the same
    settings and cursors, then so are the output block and the memories
    after [processBlock] with the same parameter values: the samples are
    never clipped, limited or otherwise shaped by their level.  Bypassed or
    running, scalar path or SIMD path on filters whose delays are at least
    the register width; each scratch buffer holds the block. *)
Theorem X22_superposition (w : Z) (a b : R) (G G1 G2 : Statics)
    (p p1 p2 : DdxReverbAudioProcessor.t) (prm : Params)
    (buf buf1 buf2 : AudioBuffer.t) (t0 t1 t2 t3 t4 t5 : R) :
  wellFormed p ->
  stateMixOf a b (G, p) (G1, p1) (G2, p2) ->
  fits p buf -> bufferMixOf a b buf buf1 buf2 ->
  (gtb (simd prm) 0.5 = true -> (1 <= w <= 8)%Z /\ simdSafe w p) ->
  (AudioBuffer.getNumSamples buf
     <= lenZ (AudioBuffer.chan (DdxReverbAudioProcessor.tempBuffer p) 0))%Z ->
  (AudioBuffer.getNumSamples buf
     <= lenZ (AudioBuffer.chan (DdxReverbAudioProcessor.tempBuffer p1) 0))%Z ->
  (AudioBuffer.getNumSamples buf
     <= lenZ (AudioBuffer.chan (DdxReverbAudioProcessor.tempBuffer p2) 0))%Z ->
  let r := DdxReverbAudioProcessor.processBlock w G p prm buf t0 t1 in
  let r1 := DdxReverbAudioProcessor.processBlock w G1 p1 prm buf1 t2 t3 in
  let r2 := DdxReverbAudioProcessor.processBlock w G2 p2 prm buf2 t4 t5 in
  bufferMixOf a b (snd r) (snd r1) (snd r2) /\
  stateMixOf a b (fst r) (fst r1) (fst r2).
Proof.
  intros Hwf HS Hf HB Hs Ht Ht1 Ht2 r r1 r2.
  pose proof HS as (HG & [I1 I2] & [O1 O2] & [R1 R2] & [W1 W2] & Hb & Hc & Ha).
  pose proof HB as ([N1 N2] & [C1 C2] & Hch).
  assert (Hf1 : fits p buf1).
  { apply (mix_fits a b p p buf buf1); auto. intros ch.
    apply (mixOf_length _ _ _ _ _ (Hch ch)). }
  assert (Hf2 : fits p buf2).
  { apply (mix_fits a b p p buf buf2); auto. intros ch.
    apply (mixOf_length _ _ _ _ _ (Hch ch)). }
  pose proof (clearUnused_mix a b p buf buf1 buf2 Hf Hf1 Hf2 HB) as Hdry.
  destruct (gtb (bypass prm) 0.5) eqn:Hbp.
  - unfold r, r1, r2. rewrite !processBlock_bypassed by exact Hbp. cbn [fst snd].
    rewrite (clearUnused_layout p p1 buf1 I1 O1), (clearUnused_layout p p2 buf2 I2 O2).
    split; [exact Hdry|exact HS].
  - destruct (mix_prepared a b p p1 p2 Hc Ha) as [(Pc & Pc1 & Pc2) (Pa & Pa1 & Pa2)].
    assert (Hwf1 : wellFormed p1).
    { destruct Hwf as [Wc Wa]. destruct (Forall3_length _ _ _ _ Hc) as [Lc _].
      destruct (Forall3_length _ _ _ _ Ha) as [La _]. split; unfold lenZ in *; lia. }
    assert (Hwf2 : wellFormed p2).
    { destruct Hwf as [Wc Wa]. destruct (Forall3_length _ _ _ _ Hc) as [_ Lc].
      destruct (Forall3_length _ _ _ _ Ha) as [_ La]. split; unfold lenZ in *; lia. }
    destruct (processBlock_samples w G p prm buf t0 t1 Hwf Pc Pa Hf Hbp Hs Ht)
      as (A & B & N & C & V & U & _).
    destruct (processBlock_samples w G1 p1 prm buf1 t2 t3 Hwf1 Pc1 Pa1
                (fits_layout p p1 buf1 I1 O1 Hf1) Hbp
                (fun H => conj (proj1 (Hs H))
                            (proj1 (mix_simdSafe a b w p p1 p2 Hc Ha (proj2 (Hs H)))))
                ltac:(lia)) as (A1 & B1 & N1' & C1' & V1 & U1 & _).
    destruct (processBlock_samples w G2 p2 prm buf2 t4 t5 Hwf2 Pc2 Pa2
                (fits_layout p p2 buf2 I2 O2 Hf2) Hbp
                (fun H => conj (proj1 (Hs H))
                            (proj2 (mix_simdSafe a b w p p1 p2 Hc Ha (proj2 (Hs H)))))
                ltac:(lia)) as (A2 & B2 & N2' & C2' & V2 & U2 & _).
    fold r in A, B, N, C, V, U. fold r1 in A1, B1, N1', C1', V1, U1.
    fold r2 in A2, B2, N2', C2', V2, U2.
    cbv zeta in A, B, V, U, A1, B1, V1, U1, A2, B2, V2, U2.
    rewrite (clearUnused_layout p p1 buf1 I1 O1) in A1, V1, U1.
    rewrite (clearUnused_layout p p2 buf2 I2 O2) in A2, V2, U2.
    rewrite I1 in A1, V1. rewrite I2 in A2, V2. rewrite O1 in V1, U1. rewrite O2 in V2, U2.
    set (nIn := DdxReverbAudioProcessor.totalNumInputChannels p) in *.
    set (dry := DdxReverbAudioProcessor.clearUnused p buf) in *.
    set (dry1 := DdxReverbAudioProcessor.clearUnused p buf1) in *.
    set (dry2 := DdxReverbAudioProcessor.clearUnused p buf2) in *.
    destruct (wetL_mix a b G G1 G2 p p1 p2 prm _ _ _ HS
                (downmixL_mix a b nIn dry dry1 dry2 Hdry))
      as (K1 & [K2 K2'] & K3 & K4 & K5 & K6).
    cbv zeta in K1, K2, K2', K3, K4, K5, K6.
    set (k := wetL G p prm (downmixL nIn dry)) in *.
    set (k1 := wetL G1 p1 prm (downmixL nIn dry1)) in *.
    set (k2 := wetL G2 p2 prm (downmixL nIn dry2)) in *.
    destruct A as (As & Ac & Aa & Ab & Ap & _).
    destruct A1 as (A1s & A1c & A1a & A1b & A1p & _).
    destruct A2 as (A2s & A2c & A2a & A2b & A2p & _).
    destruct B as (Bi & Bo & Br & _). destruct B1 as (B1i & B1o & B1r & _).
    destruct B2 as (B2i & B2o & B2r & _).
    split.
    + split; [split; lia|]. split; [split; lia|]. intros ch.
      destruct (Z_lt_ge_dec ch 0) as [Hneg|Hpos];
        [|destruct (Z_lt_ge_dec ch (DdxReverbAudioProcessor.totalNumOutputChannels p))
            as [Hin|Hout]].
      * rewrite U, U1, U2 by lia. apply Hdry.
      * destruct (V ch ltac:(lia)) as [L Vv].
        destruct (V1 ch ltac:(lia)) as [L1 Vv1].
        destruct (V2 ch ltac:(lia)) as [L2 Vv2].
        apply mixOf_of_rd; [lia|lia|]. intros i Hi.
        rewrite Vv, Vv1, Vv2 by lia.
        destruct Hdry as (_ & _ & Hd). rewrite (mixOf_rd a b _ _ _ i (Hd ch)).
        pose proof (mixOf_rd a b _ _ _ i K6) as Hm.
        rewrite !rd_nth in Hm by lia. rewrite Hm. ring.
      * rewrite U, U1, U2 by lia. apply Hdry.
    + rewrite (surjective_pairing (fst r)), (surjective_pairing (fst r1)),
        (surjective_pairing (fst r2)).
      unfold stateMixOf.
      rewrite As, A1s, A2s, Ac, A1c, A2c, Aa, A1a, A2a, Ab, A1b, A2b, Ap, A1p, A2p.
      rewrite Bi, B1i, B2i, Bo, B1o, B2o, Br, B1r, B2r.
      repeat split; assumption.
Qed.

(** A processor at rest is any superposition of itself with itself. *)
Lemma quiet_state_mix (a b : R) (G : Statics) (p : DdxReverbAudioProcessor.t) :
  quietProcessor G p -> stateMixOf a b (G, p) (G, p) (G, p).
Proof.
  intros (HG & Hb & Hc & Ha).
  assert (Hz : forall l, Forall (fun v => v = 0) l -> mixOf a b l l l).
  { induction 1 as [|x l Hx _ IH]; constructor; [subst x; ring|exact IH]. }
  unfold stateMixOf. rewrite HG. repeat split; try reflexivity; try ring.
  - now apply Hz.
  - induction Hc as [|c cs [Hp [Hl Hf]] _ IH]; constructor; [|exact IH].
    unfold combMixOf. rewrite Hf. repeat split; try assumption; try reflexivity; try ring.
    now apply Hz.
  - induction Ha as [|f fs [Hp Hl] _ IH]; constructor; [|exact IH].
    unfold allpassMixOf. repeat split; try assumption; try reflexivity.
    now apply Hz.
Qed.

Lemma X22_superposition_witness :
  let p := DdxReverbAudioProcessor.prepareToPlay
             (DdxReverbAudioProcessor.construct 2 2) 48000 4 in
  let prm := mkParams 5 0 50 10 12 0 0.5 0 1 in
  let buf := AudioBuffer.mk [[5; 10]; [3; 2]] 2 in
  let buf1 := AudioBuffer.mk [[1; 2]; [0; 1]] 2 in
  let buf2 := AudioBuffer.mk [[1; 2]; [1; 0]] 2 in
  let r := DdxReverbAudioProcessor.processBlock 4 initialStatics p prm buf 0 1 in
  let r1 := DdxReverbAudioProcessor.processBlock 4 initialStatics p prm buf1 0 1 in
  let r2 := DdxReverbAudioProcessor.processBlock 4 initialStatics p prm buf2 0 1 in
  bufferMixOf 2 3 (snd r) (snd r1) (snd r2) /\
  stateMixOf 2 3 (fst r) (fst r1) (fst r2).
Proof.
  intros p prm buf buf1 buf2 r r1 r2.
  destruct (prepareToPlay_ready (DdxReverbAudioProcessor.construct 2 2) 48000 4
              (construct_wellFormed 2 2) ltac:(lra)) as (W & Q & _ & _ & _ & Ht).
  fold p in W, Q, Ht.
  refine (X22_superposition 4 2 3 initialStatics initialStatics initialStatics p p p prm
            buf buf1 buf2 0 1 0 1 0 1 W (quiet_state_mix 2 3 _ _ Q) _ _ _ _ _ _).
  - unfold fits, AudioBuffer.getNumChannels, lenZ. cbn.
    repeat split; try lia. repeat constructor.
  - unfold bufferMixOf, AudioBuffer.getNumChannels, lenZ. cbn.
    repeat split; try lia. intros ch.
    destruct (Z.eq_dec ch 0) as [->|H0];
      [unfold mixOf, AudioBuffer.chan; cbn; repeat constructor; lra|].
    destruct (Z.eq_dec ch 1) as [->|H1];
      [unfold mixOf, AudioBuffer.chan; cbn; repeat constructor; lra|].
    rewrite !chan_absent by (unfold AudioBuffer.getNumChannels, lenZ; cbn; lia).
    constructor.
  - intros _. split; [lia|].
    apply prepareToPlay_48k_simdSafe; [lia|apply construct_wellFormed].
  - rewrite Ht. cbn. lia.
  - rewrite Ht. cbn. lia.
  - rewrite Ht. cbn. lia.
Defined.

(** ** Preparing again *)

(** The filters [prepareToPlay] builds do not depend on the filters it
    finds. *)
Lemma prepareToPlay_same_filters (p q : DdxReverbAudioProcessor.t) (sr : R) (n : Z) :
  wellFormed p -> wellFormed q ->
  DdxReverbAudioProcessor.combs (DdxReverbAudioProcessor.prepareToPlay p sr n)
  = DdxReverbAudioProcessor.combs (DdxReverbAudioProcessor.prepareToPlay q sr n) /\
  DdxReverbAudioProcessor.allpasses (DdxReverbAudioProcessor.prepareToPlay p sr n)
  = DdxReverbAudioProcessor.allpasses (DdxReverbAudioProcessor.prepareToPlay q sr n).
Proof.
  intros Hp Hq.
  destruct (prepareToPlay_combs p sr n Hp) as [Lp Cp].
  destruct (prepareToPlay_combs q sr n Hq) as [Lq Cq].
  destruct (prepareToPlay_allpasses p sr n Hp) as [Lp' Ap].
  destruct (prepareToPlay_allpasses q sr n Hq) as [Lq' Aq].
  split.
  - apply (list_eq_rd _ _ SharcCombFilter.default); [lia|]. intros k Hk.
    rewrite Lp in Hk.
    change (DdxReverbAudioProcessor.combAt
              (DdxReverbAudioProcessor.combs (DdxReverbAudioProcessor.prepareToPlay p sr n)) k
            = DdxReverbAudioProcessor.combAt
                (DdxReverbAudioProcessor.combs (DdxReverbAudioProcessor.prepareToPlay q sr n))
                k).
    rewrite (Cp k Hk), (Cq k Hk). reflexivity.
  - apply (list_eq_rd _ _ SharcAllpassFilter.default); [lia|]. intros k Hk.
    rewrite Lp' in Hk.
    change (DdxReverbAudioProcessor.apAt
              (DdxReverbAudioProcessor.allpasses
                 (DdxReverbAudioProcessor.prepareToPlay p sr n)) k
            = DdxReverbAudioProcessor.apAt
                (DdxReverbAudioProcessor.allpasses
                   (DdxReverbAudioProcessor.prepareToPlay q sr n)) k).
    rewrite (Ap k Hk), (Aq k Hk). reflexivity.
Qed.

Lemma runBlocks_wellFormed (w : Z) (bs : list Block) :
  forall st, wellFormed (snd st) ->
  wellFormed (snd (runBlocks w st bs)) /\
  DdxReverbAudioProcessor.totalNumInputChannels (snd (runBlocks w st bs))
  = DdxReverbAudioProcessor.totalNumInputChannels (snd st) /\
  DdxReverbAudioProcessor.totalNumOutputChannels (snd (runBlocks w st bs))
  = DdxReverbAudioProcessor.totalNumOutputChannels (snd st).
Proof.
  unfold runBlocks. induction bs as [|b bs IH]; intros st H; cbn [fold_left]; [auto|].
  destruct (processBlock_wellFormed w (fst st) (snd st) (bParams b) (bBuffer b)
              (bStart b) (bEnd b) H) as (H1 & H2 & H3).
  destruct (IH (stepBlock w st b) H1) as (I1 & I2 & I3).
  split; [exact I1|]. split.
  - rewrite I2. exact H2.
  - rewrite I3. exact H3.
Qed.

(** X23.  [prepareToPlay] rebuilds the filters whatever has been played.
    After any run of blocks, preparing again gives the comb and allpass
    filters, the pre-delay line and cursor, the sample rate and the bus
    layout that preparing the processor before those blocks gives, and dry
    and scratch buffers of the same shape.  [preDelaySamples], [useSIMD]
    and [cpuUsage] are carried over from the run.  The hi-cut memory is not
    a member and keeps the value the run left: with it the re-prepared
    processor is at rest exactly when that value is zero. *)
Theorem X23_prepareToPlay_rebuilds_the_filters (w : Z) (G : Statics)
    (p0 : DdxReverbAudioProcessor.t) (bs : list Block) (sr : R) (n : Z) :
  wellFormed p0 ->
  let st := runBlocks w (G, p0) bs in
  let played := snd st in
  let fresh := DdxReverbAudioProcessor.prepareToPlay p0 sr n in
  let again := DdxReverbAudioProcessor.prepareToPlay played sr n in
  (DdxReverbAudioProcessor.combs again = DdxReverbAudioProcessor.combs fresh /\
   DdxReverbAudioProcessor.allpasses again = DdxReverbAudioProcessor.allpasses fresh /\
   DdxReverbAudioProcessor.preDelayBuffer again
   = DdxReverbAudioProcessor.preDelayBuffer fresh /\
   DdxReverbAudioProcessor.preDelayWritePos again
   = DdxReverbAudioProcessor.preDelayWritePos fresh /\
   DdxReverbAudioProcessor.currentSampleRate again
   = DdxReverbAudioProcessor.currentSampleRate fresh /\
   DdxReverbAudioProcessor.totalNumInputChannels again
   = DdxReverbAudioProcessor.totalNumInputChannels fresh /\
   DdxReverbAudioProcessor.totalNumOutputChannels again
   = DdxReverbAudioProcessor.totalNumOutputChannels fresh) /\
  (AudioBuffer.getNumChannels (DdxReverbAudioProcessor.dryBuffer again)
   = AudioBuffer.getNumChannels (DdxReverbAudioProcessor.dryBuffer fresh) /\
   AudioBuffer.getNumSamples (DdxReverbAudioProcessor.dryBuffer again)
   = AudioBuffer.getNumSamples (DdxReverbAudioProcessor.dryBuffer fresh) /\
   AudioBuffer.getNumChannels (DdxReverbAudioProcessor.tempBuffer again)
   = AudioBuffer.getNumChannels (DdxReverbAudioProcessor.tempBuffer fresh) /\
   AudioBuffer.getNumSamples (DdxReverbAudioProcessor.tempBuffer again)
   = AudioBuffer.getNumSamples (DdxReverbAudioProcessor.tempBuffer fresh)) /\
  (DdxReverbAudioProcessor.preDelaySamples again
   = DdxReverbAudioProcessor.preDelaySamples played /\
   DdxReverbAudioProcessor.useSIMD again = DdxReverbAudioProcessor.useSIMD played /\
   DdxReverbAudioProcessor.cpuUsage again = DdxReverbAudioProcessor.cpuUsage played) /\
  (quietProcessor (fst st) again <-> prevSample (fst st) = 0).
Proof.
  intros Hwf st played fresh again.
  destruct (runBlocks_wellFormed w bs (G, p0) Hwf) as (Hw & Hi & Ho).
  fold st in Hw, Hi, Ho. fold played in Hw, Hi, Ho. cbn [snd] in Hi, Ho.
  destruct (prepareToPlay_same_filters played p0 sr n Hw Hwf) as [Hc Ha].
  split; [|split; [|split]].
  - split; [exact Hc|]. split; [exact Ha|].
    unfold again, fresh, DdxReverbAudioProcessor.prepareToPlay.
    cbn [DdxReverbAudioProcessor.preDelayBuffer DdxReverbAudioProcessor.preDelayWritePos
         DdxReverbAudioProcessor.currentSampleRate
         DdxReverbAudioProcessor.totalNumInputChannels
         DdxReverbAudioProcessor.totalNumOutputChannels].
    repeat split; assumption.
  - repeat split.
  - repeat split.
  - pose proof (prepareToPlay_quiet played sr n Hw) as (_ & Q). fold again in Q.
    unfold quietProcessor. split; [intros H; apply H|intros H; split; [exact H|exact Q]].
Qed.

Lemma X23_prepareToPlay_rebuilds_the_filters_witness :
  let b := mkBlock (mkParams 5 50 50 10 12 0 0.5 0 1) (AudioBuffer.mk [[1; 0]; [0; 1]] 2)
             0 1 in
  let p0 := DdxReverbAudioProcessor.prepareToPlay
              (DdxReverbAudioProcessor.construct 2 2) 48000 4 in
  let played := snd (runBlocks 4 (initialStatics, p0) [b; b]) in
  DdxReverbAudioProcessor.combs (DdxReverbAudioProcessor.prepareToPlay played 44100 8)
  = DdxReverbAudioProcessor.combs (DdxReverbAudioProcessor.prepareToPlay p0 44100 8).
Proof.
  intros b p0 played.
  refine (proj1 (proj1
            (X23_prepareToPlay_rebuilds_the_filters 4 initialStatics p0 [b; b] 44100 8 _))).
  apply prepareToPlay_members_silent. apply construct_wellFormed.
Defined.

(** ** What the reverb hears of a stereo input *)

Lemma downmixL_sum (nIn : Z) (b b' : AudioBuffer.t) :
  AudioBuffer.getNumSamples b' = AudioBuffer.getNumSamples b ->
  (1 < nIn)%Z ->
  (forall i, (0 <= i < AudioBuffer.getNumSamples b)%Z ->
     rd (AudioBuffer.chan b 0) i + rd (AudioBuffer.chan b 1) i
     = rd (AudioBuffer.chan b' 0) i + rd (AudioBuffer.chan b' 1) i) ->
  downmixL nIn b = downmixL nIn b'.
Proof.
  intros HN Hin Hsum. apply (nth_ext _ _ 0 0); [rewrite !downmixL_length; lia|].
  intros k Hk. rewrite downmixL_length in Hk. unfold downmixL.
  rewrite !nth_map_seq by lia. cbv zeta.
  destruct (nIn >? 1)%Z eqn:E; [|lia]. rewrite Hsum by lia. reflexivity.
Qed.

(** X24.  The reverb hears only the mono sum of a stereo input.  Two
    blocks whose left and right channels add up to the same samples leave
    the same hi-cut memory, comb and allpass filters and pre-delay line
    behind, and get the same wet signal added: on every output channel the
    output minus the dry sample times [1 - wet] is the same for both.  In
    particular the difference of the channels never reaches the filters.
    (A running block on prepared filters, the scratch buffer holding the
    block; scalar path, or SIMD path on filters whose delays are at least
    the register width.) *)
Theorem X24_reverb_hears_the_mono_sum (w : Z) (G : Statics)
    (p : DdxReverbAudioProcessor.t) (prm : Params) (b b' : AudioBuffer.t)
    (t0 t1 t2 t3 : R) :
  wellFormed p ->
  Forall (fun c => SharcCombFilter.prepared c = true) (DdxReverbAudioProcessor.combs p) ->
  Forall (fun a => SharcAllpassFilter.prepared a = true)
    (DdxReverbAudioProcessor.allpasses p) ->
  fits p b -> fits p b' ->
  AudioBuffer.getNumSamples b' = AudioBuffer.getNumSamples b ->
  (1 < DdxReverbAudioProcessor.totalNumInputChannels p)%Z ->
  (forall i, (0 <= i < AudioBuffer.getNumSamples b)%Z ->
     rd (AudioBuffer.chan b 0) i + rd (AudioBuffer.chan b 1) i
     = rd (AudioBuffer.chan b' 0) i + rd (AudioBuffer.chan b' 1) i) ->
  gtb (bypass prm) 0.5 = false ->
  (gtb (simd prm) 0.5 = true -> (1 <= w <= 8)%Z /\ simdSafe w p) ->
  (AudioBuffer.getNumSamples b
     <= lenZ (AudioBuffer.chan (DdxReverbAudioProcessor.tempBuffer p) 0))%Z ->
  let r := DdxReverbAudioProcessor.processBlock w G p prm b t0 t1 in
  let r' := DdxReverbAudioProcessor.processBlock w G p prm b' t2 t3 in
  (fst (fst r) = fst (fst r') /\
   DdxReverbAudioProcessor.combs (snd (fst r))
   = DdxReverbAudioProcessor.combs (snd (fst r')) /\
   DdxReverbAudioProcessor.allpasses (snd (fst r))
   = DdxReverbAudioProcessor.allpasses (snd (fst r')) /\
   DdxReverbAudioProcessor.preDelayBuffer (snd (fst r))
   = DdxReverbAudioProcessor.preDelayBuffer (snd (fst r')) /\
   DdxReverbAudioProcessor.preDelayWritePos (snd (fst r))
   = DdxReverbAudioProcessor.preDelayWritePos (snd (fst r'))) /\
  forall ch i,
    (0 <= ch < DdxReverbAudioProcessor.totalNumOutputChannels p)%Z ->
    (0 <= i < AudioBuffer.getNumSamples b)%Z ->
    rd (AudioBuffer.chan (snd r) ch) i
    - rd (AudioBuffer.chan (DdxReverbAudioProcessor.clearUnused p b) ch) i * (1 - wet prm)
    = rd (AudioBuffer.chan (snd r') ch) i
      - rd (AudioBuffer.chan (DdxReverbAudioProcessor.clearUnused p b') ch) i
        * (1 - wet prm).
Proof.
  intros Hwf Hpc Hpa Hf Hf' HN Hin Hsum Hb Hs Ht r r'.
  destruct (processBlock_samples w G p prm b t0 t1 Hwf Hpc Hpa Hf Hb Hs Ht)
    as (A & _ & _ & _ & V & _).
  destruct (processBlock_samples w G p prm b' t2 t3 Hwf Hpc Hpa Hf' Hb Hs ltac:(lia))
    as (A' & _ & _ & _ & V' & _).
  fold r in A, V. fold r' in A', V'. cbv zeta in A, V, A', V'.
  destruct (clearUnused_spec p b Hf) as (N & _ & Lo & _).
  destruct (clearUnused_spec p b' Hf') as (N' & _ & Lo' & _).
  assert (E : downmixL (DdxReverbAudioProcessor.totalNumInputChannels p)
                (DdxReverbAudioProcessor.clearUnused p b')
              = downmixL (DdxReverbAudioProcessor.totalNumInputChannels p)
                  (DdxReverbAudioProcessor.clearUnused p b)).
  { symmetry. apply downmixL_sum; [lia|exact Hin|].
    intros i Hi. rewrite !Lo, !Lo' by lia. apply Hsum. lia. }
  rewrite E in A', V'.
  destruct A as (A1 & A2 & A3 & A4 & A5 & _).
  destruct A' as (A1' & A2' & A3' & A4' & A5' & _).
  split; [repeat split; congruence|].
  intros ch i Hch Hi.
  destruct (V ch Hch) as [_ Vv]. destruct (V' ch Hch) as [_ Vv'].
  rewrite Vv by exact Hi. rewrite Vv' by lia. ring.
Qed.

Lemma X24_reverb_hears_the_mono_sum_witness :
  let p := DdxReverbAudioProcessor.prepareToPlay
             (DdxReverbAudioProcessor.construct 2 2) 48000 4 in
  let prm := mkParams 5 0 50 10 12 0 0.5 0 1 in
  let b := AudioBuffer.mk [[1; 2]; [3; 4]] 2 in
  let b' := AudioBuffer.mk [[4; 0]; [0; 6]] 2 in
  let r := DdxReverbAudioProcessor.processBlock 4 initialStatics p prm b 0 1 in
  let r' := DdxReverbAudioProcessor.processBlock 4 initialStatics p prm b' 0 1 in
  DdxReverbAudioProcessor.combs (snd (fst r))
  = DdxReverbAudioProcessor.combs (snd (fst r')).
Proof.
  intros p prm b b' r r'.
  destruct (prepareToPlay_ready (DdxReverbAudioProcessor.construct 2 2) 48000 4
              (construct_wellFormed 2 2) ltac:(lra)) as (W & _ & Hc & Ha & _ & Ht).
  fold p in W, Hc, Ha, Ht.
  refine ((fun H => proj1 (proj2 (proj1 H)))
            (X24_reverb_hears_the_mono_sum 4 initialStatics p prm b b' 0 1 0 1
               W Hc Ha _ _ _ _ _ _ _ _)).
  - unfold fits, AudioBuffer.getNumChannels, lenZ. cbn.
    repeat split; try lia. repeat constructor.
  - unfold fits, AudioBuffer.getNumChannels, lenZ. cbn.
    repeat split; try lia. repeat constructor.
  - reflexivity.
  - cbn. lia.
  - intros i Hi. cbn in Hi.
    assert (Hc' : i = 0%Z \/ i = 1%Z) by lia.
    destruct Hc' as [-> | ->]; eval_arrays; lra.
  - apply gtb_false. cbn. lra.
  - intros _. split; [lia|].
    apply prepareToPlay_48k_simdSafe; [lia|apply construct_wellFormed].
  - rewrite Ht. cbn. lia.
Defined.
